(** * Paint-by-numbers worker: a shallow embedding of [worker.js]

    The pipeline of [worker.js] (pixel sampling, k-means clustering, palette
    optimisation, region growing, region merging, median smoothing, label
    placement and the colored raster) is transcribed function by function.

    Conventions of the embedding.
    - A pixel [[r, g, b]] is a triple of integers; a JavaScript slot that may
      hold [undefined] is an [option].
    - Typed-array buffers ([ImageData.data]) are lists of integers; writes go
      through [clamp8] as a [Uint8ClampedArray] does.
    - [euclideanDistance] is only ever compared with other distances, with
      [Infinity], with [-1], with [1] or with an integer threshold.  The model
      keeps the radicand (the squared distance), on which those comparisons are
      exact for 8-bit channels, instead of the floating-point square root.
      The averages handed to [findClosestColor] have fractional channels;
      see there.
    - The luminance [0.2126*R + 0.7152*G + 0.0722*B] is kept scaled by 10000,
      which orders colours as the floating-point value does up to ties.
    - The options [colorThreshold], [minRegionSize] and [thinnessThreshold]
      and the palette size [k] are integers.
    - [Math.random] is a list of draws consumed from the left; a computation
      that needs a draw when none is left is [Starved], and so is one whose
      loop ran out of the fuel the model gives it.
    - A [throw] is the [Throw] outcome; [self.onmessage] catches it.
    - The resource limits of an engine are left out, but for the limit to
      the number of arguments of a call, which the merge pass can reach:
      [onmessageWithin] and the definitions before it carry that limit. *)

From Stdlib Require Import ZArith Lia.
From stdpp Require Import base numbers list gmap strings sorting.

(** ** JavaScript outcomes *)

(** The exceptions of a run: the [TypeError] of reading a property of
    [undefined], the [IndexSizeError] of the host's [ImageData] constructor,
    the [RangeError] of a call with more arguments than the engine takes,
    and an [Error] raised by a [throw] statement with its message.  The
    source has no [throw] statement, so nothing below builds a [ThrownError]. *)
Inductive JsError : Type :=
  | TypeErrorReadOfUndefined (property : string)
  | IndexSizeError
  | RangeError
  | ThrownError (message : string).

Inductive outcome (A : Type) : Type :=
  | Ok (a : A)
  | Throw (e : JsError)
  | Starved.
Arguments Ok {A} a.
Arguments Throw {A} e.
Arguments Starved {A}.

(** Computations that may throw and may call [Math.random]. *)
Definition Js (A : Type) : Type := list nat -> outcome (A * list nat).

Definition ret {A} (a : A) : Js A := fun ds => Ok (a, ds).
Definition throw {A} (e : JsError) : Js A := fun _ => Throw e.
Definition bind {A B} (m : Js A) (f : A -> Js B) : Js B :=
  fun ds =>
    match m ds with
    | Ok (a, ds') => f a ds'
    | Throw e => Throw e
    | Starved => Starved
    end.

Declare Scope js_scope.
Delimit Scope js_scope with js.
Notation "x <- m ;; k" := (bind m (fun x => k))
  (at level 100, m at next level, right associativity) : js_scope.

(** [Math.floor(Math.random() * n)]: an index below [n], or [0] when [n = 0]. *)
Definition randomIndex (n : nat) : Js nat :=
  fun ds =>
    match ds with
    | [] => Starved
    | d :: ds' => Ok (if decide (n = 0) then 0 else d mod n, ds')
    end.

(** [for (const x of xs) { acc = body(acc, x) }] with a body that may throw. *)
Fixpoint forEach {A S} (xs : list A) (body : S -> A -> Js S) (acc : S) : Js S :=
  match xs with
  | [] => ret acc
  | x :: xs' => (acc' <- body acc x ;; forEach xs' body acc')%js
  end.

(** ** Pixels and rasters *)

Definition Pixel : Type := (Z * Z * Z)%type.

Definition chanR (p : Pixel) : Z := p.1.1.
Definition chanG (p : Pixel) : Z := p.1.2.
Definition chanB (p : Pixel) : Z := p.2.

Record ImageData : Type := mkImageData {
  width : nat;
  height : nat;
  data : list Z
}.

(** What the host guarantees of every [ImageData]: positive dimensions, four
    bytes per pixel. *)
Definition wfImageData (img : ImageData) : Prop :=
  0 < width img /\ 0 < height img /\
  length (data img) = 4 * (width img * height img) /\
  Forall (fun v => (0 <= v <= 255)%Z) (data img).

Definition clamp8 (v : Z) : Z := Z.max 0 (Z.min 255 v).

(** [new ImageData(width, height)]: the constructor of the host rejects a
    zero dimension with an [IndexSizeError]; otherwise the buffer is
    transparent black. *)
Definition newImageData (w h : nat) : Js ImageData :=
  if decide (w = 0 \/ h = 0) then throw IndexSizeError
  else ret (mkImageData w h (replicate (4 * (w * h)) 0%Z)).

(** The four stores [d[i*4] = r; d[i*4+1] = g; d[i*4+2] = b; d[i*4+3] = a]. *)
Definition writeRGBA (d : list Z) (i : nat) (r g b a : Z) : list Z :=
  <[4 * i + 3 := clamp8 a]>
    (<[4 * i + 2 := clamp8 b]>
       (<[4 * i + 1 := clamp8 g]>
          (<[4 * i := clamp8 r]> d))).

(** A stable sort by an integer key, as [Array.prototype.sort] with the
    comparator [(a, b) => key(a) - key(b)]. *)
Fixpoint insertBy {A} (key : A -> Z) (x : A) (l : list A) : list A :=
  match l with
  | [] => [x]
  | y :: l' => if (key x <=? key y)%Z then x :: y :: l' else y :: insertBy key x l'
  end.

Definition sortBy {A} (key : A -> Z) (l : list A) : list A :=
  foldr (insertBy key) [] l.

(** ** PixelSampler *)

(** [getPixels]: one RGB triple per four bytes of the buffer (the buffer of
    an [ImageData] holds a multiple of four bytes). *)
Fixpoint getPixelsFrom (fuel : nat) (d : list Z) : list Pixel :=
  match fuel with
  | 0 => []
  | S fuel' =>
      match d with
      | r :: g :: b :: _ :: rest => (r, g, b) :: getPixelsFrom fuel' rest
      | _ => []
      end
  end.

Definition getPixels (img : ImageData) : list Pixel :=
  getPixelsFrom (length (data img)) (data img).

(** The loop [for (let i = start; i < pixels.length; i += step) sample.push(pixels[i])]. *)
Fixpoint strideLoop {A} (fuel : nat) (pixels : list A) (i step : nat) : list A :=
  match fuel with
  | 0 => []
  | S fuel' =>
      match pixels !! i with
      | Some p => p :: strideLoop fuel' pixels (i + step) step
      | None => []
      end
  end.

(** [samplePixels(pixels, sampleSize)].  With [sampleSize = 0] and a nonempty
    array the step is [Infinity] and the loop body runs once. *)
Definition samplePixels {A} (pixels : list A) (sampleSize : nat) : list A :=
  if decide (length pixels <= sampleSize) then pixels
  else if decide (sampleSize = 0) then take 1 pixels
  else strideLoop (length pixels) pixels 0 (length pixels / sampleSize).

(** ** Smoother *)

Definition channelAt (d : list Z) (i : nat) : Z := default 0%Z (d !! i).

(** The nine neighbourhood values of one channel of an interior pixel, in
    the order of the loops over [j] and [i] (both from -1 to 1, here from 0
    to 2). *)
Definition window (d : list Z) (w x y c : nat) : list Z :=
  flat_map (fun j => map (fun i => channelAt d (((y + j - 1) * w + (x + i - 1)) * 4 + c))
                         (seq 0 3))
           (seq 0 3).

Definition median9 (vs : list Z) : Z := default 0%Z (sortBy id vs !! 4).

(** [x === 0 || x === width - 1 || y === 0 || y === height - 1] *)
Definition onBorder (img : ImageData) (x y : nat) : Prop :=
  x = 0 \/ x = width img - 1 \/ y = 0 \/ y = height img - 1.

Definition medianPixel (img : ImageData) (nd : list Z) (x y : nat) : list Z :=
  let w := width img in
  let h := height img in
  let d := data img in
  let index := y * w + x in
  if decide (onBorder img x y) then
    writeRGBA nd index (channelAt d (index * 4)) (channelAt d (index * 4 + 1))
              (channelAt d (index * 4 + 2)) (channelAt d (index * 4 + 3))
  else
    writeRGBA nd index (median9 (window d w x y 0)) (median9 (window d w x y 1))
              (median9 (window d w x y 2)) 255.

Definition applyMedianFilter (img : ImageData) : Js ImageData :=
  (newImageData <- newImageData (width img) (height img) ;;
   ret (mkImageData (width img) (height img)
          (foldl (fun nd y => foldl (fun nd' x => medianPixel img nd' x y) nd
                                    (seq 0 (width img)))
                 (data newImageData) (seq 0 (height img)))))%js.

(** ** Distances *)

(** The radicand of [euclideanDistance(p1, p2)]. *)
Definition radicand (p1 p2 : Pixel) : Z :=
  ((chanR p1 - chanR p2) ^ 2 + (chanG p1 - chanG p2) ^ 2 + (chanB p1 - chanB p2) ^ 2)%Z.

(** [euclideanDistance(p1, p2)]; reading [p[0]] of an [undefined] argument
    throws. *)
Definition euclideanDistance (p1 p2 : option Pixel) : Js Z :=
  match p1, p2 with
  | Some a, Some b => ret (radicand a b)
  | _, _ => throw (TypeErrorReadOfUndefined "0")
  end.

(** A distance accumulator: a radicand, or [Infinity]. *)
Inductive dist : Type :=
  | Fin (d : Z)
  | Infinity.

(** [a < b] *)
Definition dist_ltb (a b : dist) : bool :=
  match a, b with
  | Fin x, Fin y => (x <? y)%Z
  | Fin _, Infinity => true
  | Infinity, _ => false
  end.

(** [Math.min(a, b)] *)
Definition dist_min (a b : dist) : dist := if dist_ltb b a then b else a.

(** ** ColorClusterer *)

Record KmeansResult : Type := mkKmeansResult {
  centroids : list (option Pixel);
  clusters : list (list Pixel)
}.

(** The seeding loop
    [while (centroids.length < k && centroids.length < pixels.length)]:
    every round consumes one draw. *)
Fixpoint seedCentroids (pixels : list Pixel) (k : Z) (cs : list (option Pixel))
    (usedIndices : list nat) (ds : list nat) : outcome (list (option Pixel) * list nat) :=
  if decide ((Z.of_nat (length cs) < k)%Z /\ length cs < length pixels) then
    match ds with
    | [] => Starved
    | d :: ds' =>
        let index := if decide (length pixels = 0) then 0 else d mod length pixels in
        if decide (index ∈ usedIndices) then seedCentroids pixels k cs usedIndices ds'
        else seedCentroids pixels k (cs ++ [pixels !! index]) (index :: usedIndices) ds'
    end
  else Ok (cs, ds).

(** The scan [for (let i = 0; i < k; i++)] for the nearest centroid. *)
Definition closestCentroidIndex (cs : list (option Pixel)) (k : Z) (pixel : Pixel) : Js nat :=
  (best <- forEach (seq 0 (Z.to_nat k))
             (fun (acc : dist * nat) i =>
                distance <- euclideanDistance (Some pixel) (mjoin (cs !! i)) ;;
                ret (if dist_ltb (Fin distance) acc.1 then (Fin distance, i) else acc))
             (Infinity, 0) ;;
   ret best.2)%js.

(** One assignment pass; [clusters[closestCentroidIndex].push(pixel)] throws
    when that cluster does not exist. *)
Definition assignPixels (pixels : list Pixel) (cs : list (option Pixel)) (k : Z)
    : Js (list (list Pixel)) :=
  forEach pixels
    (fun cls pixel =>
       closest <- closestCentroidIndex cs k pixel ;;
       match cls !! closest with
       | Some c => ret (<[closest := c ++ [pixel]]> cls)
       | None => throw (TypeErrorReadOfUndefined "push")
       end)%js
    (replicate (Z.to_nat k) []).

(** [Math.round(val / len)] for a positive [len]. *)
Definition roundDiv (val len : Z) : Z := ((2 * val + len) / (2 * len))%Z.

Definition meanPixel (cluster : list Pixel) : Pixel :=
  let n := Z.of_nat (length cluster) in
  let acc := foldl (fun (acc : Pixel) (pixel : Pixel) =>
                      (chanR acc + chanR pixel, chanG acc + chanG pixel,
                       chanB acc + chanB pixel)%Z)
                   (0, 0, 0)%Z cluster in
  (roundDiv (chanR acc) n, roundDiv (chanG acc) n, roundDiv (chanB acc) n).

(** The new centroids: the rounded mean of a nonempty cluster, a random
    pixel for an empty one. *)
Definition recomputeCentroids (pixels : list Pixel) (cls : list (list Pixel)) (k : Z)
    : Js (list (option Pixel)) :=
  forEach (seq 0 (Z.to_nat k))
    (fun newCentroids i =>
       match cls !! i with
       | Some c =>
           if decide (0 < length c) then ret (newCentroids ++ [Some (meanPixel c)])
           else (index <- randomIndex (length pixels) ;;
                 ret (newCentroids ++ [pixels !! index]))
       | None => throw (TypeErrorReadOfUndefined "length")
       end)%js
    [].

(** The convergence test; once [converged] is false the loop has left by
    [break]. *)
Definition hasConverged (lastCentroids cs : list (option Pixel)) (k : Z) : Js bool :=
  forEach (seq 0 (Z.to_nat k))
    (fun (converged : bool) i =>
       if converged then
         match mjoin (lastCentroids !! i) with
         | None => ret false
         | Some l =>
             d <- euclideanDistance (Some l) (mjoin (cs !! i)) ;;
             ret (negb (1 <? d)%Z)
         end
       else ret false)%js
    true.

(** The loop [while (iterations < maxIterations)]. *)
Fixpoint kmeansLoop (remaining : nat) (pixels : list Pixel) (k : Z)
    (cs : list (option Pixel)) (cls : list (list Pixel)) : Js KmeansResult :=
  match remaining with
  | 0 => ret (mkKmeansResult cs cls)
  | S remaining' =>
      (cls' <- assignPixels pixels cs k ;;
       newCentroids <- recomputeCentroids pixels cls' k ;;
       converged <- hasConverged cs newCentroids k ;;
       if converged : bool then ret (mkKmeansResult newCentroids cls')
       else kmeansLoop remaining' pixels k newCentroids cls')%js
  end.

Definition maxIterations : nat := 30.

Definition kmeans (pixels : list Pixel) (k : Z) : Js KmeansResult :=
  (cs <- seedCentroids pixels k [] [] ;;
   kmeansLoop maxIterations pixels k cs [])%js.

(** ** PaletteOptimizer *)

(** [0.2126 * R + 0.7152 * G + 0.0722 * B], times 10000. *)
Definition luminance (p : Pixel) : Z :=
  (2126 * chanR p + 7152 * chanG p + 722 * chanB p)%Z.

(** [colors.sort((a, b) => aLuminance - bLuminance)]; [Array.prototype.sort]
    moves [undefined] entries to the end without calling the comparator.
    Colours of the same exact luminance keep their order here; their
    floating-point luminances can differ in the last bit, so no property
    below relies on the order among them. *)
Definition sortByLuminance (colors : list (option Pixel)) : list (option Pixel) :=
  (Some <$> sortBy luminance (omap id colors))
  ++ replicate (length (filter (fun c => c = None) colors)) None.

(** [centroids.map(...).filter(c => c.size > 0)], sorted by decreasing size,
    then [.map(c => c.color)]. *)
Definition weightedCentroids (cs : list (option Pixel)) (cls : list (list Pixel))
    : list (option Pixel * nat) :=
  filter (fun c => 0 < c.2)
         (imap (fun i centroid => (centroid, from_option length 0 (cls !! i))) cs).

Definition candidateColors (cs : list (option Pixel)) (cls : list (list Pixel))
    : list (option Pixel) :=
  fst <$> sortBy (fun c => (- Z.of_nat c.2)%Z) (weightedCentroids cs cls).

(** [minDistanceToPalette] of one candidate. *)
Definition minDistanceToPalette (finalPalette : list (option Pixel))
    (candidate : option Pixel) : Js dist :=
  forEach finalPalette
    (fun m color => d <- euclideanDistance candidate color ;; ret (dist_min m (Fin d)))%js
    Infinity.

(** The scan for [bestCandidate]: its position among the candidates and
    [maxMinDistance]; [None] is [null]. *)
Definition bestCandidate (finalPalette candidates : list (option Pixel))
    : Js (option nat * dist) :=
  forEach (imap (fun i c => (i, c)) candidates)
    (fun (acc : option nat * dist) ic =>
       m <- minDistanceToPalette finalPalette ic.2 ;;
       ret (if dist_ltb acc.2 m then (Some ic.1, m) else acc))%js
    (None, Fin (-1)).

(** The loop [while (finalPalette.length < k && candidates.length > 0)];
    it leaves by [break] when [bestCandidate] is [null] or [undefined].  Each
    round removes one candidate, so [candidates.length] rounds are enough. *)
Fixpoint selectColors (remaining : nat) (finalPalette candidates : list (option Pixel))
    (k : Z) : Js (list (option Pixel)) :=
  match remaining with
  | 0 => ret finalPalette
  | S remaining' =>
      if decide ((Z.of_nat (length finalPalette) < k)%Z /\ 0 < length candidates) then
        (best <- bestCandidate finalPalette candidates ;;
         match best.1 with
         | Some i =>
             match mjoin (candidates !! i) with
             | Some c =>
                 selectColors remaining' (finalPalette ++ [Some c]) (delete i candidates) k
             | None => ret finalPalette
             end
         | None => ret finalPalette
         end)%js
      else ret finalPalette
  end.

Definition generateOptimalPalette (cs : list (option Pixel)) (cls : list (list Pixel))
    (k : Z) : Js (list (option Pixel)) :=
  if decide (Z.of_nat (length cs) <= k)%Z then ret (sortByLuminance cs)
  else
    match candidateColors cs cls with
    | [] => ret (sortByLuminance [])
    | first :: candidates =>
        (finalPalette <- selectColors (length candidates) [first] candidates k ;;
         ret (sortByLuminance finalPalette))%js
    end.

(** ** Sets in insertion order *)

(** [set.add(x)] on a [Set] kept as the list of its members in insertion order. *)
Definition setAdd {A} `{EqDecision A} (x : A) (s : list A) : list A :=
  if decide (x ∈ s) then s else s ++ [x].

(** [new Set(xs)] *)
Definition setOf {A} `{EqDecision A} (xs : list A) : list A :=
  foldl (fun s x => setAdd x s) [] xs.

(** ** LabelPlacer *)

(** [pixelIndex - 1, pixelIndex + 1, pixelIndex - width, pixelIndex + width] *)
Definition labelNeighbors (width pixelIndex : Z) : list Z :=
  [pixelIndex - 1; pixelIndex + 1; pixelIndex - width; pixelIndex + width]%Z.

(** A pixel goes to [pixelsToRemove] when one of its neighbours is not in
    [currentPixels]. *)
Definition onBoundary (width : Z) (currentPixels : list Z) (pixelIndex : Z) : Prop :=
  Exists (fun neighborIndex => neighborIndex ∉ currentPixels)
         (labelNeighbors width pixelIndex).

(** The loop [while (currentPixels.size > 0)]; its value is [lastPixels].
    Every round that does not [break] removes a pixel, so [fuel] rounds with
    [fuel] the size of the set are enough. *)
Fixpoint erode (fuel : nat) (width : Z) (currentPixels lastPixels : list Z)
    : option (list Z) :=
  match currentPixels with
  | [] => Some lastPixels
  | _ :: _ =>
      match fuel with
      | 0 => None
      | S fuel' =>
          let pixelsToRemove := filter (onBoundary width currentPixels) currentPixels in
          if decide (length pixelsToRemove = length currentPixels) then Some currentPixels
          else erode fuel' width
                     (filter (fun pixelIndex => pixelIndex ∉ pixelsToRemove) currentPixels)
                     currentPixels
      end
  end.

Definition sumZ (l : list Z) : Z := foldl Z.add 0%Z l.

(** [findBestLabelPosition(region, width)] on the pixel list of the region;
    [pixelIndex % width] is [Z.rem], [Math.floor(pixelIndex / width)] is
    [Z.div].  [None] only if the erosion ran out of fuel. *)
Definition findBestLabelPosition (pixels : list Z) (width : Z) : option (Z * Z) :=
  match pixels with
  | [] => Some (-1, -1)%Z
  | fallbackIndex :: _ =>
      lastPixels ← erode (length (setOf pixels)) width (setOf pixels) [];
      match lastPixels with
      | [] => Some (Z.rem fallbackIndex width, fallbackIndex / width)%Z
      | _ :: _ =>
          let sumX := sumZ ((fun pixelIndex => Z.rem pixelIndex width) <$> lastPixels) in
          let sumY := sumZ ((fun pixelIndex => pixelIndex / width)%Z <$> lastPixels) in
          let n := Z.of_nat (length lastPixels) in
          Some (roundDiv sumX n, roundDiv sumY n)
      end
  end.

(** ** RegionGrower *)

Record Options : Type := mkOptions {
  colorThreshold : Z;
  minRegionSize : Z;
  thinnessThreshold : Z
}.

(** A region of [initialRegions].  The sums are [None] once they are [NaN];
    [color] is [None] while it is [undefined]. *)
Module Region.
Record t : Type := mk {
  id : nat;
  pixels : list nat;
  sumR : option Z;
  sumG : option Z;
  sumB : option Z;
  minX : Z;
  minY : Z;
  maxX : Z;
  maxY : Z;
  color : option Pixel
}.
End Region.

(** The state of the segmentation: [initialRegionMap], [initialRegions] and
    the counter [regionId]. *)
Record Segmentation : Type := mkSegmentation {
  initialRegionMap : list nat;
  initialRegions : gmap nat Region.t;
  regionId : nat
}.

(** [[data[i * 4], data[i * 4 + 1], data[i * 4 + 2]]]; [None] when a channel
    is [undefined], which makes every distance to it [NaN]. *)
Definition pixelColor (d : list Z) (i : nat) : option Pixel :=
  r ← d !! (i * 4); g ← d !! (i * 4 + 1); b ← d !! (i * 4 + 2); Some (r, g, b).

(** [euclideanDistance(a, b) < threshold] on colours read from the raster. *)
Definition closerThan (threshold : Z) (a b : option Pixel) : bool :=
  match a, b with
  | Some a, Some b => (0 <? threshold)%Z && (radicand a b <? threshold * threshold)%Z
  | _, _ => false
  end.

(** [sum += data[...]] *)
Definition addChannel (sum : option Z) (v : option Z) : option Z :=
  s ← sum; x ← v; Some (s + x)%Z.

(** The bookkeeping of one popped pixel: pixel list, sums and bounding box. *)
Definition recordPixel (img : ImageData) (region : Region.t) (pixelIndex : nat)
    : Region.t :=
  let d := data img in
  let x := Z.of_nat (pixelIndex `mod` width img) in
  let y := Z.of_nat (pixelIndex `div` width img) in
  Region.mk (Region.id region) (Region.pixels region ++ [pixelIndex])
            (addChannel (Region.sumR region) (d !! (pixelIndex * 4)))
            (addChannel (Region.sumG region) (d !! (pixelIndex * 4 + 1)))
            (addChannel (Region.sumB region) (d !! (pixelIndex * 4 + 2)))
            (if (x <? Region.minX region)%Z then x else Region.minX region)
            (if (y <? Region.minY region)%Z then y else Region.minY region)
            (if (Region.maxX region <? x)%Z then x else Region.maxX region)
            (if (Region.maxY region <? y)%Z then y else Region.maxY region)
            (Region.color region).

(** [[pixelIndex - width, pixelIndex + width, pixelIndex - 1, pixelIndex + 1]] *)
Definition gridNeighbors (w pixelIndex : nat) : list Z :=
  [Z.of_nat pixelIndex - Z.of_nat w; Z.of_nat pixelIndex + Z.of_nat w;
   Z.of_nat pixelIndex - 1; Z.of_nat pixelIndex + 1]%Z.

(** The body of [for (const neighborIndex of neighbors)] in the flood fill,
    on the pair of the region map and the stack (top first). *)
Definition visitNeighbor (img : ImageData) (threshold : Z) (startPixelColor : option Pixel)
    (currentId pixelIndex : nat) (st : list nat * list nat) (neighborIndex : Z)
    : list nat * list nat :=
  let '(regionMap, stack) := st in
  let x := pixelIndex `mod` width img in
  let y := pixelIndex `div` width img in
  let n := Z.to_nat neighborIndex in
  if decide ((0 <= neighborIndex)%Z /\ n < length regionMap /\ regionMap !! n = Some 0) then
    if decide (n `mod` width img = x \/ n `div` width img = y) then
      if closerThan threshold startPixelColor (pixelColor (data img) n)
      then (<[n := currentId]> regionMap, n :: stack)
      else st
    else st
  else st.

(** The loop [while (stack.length > 0)].  Every round pops one pixel and
    every pixel is pushed at most once, so [fuel] rounds with [fuel] the
    number of pixels are enough. *)
Fixpoint growRegion (fuel : nat) (img : ImageData) (threshold : Z)
    (startPixelColor : option Pixel) (regionMap : list nat) (currentRegion : Region.t)
    (stack : list nat) : option (list nat * Region.t) :=
  match stack with
  | [] => Some (regionMap, currentRegion)
  | pixelIndex :: stack' =>
      match fuel with
      | 0 => None
      | S fuel' =>
          let currentRegion' := recordPixel img currentRegion pixelIndex in
          let '(regionMap', stack'') :=
            foldl (visitNeighbor img threshold startPixelColor
                                 (Region.id currentRegion) pixelIndex)
                  (regionMap, stack') (gridNeighbors (width img) pixelIndex) in
          growRegion fuel' img threshold startPixelColor regionMap' currentRegion' stack''
      end
  end.

(** The body of the scan [for (let i = 0; i < initialRegionMap.length; i++)]. *)
Definition seedRegion (img : ImageData) (threshold : Z) (seg : Segmentation) (i : nat)
    : option Segmentation :=
  if decide (initialRegionMap seg !! i = Some 0) then
    let currentRegion :=
      Region.mk (regionId seg) [] (Some 0%Z) (Some 0%Z) (Some 0%Z)
                (Z.of_nat (width img)) (Z.of_nat (height img)) (-1) (-1) None in
    '(regionMap, grown) ←
      growRegion (length (initialRegionMap seg)) img threshold (pixelColor (data img) i)
                 (<[i := regionId seg]> (initialRegionMap seg)) currentRegion [i];
    Some (mkSegmentation regionMap (<[regionId seg := grown]> (initialRegions seg))
                         (S (regionId seg)))
  else Some seg.

(** Step 1 of [generatePbnImage]: the initial detailed region finding. *)
Definition growRegions (img : ImageData) (threshold : Z) : option Segmentation :=
  foldl (fun seg i => seg ≫= fun seg => seedRegion img threshold seg i)
        (Some (mkSegmentation (replicate (width img * height img) 0) ∅ 1))
        (seq 0 (width img * height img)).

(** ** Palette assignment *)

(** The average colour [[sumR / n, sumG / n, sumB / n]] is kept as the three
    sums over their common divisor [n]; [None] when a sum is [NaN]. *)
Definition avgColor (region : Region.t) : option (Pixel * Z) :=
  r ← Region.sumR region; g ← Region.sumG region; b ← Region.sumB region;
  Some ((r, g, b), Z.of_nat (length (Region.pixels region))).

(** The radicand of the distance from an average to a colour, times the
    square of the common divisor of the average. *)
Definition scaledRadicand (avg : Pixel * Z) (c : Pixel) : Z :=
  ((chanR avg.1 - avg.2 * chanR c) ^ 2 + (chanG avg.1 - avg.2 * chanG c) ^ 2
   + (chanB avg.1 - avg.2 * chanB c) ^ 2)%Z.

(** [findClosestColor(pixel, colors)] at an average colour.  All distances of
    one call share the divisor, so they are compared through
    [scaledRadicand]; a [NaN] distance is never below [minDistance].  Two
    colours at the same exact distance from an average with fractional
    channels can get floating-point distances that differ in the last bit;
    the model keeps the first of them, so the properties below rely on the
    order among such colours only for averages with integer channels. *)
Definition findClosestColor (pixel : option (Pixel * Z)) (colors : list (option Pixel))
    : Js (option Pixel) :=
  (best <- forEach colors
             (fun (acc : dist * option Pixel) color =>
                match color with
                | None => throw (TypeErrorReadOfUndefined "0")
                | Some c =>
                    match pixel with
                    | Some avg =>
                        ret (if dist_ltb (Fin (scaledRadicand avg c)) acc.1
                             then (Fin (scaledRadicand avg c), Some c) else acc)
                    | None => ret acc
                    end
                end)
             (Infinity, mjoin (colors !! 0)) ;;
   ret best.2)%js.

Definition setColor (region : Region.t) (c : option Pixel) : Region.t :=
  Region.mk (Region.id region) (Region.pixels region) (Region.sumR region)
            (Region.sumG region) (Region.sumB region) (Region.minX region)
            (Region.minY region) (Region.maxX region) (Region.maxY region) c.

(** [Object.keys(initialRegions)], or the order of [for (const id in
    initialRegions)]: the integer keys in ascending order; all of them lie
    below the counter [regionId]. *)
Definition regionKeys (seg : Segmentation) : list nat :=
  filter (fun id => is_Some (initialRegions seg !! id)) (seq 0 (regionId seg)).

(** Step 2 of [generatePbnImage]. *)
Definition assignColors (colors : list (option Pixel)) (seg : Segmentation)
    : Js Segmentation :=
  forEach (regionKeys seg)
    (fun seg id =>
       match initialRegions seg !! id with
       | Some region =>
           if decide (0 < length (Region.pixels region)) then
             (c <- findClosestColor (avgColor region) colors ;;
              ret (mkSegmentation (initialRegionMap seg)
                     (<[id := setColor region c]> (initialRegions seg)) (regionId seg)))
           else ret (mkSegmentation (initialRegionMap seg) (delete id (initialRegions seg))
                                    (regionId seg))
       | None => ret seg
       end)%js
    seg.

(** ** RegionMerger *)

Definition isSmall (options : Options) (region : Region.t) : bool :=
  (Z.of_nat (length (Region.pixels region)) <? minRegionSize options)%Z.

(** [a / b > t] for integers [a >= 0], [b >= 0]: [a / 0] is [Infinity], or
    [NaN] when [a] is [0] too. *)
Definition ratioExceeds (a b t : Z) : bool :=
  if (b =? 0)%Z then (0 <? a)%Z else (t * b <? a)%Z.

(** [isThin]: the guard reads the bounding box of the region, the ratio
    reads [width] and [height], the dimensions of the image. *)
Definition isThin (img : ImageData) (options : Options) (region : Region.t) : bool :=
  let regionWidth := (Region.maxX region - Region.minX region + 1)%Z in
  let regionHeight := (Region.maxY region - Region.minY region + 1)%Z in
  let w := Z.of_nat (width img) in
  let h := Z.of_nat (height img) in
  (0 <? Z.min regionWidth regionHeight)%Z
  && ratioExceeds (Z.max w h) (Z.min w h) (thinnessThreshold options).

(** The set [neighborIds] of a region. *)
Definition neighborIdsOf (w : nat) (seg : Segmentation) (region : Region.t) : list nat :=
  foldl (fun ids pixelIndex =>
           foldl (fun ids neighborIndex =>
                    let n := Z.to_nat neighborIndex in
                    if decide ((0 <= neighborIndex)%Z /\ n < length (initialRegionMap seg)) then
                      match initialRegionMap seg !! n with
                      | Some neighborId =>
                          if decide (neighborId ≠ Region.id region /\
                                     is_Some (initialRegions seg !! neighborId))
                          then setAdd neighborId ids else ids
                      | None => ids
                      end
                    else ids)
                 ids (gridNeighbors w pixelIndex))
        [] (Region.pixels region).

(** The choice of [bestNeighborId]; [None] is [-1].  The flag records that
    the loop has left by [break]. *)
Definition bestNeighbor (seg : Segmentation) (region : Region.t) (neighborIds : list nat)
    : Js (option nat) :=
  (st <- forEach neighborIds
           (fun (acc : bool * dist * option nat) neighborId =>
              if acc.1.1 then ret acc
              else
                match initialRegions seg !! neighborId with
                | None => throw (TypeErrorReadOfUndefined "color")
                | Some neighbor =>
                    if decide (Region.color neighbor = Region.color region)
                    then ret (true, acc.1.2, Some neighborId)
                    else
                      diff <- euclideanDistance (Region.color region) (Region.color neighbor) ;;
                      ret (if dist_ltb (Fin diff) acc.1.2
                           then (false, Fin diff, Some neighborId) else acc)
                end)
           (false, Infinity, None) ;;
   ret st.2)%js.

(** The merge proper: the map entries of the region go to the target, the
    target takes the pixels and the bounding box, the region is deleted.
    [push(...region.pixels)] hands the pixels over as the arguments of one
    call; the limit an engine sets to their number is left out here and
    added in [mergeIntoWithin]. *)
Definition absorb (target region : Region.t) : Region.t :=
  Region.mk (Region.id target) (Region.pixels target ++ Region.pixels region)
            (Region.sumR target) (Region.sumG target) (Region.sumB target)
            (Z.min (Region.minX target) (Region.minX region))
            (Z.min (Region.minY target) (Region.minY region))
            (Z.max (Region.maxX target) (Region.maxX region))
            (Z.max (Region.maxY target) (Region.maxY region))
            (Region.color target).

Definition mergeInto (seg : Segmentation) (id : nat) (region : Region.t)
    (bestNeighborId : nat) : Js Segmentation :=
  match initialRegions seg !! bestNeighborId with
  | None => throw (TypeErrorReadOfUndefined "pixels")
  | Some targetRegion =>
      ret (mkSegmentation
             (foldl (fun m pixelIndex => <[pixelIndex := bestNeighborId]> m)
                    (initialRegionMap seg) (Region.pixels region))
             (delete id (<[bestNeighborId := absorb targetRegion region]>
                           (initialRegions seg)))
             (regionId seg))
  end.

(** The body of [for (const id of sortedRegionIds)]. *)
Definition mergeStep (img : ImageData) (options : Options) (seg : Segmentation) (id : nat)
    : Js Segmentation :=
  match initialRegions seg !! id with
  | None => ret seg
  | Some region =>
      if negb (isSmall options region) && negb (isThin img options region) then ret seg
      else
        (best <- bestNeighbor seg region (neighborIdsOf (width img) seg region) ;;
         match best with
         | Some bestNeighborId => mergeInto seg id region bestNeighborId
         | None => ret seg
         end)%js
  end.

Definition sortedRegionIds (seg : Segmentation) : list nat :=
  sortBy (fun id => Z.of_nat (from_option (length ∘ Region.pixels) 0
                                          (initialRegions seg !! id)))
         (regionKeys seg).

(** Step 3 of [generatePbnImage]. *)
Definition mergeRegions (img : ImageData) (options : Options) (seg : Segmentation)
    : Js Segmentation :=
  forEach (sortedRegionIds seg) (mergeStep img options) seg.

(** ** Renderer *)

(** The outline canvas: the boundary segments [(x1, y1, x2, y2)] and the
    labels [(number, x, y)] drawn on it. *)
Record Outline : Type := mkOutline {
  edges : list (nat * nat * nat * nat);
  labels : list (nat * Z * Z)
}.

Definition outlineEdges (w h : nat) (regionMap : list nat) : list (nat * nat * nat * nat) :=
  foldl (fun acc y =>
           foldl (fun acc x =>
                    let index := y * w + x in
                    let currentRegionId := regionMap !! index in
                    let acc :=
                      if decide (x + 1 < w /\ regionMap !! (index + 1) ≠ currentRegionId)
                      then acc ++ [(x + 1, y, x + 1, y + 1)] else acc in
                    if decide (y + 1 < h /\ regionMap !! (index + w) ≠ currentRegionId)
                    then acc ++ [(x, y + 1, x + 1, y + 1)] else acc)
                 acc (seq 0 w))
        [] (seq 0 h).

(** A computation of the model that ran out of fuel is [Starved]. *)
Definition fueled {A} (o : option A) : Js A :=
  fun ds => match o with Some a => Ok (a, ds) | None => Starved end.

Definition outlineLabels (w : nat) (colors : list (option Pixel)) (options : Options)
    (seg : Segmentation) : Js (list (nat * Z * Z)) :=
  forEach (regionKeys seg)
    (fun acc id =>
       match initialRegions seg !! id with
       | None => ret acc
       | Some region =>
           if (Z.of_nat (length (Region.pixels region)) <? minRegionSize options)%Z
           then ret acc
           else
             (position <- fueled (findBestLabelPosition (Z.of_nat <$> Region.pixels region)
                                                        (Z.of_nat w)) ;;
              match list_find (fun c => c = Region.color region) colors with
              | Some (colorIndex, _) => ret (acc ++ [(colorIndex + 1, position.1, position.2)])
              | None => ret acc
              end)
       end)%js
    [].

(** Step 5 of [generatePbnImage]: the colored raster. *)
Definition paintPixel (seg : Segmentation) (d : list Z) (i : nat) : Js (list Z) :=
  match initialRegionMap seg !! i with
  | Some currentId =>
      if decide (0 < currentId) then
        match initialRegions seg !! currentId with
        | Some region =>
            match Region.color region with
            | Some c => ret (writeRGBA d i (chanR c) (chanG c) (chanB c) 255)
            | None => throw (TypeErrorReadOfUndefined "0")
            end
        | None => ret d
        end
      else ret d
  | None => ret d
  end.

Definition colorRegions (w h : nat) (seg : Segmentation) : Js ImageData :=
  (coloredImageData <- newImageData w h ;;
   d <- forEach (seq 0 (length (initialRegionMap seg))) (paintPixel seg)
                (data coloredImageData) ;;
   ret (mkImageData w h d))%js.

Record PbnResult : Type := mkPbnResult {
  pbn : Outline;
  colored : ImageData
}.

Definition generatePbnImage (originalImageData : ImageData) (colors : list (option Pixel))
    (options : Options) : Js PbnResult :=
  (grown <- fueled (growRegions originalImageData (colorThreshold options)) ;;
   assigned <- assignColors colors grown ;;
   merged <- mergeRegions originalImageData options assigned ;;
   numbers <- outlineLabels (width originalImageData) colors options merged ;;
   coloredImageData <- colorRegions (width originalImageData) (height originalImageData)
                                    merged ;;
   ret (mkPbnResult
          (mkOutline (outlineEdges (width originalImageData) (height originalImageData)
                                   (initialRegionMap merged))
                     numbers)
          coloredImageData))%js.

(** ** The message handler *)

Inductive Response : Type :=
  | Success (dominantColors : list (option Pixel)) (pbnImageData : Outline)
            (coloredRegionsImageData : ImageData)
  | Failure (error : JsError).

Definition pipeline (imageData : ImageData) (options : Options) (k : Z)
    : Js (list (option Pixel) * PbnResult) :=
  (let allPixels := getPixels imageData in
   let pixelSample := samplePixels allPixels (Z.to_nat 30000) in
   let initialK := Z.min (k * 5) 50 in
   kmeansResult <- kmeans pixelSample initialK ;;
   dominantColors <- generateOptimalPalette (centroids kmeansResult)
                                            (clusters kmeansResult) k ;;
   results <- generatePbnImage imageData dominantColors options ;;
   ret (dominantColors, results))%js.

(** [self.onmessage]: the posted message, or [None] when the run starves. *)
Definition onmessage (imageData : ImageData) (options : Options) (k : Z) (ds : list nat)
    : option Response :=
  match pipeline imageData options k ds with
  | Ok ((dominantColors, results), _) =>
      Some (Success dominantColors (pbn results) (colored results))
  | Throw e => Some (Failure e)
  | Starved => None
  end.

(** ** Vocabulary of the properties *)

(** Every 3x3 window of the raster is constant in each colour channel. *)
Definition locallyConstant (img : ImageData) : Prop :=
  forall x y c,
    0 < x < width img - 1 -> 0 < y < height img - 1 -> c < 3 ->
    Forall (fun v => v = channelAt (data img) ((y * width img + x) * 4 + c))
           (window (data img) (width img) x y c).

(** The value the Smoother stores in channel [c] of pixel [p]. *)
Definition medianChannel (img : ImageData) (p c : nat) : Z :=
  let x := p `mod` width img in
  let y := p `div` width img in
  if decide (onBorder img x y) then channelAt (data img) (p * 4 + c)
  else if decide (c < 3) then median9 (window (data img) (width img) x y c)
  else 255%Z.

(** The centroids that stand as candidates for the palette: all of them when
    there are at most [k], those with a nonempty cluster otherwise. *)
Definition paletteCandidates (cs : list Pixel) (cls : list (list Pixel)) (k : Z)
    : list Pixel :=
  if decide (Z.of_nat (length cs) <= k)%Z then cs
  else (filter (fun ic => 0 < from_option length 0 (cls !! ic.1))
               (imap (fun i c => (i, c)) cs)).*2.

Definition byLuminance (a b : Pixel) : Prop := (luminance a <= luminance b)%Z.

(** The thinness test as the specification words it: the aspect ratio of
    the bounding box of the region itself. *)
Definition isThinOfBoundingBox (options : Options) (region : Region.t) : bool :=
  let regionWidth := (Region.maxX region - Region.minX region + 1)%Z in
  let regionHeight := (Region.maxY region - Region.minY region + 1)%Z in
  (0 <? Z.min regionWidth regionHeight)%Z
  && ratioExceeds (Z.max regionWidth regionHeight) (Z.min regionWidth regionHeight)
                  (thinnessThreshold options).

(** The number of unassigned entries of a region map. *)
Definition zeros (regionMap : list nat) : nat :=
  length (filter (fun v => v = 0) regionMap).

(** The state of one flood fill, between two neighbour visits: [regionMap]
    against the map [map0] the fill started from, the pixels already recorded
    and the stack, for the region id [cur]. *)
Definition fillState (cur : nat) (map0 regionMap recorded stack : list nat) : Prop :=
  length regionMap = length map0 /\
  (forall q, regionMap !! q = Some cur <-> q ∈ recorded ++ stack) /\
  NoDup (recorded ++ stack) /\
  (forall q v, regionMap !! q = Some v -> v = cur \/ map0 !! q = Some v) /\
  (forall q v, map0 !! q = Some v -> v ≠ 0 -> regionMap !! q = Some v).

(** Every nonzero id stored in the region map is the key of a region. *)
Definition mapLive (seg : Segmentation) : Prop :=
  forall q v, initialRegionMap seg !! q = Some v -> v ≠ 0 ->
              is_Some (initialRegions seg !! v).

(** Every region is stored under its own id, which is not 0, lists no pixel
    twice, and lists exactly the pixels the region map gives to it. *)
Definition regionsOwnPixels (seg : Segmentation) : Prop :=
  forall id region, initialRegions seg !! id = Some region ->
    Region.id region = id /\ id ≠ 0 /\ NoDup (Region.pixels region) /\
    forall q, q ∈ Region.pixels region <-> initialRegionMap seg !! q = Some id.

(** The state of the scan of [growRegions] in front of pixel [i] of [n]. *)
Definition scanState (n i : nat) (seg : Segmentation) : Prop :=
  length (initialRegionMap seg) = n /\
  (forall q v, initialRegionMap seg !! q = Some v -> v < regionId seg) /\
  (forall id, is_Some (initialRegions seg !! id) -> id < regionId seg) /\
  regionsOwnPixels seg /\
  mapLive seg /\
  (forall q, q < i -> initialRegionMap seg !! q ≠ Some 0).

(** A colour handed out by [findClosestColor] over [palette]: a member of
    the palette, or [undefined] when the palette is empty. *)
Definition colorFrom (palette : list Pixel) (c : option Pixel) : Prop :=
  match palette with
  | [] => c = None
  | _ :: _ => exists p, c = Some p /\ p ∈ palette
  end.

Definition colorsFrom (palette : list Pixel) (seg : Segmentation) : Prop :=
  forall id region, initialRegions seg !! id = Some region ->
                    colorFrom palette (Region.color region).

(** The state the RegionMerger works on: a region map of [n] entries, none
    of them 0, each the id of the live region that lists the pixel. *)
Definition mergeState (n : nat) (seg : Segmentation) : Prop :=
  length (initialRegionMap seg) = n /\
  regionsOwnPixels seg /\
  mapLive seg /\
  (forall q, initialRegionMap seg !! q ≠ Some 0).

(** The palette colour of the region that the map gives to pixel [i]. *)
Definition regionColorAt (seg : Segmentation) (i : nat) : option Pixel :=
  currentId ← initialRegionMap seg !! i;
  region ← initialRegions seg !! currentId;
  Region.color region.

Definition bytePixel (c : Pixel) : Prop :=
  (0 <= chanR c <= 255)%Z /\ (0 <= chanG c <= 255)%Z /\ (0 <= chanB c <= 255)%Z.

(** Pixel index [p] lies in the solid rectangle of centre [(cx, cy)] that
    reaches [a] columns to each side and [b] rows up and down, in a raster of
    width [W]. *)
Definition inRect (W cx cy a b : Z) (p : Z) : Prop :=
  (cx - a <= p `mod` W <= cx + a /\ cy - b <= p `div` W <= cy + b)%Z.

(** The half width of a rectangle after one erosion: a rectangle as wide as
    the raster loses rows only, since its row ends are neighbours through the
    wrap of the index arithmetic. *)
Definition shrinkA (W a : Z) : Z := if decide (2 * a + 1 = W)%Z then a else (a - 1)%Z.

(** A list holds exactly the pixels of the solid rectangle with corner
    [(x0, y0)], [w] columns and [h] rows, in a raster of width [W]. *)
Definition solidRectangle (W x0 y0 w h : Z) (pixels : list Z) : Prop :=
  forall p, p ∈ pixels <->
            exists x y, (x0 <= x < x0 + w /\ y0 <= y < y0 + h /\ p = y * W + x)%Z.

(** A list holds exactly the pixels of that rectangle. *)
Definition isRect (W cx cy a b : Z) (pixels : list Z) : Prop :=
  forall p, p ∈ pixels <-> inRect W cx cy a b p.

(** The rectangle in raster order. *)
Definition rectList (W cx cy a b : Z) : list Z :=
  y ← seqZ (cy - b) (2 * b + 1);
  (fun x => y * W + x)%Z <$> seqZ (cx - a) (2 * a + 1).

(** An outcome that is not the exception of a [throw] statement. *)
Definition unvalidated {A} (o : outcome A) : Prop :=
  match o with
  | Throw (ThrownError _) => False
  | _ => True
  end.

(** A result of the clusterer for [pixels] and [k]: [k] centroids and [k]
    clusters that hold every pixel once; the centroids are defined when there
    are pixels, and 8-bit colours when the pixels are. *)
Definition clustering (pixels : list Pixel) (k : Z) (res : KmeansResult) : Prop :=
  length (centroids res) = Z.to_nat k /\
  length (clusters res) = Z.to_nat k /\
  concat (clusters res) ≡ₚ pixels /\
  (pixels ≠ [] -> Forall is_Some (centroids res)) /\
  (Forall bytePixel pixels -> forall c, Some c ∈ centroids res -> bytePixel c).

(** A median of a list of odd length: a member with more than half of the
    values at or below it and more than half at or above it. *)
Definition isMedian (v : Z) (l : list Z) : Prop :=
  v ∈ l /\
  length l < 2 * length (filter (fun x => (x <= v)%Z) l) /\
  length l < 2 * length (filter (fun x => (v <= x)%Z) l).

(** The coordinates of a pixel index in a raster of width [w]. *)
Definition xOf (w p : nat) : Z := Z.of_nat (p `mod` w).
Definition yOf (w p : nat) : Z := Z.of_nat (p `div` w).

(** The bounding box of a region is the least box around its pixels. *)
Definition boundingBoxExact (w : nat) (r : Region.t) : Prop :=
  (forall q, q ∈ Region.pixels r ->
     (Region.minX r <= xOf w q <= Region.maxX r)%Z /\
     (Region.minY r <= yOf w q <= Region.maxY r)%Z) /\
  (exists q, q ∈ Region.pixels r /\ xOf w q = Region.minX r) /\
  (exists q, q ∈ Region.pixels r /\ xOf w q = Region.maxX r) /\
  (exists q, q ∈ Region.pixels r /\ yOf w q = Region.minY r) /\
  (exists q, q ∈ Region.pixels r /\ yOf w q = Region.maxY r).

(** The colour sums of a region are the sums of the bytes of its pixels. *)
Definition sumsExact (d : list Z) (r : Region.t) : Prop :=
  Region.sumR r = Some (sumZ ((fun q => channelAt d (q * 4)) <$> Region.pixels r)) /\
  Region.sumG r = Some (sumZ ((fun q => channelAt d (q * 4 + 1)) <$> Region.pixels r)) /\
  Region.sumB r = Some (sumZ ((fun q => channelAt d (q * 4 + 2)) <$> Region.pixels r)).

(** What the flood fill requires of a neighbour [q] of the popped pixel [p]
    before it pushes it: an index of the raster, in the column or the row of
    [p], of a colour within the threshold of the colour of the seed. *)
Definition pushedFrom (img : ImageData) (threshold : Z) (startPixelColor : option Pixel)
    (n p q : nat) : Prop :=
  q < n /\
  closerThan threshold startPixelColor (pixelColor (data img) q) = true /\
  Z.of_nat q ∈ gridNeighbors (width img) p /\
  (q `mod` width img = p `mod` width img \/ q `div` width img = p `div` width img).

(** Two pixel indices of a raster of width [w] are neighbours in a column or
    in a row. *)
Definition adjacent (w p q : nat) : Prop :=
  (q `mod` w = p `mod` w /\ (q `div` w = p `div` w + 1 \/ p `div` w = q `div` w + 1)) \/
  (q `div` w = p `div` w /\ (q `mod` w = p `mod` w + 1 \/ p `mod` w = q `mod` w + 1)).

(** A pixel list in the order a flood fill records it: the seed first; every
    later pixel is within the threshold of the colour of the seed and is a
    neighbour of a pixel recorded before it. *)
Definition grownFromSeed (img : ImageData) (threshold : Z) (pixels : list nat) : Prop :=
  exists seed, pixels !! 0 = Some seed /\
    forall j q, pixels !! S j = Some q ->
      closerThan threshold (pixelColor (data img) seed) (pixelColor (data img) q) = true /\
      exists i p, i <= j /\ pixels !! i = Some p /\ adjacent (width img) p q.

(** The bounding box of a region while it grows: before the first pixel it
    is the inverted box the scan starts a region with. *)
Definition growingBox (img : ImageData) (r : Region.t) : Prop :=
  match Region.pixels r with
  | [] => Region.minX r = Z.of_nat (width img) /\ Region.minY r = Z.of_nat (height img) /\
          Region.maxX r = (-1)%Z /\ Region.maxY r = (-1)%Z
  | _ :: _ => boundingBoxExact (width img) r
  end.

(** The pixels of all regions of the table, region after region. *)
Definition regionPixels (seg : Segmentation) : list nat :=
  map_to_list (initialRegions seg) ≫= fun entry => Region.pixels entry.2.

(** The segments the outline loop draws while it visits pixel [(x, y)]. *)
Definition edgesAt (w h : nat) (regionMap : list nat) (x y : nat)
    : list (nat * nat * nat * nat) :=
  (if decide (x + 1 < w /\ regionMap !! (y * w + x + 1) ≠ regionMap !! (y * w + x))
   then [(x + 1, y, x + 1, y + 1)] else [])
  ++ (if decide (y + 1 < h /\ regionMap !! (y * w + x + w) ≠ regionMap !! (y * w + x))
      then [(x, y + 1, x + 1, y + 1)] else []).

(** The mean colour of a list of pixels of the raster, kept as the three
    channel sums over their common divisor, the number of pixels. *)
Definition meanColor (d : list Z) (pixels : list nat) : Pixel * Z :=
  ((sumZ ((fun q => channelAt d (q * 4)) <$> pixels),
    sumZ ((fun q => channelAt d (q * 4 + 1)) <$> pixels),
    sumZ ((fun q => channelAt d (q * 4 + 2)) <$> pixels)),
   Z.of_nat (length pixels)).

(** The radicand of the distance between the colours of two regions; the
    merger only asks for it when both colours are defined. *)
Definition colorGap (a b : option Pixel) : Z :=
  match a, b with
  | Some x, Some y => radicand x y
  | _, _ => 0%Z
  end.

(** The id a neighbour index contributes to [neighborIds], if any. *)
Definition pickNeighbor (seg : Segmentation) (region : Region.t) (nb : Z) : option nat :=
  if decide ((0 <= nb)%Z /\ Z.to_nat nb < length (initialRegionMap seg)) then
    match initialRegionMap seg !! Z.to_nat nb with
    | Some v =>
        if decide (v ≠ Region.id region /\ is_Some (initialRegions seg !! v))
        then Some v else None
    | None => None
    end
  else None.

(** A region the merger has no reason or no way to remove: it has at least
    [minRegionSize] pixels, or it holds every pixel of the raster. *)
Definition settled (n : nat) (options : Options) (region : Region.t) : Prop :=
  (minRegionSize options <= Z.of_nat (length (Region.pixels region)))%Z \/
  forall q, q < n -> q ∈ Region.pixels region.

(** An outcome that is not an exception: the run starved, or it returned a
    value that satisfies [I]. *)
Definition safe {A} (I : A -> Prop) (o : outcome (A * list nat)) : Prop :=
  match o with
  | Ok (a, _) => I a
  | Throw _ => False
  | Starved => True
  end.

(** [m] is the least of the radicands from [c] to the colours of [fp]. *)
Definition gapTo (fp : list Pixel) (c : Pixel) (m : Z) : Prop :=
  (exists p, p ∈ fp /\ m = radicand c p) /\
  forall p, p ∈ fp -> (m <= radicand c p)%Z.

(** ** The merge pass on an engine with an argument limit *)
(** [mergeInto] on an engine that takes at most [maxArguments] arguments in
    a call: [targetRegion.pixels.push(...region.pixels)] is one call with
    [region.pixels.length] arguments, and throws a [RangeError] when they
    are more.  [targetRegion.pixels] is read first. *)
Definition mergeIntoWithin (maxArguments : nat) (seg : Segmentation) (id : nat)
    (region : Region.t) (bestNeighborId : nat) : Js Segmentation :=
  match initialRegions seg !! bestNeighborId with
  | None => throw (TypeErrorReadOfUndefined "pixels")
  | Some _ =>
      if decide (length (Region.pixels region) <= maxArguments)
      then mergeInto seg id region bestNeighborId
      else throw RangeError
  end.

(** The body of [for (const id of sortedRegionIds)] on that engine. *)
Definition mergeStepWithin (maxArguments : nat) (img : ImageData) (options : Options)
    (seg : Segmentation) (id : nat) : Js Segmentation :=
  match initialRegions seg !! id with
  | None => ret seg
  | Some region =>
      if negb (isSmall options region) && negb (isThin img options region) then ret seg
      else
        (best <- bestNeighbor seg region (neighborIdsOf (width img) seg region) ;;
         match best with
         | Some bestNeighborId => mergeIntoWithin maxArguments seg id region bestNeighborId
         | None => ret seg
         end)%js
  end.

Definition mergeRegionsWithin (maxArguments : nat) (img : ImageData) (options : Options)
    (seg : Segmentation) : Js Segmentation :=
  forEach (sortedRegionIds seg) (mergeStepWithin maxArguments img options) seg.

Definition generatePbnImageWithin (maxArguments : nat) (originalImageData : ImageData)
    (colors : list (option Pixel)) (options : Options) : Js PbnResult :=
  (grown <- fueled (growRegions originalImageData (colorThreshold options)) ;;
   assigned <- assignColors colors grown ;;
   merged <- mergeRegionsWithin maxArguments originalImageData options assigned ;;
   numbers <- outlineLabels (width originalImageData) colors options merged ;;
   coloredImageData <- colorRegions (width originalImageData) (height originalImageData)
                                    merged ;;
   ret (mkPbnResult
          (mkOutline (outlineEdges (width originalImageData) (height originalImageData)
                                   (initialRegionMap merged))
                     numbers)
          coloredImageData))%js.

Definition pipelineWithin (maxArguments : nat) (imageData : ImageData) (options : Options)
    (k : Z) : Js (list (option Pixel) * PbnResult) :=
  (let allPixels := getPixels imageData in
   let pixelSample := samplePixels allPixels (Z.to_nat 30000) in
   let initialK := Z.min (k * 5) 50 in
   kmeansResult <- kmeans pixelSample initialK ;;
   dominantColors <- generateOptimalPalette (centroids kmeansResult)
                                            (clusters kmeansResult) k ;;
   results <- generatePbnImageWithin maxArguments imageData dominantColors options ;;
   ret (dominantColors, results))%js.

(** [self.onmessage] on that engine. *)
Definition onmessageWithin (maxArguments : nat) (imageData : ImageData) (options : Options)
    (k : Z) (ds : list nat) : option Response :=
  match pipelineWithin maxArguments imageData options k ds with
  | Ok ((dominantColors, results), _) =>
      Some (Success dominantColors (pbn results) (colored results))
  | Throw e => Some (Failure e)
  | Starved => None
  end.

(** ** Sample inputs *)

(** A 5x3 rectangle with corner (1, 1) in a raster of width 7, in an order a
    flood fill may leave. *)
Definition rect5x3 : list Z :=
  [8; 9; 16; 15; 22; 23; 24; 17; 10; 11; 18; 25; 26; 19; 12]%Z.

(** A raster without pixels, and two supplies of draws. *)
Definition emptyRaster : ImageData := mkImageData 0 0 [].
Definition draws149 : list nat := replicate 149 0.
Definition draws150 : list nat := replicate 150 0.

(** A 1x1 raster: one opaque black pixel. *)
Definition onePixel : ImageData := mkImageData 1 1 [0; 0; 0; 255]%Z.

Definition greyRedPalette : list Pixel := [(10, 10, 10); (200, 0, 0)]%Z.

(** A 9x1 raster: four grey pixels, then five red ones. *)
Definition stripe9x1 : ImageData :=
  mkImageData 9 1 (concat (replicate 4 [10; 10; 10; 255] ++ replicate 5 [200; 0; 0; 255])%Z).
Definition greyRed : list (option Pixel) := [Some (10, 10, 10); Some (200, 0, 0)]%Z.
Definition stripeOptions : Options := mkOptions 12 1 8.

(** Three centroids of one colour, each with a cluster of one pixel. *)
Definition threeGreys : list Pixel := [(9, 9, 9); (9, 9, 9); (9, 9, 9)]%Z.
Definition threeGreyClusters : list (list Pixel) :=
  [[(9, 9, 9)]; [(9, 9, 9)]; [(9, 9, 9)]]%Z.

(** A 3x3 raster of one half-transparent grey. *)
Definition greyTranslucent3x3 : ImageData :=
  mkImageData 3 3 (concat (replicate 9 [10; 10; 10; 128]%Z)).

Definition sevenPixels : list Pixel :=
  [(0, 0, 0); (1, 1, 1); (2, 2, 2); (3, 3, 3); (4, 4, 4); (5, 5, 5); (6, 6, 6)]%Z.

(** One grey and two red pixels, clustered by colour. *)
Definition greyRedClusters : list (list Pixel) :=
  [[(10, 10, 10)]; [(200, 0, 0); (200, 0, 0)]]%Z.

(** A 3x3 raster of one grey with a bright speck in the centre. *)
Definition speckled3x3 : ImageData :=
  mkImageData 3 3
    (concat (replicate 4 [10; 10; 10; 255] ++ [[250; 250; 250; 255]]
             ++ replicate 4 [10; 10; 10; 255])%Z).

(** Three regions with one pixel each, grey, red and dark red, in a 3x1
    raster, and the palette of their colours. *)
Definition greyRegion : Region.t :=
  Region.mk 1 [0] (Some 10%Z) (Some 10%Z) (Some 10%Z) 0 0 0 0 (Some (10, 10, 10)%Z).
Definition redRegion : Region.t :=
  Region.mk 2 [1] (Some 200%Z) (Some 0%Z) (Some 0%Z) 1 0 1 0 (Some (200, 0, 0)%Z).
Definition darkRedRegion : Region.t :=
  Region.mk 3 [2] (Some 150%Z) (Some 0%Z) (Some 0%Z) 2 0 2 0 (Some (150, 0, 0)%Z).
Definition greyRedDarkRed : Segmentation :=
  mkSegmentation [1; 2; 3]
    (<[1 := greyRegion]> (<[2 := redRegion]> (<[3 := darkRedRegion]> ∅))) 4.
Definition greyRedDarkRedPalette : list Pixel := [(10, 10, 10); (150, 0, 0); (200, 0, 0)]%Z.

(* ================================================================== *)
(** * Properties *)

(** ** PixelSampler *)

Lemma strideLoop_lookup {A} (pixels : list A) (step : nat) :
  0 < step ->
  forall fuel i j,
    strideLoop fuel pixels i step !! j =
    if decide (j < fuel) then pixels !! (i + j * step) else None.
Proof.
  intros Hstep fuel. induction fuel as [|fuel IH]; intros i j; simpl.
  - destruct (decide (j < 0)); [lia | done].
  - destruct (pixels !! i) as [p|] eqn:Hp.
    + destruct j as [|j]; simpl.
      * rewrite Nat.add_0_r. destruct (decide (0 < S fuel)); [done | lia].
      * rewrite IH. replace (i + step + j * step) with (i + (step + j * step)) by lia.
        destruct (decide (j < fuel)), (decide (S j < S fuel)); try lia; done.
    + destruct (decide (j < S fuel)); [|done].
      symmetry. apply lookup_ge_None. apply lookup_ge_None in Hp. nia.
Qed.

Lemma strideLoop_length {A} (pixels : list A) (step : nat) :
  0 < step ->
  forall fuel i,
    i + fuel * step >= length pixels + (step - 1) ->
    i <= length pixels ->
    length (strideLoop fuel pixels i step) = (length pixels - i + (step - 1)) / step.
Proof.
  intros Hstep fuel. induction fuel as [|fuel IH]; intros i Hfuel Hi; simpl.
  - symmetry. apply Nat.div_small. lia.
  - destruct (pixels !! i) as [p|] eqn:Hp.
    + apply lookup_lt_Some in Hp. simpl.
      destruct (decide (i + step <= length pixels)) as [Hle|Hgt].
      * rewrite IH by lia.
        replace (length pixels - i + (step - 1))
          with (1 * step + (length pixels - (i + step) + (step - 1))) by lia.
        rewrite Nat.div_add_l by lia. lia.
      * assert (Hnone : pixels !! (i + step) = None) by (apply lookup_ge_None; lia).
        destruct fuel as [|fuel']; simpl; [|rewrite Hnone]; simpl.
        all: apply (Nat.div_unique _ _ 1 (length pixels - i - 1)); lia.
    + apply lookup_ge_None in Hp. symmetry. apply Nat.div_small. lia.
Qed.

(** C4 as written fails: five pixels sampled with a target of three
    give five pixels, not [min 5 3]. *)
Lemma samplePixels_length_min_counterexample :
  ~ (forall (pixels : list Pixel) (sz : nat),
        1 <= sz -> length (samplePixels pixels sz) = length pixels `min` sz).
Proof.
  intros H.
  specialize (H [(0, 0, 0); (1, 1, 1); (2, 2, 2); (3, 3, 3); (4, 4, 4)]%Z 3).
  vm_compute in H. specialize (H ltac:(lia)). discriminate H.
Qed.

(** C4 (amended).  With [N] pixels and a target [sz >= 1]: when [N <= sz] the
    sample is the input itself; otherwise, with [step = N / sz], the sample has
    [ceil (N / step)] entries, which is at least [sz] and below [2 * sz], and
    its [j]-th entry is the pixel at index [j * step]. *)
Theorem samplePixels_stride (pixels : list Pixel) (sz : nat) :
  1 <= sz ->
  (length pixels <= sz -> samplePixels pixels sz = pixels) /\
  (sz < length pixels ->
   let step := length pixels / sz in
   let sample := samplePixels pixels sz in
   0 < step /\
   length sample = (length pixels + (step - 1)) / step /\
   sz <= length sample < 2 * sz /\
   forall j, j < length sample -> sample !! j = pixels !! (j * step)).
Proof.
  intros HS. unfold samplePixels. split.
  - intros Hle. destruct (decide (length pixels <= sz)); [done | lia].
  - intros Hlt. cbv zeta.
    destruct (decide (length pixels <= sz)); [lia|].
    destruct (decide (sz = 0)); [lia|].
    set (N := length pixels) in *.
    assert (Hstep : 0 < N / sz) by (apply Nat.div_str_pos; lia).
    assert (Hlen : length (strideLoop N pixels 0 (N / sz)) = (N + (N / sz - 1)) / (N / sz)).
    { rewrite strideLoop_length; fold N; try lia; [f_equal; lia | nia]. }
    split; [done|]. split; [done|]. split.
    + rewrite Hlen.
      pose proof (Nat.div_mod_eq N sz) as Hdm.
      pose proof (Nat.mod_upper_bound N sz ltac:(lia)) as Hub.
      set (step := N / sz) in *. split.
      * apply Nat.div_le_lower_bound; [lia|]. nia.
      * apply Nat.Div0.div_lt_upper_bound. nia.
    + intros j Hj. rewrite strideLoop_lookup by done.
      destruct (decide (j < N)); [done|].
      rewrite Hlen in Hj. exfalso.
      assert ((N + (N / sz - 1)) / (N / sz) <= N); [|lia].
      apply Nat.Div0.div_le_upper_bound. nia.
Qed.

Lemma samplePixels_stride_witness :
  1 <= 3 /\
  length (samplePixels sevenPixels 3) = 4 /\
  samplePixels sevenPixels 3 !! 3 = sevenPixels !! 6.
Proof.
  split; [lia|].
  destruct (samplePixels_stride sevenPixels 3 ltac:(lia)) as [_ H].
  specialize (H ltac:(simpl; lia)). cbv zeta in H.
  destruct H as (_ & Hlen & _ & Hidx). split.
  - rewrite Hlen. reflexivity.
  - rewrite (Hidx 3); [reflexivity|]. rewrite Hlen. vm_compute. lia.
Defined.

(** ** Typed-array stores *)

Lemma clamp8_byte v : (0 <= v <= 255)%Z -> clamp8 v = v.
Proof. unfold clamp8. lia. Qed.

Lemma writeRGBA_length d i r g b a : length (writeRGBA d i r g b a) = length d.
Proof. unfold writeRGBA. by rewrite !length_insert. Qed.

Lemma writeRGBA_lookup d i r g b a j :
  4 * i + 3 < length d ->
  writeRGBA d i r g b a !! j =
  if decide (j `div` 4 = i)
  then Some (clamp8 (nth (j `mod` 4) [r; g; b; a] 0%Z))
  else d !! j.
Proof.
  intros Hlen. unfold writeRGBA.
  pose proof (Nat.div_mod_eq j 4) as Hdm.
  pose proof (Nat.mod_upper_bound j 4 ltac:(lia)) as Hub.
  rewrite !list_lookup_insert, !length_insert.
  destruct (decide (j `div` 4 = i)) as [Hq|Hq].
  - destruct (j `mod` 4) as [|[|[|[|?]]]] eqn:Hr; [| | | |lia]; simpl;
      repeat (case_decide; [try (exfalso; lia)|]); try done; exfalso; lia.
  - repeat (case_decide; [exfalso; lia|]). done.
Qed.

Section pixel_loop.
Variables r g b a : nat -> Z.

Lemma pixel_loop_length ps nd :
length (foldl (fun nd p => writeRGBA nd p (r p) (g p) (b p) (a p)) nd ps) = length nd.
Proof.
revert nd. induction ps as [|p ps IH]; intros nd; simpl; [done|].
rewrite IH. apply writeRGBA_length.
Qed.

Lemma pixel_loop_lookup ps nd j :
(forall p, p ∈ ps -> 4 * p + 3 < length nd) ->
foldl (fun nd p => writeRGBA nd p (r p) (g p) (b p) (a p)) nd ps !! j =
if decide (j `div` 4 ∈ ps)
then Some (clamp8 (nth (j `mod` 4)
                       [r (j `div` 4); g (j `div` 4); b (j `div` 4); a (j `div` 4)] 0%Z))
else nd !! j.
Proof.
revert nd. induction ps as [|p ps IH]; intros nd Hin; cbn [foldl].
- rewrite decide_False by apply not_elem_of_nil. done.
- rewrite IH.
  2:{ intros q Hq. rewrite writeRGBA_length. apply Hin. by right. }
  rewrite writeRGBA_lookup by (apply Hin; left).
  destruct (decide (j `div` 4 ∈ ps)) as [Hps|Hps].
  + rewrite decide_True by (by right). done.
  + destruct (decide (j `div` 4 = p)) as [->|Hne].
    * rewrite decide_True by left. done.
    * rewrite decide_False; [done|]. intros [?|?]%elem_of_cons; done.
Qed.
End pixel_loop.

Lemma foldl_ext_in {A B} (f g : B -> A -> B) (l : list A) (b : B) :
  (forall b' a, a ∈ l -> f b' a = g b' a) -> foldl f b l = foldl g b l.
Proof.
  revert b. induction l as [|a l IH]; intros b H; simpl; [done|].
  rewrite H by left. apply IH. intros. apply H. by right.
Qed.

Lemma foldl_rows {B} (f : B -> nat -> B) (w h : nat) (b : B) :
  foldl (fun acc y => foldl (fun acc' x => f acc' (y * w + x)) acc (seq 0 w)) b (seq 0 h)
  = foldl f b (seq 0 (h * w)).
Proof.
  induction h as [|h IH]; [done|].
  rewrite seq_S, foldl_snoc, IH. simpl.
  replace (w + h * w) with (h * w + w) by lia.
  rewrite seq_app, foldl_app. simpl.
  generalize (foldl f b (seq 0 (h * w))). intros b'.
  replace (seq (h * w) w) with (Nat.add (h * w) <$> seq 0 w)
    by (rewrite fmap_add_seq; f_equal; lia).
  by rewrite foldl_fmap.
Qed.

(** ** Smoother *)

Lemma sortBy_constant (v : Z) (l : list Z) :
  Forall (fun x => x = v) l -> sortBy id l = l.
Proof.
  induction 1 as [|x l -> Hl IH]; [done|].
  unfold sortBy in *. cbn [foldr]. rewrite IH.
  destruct Hl as [|y l -> Hl]; [done|].
  cbn [insertBy]. unfold id. by rewrite Z.leb_refl.
Qed.

Lemma median9_constant (v : Z) (l : list Z) :
  length l = 9 -> Forall (fun x => x = v) l -> median9 l = v.
Proof.
  intros Hlen Hl. unfold median9. rewrite (sortBy_constant v) by done.
  destruct (l !! 4) as [x|] eqn:Hx.
  - simpl. by apply (Forall_lookup_1 _ _ _ _ Hl Hx).
  - apply lookup_ge_None in Hx. lia.
Qed.

Lemma channelAt_byte (d : list Z) (i : nat) :
  Forall (fun v => (0 <= v <= 255)%Z) d -> (0 <= channelAt d i <= 255)%Z.
Proof.
  intros Hd. unfold channelAt. destruct (d !! i) as [v|] eqn:Hv; simpl; [|lia].
  by apply (Forall_lookup_1 _ _ _ _ Hd Hv).
Qed.

Lemma medianPixel_write (img : ImageData) (nd : list Z) (p : nat) :
  0 < width img ->
  medianPixel img nd (p `mod` width img) (p `div` width img) =
  writeRGBA nd p (medianChannel img p 0) (medianChannel img p 1)
            (medianChannel img p 2) (medianChannel img p 3).
Proof.
  intros Hw. unfold medianPixel, medianChannel. cbv zeta.
  assert (Hp : p `div` width img * width img + p `mod` width img = p).
  { pose proof (Nat.div_mod_eq p (width img)). lia. }
  rewrite Hp, Nat.add_0_r.
  destruct (decide (onBorder img _ _)); [done|].
  rewrite !decide_True by lia. rewrite decide_False by lia. done.
Qed.

(** What the filter computes on any raster the host can hand over. *)
Lemma applyMedianFilter_lookup (img : ImageData) (ds : list nat) :
  wfImageData img ->
  exists out,
    applyMedianFilter img ds = Ok (out, ds) /\
    width out = width img /\ height out = height img /\
    length (data out) = length (data img) /\
    forall j, j < length (data img) ->
      data out !! j = Some (clamp8 (medianChannel img (j `div` 4) (j `mod` 4))).
Proof.
  intros (Hw & Hh & Hlen & Hbytes).
  unfold applyMedianFilter, newImageData, bind.
  rewrite decide_False by lia. unfold ret. eexists. split; [reflexivity|].
  cbn [width height data].
  set (nd0 := replicate (4 * (width img * height img)) 0%Z).
  set (step := fun nd p => medianPixel img nd (p `mod` width img) (p `div` width img)).
  assert (Hloop :
    foldl (fun nd y => foldl (fun nd' x => medianPixel img nd' x y) nd (seq 0 (width img)))
          nd0 (seq 0 (height img))
    = foldl step nd0 (seq 0 (height img * width img))).
  { rewrite <- foldl_rows. apply foldl_ext_in. intros nd y _.
    apply foldl_ext_in. intros nd' x Hx. apply elem_of_seq in Hx. unfold step.
    rewrite Nat.add_comm, Nat.Div0.mod_add, Nat.div_add by lia.
    rewrite Nat.mod_small, Nat.div_small by lia. done. }
  rewrite Hloop.
  assert (Hstep : forall nd, foldl step nd (seq 0 (height img * width img)) =
            foldl (fun nd p => writeRGBA nd p (medianChannel img p 0) (medianChannel img p 1)
                                         (medianChannel img p 2) (medianChannel img p 3))
                  nd (seq 0 (height img * width img))).
  { intros nd. apply foldl_ext_in. intros nd' p _. unfold step. by apply medianPixel_write. }
  rewrite Hstep. split; [done|]. split; [done|].
  assert (Hnd0 : length nd0 = length (data img)).
  { unfold nd0. rewrite length_replicate. lia. }
  split; [by rewrite pixel_loop_length|].
  intros j Hj. rewrite pixel_loop_lookup.
  2:{ intros p Hp. apply elem_of_seq in Hp. rewrite Hnd0, Hlen. nia. }
  rewrite decide_True; [|apply elem_of_seq; split; [lia|]].
  - pose proof (Nat.mod_upper_bound j 4 ltac:(lia)).
    destruct (j `mod` 4) as [|[|[|[|?]]]]; try done; lia.
  - assert (j `div` 4 < width img * height img); [|lia].
    apply Nat.Div0.div_lt_upper_bound. lia.
Qed.

(** On a locally constant raster the colour channels are kept; the alpha of
    an interior pixel becomes 255. *)
Lemma medianChannel_locallyConstant (img : ImageData) (p c : nat) :
  wfImageData img -> locallyConstant img -> p < width img * height img -> c < 4 ->
  clamp8 (medianChannel img p c) =
  if decide (c = 3 /\ ~ onBorder img (p `mod` width img) (p `div` width img))
  then 255%Z else channelAt (data img) (4 * p + c).
Proof.
  intros (Hw & Hh & Hlen & Hbytes) Hlc Hp Hc. unfold medianChannel. cbv zeta.
  replace (p * 4 + c) with (4 * p + c) by lia.
  destruct (decide (onBorder img _ _)) as [Hb|Hb].
  - rewrite decide_False by tauto. apply clamp8_byte. by apply channelAt_byte.
  - destruct (decide (c < 3)) as [Hc3|Hc3].
    + rewrite decide_False by lia.
      pose proof (Nat.div_mod_eq p (width img)) as Hdm.
      pose proof (Nat.mod_upper_bound p (width img) ltac:(lia)) as Hub.
      assert (Hy : p `div` width img < height img).
      { apply Nat.Div0.div_lt_upper_bound. lia. }
      unfold onBorder in Hb.
      rewrite (median9_constant
                 (channelAt (data img)
                    ((p `div` width img * width img + p `mod` width img) * 4 + c))).
      * replace ((p `div` width img * width img + p `mod` width img) * 4 + c)
          with (4 * p + c) by lia.
        apply clamp8_byte. by apply channelAt_byte.
      * reflexivity.
      * apply Hlc; lia.
    + rewrite decide_True by (split; [lia | done]). reflexivity.
Qed.

Lemma lookup_channelAt (d : list Z) (i : nat) :
  i < length d -> d !! i = Some (channelAt d i).
Proof.
  intros Hi. unfold channelAt. destruct (d !! i) eqn:H; [done|].
  apply lookup_ge_None in H. lia.
Qed.

Lemma pixel_channel_div_mod (p c : nat) :
  c < 4 -> (4 * p + c) `div` 4 = p /\ (4 * p + c) `mod` 4 = c.
Proof.
  intros Hc. split.
  - symmetry. apply (Nat.div_unique _ _ _ c); lia.
  - symmetry. apply (Nat.mod_unique _ _ p); lia.
Qed.

(** The effect of the filter on a locally constant raster, channel by channel. *)
Lemma applyMedianFilter_channels (img : ImageData) (ds : list nat) :
  wfImageData img -> locallyConstant img ->
  exists out,
    applyMedianFilter img ds = Ok (out, ds) /\
    width out = width img /\ height out = height img /\
    length (data out) = length (data img) /\
    forall p c, p < width img * height img -> c < 4 ->
      data out !! (4 * p + c) =
      if decide (c = 3 /\ ~ onBorder img (p `mod` width img) (p `div` width img))
      then Some 255%Z else data img !! (4 * p + c).
Proof.
  intros Hwf Hlc.
  destruct (applyMedianFilter_lookup img ds Hwf) as (out & Hrun & Hw & Hh & Hlen & Hlk).
  exists out. do 4 (split; [done|]). intros p c Hp Hc.
  destruct Hwf as (Hw0 & Hh0 & Hlen0 & Hbytes).
  rewrite Hlk by lia.
  destruct (pixel_channel_div_mod p c Hc) as [-> ->].
  rewrite medianChannel_locallyConstant by (done || by repeat split).
  case_decide; [done|]. symmetry. apply lookup_channelAt. lia.
Qed.

Lemma applyMedianFilter_fixed (img : ImageData) (ds : list nat) :
  wfImageData img -> locallyConstant img ->
  (forall p, p < width img * height img ->
             ~ onBorder img (p `mod` width img) (p `div` width img) ->
             data img !! (4 * p + 3) = Some 255%Z) ->
  applyMedianFilter img ds = Ok (img, ds).
Proof.
  intros Hwf Hlc Halpha.
  destruct (applyMedianFilter_channels img ds Hwf Hlc) as (out & Hrun & Hw & Hh & Hlen & Hlk).
  rewrite Hrun. f_equal. f_equal.
  destruct Hwf as (Hw0 & Hh0 & Hlen0 & Hbytes).
  assert (Hdata : data out = data img).
  { apply list_eq. intros j.
    destruct (decide (j < length (data img))) as [Hj|Hj].
    - pose proof (Nat.div_mod_eq j 4) as Hdm.
      pose proof (Nat.mod_upper_bound j 4 ltac:(lia)) as Hub.
      rewrite Hdm. rewrite Hlk by lia.
      case_decide as Hc; [|done]. destruct Hc as [Hc Hb].
      rewrite Hc. symmetry. apply Halpha; [lia | done].
    - rewrite !lookup_ge_None_2 by lia. done. }
  destruct out, img; simpl in *; congruence.
Qed.

Lemma greyTranslucent3x3_wf : wfImageData greyTranslucent3x3.
Proof.
  repeat split; simpl; try lia. repeat (constructor; [lia|]). constructor.
Qed.

Lemma greyTranslucent3x3_locallyConstant : locallyConstant greyTranslucent3x3.
Proof.
  intros x y c Hx Hy Hc. simpl in Hx, Hy.
  assert (x = 1) as -> by lia. assert (y = 1) as -> by lia.
  destruct c as [|[|[|?]]]; [| | |lia]; vm_compute; repeat constructor.
Qed.

(** C9 as written fails: the filter forces the alpha of interior
    pixels to 255, so a locally constant raster whose centre is translucent
    is not returned unchanged. *)
Lemma applyMedianFilter_identity_counterexample :
  ~ (forall (img : ImageData) (ds : list nat),
        wfImageData img -> locallyConstant img ->
        applyMedianFilter img ds = Ok (img, ds)).
Proof.
  intros H.
  specialize (H greyTranslucent3x3 [] greyTranslucent3x3_wf
                greyTranslucent3x3_locallyConstant).
  vm_compute in H. discriminate H.
Qed.

Lemma clamp8_range v : (0 <= clamp8 v <= 255)%Z.
Proof. unfold clamp8. lia. Qed.

Lemma window_agree (d d' : list Z) (w h x y c : nat) :
  0 < x < w - 1 -> 0 < y < h - 1 -> c < 3 ->
  (forall p, p < w * h -> channelAt d' (4 * p + c) = channelAt d (4 * p + c)) ->
  window d' w x y c = window d w x y c /\
  channelAt d' ((y * w + x) * 4 + c) = channelAt d ((y * w + x) * 4 + c).
Proof.
  intros Hx Hy Hc Hagree.
  assert (Hat : forall q, q < w * h ->
            channelAt d' (q * 4 + c) = channelAt d (q * 4 + c)).
  { intros q Hq. replace (q * 4 + c) with (4 * q + c) by lia. by apply Hagree. }
  split; [|apply Hat; nia].
  unfold window. cbn [flat_map map seq app].
  repeat (f_equal; [apply Hat; nia|]). f_equal. apply Hat. nia.
Qed.

(** C9 (amended).  On a raster whose every 3x3 window is constant in each
    colour channel, the median filter keeps the R, G and B value of every
    pixel and the alpha of every border pixel, and sets the alpha of every
    interior pixel to 255; applying the filter to its own output returns that
    output unchanged. *)
Theorem applyMedianFilter_locally_constant (img : ImageData) (ds : list nat) :
  wfImageData img -> locallyConstant img ->
  exists out,
    applyMedianFilter img ds = Ok (out, ds) /\
    width out = width img /\ height out = height img /\
    length (data out) = length (data img) /\
    (forall p c, p < width img * height img -> c < 4 ->
       data out !! (4 * p + c) =
       if decide (c = 3 /\ ~ onBorder img (p `mod` width img) (p `div` width img))
       then Some 255%Z else data img !! (4 * p + c)) /\
    applyMedianFilter out ds = Ok (out, ds).
Proof.
  intros Hwf Hlc.
  destruct (applyMedianFilter_channels img ds Hwf Hlc) as (out & Hrun & Hw & Hh & Hlen & Hlk).
  exists out. do 5 (split; [done|]).
  destruct Hwf as (Hw0 & Hh0 & Hlen0 & Hbytes).
  assert (Hkept : forall c, c < 3 -> forall p, p < width img * height img ->
            channelAt (data out) (4 * p + c) = channelAt (data img) (4 * p + c)).
  { intros c Hc p Hp. unfold channelAt. rewrite Hlk by lia.
    by rewrite decide_False by lia. }
  apply applyMedianFilter_fixed.
  - unfold wfImageData. rewrite Hw, Hh, Hlen. do 3 (split; [done|]).
    apply Forall_lookup_2. intros j v Hv.
    pose proof (lookup_lt_Some _ _ _ Hv) as Hj. rewrite Hlen in Hj.
    pose proof (Nat.div_mod_eq j 4) as Hdm.
    pose proof (Nat.mod_upper_bound j 4 ltac:(lia)) as Hub.
    rewrite Hdm, Hlk in Hv by lia.
    case_decide; [injection Hv as <-; lia|].
    by apply (Forall_lookup_1 _ _ _ _ Hbytes Hv).
  - intros x y c Hx Hy Hc. rewrite Hw in *. rewrite Hh in Hy.
    destruct (window_agree (data img) (data out) (width img) (height img) x y c
                Hx Hy Hc (Hkept c Hc)) as [Hwin Hcentre].
    rewrite Hwin, Hcentre. by apply Hlc.
  - intros p Hp Hb. rewrite Hw, Hh in *.
    rewrite Hlk by lia. rewrite decide_True; [done|]. split; [done|].
    intros Hb'. apply Hb. unfold onBorder in *. by rewrite Hw, Hh.
Qed.

Lemma applyMedianFilter_locally_constant_witness :
  wfImageData greyTranslucent3x3 /\ locallyConstant greyTranslucent3x3 /\
  exists out,
    applyMedianFilter greyTranslucent3x3 [] = Ok (out, []) /\
    data out !! (4 * 4 + 3) = Some 255%Z /\
    data out !! (4 * 4 + 0) = Some 10%Z /\
    applyMedianFilter out [] = Ok (out, []).
Proof.
  split; [exact greyTranslucent3x3_wf|].
  split; [exact greyTranslucent3x3_locallyConstant|].
  destruct (applyMedianFilter_locally_constant greyTranslucent3x3 []
              greyTranslucent3x3_wf greyTranslucent3x3_locallyConstant)
    as (out & Hrun & _ & _ & _ & Hlk & Hidem).
  exists out. split; [exact Hrun|]. split; [|split; [|exact Hidem]].
  - rewrite (Hlk 4 3); [reflexivity | simpl; lia | lia].
  - rewrite (Hlk 4 0); [reflexivity | simpl; lia | lia].
Defined.

(** ** Loops in the [Js] monad *)

Lemma forEach_invariant {A S} (I : S -> Prop) (xs : list A) (body : S -> A -> Js S)
    (acc : S) (ds : list nat) :
  I acc ->
  (forall x acc0, x ∈ xs -> I acc0 ->
     exists acc1, body acc0 x ds = Ok (acc1, ds) /\ I acc1) ->
  exists acc', forEach xs body acc ds = Ok (acc', ds) /\ I acc'.
Proof.
  revert acc. induction xs as [|x xs IH]; intros acc Hacc Hbody.
  - exists acc. done.
  - destruct (Hbody x acc ltac:(left) Hacc) as (acc1 & Hrun & Hacc1).
    cbn [forEach]. unfold bind at 1. rewrite Hrun.
    apply IH; [done|]. intros y acc0 Hy. apply Hbody. by right.
Qed.

Lemma forEach_throws {A S} (e : JsError) (xs : list A) (body : S -> A -> Js S)
    (acc : S) (ds : list nat) :
  (forall x acc0, x ∈ xs ->
     body acc0 x ds = Throw e \/ exists acc1, body acc0 x ds = Ok (acc1, ds)) ->
  (exists x, x ∈ xs /\ forall acc0, body acc0 x ds = Throw e) ->
  forEach xs body acc ds = Throw e.
Proof.
  revert acc. induction xs as [|x xs IH]; intros acc Hbody (y & Hy & Hthrow).
  - by apply elem_of_nil in Hy.
  - cbn [forEach]. unfold bind at 1.
    destruct (Hbody x acc ltac:(left)) as [Hx|[acc1 Hx]]; rewrite Hx; [done|].
    apply elem_of_cons in Hy as [->|Hy].
    + rewrite Hthrow in Hx. discriminate Hx.
    + apply IH; [|by exists y]. intros. apply Hbody. by right.
Qed.

(** ** Stable sort *)

Lemma insertBy_Permutation {A} (key : A -> Z) (x : A) (l : list A) :
  insertBy key x l ≡ₚ x :: l.
Proof.
  induction l as [|y l IH]; cbn [insertBy]; [done|].
  destruct (key x <=? key y)%Z; [done|]. rewrite IH. apply Permutation_swap.
Qed.

Lemma sortBy_Permutation {A} (key : A -> Z) (l : list A) : sortBy key l ≡ₚ l.
Proof.
  induction l as [|x l IH]; [done|].
  unfold sortBy in *. cbn [foldr]. by rewrite insertBy_Permutation, IH.
Qed.

Lemma sortBy_length {A} (key : A -> Z) (l : list A) : length (sortBy key l) = length l.
Proof. by rewrite sortBy_Permutation. Qed.

Lemma insertBy_Sorted {A} (key : A -> Z) (x : A) (l : list A) :
  Sorted (fun a b => (key a <= key b)%Z) l ->
  Sorted (fun a b => (key a <= key b)%Z) (insertBy key x l).
Proof.
  induction 1 as [|y l Hl IH Hhd]; cbn [insertBy].
  - by repeat constructor.
  - destruct (key x <=? key y)%Z eqn:Hxy.
    + constructor; [by constructor|]. constructor. lia.
    + constructor; [done|].
      destruct Hhd as [|z l Hyz]; cbn [insertBy].
      * constructor. lia.
      * destruct (key x <=? key z)%Z; constructor; lia.
Qed.

Lemma sortBy_Sorted {A} (key : A -> Z) (l : list A) :
  Sorted (fun a b => (key a <= key b)%Z) (sortBy key l).
Proof.
  induction l as [|x l IH]; [constructor|].
  unfold sortBy in *. cbn [foldr]. by apply insertBy_Sorted.
Qed.

(** ** PaletteOptimizer *)

Lemma euclideanDistance_defined (a b : Pixel) (ds : list nat) :
  exists d, euclideanDistance (Some a) (Some b) ds = Ok (d, ds) /\ (0 <= d)%Z.
Proof.
  eexists. split; [reflexivity|]. unfold radicand.
  pose proof (Z.square_nonneg (chanR a - chanR b)).
  pose proof (Z.square_nonneg (chanG a - chanG b)).
  pose proof (Z.square_nonneg (chanB a - chanB b)). rewrite !Z.pow_2_r. lia.
Qed.

Lemma minDistanceToPalette_defined (fp : list Pixel) (c : Pixel) (ds : list nat) :
  fp ≠ [] ->
  exists z, minDistanceToPalette (Some <$> fp) (Some c) ds = Ok (Fin z, ds) /\ (0 <= z)%Z.
Proof.
  destruct fp as [|p fp]; [done|]. intros _.
  unfold minDistanceToPalette. cbn [fmap list_fmap forEach]. unfold bind at 1 2.
  destruct (euclideanDistance_defined c p ds) as (d & -> & Hd). unfold ret at 1.
  destruct (forEach_invariant (fun m => exists z, m = Fin z /\ (0 <= z)%Z) (Some <$> fp)
              (fun m color => d <- euclideanDistance (Some c) color ;;
                              ret (dist_min m (Fin d)))%js
              (dist_min Infinity (Fin d)) ds) as (m & Hrun & z & -> & Hz).
  - exists d. done.
  - intros color m Hcolor (z & -> & Hz).
    apply list_elem_of_fmap in Hcolor as (q & -> & _).
    unfold bind. destruct (euclideanDistance_defined c q ds) as (d' & -> & Hd').
    eexists. split; [reflexivity|]. unfold dist_min, dist_ltb.
    destruct (d' <? z)%Z; eauto.
  - exists z. done.
Qed.

Lemma bestCandidate_defined (fp cands : list Pixel) (ds : list nat) :
  fp ≠ [] -> cands ≠ [] ->
  exists i m,
    bestCandidate (Some <$> fp) (Some <$> cands) ds = Ok ((Some i, m), ds) /\
    i < length cands.
Proof.
  intros Hfp Hcands. destruct cands as [|c cands]; [done|].
  unfold bestCandidate. cbn [fmap list_fmap]. rewrite imap_cons.
  cbn [forEach]. unfold bind at 1 2. cbn [snd fst].
  destruct (minDistanceToPalette_defined fp c ds Hfp) as (z & -> & Hz).
  unfold ret at 1.
  assert (Hfirst : dist_ltb (Fin (-1)) (Fin z) = true) by (apply Z.ltb_lt; lia).
  rewrite Hfirst.
  lazymatch goal with
  | |- context [forEach ?xs ?body ?start ds] =>
      destruct (forEach_invariant
                  (fun best : option nat * dist =>
                     exists i, best.1 = Some i /\ i < S (length cands))
                  xs body start ds)
        as ([oi m] & Hrun & i & Hi & Hlt); [| |rewrite Hrun]
  end.
  - exists 0. simpl. split; [done | lia].
  - intros [j oc] acc Hin (i & Hi & Hlt).
    apply elem_of_lookup_imap in Hin as (j' & oc' & [= -> ->] & Hlk).
    rewrite list_lookup_fmap in Hlk.
    destruct (cands !! j') as [q|] eqn:Hq; [|done]. injection Hlk as <-.
    apply lookup_lt_Some in Hq.
    unfold bind. cbn [snd fst].
    destruct (minDistanceToPalette_defined fp q ds Hfp) as (z' & -> & Hz').
    eexists. split; [reflexivity|].
    destruct (dist_ltb acc.2 (Fin z')); [exists (S j'); simpl; split; [done|lia] | eauto].
  - simpl in Hi. subst oi. exists i, m. simpl. done.
Qed.

Lemma selectColors_length (k : Z) (ds : list nat) (remaining : nat) :
  forall fp cands : list Pixel,
    fp ≠ [] -> length cands <= remaining ->
    exists res,
      selectColors remaining (Some <$> fp) (Some <$> cands) k ds = Ok (Some <$> res, ds) /\
      length res = length fp + Z.to_nat (k - Z.of_nat (length fp)) `min` length cands /\
      res ⊆ fp ++ cands.
Proof.
  induction remaining as [|remaining IH]; intros fp cands Hfp Hlen.
  - exists fp. split; [done|]. split; [lia|]. set_solver.
  - cbn [selectColors]. rewrite !length_fmap. case_decide as Hgo.
    + destruct (bestCandidate_defined fp cands ds Hfp) as (i & m & Hbest & Hi).
      { intros ->. simpl in Hgo. lia. }
      unfold bind. rewrite Hbest. cbn [fst].
      destruct (lookup_lt_is_Some_2 cands i Hi) as [c Hc].
      rewrite list_lookup_fmap, Hc. cbn [fmap option_fmap option_map mjoin option_join mbind option_bind].
      pose proof (length_delete cands i (mk_is_Some _ _ Hc)) as Hdel.
      destruct (IH (fp ++ [c]) (delete i cands)) as (res & Hrun & Hres & Hsub).
      { by destruct fp. }
      { lia. }
      rewrite fmap_app, list_fmap_delete in Hrun. cbn [fmap list_fmap] in Hrun.
      exists res. split; [exact Hrun|]. split.
      * rewrite Hres, length_app, Hdel. simpl. lia.
      * intros x Hx. apply Hsub in Hx. rewrite !elem_of_app in Hx.
        rewrite elem_of_app. destruct Hx as [[Hx|Hx]|Hx]; [by left| |].
        -- apply list_elem_of_singleton in Hx as ->. right.
           by apply list_elem_of_lookup_2 in Hc.
        -- right. by apply list_elem_of_delete_inv in Hx.
    + exists fp. split; [done|]. split; [|set_solver].
      destruct (decide (0 < length cands)); lia.
Qed.

Lemma omap_id_Some {A} (l : list A) : omap id (Some <$> l) = l.
Proof. induction l as [|x l IH]; [done|]. cbn. by rewrite IH. Qed.

Lemma filter_None_Some {A} (l : list A) :
  filter (fun c : option A => c = None) (Some <$> l) = [].
Proof.
  induction l as [|x l IH]; [done|]. cbn [fmap list_fmap].
  rewrite filter_cons_False by done. exact IH.
Qed.

Lemma sortByLuminance_defined (l : list Pixel) :
  sortByLuminance (Some <$> l) = Some <$> sortBy luminance l.
Proof.
  unfold sortByLuminance. rewrite omap_id_Some, filter_None_Some. cbn.
  by rewrite app_nil_r.
Qed.

Lemma fmap_Some_of_defined {A} (l : list (option A)) :
  Forall is_Some l -> l = Some <$> omap id l.
Proof.
  induction 1 as [|x l [y ->] _ IH]; [done|]. cbn. by rewrite <- IH.
Qed.

Lemma filter_imap_length {A B C D} (P : C -> Prop) `{!forall x, Decision (P x)}
    (Q : D -> Prop) `{!forall x, Decision (Q x)}
    (l : list A) :
  forall (l' : list B) (f : nat -> A -> C) (g : nat -> B -> D),
    length l = length l' ->
    (forall i x y, P (f i x) <-> Q (g i y)) ->
    length (filter P (imap f l)) = length (filter Q (imap g l')).
Proof.
  induction l as [|x l IH]; intros [|y l'] f g Hlen Hiff; try done.
  rewrite !imap_cons, !filter_cons.
  injection Hlen as Hlen.
  specialize (IH l' (f ∘ S) (g ∘ S) Hlen (fun i x y => Hiff (S i) x y)).
  destruct (decide (P (f 0 x))) as [HP|HP], (decide (Q (g 0 y))) as [HQ|HQ];
    simpl; try (by rewrite IH); exfalso; apply (Hiff 0 x y) in HP || apply HP, (Hiff 0 x y);
    done.
Qed.

(** With every centroid defined, the candidates past the size filter are
    defined colours among the centroids, as many as there are nonempty
    clusters. *)
Lemma candidateColors_defined (cs : list Pixel) (cls : list (list Pixel)) :
  exists cands : list Pixel,
    candidateColors (Some <$> cs) cls = Some <$> cands /\
    cands ⊆ cs /\
    length cands =
    length (filter (fun ic : nat * Pixel => 0 < from_option length 0 (cls !! ic.1))
                   (imap (fun i c => (i, c)) cs)).
Proof.
  unfold candidateColors.
  set (sorted := sortBy _ _).
  assert (Hperm : sorted ≡ₚ weightedCentroids (Some <$> cs) cls)
    by apply sortBy_Permutation.
  assert (Hin : forall oc, oc ∈ sorted.*1 -> exists c, oc = Some c /\ c ∈ cs).
  { intros oc Hoc. apply list_elem_of_fmap in Hoc as ([oc' n] & -> & Hoc).
    rewrite Hperm in Hoc. unfold weightedCentroids in Hoc.
    apply list_elem_of_filter in Hoc as [_ Hoc].
    apply elem_of_lookup_imap in Hoc as (i & oc'' & [= -> ->] & Hlk).
    rewrite list_lookup_fmap in Hlk.
    destruct (cs !! i) as [c|] eqn:Hc; [|done]. injection Hlk as <-.
    exists c. split; [done|]. by apply list_elem_of_lookup_2 in Hc. }
  exists (omap id sorted.*1). split; [|split].
  - apply fmap_Some_of_defined. apply Forall_forall. intros oc Hoc.
    destruct (Hin oc Hoc) as (c & -> & _). done.
  - intros c Hc. apply list_elem_of_omap in Hc as (oc & Hoc & Heq).
    destruct (Hin oc Hoc) as (c' & -> & Hc'). simpl in Heq. congruence.
  - rewrite <- (length_fmap Some), <- fmap_Some_of_defined.
    2:{ apply Forall_forall. intros oc Hoc. destruct (Hin oc Hoc) as (c & -> & _). done. }
    rewrite length_fmap, Hperm. unfold weightedCentroids.
    apply filter_imap_length; [by rewrite length_fmap | done].
Qed.

(** C3 as written fails: three centroids of one colour, each with a
    nonempty cluster, and [k = 2] give a palette of two entries although only
    one distinct colour stands as candidate. *)
Lemma generateOptimalPalette_distinct_counterexample :
  ~ (forall (cs : list Pixel) (cls : list (list Pixel)) (k : Z) (ds : list nat),
        (1 <= k)%Z ->
        exists palette,
          generateOptimalPalette (Some <$> cs) cls k ds = Ok (Some <$> palette, ds) /\
          length palette =
          Z.to_nat k `min` length (remove_dups (paletteCandidates cs cls k))).
Proof.
  intros H.
  destruct (H threeGreys threeGreyClusters 2%Z [] ltac:(lia)) as (palette & Hrun & Hlen).
  assert (Hval : generateOptimalPalette (Some <$> threeGreys) threeGreyClusters 2 [] =
                 Ok ([Some (9, 9, 9); Some (9, 9, 9)]%Z, [])) by (vm_compute; reflexivity).
  rewrite Hval in Hrun. injection Hrun as Hrun.
  apply (f_equal length) in Hrun. rewrite length_fmap in Hrun.
  rewrite <- Hrun in Hlen. vm_compute in Hlen. discriminate Hlen.
Qed.

(** C3 (amended).  For defined centroids, their clusters and [k >= 1], the
    PaletteOptimizer returns exactly [min k n] colours, where [n] counts the
    candidate centroids with repetitions - all centroids when there are at
    most [k], the centroids with a nonempty cluster otherwise; the colours
    come from the centroids and are sorted by non-decreasing luminance; when
    there are at most [k] centroids the result is a permutation of them. *)
Theorem generateOptimalPalette_count_sorted
    (cs : list Pixel) (cls : list (list Pixel)) (k : Z) (ds : list nat) :
  (1 <= k)%Z ->
  exists palette,
    generateOptimalPalette (Some <$> cs) cls k ds = Ok (Some <$> palette, ds) /\
    length palette = Z.to_nat k `min` length (paletteCandidates cs cls k) /\
    Sorted byLuminance palette /\
    palette ⊆ cs /\
    ((Z.of_nat (length cs) <= k)%Z -> palette ≡ₚ cs).
Proof.
  intros Hk. unfold generateOptimalPalette, paletteCandidates.
  rewrite length_fmap. case_decide as Hle.
  - exists (sortBy luminance cs). rewrite sortByLuminance_defined.
    split; [done|]. split; [rewrite sortBy_length; lia|].
    split; [apply sortBy_Sorted|].
    split; [|intros _; apply sortBy_Permutation].
    intros c. by rewrite sortBy_Permutation.
  - destruct (candidateColors_defined cs cls) as (cands & -> & Hsub & Hcount).
    rewrite length_fmap, <- Hcount.
    destruct cands as [|first cands]; cbn [fmap list_fmap].
    + exists []. split; [done|]. split; [simpl; lia|].
      split; [constructor|]. split; [set_solver | lia].
    + destruct (selectColors_length k ds (length cands) [first] cands)
        as (res & Hrun & Hlen & Hres); [done | lia |].
      rewrite length_fmap. unfold bind. cbn [fmap list_fmap] in Hrun. rewrite Hrun.
      exists (sortBy luminance res). rewrite sortByLuminance_defined.
      split; [done|]. split; [rewrite sortBy_length, Hlen; simpl; lia|].
      split; [apply sortBy_Sorted|]. split; [|lia].
      intros c. rewrite sortBy_Permutation. intros Hc. apply Hsub. by apply Hres.
Qed.

Lemma generateOptimalPalette_count_sorted_witness :
  (1 <= 2)%Z /\
  exists palette,
    generateOptimalPalette (Some <$> threeGreys) threeGreyClusters 2 [] =
      Ok (Some <$> palette, []) /\
    length palette = 2 /\ Sorted byLuminance palette.
Proof.
  split; [lia|].
  destruct (generateOptimalPalette_count_sorted threeGreys threeGreyClusters 2 []
              ltac:(lia)) as (palette & Hrun & Hlen & Hsorted & _).
  exists palette. split; [exact Hrun|]. split; [exact Hlen | exact Hsorted].
Defined.

(** ** ColorClusterer *)

Lemma seedCentroids_length (pixels : list Pixel) (k : Z) (ds : list nat) :
  forall cs used cs' ds',
    length cs <= length pixels ->
    seedCentroids pixels k cs used ds = Ok (cs', ds') ->
    length cs' <= length pixels.
Proof.
  induction ds as [|d ds IH]; intros cs used cs' ds' Hcs; cbn [seedCentroids].
  - case_decide; [done|]. by intros [= <- <-].
  - case_decide as Hgo; [|by intros [= <- <-]].
    case_decide; apply IH; [done|]. rewrite length_app. simpl. lia.
Qed.

Lemma seedCentroids_no_throw (pixels : list Pixel) (k : Z) (ds : list nat) :
  forall cs used e, seedCentroids pixels k cs used ds ≠ Throw e.
Proof.
  induction ds as [|d ds IH]; intros cs used e; cbn [seedCentroids].
  - by case_decide.
  - case_decide; [|done]. case_decide; apply IH.
Qed.

Lemma closestCentroidIndex_undefined (cs : list (option Pixel)) (k : Z) (pixel : Pixel)
    (ds : list nat) :
  (Z.of_nat (length cs) < k)%Z ->
  closestCentroidIndex cs k pixel ds = Throw (TypeErrorReadOfUndefined "0").
Proof.
  intros Hk. unfold closestCentroidIndex. unfold bind at 1.
  rewrite (forEach_throws (TypeErrorReadOfUndefined "0")); [done| |].
  - intros i acc _. unfold bind.
    destruct (mjoin (cs !! i)) as [c|]; [|by left].
    destruct (euclideanDistance_defined pixel c ds) as (d & -> & _). right. eauto.
  - exists (length cs). split; [apply elem_of_seq; lia|].
    intros acc. unfold bind. by rewrite lookup_ge_None_2 by lia.
Qed.

Lemma assignPixels_undefined (pixels : list Pixel) (cs : list (option Pixel)) (k : Z)
    (ds : list nat) :
  pixels ≠ [] -> (Z.of_nat (length cs) < k)%Z ->
  assignPixels pixels cs k ds = Throw (TypeErrorReadOfUndefined "0").
Proof.
  intros Hpx Hk. destruct pixels as [|pixel pixels]; [done|].
  unfold assignPixels. cbn [forEach]. unfold bind at 1 2.
  by rewrite closestCentroidIndex_undefined.
Qed.

Lemma kmeansLoop_assign_throws (n : nat) (pixels : list Pixel) (k : Z)
    (cs : list (option Pixel)) (cls : list (list Pixel)) (ds : list nat) (e : JsError) :
  assignPixels pixels cs k ds = Throw e ->
  kmeansLoop (S n) pixels k cs cls ds = Throw e.
Proof. intros H. cbn [kmeansLoop]. unfold bind at 1. by rewrite H. Qed.

(** With fewer pixels than clusters the first assignment pass reads
    [centroids[i][0]] past the seeded centroids. *)
Lemma kmeans_few_pixels (pixels : list Pixel) (k : Z) (ds : list nat) :
  pixels ≠ [] -> (Z.of_nat (length pixels) < k)%Z ->
  kmeans pixels k ds = Starved \/
  kmeans pixels k ds = Throw (TypeErrorReadOfUndefined "0").
Proof.
  intros Hpx Hk. unfold kmeans, bind.
  destruct (seedCentroids pixels k [] [] ds) as [[cs ds']|e|] eqn:Hseed;
    [|by apply seedCentroids_no_throw in Hseed|by left].
  apply seedCentroids_length in Hseed; [|simpl; lia].
  right. apply kmeansLoop_assign_throws, assignPixels_undefined; [done | lia].
Qed.

(** C5, at the failing input: one black pixel and [k = 5], which is what a
    1x1 raster with palette size 1 hands to the clusterer.  Whatever
    [Math.random] returns, the seeding loop keeps the single pixel and the
    first assignment pass throws a [TypeError] on [centroids[1][0]]. *)
Theorem kmeans_one_pixel_five_clusters_throws (d : nat) (ds : list nat) :
  kmeans [(0, 0, 0)%Z] 5 (d :: ds) = Throw (TypeErrorReadOfUndefined "0").
Proof.
  unfold kmeans. unfold bind at 1.
  assert (Hseed : seedCentroids [(0, 0, 0)%Z] 5 [] [] (d :: ds) =
                  Ok ([Some (0, 0, 0)%Z], ds)).
  { cbn [seedCentroids length]. rewrite decide_True by (simpl; lia).
    cbn zeta. rewrite (decide_False (P := 1 = 0)) by lia. rewrite Nat.mod_1_r.
    rewrite decide_False by apply not_elem_of_nil.
    destruct ds; cbn [seedCentroids app length]; rewrite decide_False by (simpl; lia);
      reflexivity. }
  rewrite Hseed. apply kmeansLoop_assign_throws, assignPixels_undefined; [done|].
  simpl. lia.
Qed.

(** ** RegionMerger: the thinness test *)

(** C2, at the failing input: a 9x1 raster of four grey and five red pixels,
    [minRegionSize = 1], [thinnessThreshold = 8].  The grey region has four
    pixels in a 4x1 bounding box, so it is neither small nor thin by its own
    bounding box; [isThin] divides the width of the image by its height,
    9 / 1 > 8, and the region is merged away: every map entry ends as 2. *)
Theorem isThin_reads_the_image_dimensions :
  exists grown assigned merged grey,
    growRegions stripe9x1 (colorThreshold stripeOptions) = Some grown /\
    assignColors greyRed grown [] = Ok (assigned, []) /\
    initialRegions assigned !! 1 = Some grey /\
    Region.pixels grey = [0; 1; 2; 3] /\
    isSmall stripeOptions grey = false /\
    isThinOfBoundingBox stripeOptions grey = false /\
    isThin stripe9x1 stripeOptions grey = true /\
    mergeRegions stripe9x1 stripeOptions assigned [] = Ok (merged, []) /\
    initialRegions merged !! 1 = None /\
    initialRegionMap merged = replicate 9 2.
Proof.
  destruct (growRegions stripe9x1 (colorThreshold stripeOptions)) as [grown|] eqn:Hgrown;
    [|vm_compute in Hgrown; discriminate Hgrown].
  destruct (assignColors greyRed grown []) as [[assigned ds]| |] eqn:Hassigned.
  2,3: vm_compute in Hgrown; injection Hgrown as <-; vm_compute in Hassigned;
       discriminate Hassigned.
  destruct (mergeRegions stripe9x1 stripeOptions assigned []) as [[merged ds']| |] eqn:Hmerged.
  2,3: vm_compute in Hgrown; injection Hgrown as <-; vm_compute in Hassigned;
       injection Hassigned as <- <-; vm_compute in Hmerged; discriminate Hmerged.
  vm_compute in Hgrown. injection Hgrown as <-.
  vm_compute in Hassigned. injection Hassigned as <- <-.
  vm_compute in Hmerged. injection Hmerged as <- <-.
  do 4 eexists. repeat split; vm_compute; reflexivity.
Qed.

(** ** RegionGrower: one flood fill *)

Lemma zeros_le_length (m : list nat) : zeros m <= length m.
Proof. apply length_filter. Qed.

Lemma zeros_insert (m : list nat) (n v : nat) :
  m !! n = Some 0 -> v ≠ 0 -> zeros (<[n := v]> m) + 1 = zeros m.
Proof.
  unfold zeros. revert n. induction m as [|x m IH]; intros n Hn Hv; [done|].
  destruct n as [|n]; simpl in *.
  - injection Hn as ->. rewrite filter_cons_False by done.
    rewrite filter_cons_True by done. simpl. lia.
  - rewrite !filter_cons. specialize (IH n Hn Hv).
    destruct (decide (x = 0)); simpl; lia.
Qed.

Lemma visitNeighbor_cases (img : ImageData) (thr : Z) (start : option Pixel)
    (cur p : nat) (regionMap stack : list nat) (nb : Z) :
  visitNeighbor img thr start cur p (regionMap, stack) nb = (regionMap, stack) \/
  exists n, n < length regionMap /\ regionMap !! n = Some 0 /\
            visitNeighbor img thr start cur p (regionMap, stack) nb
            = (<[n := cur]> regionMap, n :: stack).
Proof.
  unfold visitNeighbor. cbv zeta.
  case_decide as Hin; [|by left]. case_decide; [|by left].
  destruct (closerThan _ _ _); [|by left].
  right. exists (Z.to_nat nb). tauto.
Qed.

Section flood_fill.
Variables (cur : nat) (map0 : list nat).
Hypothesis cur_nonzero : cur ≠ 0.

Lemma fillState_push regionMap recorded stack n :
  fillState cur map0 regionMap recorded stack ->
  n < length regionMap -> regionMap !! n = Some 0 ->
  fillState cur map0 (<[n := cur]> regionMap) recorded (n :: stack).
Proof.
  intros (Hlen & Hcur & Hnodup & Hold & Hkeep) Hn Hzero.
  assert (Hfresh : n ∉ recorded ++ stack).
  { intros Hin. apply Hcur in Hin. congruence. }
  repeat split.
  - by rewrite length_insert.
  - rewrite list_lookup_insert. case_decide as Hq.
    + destruct Hq as [<- _]. intros _. apply elem_of_app. right. left.
    + intros Hq'. apply Hcur in Hq'. rewrite elem_of_app in Hq'.
      rewrite elem_of_app, elem_of_cons. tauto.
  - rewrite list_lookup_insert. case_decide as Hq.
    + by destruct Hq as [<- _].
    + intros Hin. apply Hcur. rewrite elem_of_app, elem_of_cons in Hin.
      rewrite elem_of_app. destruct Hin as [?|[->|?]]; [by left| |by right].
      exfalso. apply Hq. done.
  - apply (NoDup_Permutation_proper _ _ (Permutation_middle _ _ _)).
    by constructor.
  - intros q v. rewrite list_lookup_insert. case_decide; [|by apply Hold].
    intros [= <-]. by left.
  - intros q v Hq Hv. rewrite list_lookup_insert_ne; [by apply Hkeep|].
    intros ->. apply Hkeep in Hq; [|done]. congruence.
Qed.

Lemma fillState_pop regionMap recorded stack p :
  fillState cur map0 regionMap recorded (p :: stack) ->
  fillState cur map0 regionMap (recorded ++ [p]) stack.
Proof. unfold fillState. by rewrite <- !app_assoc. Qed.

Lemma visitNeighbors_fillState img thr start p recorded nbs :
  forall regionMap stack,
    fillState cur map0 regionMap recorded stack ->
    exists regionMap' stack',
      foldl (visitNeighbor img thr start cur p) (regionMap, stack) nbs
      = (regionMap', stack') /\
      fillState cur map0 regionMap' recorded stack' /\
      zeros regionMap' + length stack' = zeros regionMap + length stack.
Proof.
  induction nbs as [|nb nbs IH]; intros regionMap stack Hst; cbn [foldl].
  - by exists regionMap, stack.
  - destruct (visitNeighbor_cases img thr start cur p regionMap stack nb)
      as [->|(n & Hn & Hzero & ->)]; [by apply IH|].
    destruct (IH (<[n := cur]> regionMap) (n :: stack)) as (m' & s' & Hrun & Hst' & Hmeasure).
    { by apply fillState_push. }
    exists m', s'. split; [done|]. split; [done|].
    pose proof (zeros_insert regionMap n cur Hzero cur_nonzero). simpl in *. lia.
Qed.

Lemma recordPixel_pixels img region p :
  Region.pixels (recordPixel img region p) = Region.pixels region ++ [p].
Proof. done. Qed.

Lemma recordPixel_id img region p :
  Region.id (recordPixel img region p) = Region.id region.
Proof. done. Qed.

(** The fill returns within its fuel; at its end the stack is empty. *)
Lemma growRegion_fillState img thr start fuel :
  forall regionMap region stack,
    Region.id region = cur ->
    fillState cur map0 regionMap (Region.pixels region) stack ->
    zeros regionMap + length stack <= fuel ->
    exists regionMap' region',
      growRegion fuel img thr start regionMap region stack = Some (regionMap', region') /\
      Region.id region' = cur /\
      fillState cur map0 regionMap' (Region.pixels region') [].
Proof.
  induction fuel as [|fuel IH]; intros regionMap region stack Hid Hst Hfuel.
  - destruct stack as [|p stack]; [|simpl in Hfuel; lia].
    by exists regionMap, region.
  - destruct stack as [|p stack]; [by exists regionMap, region|].
    cbn [growRegion]. cbv zeta.
    apply fillState_pop in Hst.
    destruct (visitNeighbors_fillState img thr start p (Region.pixels region ++ [p])
                (gridNeighbors (width img) p) regionMap stack Hst)
      as (m' & s' & Hrun & Hst' & Hmeasure).
    rewrite Hid, Hrun.
    apply IH; [done | done | simpl in Hfuel; lia].
Qed.
End flood_fill.

(** ** RegionGrower: the scan *)

Lemma seedRegion_scanState (img : ImageData) (thr : Z) (n i : nat) (seg : Segmentation) :
  0 < regionId seg -> scanState n i seg -> i < n ->
  exists seg', seedRegion img thr seg i = Some seg' /\
               0 < regionId seg' /\ scanState n (S i) seg'.
Proof.
  intros Hpos (Hlen & Hbelow & Hkeys & Hown & Hlive & Hdone) Hi.
  unfold seedRegion. destruct seg as [regionMap regions cur]. cbn [initialRegionMap
    initialRegions regionId] in *.
  case_decide as Hzero.
  2:{ eexists. split; [done|]. split; [done|]. do 5 (split; [done|]).
      intros q Hq. destruct (decide (q = i)) as [->|]; [done|]. apply Hdone. lia. }
  set (map1 := <[i := cur]> regionMap).
  set (fresh := Region.mk cur [] _ _ _ _ _ _ _ _).
  assert (Hmap1_i : map1 !! i = Some cur).
  { unfold map1. apply list_lookup_insert_eq. lia. }
  assert (Hmap1_ne : forall q, q ≠ i -> map1 !! q = regionMap !! q).
  { intros q Hq. unfold map1. by apply list_lookup_insert_ne. }
  destruct (growRegion_fillState cur map1 ltac:(lia) img thr (pixelColor (data img) i)
              (length regionMap) map1 fresh [i])
    as (map' & grown & Hrun & Hid & Hlen' & Hcur & Hnodup & Hold & Hkeep).
  - done.
  - repeat split; try done.
    + intros Hq. destruct (decide (q = i)) as [->|Hne]; [set_solver|].
      rewrite Hmap1_ne in Hq by done. apply Hbelow in Hq. lia.
    + intros Hq. apply list_elem_of_singleton in Hq as ->. done.
    + apply NoDup_singleton.
    + by right.
  - pose proof (zeros_insert regionMap i cur Hzero ltac:(lia)).
    pose proof (zeros_le_length regionMap). fold map1 in H. simpl. lia.
  - rewrite Hrun. cbn. eexists. split; [done|].
    cbn [initialRegionMap initialRegions regionId]. split; [lia|].
    rewrite app_nil_r in Hcur, Hnodup.
    assert (Hold' : forall q v, map' !! q = Some v -> v = cur \/ (q ≠ i /\ regionMap !! q = Some v)).
    { intros q v Hq. destruct (Hold q v Hq) as [->|Hq1]; [by left|].
      destruct (decide (q = i)) as [->|Hne]; [left; congruence|].
      right. by rewrite <- Hmap1_ne. }
    assert (Hkeep' : forall q v, regionMap !! q = Some v -> v ≠ 0 -> map' !! q = Some v).
    { intros q v Hq Hv. apply Hkeep; [|done]. rewrite Hmap1_ne; [done|].
      intros ->. congruence. }
    assert (G1 : length map' = n).
    { rewrite Hlen'. unfold map1. by rewrite length_insert. }
    assert (G2 : forall q v, map' !! q = Some v -> v < S cur).
    { intros q v Hq. destruct (Hold' q v Hq) as [->|[_ Hq1]]; [lia|].
      apply Hbelow in Hq1. lia. }
    assert (G3 : forall id, is_Some (<[cur := grown]> regions !! id) -> id < S cur).
    { intros id [r Hr]. destruct (decide (id = cur)) as [->|Hne]; [lia|].
      rewrite lookup_insert_ne in Hr by done.
      pose proof (Hkeys id (mk_is_Some _ _ Hr)). lia. }
    assert (G4 : regionsOwnPixels (mkSegmentation map' (<[cur := grown]> regions) (S cur))).
    { intros id region Hregion. cbn [initialRegionMap initialRegions] in *.
      destruct (decide (id = cur)) as [->|Hne].
      - rewrite lookup_insert_eq in Hregion. injection Hregion as <-.
        split; [done|]. split; [lia|]. split; [done|]. intros q. symmetry. apply Hcur.
      - rewrite lookup_insert_ne in Hregion by done.
        destruct (Hown id region Hregion) as (Hrid & Hid0 & Hnd & Hpix).
        split; [done|]. split; [done|]. split; [done|]. intros q. split.
        + intros Hq. apply Hpix in Hq. by apply Hkeep'.
        + intros Hq. apply Hpix. destruct (Hold' q id Hq) as [->|[_ Hq1]]; done. }
    assert (G5 : mapLive (mkSegmentation map' (<[cur := grown]> regions) (S cur))).
    { intros q v Hq Hv. cbn [initialRegionMap initialRegions] in *.
      destruct (Hold' q v Hq) as [->|[_ Hq1]].
      - rewrite lookup_insert_eq. done.
      - destruct (Hlive q v Hq1 Hv) as [r Hr].
        destruct (decide (v = cur)) as [->|Hne]; [rewrite lookup_insert_eq; done|].
        rewrite lookup_insert_ne by done. done. }
    assert (G6 : forall q, q < S i -> map' !! q ≠ Some 0).
    { intros q Hq Hq0. destruct (Hold' q 0 Hq0) as [Heq|[Hne Hq1]]; [lia|].
      apply (Hdone q); [lia | done]. }
    exact (conj G1 (conj G2 (conj G3 (conj G4 (conj G5 G6))))).
Qed.

Lemma growRegions_scan (img : ImageData) (thr : Z) (n i : nat) :
  i <= n ->
  exists seg,
    foldl (fun seg i => seg ≫= fun seg => seedRegion img thr seg i)
          (Some (mkSegmentation (replicate n 0) ∅ 1)) (seq 0 i) = Some seg /\
    0 < regionId seg /\ scanState n i seg.
Proof.
  induction i as [|i IH]; intros Hi.
  - eexists. split; [done|]. unfold scanState, regionsOwnPixels, mapLive.
    cbn [initialRegionMap initialRegions regionId]. split; [lia|].
    split; [apply length_replicate|].
    split; [intros q v Hq; apply lookup_replicate in Hq as [-> _]; cbn; lia|].
    split; [intros id [r Hr]; by rewrite lookup_empty in Hr|].
    split; [intros id r Hr; by rewrite lookup_empty in Hr|].
    split; [|lia].
    intros q v Hq Hv. apply lookup_replicate in Hq as [-> _]. done.
  - destruct IH as (seg & Hrun & Hpos & Hst); [lia|].
    rewrite seq_S, foldl_snoc, Hrun. cbn [mbind option_bind].
    apply (seedRegion_scanState img thr n i seg Hpos Hst). lia.
Qed.

Lemma growRegions_grown (img : ImageData) (thr : Z) :
  exists seg,
    growRegions img thr = Some seg /\
    0 < regionId seg /\
    scanState (width img * height img) (width img * height img) seg.
Proof. by apply growRegions_scan. Qed.

(** C1.  For every raster, the flood-fill pass returns, and in its result
    every pixel coordinate carries a nonzero id in the region map, lies in the
    pixel list of the region stored under that id and in the pixel list of no
    other region; no region lists a pixel twice or lists anything but a pixel
    coordinate of the image. *)
Theorem growRegions_partition (img : ImageData) (thr : Z) :
  exists seg,
    growRegions img thr = Some seg /\
    length (initialRegionMap seg) = width img * height img /\
    (forall p, p < width img * height img ->
       exists id region,
         initialRegionMap seg !! p = Some id /\ id ≠ 0 /\
         initialRegions seg !! id = Some region /\
         p ∈ Region.pixels region /\
         forall id' region',
           initialRegions seg !! id' = Some region' -> p ∈ Region.pixels region' ->
           id' = id) /\
    (forall id region,
       initialRegions seg !! id = Some region ->
       Region.id region = id /\ NoDup (Region.pixels region) /\
       forall q, q ∈ Region.pixels region -> q < width img * height img).
Proof.
  destruct (growRegions_grown img thr)
    as (seg & Hrun & _ & Hlen & _ & _ & Hown & Hlive & Hdone).
  exists seg. split; [done|]. split; [done|]. split.
  - intros p Hp.
    destruct (lookup_lt_is_Some_2 (initialRegionMap seg) p) as [id Hid]; [lia|].
    assert (Hid0 : id ≠ 0) by (intros ->; by apply (Hdone p)).
    destruct (Hlive p id Hid Hid0) as [region Hregion].
    exists id, region. do 3 (split; [done|]).
    destruct (Hown id region Hregion) as (_ & _ & _ & Hpix).
    split; [by apply Hpix|].
    intros id' region' Hregion' Hp'.
    destruct (Hown id' region' Hregion') as (_ & _ & _ & Hpix').
    apply Hpix' in Hp'. congruence.
  - intros id region Hregion.
    destruct (Hown id region Hregion) as (Hid & _ & Hnodup & Hpix).
    split; [done|]. split; [done|].
    intros q Hq. apply Hpix in Hq. apply lookup_lt_Some in Hq. lia.
Qed.

(** ** Palette assignment *)

Lemma findClosestColor_defined (avg : option (Pixel * Z)) (palette : list Pixel)
    (ds : list nat) :
  exists c, findClosestColor avg (Some <$> palette) ds = Ok (c, ds) /\ colorFrom palette c.
Proof.
  unfold findClosestColor, bind.
  lazymatch goal with
  | |- context [forEach ?xs ?body ?start ds] =>
      destruct (forEach_invariant
                  (fun best : dist * option Pixel => colorFrom palette best.2)
                  xs body start ds) as ([m c] & -> & Hc)
  end.
  - cbn [snd]. rewrite list_lookup_fmap. destruct palette as [|p palette]; [done|].
    cbn. exists p. split; [done | left].
  - intros oc acc Hoc Hacc. apply list_elem_of_fmap in Hoc as (p & -> & Hp).
    destruct avg as [a|]; [|by eexists].
    eexists. split; [reflexivity|].
    destruct (dist_ltb _ _); [|done]. cbn [snd].
    destruct palette; [by apply elem_of_nil in Hp|]. by exists p.
  - by exists c.
Qed.

Lemma colorFrom_defined (palette : list Pixel) (c1 c2 : option Pixel) :
  colorFrom palette c1 -> colorFrom palette c2 -> c1 ≠ c2 ->
  exists p1 p2, c1 = Some p1 /\ c2 = Some p2.
Proof.
  unfold colorFrom. destruct palette; [congruence|].
  intros (p1 & -> & _) (p2 & -> & _) _. eauto.
Qed.

(** What the loop of step 2 leaves of a table: the map and the counter are
    kept; a region keeps its id and pixels and carries a palette colour once
    its key has been visited; only regions without pixels disappear. *)
Lemma assignColors_loop (palette : list Pixel) (ds : list nat) (ids : list nat) :
  forall seg,
    exists seg',
      forEach ids
        (fun seg id =>
           match initialRegions seg !! id with
           | Some region =>
               if decide (0 < length (Region.pixels region)) then
                 (c <- findClosestColor (avgColor region) (Some <$> palette) ;;
                  ret (mkSegmentation (initialRegionMap seg)
                         (<[id := setColor region c]> (initialRegions seg)) (regionId seg)))
               else ret (mkSegmentation (initialRegionMap seg)
                           (delete id (initialRegions seg)) (regionId seg))
           | None => ret seg
           end)%js seg ds = Ok (seg', ds) /\
      initialRegionMap seg' = initialRegionMap seg /\
      regionId seg' = regionId seg /\
      (forall j r', initialRegions seg' !! j = Some r' ->
         exists r, initialRegions seg !! j = Some r /\
                   Region.id r' = Region.id r /\ Region.pixels r' = Region.pixels r /\
                   (j ∈ ids -> colorFrom palette (Region.color r')) /\
                   (j ∉ ids -> r' = r)) /\
      (forall j r, initialRegions seg !! j = Some r -> Region.pixels r ≠ [] ->
                   is_Some (initialRegions seg' !! j)).
Proof.
  induction ids as [|id ids IH]; intros seg.
  - exists seg. split; [done|]. do 2 (split; [done|]). split; [|eauto].
    intros j r' Hr'. exists r'. do 3 (split; [done|]). split; [|done].
    intros Hj. by apply elem_of_nil in Hj.
  - cbn [forEach]. unfold bind at 1.
    destruct (initialRegions seg !! id) as [region|] eqn:Hregion.
    2:{ unfold ret at 1.
        destruct (IH seg) as (seg' & -> & Hmap & Hctr & Hregions & Hkept).
        exists seg'. split; [done|]. do 2 (split; [done|]). split; [|done].
        intros j r' Hr'. destruct (Hregions j r' Hr') as (r & Hr & Hid & Hpx & Hin & Hout).
        exists r. do 3 (split; [done|]). split.
        - intros Hj. apply elem_of_cons in Hj as [->|Hj]; [congruence | auto].
        - intros Hj. apply Hout. intros ?. apply Hj. by right. }
    case_decide as Hnonempty.
    + unfold bind at 1.
      destruct (findClosestColor_defined (avgColor region) palette ds) as (c & -> & Hc).
      unfold ret at 1.
      destruct (IH (mkSegmentation (initialRegionMap seg)
                      (<[id := setColor region c]> (initialRegions seg)) (regionId seg)))
        as (seg' & -> & Hmap & Hctr & Hregions & Hkept).
      cbn [initialRegionMap initialRegions regionId] in *.
      exists seg'. split; [done|]. do 2 (split; [done|]). split.
      * intros j r' Hr'. destruct (Hregions j r' Hr') as (r1 & Hr1 & Hid & Hpx & Hin & Hout).
        destruct (decide (j = id)) as [->|Hne].
        -- rewrite lookup_insert_eq in Hr1. injection Hr1 as <-.
           exists region. do 3 (split; [done|]). split.
           ++ intros _. destruct (decide (id ∈ ids)) as [Hi|Hi]; [auto|].
              by rewrite (Hout Hi).
           ++ intros Hj. exfalso. apply Hj. left.
        -- rewrite lookup_insert_ne in Hr1 by done.
           exists r1. do 3 (split; [done|]). split.
           ++ intros Hj. apply elem_of_cons in Hj as [->|Hj]; [done | auto].
           ++ intros Hj. apply Hout. intros ?. apply Hj. by right.
      * intros j r Hr Hpx. destruct (decide (j = id)) as [->|Hne].
        -- apply (Hkept id (setColor region c)); [by rewrite lookup_insert_eq|].
           rewrite Hregion in Hr. injection Hr as <-. done.
        -- apply (Hkept j r); [by rewrite lookup_insert_ne | done].
    + unfold ret at 1.
      destruct (IH (mkSegmentation (initialRegionMap seg)
                      (delete id (initialRegions seg)) (regionId seg)))
        as (seg' & -> & Hmap & Hctr & Hregions & Hkept).
      cbn [initialRegionMap initialRegions regionId] in *.
      exists seg'. split; [done|]. do 2 (split; [done|]). split.
      * intros j r' Hr'. destruct (Hregions j r' Hr') as (r1 & Hr1 & Hid & Hpx & Hin & Hout).
        destruct (decide (j = id)) as [->|Hne]; [by rewrite lookup_delete_eq in Hr1|].
        rewrite lookup_delete_ne in Hr1 by done.
        exists r1. do 3 (split; [done|]). split.
        -- intros Hj. apply elem_of_cons in Hj as [->|Hj]; [done | auto].
        -- intros Hj. apply Hout. intros ?. apply Hj. by right.
      * intros j r Hr Hpx. destruct (decide (j = id)) as [->|Hne].
        -- rewrite Hregion in Hr. injection Hr as <-.
           destruct (Region.pixels region); [done | simpl in Hnonempty; lia].
        -- apply (Hkept j r); [by rewrite lookup_delete_ne | done].
Qed.

Lemma regionKeys_complete (seg : Segmentation) (id : nat) :
  (forall id, is_Some (initialRegions seg !! id) -> id < regionId seg) ->
  is_Some (initialRegions seg !! id) -> id ∈ regionKeys seg.
Proof.
  intros Hkeys Hid. unfold regionKeys. apply list_elem_of_filter. split; [done|].
  apply elem_of_seq. specialize (Hkeys id Hid). lia.
Qed.

(** Step 2 turns the result of the scan into a state for the merger, with a
    palette colour on every region. *)
Lemma assignColors_mergeState (palette : list Pixel) (n : nat) (seg : Segmentation)
    (ds : list nat) :
  scanState n n seg ->
  exists seg',
    assignColors (Some <$> palette) seg ds = Ok (seg', ds) /\
    mergeState n seg' /\ colorsFrom palette seg'.
Proof.
  intros (Hlen & Hbelow & Hkeys & Hown & Hlive & Hdone).
  destruct (assignColors_loop palette ds (regionKeys seg) seg)
    as (seg' & Hrun & Hmap & Hctr & Hregions & Hkept).
  exists seg'. split; [exact Hrun|]. split; [split; [|split; [|split]]|].
  - by rewrite Hmap.
  - intros j r' Hr'. destruct (Hregions j r' Hr') as (r & Hr & Hid & Hpx & _ & _).
    destruct (Hown j r Hr) as (Hrid & Hj0 & Hnd & Hpix).
    rewrite Hid, Hpx, Hmap. done.
  - intros q v Hq Hv. rewrite Hmap in Hq.
    destruct (Hlive q v Hq Hv) as [r Hr].
    apply (Hkept v r Hr). destruct (Hown v r Hr) as (_ & _ & _ & Hpix).
    apply Hpix in Hq. intros Hnil. rewrite Hnil in Hq. by apply elem_of_nil in Hq.
  - intros q Hq. rewrite Hmap in Hq. apply (Hdone q); [|done].
    apply lookup_lt_Some in Hq. lia.
  - intros j r' Hr'. destruct (Hregions j r' Hr') as (r & Hr & _ & _ & Hin & _).
    apply Hin. apply regionKeys_complete; [done|]. by rewrite Hr.
Qed.

(** ** RegionMerger: one merge step *)

Lemma foldl_invariant {A B} (I : B -> Prop) (f : B -> A -> B) (l : list A) (b : B) :
  I b -> (forall b' a, a ∈ l -> I b' -> I (f b' a)) -> I (foldl f b l).
Proof.
  revert b. induction l as [|a l IH]; intros b Hb Hf; [done|].
  cbn [foldl]. apply IH; [apply Hf; [left | done]|].
  intros b' a' Ha'. apply Hf. by right.
Qed.

Lemma elem_of_setAdd {A} `{EqDecision A} (x y : A) (s : list A) :
  y ∈ setAdd x s <-> y = x \/ y ∈ s.
Proof.
  unfold setAdd. case_decide as Hx.
  - split; [by right|]. by intros [->|?].
  - rewrite elem_of_app, list_elem_of_singleton. tauto.
Qed.

Lemma neighborIdsOf_live (w : nat) (seg : Segmentation) (region : Region.t) (b : nat) :
  b ∈ neighborIdsOf w seg region ->
  b ≠ Region.id region /\ is_Some (initialRegions seg !! b).
Proof.
  unfold neighborIdsOf.
  set (P := fun ids : list nat =>
              forall b, b ∈ ids -> b ≠ Region.id region /\ is_Some (initialRegions seg !! b)).
  intros Hb. revert b Hb. change (P (foldl
    (fun ids pixelIndex =>
       foldl (fun ids neighborIndex =>
                let n := Z.to_nat neighborIndex in
                if decide ((0 <= neighborIndex)%Z /\ n < length (initialRegionMap seg)) then
                  match initialRegionMap seg !! n with
                  | Some neighborId =>
                      if decide (neighborId ≠ Region.id region /\
                                 is_Some (initialRegions seg !! neighborId))
                      then setAdd neighborId ids else ids
                  | None => ids
                  end
                else ids)
             ids (gridNeighbors w pixelIndex))
    [] (Region.pixels region))).
  apply foldl_invariant.
  - intros b Hb. by apply elem_of_nil in Hb.
  - intros ids p _ Hids. apply foldl_invariant; [done|].
    intros ids' nb _ Hids'. cbv zeta.
    case_decide; [|done]. destruct (initialRegionMap seg !! _) as [v|]; [|done].
    case_decide as Hv; [|done].
    intros b Hb. apply elem_of_setAdd in Hb as [->|Hb]; [done | by apply Hids'].
Qed.

Lemma bestNeighbor_defined (palette : list Pixel) (seg : Segmentation) (region : Region.t)
    (ids : list nat) (ds : list nat) :
  colorsFrom palette seg -> colorFrom palette (Region.color region) ->
  (forall b, b ∈ ids -> is_Some (initialRegions seg !! b)) ->
  exists best,
    bestNeighbor seg region ids ds = Ok (best, ds) /\
    forall b, best = Some b -> b ∈ ids.
Proof.
  intros Hcolors Hcolor Hids. unfold bestNeighbor, bind.
  lazymatch goal with
  | |- context [forEach ?xs ?body ?start ds] =>
      destruct (forEach_invariant
                  (fun acc : bool * dist * option nat => forall b, acc.2 = Some b -> b ∈ ids)
                  xs body start ds) as ([[flag m] best] & -> & Hbest)
  end.
  - done.
  - intros b acc Hb Hacc. destruct acc.1.1; [by eexists|].
    destruct (Hids b Hb) as [neighbor Hneighbor]. rewrite Hneighbor.
    case_decide as Hsame.
    + eexists. split; [reflexivity|]. cbn [snd]. by intros ? [= <-].
    + destruct (colorFrom_defined palette (Region.color region) (Region.color neighbor))
        as (p1 & p2 & -> & ->); [done | by apply (Hcolors b) | done |].
      eexists. split; [reflexivity|].
      destruct (dist_ltb _ _); [|done]. cbn [snd]. by intros ? [= <-].
  - by exists best.
Qed.

Lemma reassign_length (b : nat) (ps : list nat) (m : list nat) :
  length (foldl (fun m p => <[p := b]> m) m ps) = length m.
Proof.
  revert m. induction ps as [|p ps IH]; intros m; [done|].
  cbn [foldl]. by rewrite IH, length_insert.
Qed.

Lemma reassign_lookup (b : nat) (ps : list nat) (m : list nat) (q : nat) :
  foldl (fun m p => <[p := b]> m) m ps !! q =
  if decide (q ∈ ps /\ q < length m) then Some b else m !! q.
Proof.
  revert m. induction ps as [|p ps IH]; intros m; cbn [foldl].
  - rewrite decide_False; [done|]. intros [H _]. by apply elem_of_nil in H.
  - rewrite IH, length_insert, list_lookup_insert.
    destruct (decide (q ∈ ps /\ q < length m)) as [[Hq Hlt]|Hq].
    + rewrite decide_True; [done|]. split; [by right | done].
    + destruct (decide (p = q /\ p < length m)) as [[-> Hlt]|Hp].
      * rewrite decide_True; [done|]. split; [left | done].
      * rewrite decide_False; [done|]. intros [Hin Hlt].
        apply elem_of_cons in Hin as [->|Hin]; tauto.
Qed.

(** Merging the region stored under [id] into the live region [b]: every map
    entry the region owned now reads [b], the region is gone, and the state
    is again one the merger works on. *)
Lemma mergeInto_mergeState (palette : list Pixel) (n : nat) (seg : Segmentation)
    (id b : nat) (region : Region.t) (ds : list nat) :
  mergeState n seg -> colorsFrom palette seg ->
  initialRegions seg !! id = Some region ->
  is_Some (initialRegions seg !! b) -> b ≠ id ->
  exists seg',
    mergeInto seg id region b ds = Ok (seg', ds) /\
    mergeState n seg' /\ colorsFrom palette seg' /\
    initialRegions seg' !! id = None /\
    is_Some (initialRegions seg' !! b) /\
    (forall q, initialRegionMap seg !! q = Some id -> initialRegionMap seg' !! q = Some b) /\
    (forall q, initialRegionMap seg' !! q ≠ Some id).
Proof.
  intros (Hlen & Hown & Hlive & Hnonzero) Hcolors Hregion [target Htarget] Hne.
  unfold mergeInto. rewrite Htarget. eexists. split; [reflexivity|].
  destruct (Hown id region Hregion) as (Hrid & Hid0 & Hrnd & Hrpix).
  destruct (Hown b target Htarget) as (Htid & Hb0 & Htnd & Htpix).
  set (map' := foldl _ _ _).
  assert (Hmap' : forall q, map' !! q =
            if decide (initialRegionMap seg !! q = Some id) then Some b
            else initialRegionMap seg !! q).
  { intros q. unfold map'. rewrite reassign_lookup.
    destruct (decide (initialRegionMap seg !! q = Some id)) as [Hq|Hq].
    - rewrite decide_True; [done|]. split; [by apply Hrpix|].
      by apply lookup_lt_Some in Hq.
    - rewrite decide_False; [done|]. intros [Hin _]. by apply Hrpix in Hin. }
  cbn [initialRegionMap initialRegions].
  assert (G1 : length map' = n) by (unfold map'; by rewrite reassign_length).
  assert (Hlookup : forall j,
            delete id (<[b := absorb target region]> (initialRegions seg)) !! j =
            if decide (j = id) then None
            else if decide (j = b) then Some (absorb target region)
            else initialRegions seg !! j).
  { intros j. destruct (decide (j = id)) as [->|Hjid]; [by rewrite lookup_delete_eq|].
    rewrite lookup_delete_ne by done.
    destruct (decide (j = b)) as [->|Hjb]; [by rewrite lookup_insert_eq|].
    by rewrite lookup_insert_ne. }
  split; [split; [exact G1 | split; [|split]]|split; [|split; [|split; [|split]]]].
  - intros j r Hr. cbn [initialRegionMap initialRegions] in *. rewrite Hlookup in Hr.
    destruct (decide (j = id)); [done|]. destruct (decide (j = b)) as [->|Hjb].
    + injection Hr as <-. cbn [absorb Region.id Region.pixels].
      split; [done|]. split; [done|]. split.
      * apply NoDup_app. split; [done|]. split; [|done].
        intros q Hq1 Hq2. apply Htpix in Hq1. apply Hrpix in Hq2. congruence.
      * intros q. rewrite Hmap', elem_of_app, Htpix, Hrpix.
        case_decide as Hq; [tauto|]. tauto.
    + destruct (Hown j r Hr) as (Hjid & Hj0 & Hjnd & Hjpix).
      split; [done|]. split; [done|]. split; [done|].
      intros q. rewrite Hmap', Hjpix. case_decide as Hq; [|done].
      split; congruence.
  - intros q v Hq Hv. cbn [initialRegionMap initialRegions] in *.
    rewrite Hlookup. rewrite Hmap' in Hq. case_decide as Hq'.
    + injection Hq as <-. rewrite decide_False, decide_True by done. done.
    + destruct (decide (v = id)) as [->|Hvid]; [done|].
      case_decide; [done|]. by apply (Hlive q).
  - intros q. cbn [initialRegionMap]. rewrite Hmap'. case_decide; [congruence|].
    apply Hnonzero.
  - intros j r Hr. cbn [initialRegions] in Hr. rewrite Hlookup in Hr.
    destruct (decide (j = id)); [done|]. destruct (decide (j = b)) as [->|Hjb].
    + injection Hr as <-. cbn [absorb Region.color]. by apply (Hcolors b).
    + by apply (Hcolors j).
  - by rewrite lookup_delete_eq.
  - rewrite Hlookup, decide_False, decide_True by done. done.
  - intros q Hq. rewrite Hmap'. by rewrite decide_True.
  - intros q. rewrite Hmap'. case_decide; congruence.
Qed.

(** One round of the merge loop keeps the state of the merger; it never
    throws and draws nothing. *)
Lemma mergeStep_mergeState (palette : list Pixel) (img : ImageData) (options : Options)
    (n : nat) (seg : Segmentation) (id : nat) (ds : list nat) :
  mergeState n seg -> colorsFrom palette seg ->
  exists seg',
    mergeStep img options seg id ds = Ok (seg', ds) /\
    mergeState n seg' /\ colorsFrom palette seg' /\
    (seg' = seg \/
     exists b, b ≠ id /\
       initialRegions seg' !! id = None /\
       is_Some (initialRegions seg' !! b) /\
       (forall q, initialRegionMap seg !! q = Some id ->
                  initialRegionMap seg' !! q = Some b) /\
       (forall q, initialRegionMap seg' !! q ≠ Some id)).
Proof.
  intros Hst Hcolors. unfold mergeStep.
  destruct (initialRegions seg !! id) as [region|] eqn:Hregion;
    [|exists seg; by repeat (split; [done|]); left].
  destruct (negb _ && negb _); [exists seg; by repeat (split; [done|]); left|].
  unfold bind.
  destruct (bestNeighbor_defined palette seg region
              (neighborIdsOf (width img) seg region) ds)
    as (best & -> & Hbest); [done | by apply (Hcolors id) | |].
  { intros b Hb. by apply neighborIdsOf_live in Hb as [_ ?]. }
  destruct best as [b|]; [|exists seg; by repeat (split; [done|]); left].
  destruct (neighborIdsOf_live _ _ _ _ (Hbest b eq_refl)) as [Hne Hlive].
  destruct Hst as (Hlen & Hown & Hrest).
  destruct (Hown id region Hregion) as (Hrid & _).
  rewrite Hrid in Hne.
  destruct (mergeInto_mergeState palette n seg id b region ds)
    as (seg' & Hrun & Hst' & Hcolors' & Hgone & Htarget & Hmoved & Hnone); try done.
  exists seg'. do 3 (split; [done|]). right. by exists b.
Qed.

Lemma mergeLoop_mergeState (palette : list Pixel) (img : ImageData) (options : Options)
    (n : nat) (ids : list nat) (seg : Segmentation) (ds : list nat) :
  mergeState n seg -> colorsFrom palette seg ->
  exists seg',
    forEach ids (mergeStep img options) seg ds = Ok (seg', ds) /\
    mergeState n seg' /\ colorsFrom palette seg'.
Proof.
  intros Hst Hcolors.
  destruct (forEach_invariant (fun seg => mergeState n seg /\ colorsFrom palette seg)
              ids (mergeStep img options) seg ds) as (seg' & Hrun & Hst' & Hcolors').
  - done.
  - intros id seg0 _ [Hst0 Hcolors0].
    destruct (mergeStep_mergeState palette img options n seg0 id ds Hst0 Hcolors0)
      as (seg1 & Hrun1 & Hst1 & Hcolors1 & _).
    by exists seg1.
  - by exists seg'.
Qed.

Lemma forEach_snoc {A S} (xs : list A) (x : A) (body : S -> A -> Js S) (acc : S)
    (ds : list nat) :
  forEach (xs ++ [x]) body acc ds =
  match forEach xs body acc ds with
  | Ok (acc', ds') => body acc' x ds'
  | Throw e => Throw e
  | Starved => Starved
  end.
Proof.
  revert acc ds. induction xs as [|y xs IH]; intros acc ds; cbn [forEach app].
  - unfold bind, ret. by destruct (body acc x ds) as [[? ?]| |].
  - unfold bind. destruct (body acc y ds) as [[acc1 ds1]| |]; [|done|done].
    apply IH.
Qed.

(** C6.  The region growing and the palette assignment return; then, after
    any number [k] of rounds of the merge loop, every nonzero id in the
    region map is the key of a region still in the table, and every region in
    the table lists exactly the pixels the map gives to it.  The next round
    either changes nothing or deletes the region [id] it visits: then every
    map entry that read [id] reads the id [b] of a region that is live after
    the round, and no entry reads [id] any more. *)
Theorem merge_keeps_region_map_live
    (img : ImageData) (palette : list Pixel) (options : Options) (ds : list nat) :
  exists grown assigned,
    growRegions img (colorThreshold options) = Some grown /\
    assignColors (Some <$> palette) grown ds = Ok (assigned, ds) /\
    forall k,
      exists seg,
        forEach (take k (sortedRegionIds assigned)) (mergeStep img options) assigned ds
        = Ok (seg, ds) /\
        mapLive seg /\ regionsOwnPixels seg /\
        forall id,
          sortedRegionIds assigned !! k = Some id ->
          exists seg',
            forEach (take (S k) (sortedRegionIds assigned)) (mergeStep img options)
                    assigned ds = Ok (seg', ds) /\
            mergeStep img options seg id ds = Ok (seg', ds) /\
            (seg' = seg \/
             exists b, b ≠ id /\
               initialRegions seg' !! id = None /\
               is_Some (initialRegions seg' !! b) /\
               (forall q, initialRegionMap seg !! q = Some id ->
                          initialRegionMap seg' !! q = Some b) /\
               (forall q, initialRegionMap seg' !! q ≠ Some id)).
Proof.
  destruct (growRegions_grown img (colorThreshold options)) as (grown & Hgrown & _ & Hscan).
  destruct (assignColors_mergeState palette _ grown ds Hscan)
    as (assigned & Hassigned & Hst & Hcolors).
  exists grown, assigned. do 2 (split; [done|]). intros k.
  destruct (mergeLoop_mergeState palette img options _
              (take k (sortedRegionIds assigned)) assigned ds Hst Hcolors)
    as (seg & Hrun & Hst' & Hcolors').
  exists seg. split; [done|].
  pose proof Hst' as (_ & Hown & Hlive & _). do 2 (split; [done|]).
  intros id Hid.
  destruct (mergeStep_mergeState palette img options _ seg id ds Hst' Hcolors')
    as (seg' & Hstep & _ & _ & Heffect).
  exists seg'. split; [|by split].
  rewrite (take_S_r _ _ _ Hid), forEach_snoc, Hrun. done.
Qed.

(** ** LabelPlacer: the erosion returns *)

Lemma list_max_exists (l : list Z) :
  l ≠ [] -> exists m, m ∈ l /\ forall x, x ∈ l -> (x <= m)%Z.
Proof.
  induction l as [|a l IH]; [done|]. intros _.
  destruct l as [|b l].
  - exists a. split; [left|]. intros x Hx. apply list_elem_of_singleton in Hx. lia.
  - destruct IH as (m & Hm & Hmax); [done|].
    destruct (decide (a <= m)%Z).
    + exists m. split; [by right|]. intros x Hx.
      apply elem_of_cons in Hx as [->|Hx]; [done | by apply Hmax].
    + exists a. split; [left|]. intros x Hx.
      apply elem_of_cons in Hx as [->|Hx]; [done|]. specialize (Hmax x Hx). lia.
Qed.

Lemma boundary_nonempty (width : Z) (currentPixels : list Z) :
  currentPixels ≠ [] ->
  exists m, m ∈ currentPixels /\ onBoundary width currentPixels m.
Proof.
  intros Hne. destruct (list_max_exists currentPixels Hne) as (m & Hm & Hmax).
  exists m. split; [done|]. unfold onBoundary, labelNeighbors.
  apply Exists_cons_tl, Exists_cons_hd. intros Hin. specialize (Hmax _ Hin). lia.
Qed.

Lemma erode_returns (width : Z) (fuel : nat) :
  forall currentPixels lastPixels,
    length currentPixels <= fuel ->
    is_Some (erode fuel width currentPixels lastPixels).
Proof.
  induction fuel as [|fuel IH]; intros current last Hlen.
  - destruct current; [done | simpl in Hlen; lia].
  - destruct current as [|p current']; [done|].
    set (current := p :: current') in *. cbn [erode]. fold current. cbv zeta.
    case_decide; [done|]. apply IH.
    destruct (boundary_nonempty width current) as (m & Hm & Hb); [done|].
    assert (length (filter (fun q => q ∉ filter (onBoundary width current) current) current)
            < length current); [|lia].
    apply (length_filter_lt _ _ m); [done|].
    intros Hout. apply Hout. by apply list_elem_of_filter.
Qed.

Lemma findBestLabelPosition_returns (pixels : list Z) (width : Z) :
  is_Some (findBestLabelPosition pixels width).
Proof.
  unfold findBestLabelPosition. destruct pixels as [|p pixels]; [done|].
  destruct (erode_returns width (length (setOf (p :: pixels))) (setOf (p :: pixels)) [])
    as [lastPixels ->]; [done|].
  cbn. by destruct lastPixels.
Qed.

(** ** Renderer: the colored raster *)

Lemma forEach_pure {A S} (f : S -> A -> S) (xs : list A) (body : S -> A -> Js S)
    (acc : S) (ds : list nat) :
  (forall x acc0, x ∈ xs -> body acc0 x ds = Ok (f acc0 x, ds)) ->
  forEach xs body acc ds = Ok (foldl f acc xs, ds).
Proof.
  revert acc. induction xs as [|x xs IH]; intros acc Hbody; [done|].
  cbn [forEach foldl]. unfold bind. rewrite Hbody by left.
  apply IH. intros y acc0 Hy. apply Hbody. by right.
Qed.

Lemma outlineLabels_returns (w : nat) (colors : list (option Pixel)) (options : Options)
    (seg : Segmentation) (ds : list nat) :
  exists numbers, outlineLabels w colors options seg ds = Ok (numbers, ds).
Proof.
  unfold outlineLabels.
  lazymatch goal with
  | |- context [forEach ?xs ?body ?start ds] =>
      destruct (forEach_invariant (fun _ => True) xs body start ds) as (numbers & -> & _)
  end; [done| |by eexists].
  intros id acc _ _. destruct (initialRegions seg !! id) as [region|]; [|by eexists].
  destruct (_ <? _)%Z; [by eexists|]. unfold bind, fueled.
  destruct (findBestLabelPosition_returns (Z.of_nat <$> Region.pixels region) (Z.of_nat w))
    as [position ->].
  destruct (list_find _ colors) as [[colorIndex ?]|]; by eexists.
Qed.

(** In a state of the merger with a nonempty palette, every pixel has a
    region colour, and it is a colour of the palette. *)
Lemma regionColorAt_defined (palette : list Pixel) (n : nat) (seg : Segmentation) (i : nat) :
  mergeState n seg -> colorsFrom palette seg -> palette ≠ [] -> i < n ->
  exists id region c,
    initialRegionMap seg !! i = Some id /\ id ≠ 0 /\
    initialRegions seg !! id = Some region /\
    Region.color region = Some c /\ c ∈ palette /\
    regionColorAt seg i = Some c.
Proof.
  intros (Hlen & Hown & Hlive & Hnonzero) Hcolors Hpalette Hi.
  destruct (lookup_lt_is_Some_2 (initialRegionMap seg) i) as [id Hid]; [lia|].
  assert (Hid0 : id ≠ 0) by (intros ->; by apply (Hnonzero i)).
  destruct (Hlive i id Hid Hid0) as [region Hregion].
  pose proof (Hcolors id region Hregion) as Hc. unfold colorFrom in Hc.
  destruct palette as [|p0 palette]; [done|]. destruct Hc as (c & Hc & Hin).
  exists id, region, c. do 5 (split; [done|]).
  unfold regionColorAt. rewrite Hid. cbn. rewrite Hregion. cbn. done.
Qed.

Lemma colorRegions_painted (palette : list Pixel) (w h : nat) (seg : Segmentation)
    (ds : list nat) :
  0 < w * h -> mergeState (w * h) seg -> colorsFrom palette seg -> palette ≠ [] ->
  exists coloredImageData,
    colorRegions w h seg ds = Ok (coloredImageData, ds) /\
    width coloredImageData = w /\ height coloredImageData = h /\
    length (data coloredImageData) = 4 * (w * h) /\
    forall i c, i < w * h -> regionColorAt seg i = Some c ->
      data coloredImageData !! (4 * i) = Some (clamp8 (chanR c)) /\
      data coloredImageData !! (4 * i + 1) = Some (clamp8 (chanG c)) /\
      data coloredImageData !! (4 * i + 2) = Some (clamp8 (chanB c)) /\
      data coloredImageData !! (4 * i + 3) = Some 255%Z.
Proof.
  intros Hpos Hst Hcolors Hpalette.
  unfold colorRegions, newImageData, bind.
  rewrite decide_False by lia. unfold ret at 1. cbn [data].
  set (chan := fun (sel : Pixel -> Z) (i : nat) =>
                 sel (default (0, 0, 0)%Z (regionColorAt seg i))).
  rewrite (forEach_pure
             (fun d i => writeRGBA d i (chan chanR i) (chan chanG i) (chan chanB i) 255)).
  2:{ intros i d Hi. apply elem_of_seq in Hi. pose proof Hst as (Hlen & _).
      rewrite Hlen in Hi.
      destruct (regionColorAt_defined palette (w * h) seg i)
        as (id & region & c & Hid & Hid0 & Hregion & Hc & _ & Hat); try done; [lia|].
      unfold paintPixel. rewrite Hid, decide_True by lia. rewrite Hregion, Hc.
      unfold chan. rewrite Hat. done. }
  eexists. split; [reflexivity|]. cbn [width height data].
  split; [done|]. split; [done|].
  split; [by rewrite pixel_loop_length, length_replicate|].
  intros i c Hi Hc. destruct Hst as (Hlen & _). rewrite Hlen.
  assert (Hlk : forall ch, ch < 4 ->
            foldl (fun d i => writeRGBA d i (chan chanR i) (chan chanG i) (chan chanB i) 255)
                  (replicate (4 * (w * h)) 0%Z) (seq 0 (w * h)) !! (4 * i + ch) =
            Some (clamp8 (nth ch [chanR c; chanG c; chanB c; 255%Z] 0%Z))).
  { intros ch Hch. rewrite pixel_loop_lookup.
    2:{ intros p Hp. apply elem_of_seq in Hp. rewrite length_replicate. lia. }
    destruct (pixel_channel_div_mod i ch Hch) as [-> ->].
    rewrite decide_True by (apply elem_of_seq; lia).
    unfold chan. rewrite Hc. done. }
  rewrite <- (Nat.add_0_r (4 * i)) at 1.
  rewrite !Hlk by lia. done.
Qed.

(** C10.  For a raster with at least one pixel and a nonempty palette of
    8-bit colours, [generatePbnImage] returns, and every pixel of the colored
    raster carries the palette colour of the region that owns it after the
    merge pass, with alpha 255. *)
Theorem colored_raster_fully_painted
    (img : ImageData) (palette : list Pixel) (options : Options) (ds : list nat) :
  0 < width img * height img -> palette ≠ [] -> Forall bytePixel palette ->
  exists grown assigned merged result,
    growRegions img (colorThreshold options) = Some grown /\
    assignColors (Some <$> palette) grown ds = Ok (assigned, ds) /\
    mergeRegions img options assigned ds = Ok (merged, ds) /\
    generatePbnImage img (Some <$> palette) options ds = Ok (result, ds) /\
    width (colored result) = width img /\ height (colored result) = height img /\
    length (data (colored result)) = 4 * (width img * height img) /\
    forall i, i < width img * height img ->
      exists id region c,
        initialRegionMap merged !! i = Some id /\ id ≠ 0 /\
        initialRegions merged !! id = Some region /\
        Region.color region = Some c /\ c ∈ palette /\
        data (colored result) !! (4 * i) = Some (chanR c) /\
        data (colored result) !! (4 * i + 1) = Some (chanG c) /\
        data (colored result) !! (4 * i + 2) = Some (chanB c) /\
        data (colored result) !! (4 * i + 3) = Some 255%Z.
Proof.
  intros Hpos Hpalette Hbytes.
  destruct (growRegions_grown img (colorThreshold options)) as (grown & Hgrown & _ & Hscan).
  destruct (assignColors_mergeState palette _ grown ds Hscan)
    as (assigned & Hassigned & Hst & Hcolors).
  destruct (mergeLoop_mergeState palette img options _ (sortedRegionIds assigned)
              assigned ds Hst Hcolors) as (merged & Hmerged & Hst' & Hcolors').
  destruct (outlineLabels_returns (width img) (Some <$> palette) options merged ds)
    as (numbers & Hnumbers).
  destruct (colorRegions_painted palette (width img) (height img) merged ds
              Hpos Hst' Hcolors' Hpalette)
    as (coloredImageData & Hcolored & Hw & Hh & Hlen & Hdata).
  eexists grown, assigned, merged, _. do 3 (split; [done|]). split.
  { unfold generatePbnImage, mergeRegions, bind, fueled. rewrite Hgrown, Hassigned.
    rewrite Hmerged, Hnumbers, Hcolored.
    reflexivity. }
  cbn [colored]. do 3 (split; [done|]). intros i Hi.
  destruct (regionColorAt_defined palette _ merged i Hst' Hcolors' Hpalette Hi)
    as (id & region & c & Hid & Hid0 & Hregion & Hc & Hin & Hat).
  exists id, region, c. do 5 (split; [done|]).
  destruct (Hdata i c Hi Hat) as (Hr & Hg & Hb & Ha).
  destruct (proj1 (Forall_forall _ _) Hbytes c Hin) as (Hcr & Hcg & Hcb).
  rewrite Hr, Hg, Hb, !clamp8_byte by done. done.
Qed.

Lemma colored_raster_fully_painted_witness :
  0 < width stripe9x1 * height stripe9x1 /\ greyRedPalette ≠ [] /\
  Forall bytePixel greyRedPalette /\
  exists result,
    generatePbnImage stripe9x1 (Some <$> greyRedPalette) stripeOptions [] = Ok (result, []) /\
    length (data (colored result)) = 36 /\
    exists c, c ∈ greyRedPalette /\
              data (colored result) !! (4 * 8) = Some (chanR c) /\
              data (colored result) !! (4 * 8 + 3) = Some 255%Z.
Proof.
  assert (H1 : 0 < width stripe9x1 * height stripe9x1) by (simpl; lia).
  assert (H2 : greyRedPalette ≠ []) by done.
  assert (H3 : Forall bytePixel greyRedPalette).
  { unfold greyRedPalette.
    repeat (apply Forall_cons; split;
            [unfold bytePixel, chanR, chanG, chanB; simpl; lia|]).
    by apply Forall_nil. }
  split; [exact H1|]. split; [exact H2|]. split; [exact H3|].
  destruct (colored_raster_fully_painted stripe9x1 greyRedPalette stripeOptions [] H1 H2 H3)
    as (grown & assigned & merged & result & _ & _ & _ & Hrun & _ & _ & Hlen & Hdata).
  exists result. split; [exact Hrun|]. split; [exact Hlen|].
  destruct (Hdata 8 ltac:(simpl; lia))
    as (id & region & c & _ & _ & _ & _ & Hin & Hr & _ & _ & Ha).
  exists c. split; [exact Hin|]. split; [exact Hr | exact Ha].
Defined.

(** ** The message handler *)

Lemma getPixels_nonempty (img : ImageData) :
  4 <= length (data img) -> getPixels img ≠ [].
Proof.
  unfold getPixels. destruct (data img) as [|r [|g [|b [|a rest]]]]; simpl; try lia. done.
Qed.

Lemma samplePixels_nonempty {A} (pixels : list A) (sampleSize : nat) :
  pixels ≠ [] -> samplePixels pixels sampleSize ≠ [].
Proof.
  intros Hne. unfold samplePixels. destruct pixels as [|p pixels]; [done|].
  case_decide; [done|]. case_decide; [done|]. done.
Qed.

(** With [k <= 0] no centroid is seeded and no cluster is made; the first
    pixel is pushed onto [clusters[0]], which is [undefined]. *)
Lemma kmeans_no_clusters (pixels : list Pixel) (k : Z) (ds : list nat) :
  pixels ≠ [] -> (k <= 0)%Z ->
  kmeans pixels k ds = Throw (TypeErrorReadOfUndefined "push").
Proof.
  intros Hne Hk. unfold kmeans. unfold bind at 1.
  assert (Hseed : seedCentroids pixels k [] [] ds = Ok ([], ds)).
  { destruct ds; cbn [seedCentroids]; rewrite decide_False; try done; simpl; lia. }
  rewrite Hseed. apply kmeansLoop_assign_throws.
  destruct pixels as [|pixel pixels]; [done|].
  unfold assignPixels, closestCentroidIndex.
  destruct k as [|k|k]; try lia; reflexivity.
Qed.

(** C8 as written fails: for [k = 0] on a 1x1 raster the response is
    an error, but not one that a validation of the input raised. *)
Lemma onmessage_validation_counterexample :
  ~ (forall (img : ImageData) (options : Options) (k : Z) (ds : list nat),
        wfImageData img -> (k < 1)%Z ->
        exists message, onmessage img options k ds = Some (Failure (ThrownError message))).
Proof.
  intros H. destruct (H onePixel stripeOptions 0%Z []) as [message Hrun].
  - repeat split; simpl; try lia. repeat (constructor; [lia|]). constructor.
  - lia.
  - vm_compute in Hrun. discriminate Hrun.
Qed.

(** With [k < 1] on a raster with at least one pixel the run ends at once,
    with the [TypeError] of the first push onto the missing cluster 0. *)
Lemma onmessage_nonpositive_palette_size
    (img : ImageData) (options : Options) (k : Z) (ds : list nat) :
  4 <= length (data img) -> (k < 1)%Z ->
  onmessage img options k ds = Some (Failure (TypeErrorReadOfUndefined "push")).
Proof.
  intros Hdata Hk. unfold onmessage, pipeline. cbv zeta. unfold bind at 1.
  rewrite kmeans_no_clusters; [done| |lia].
  by apply samplePixels_nonempty, getPixels_nonempty.
Qed.

(** ** The message handler: nothing is validated *)

Lemma unvalidated_bind {A B} (m : Js A) (f : A -> Js B) (ds : list nat) :
  unvalidated (m ds) -> (forall a ds', unvalidated (f a ds')) -> unvalidated (bind m f ds).
Proof. unfold bind. destruct (m ds) as [[a ds']|e|]; [|done..]. auto. Qed.

Lemma unvalidated_forEach {A S} (xs : list A) (body : S -> A -> Js S) :
  (forall x acc ds, unvalidated (body acc x ds)) ->
  forall acc ds, unvalidated (forEach xs body acc ds).
Proof.
  intros Hbody. induction xs as [|x xs IH]; intros acc ds; [done|].
  cbn [forEach]. apply unvalidated_bind; auto.
Qed.

Ltac unvalidated_step :=
  lazymatch goal with
  | |- unvalidated (bind _ _ _) => apply unvalidated_bind; [|intros ? ?]
  | |- unvalidated (forEach _ _ _ _) => apply unvalidated_forEach; intros ? ? ?
  | |- unvalidated (ret _ _) => exact I
  | |- unvalidated (throw _ _) => exact I
  | |- unvalidated (Ok _) => exact I
  | |- unvalidated Starved => exact I
  | |- unvalidated (match ?x with _ => _ end _) => destruct x
  | |- unvalidated (match ?x with _ => _ end) => destruct x
  | |- unvalidated (let _ := _ in _) => cbv zeta
  end.

Lemma euclideanDistance_unvalidated (p1 p2 : option Pixel) (ds : list nat) :
  unvalidated (euclideanDistance p1 p2 ds).
Proof. unfold euclideanDistance. repeat unvalidated_step. Qed.

Lemma seedCentroids_unvalidated (pixels : list Pixel) (k : Z) (ds : list nat) :
  forall cs used, unvalidated (seedCentroids pixels k cs used ds).
Proof.
  induction ds as [|d ds IH]; intros cs used; cbn [seedCentroids]; case_decide; try done.
  case_decide; apply IH.
Qed.

Lemma kmeansLoop_unvalidated (pixels : list Pixel) (k : Z) (n : nat) :
  forall cs cls ds, unvalidated (kmeansLoop n pixels k cs cls ds).
Proof.
  induction n as [|n IH]; intros cs cls ds; [done|]. cbn [kmeansLoop].
  unfold assignPixels, closestCentroidIndex, recomputeCentroids, hasConverged, randomIndex.
  repeat first [apply euclideanDistance_unvalidated | apply IH | unvalidated_step].
Qed.

Lemma kmeans_unvalidated (pixels : list Pixel) (k : Z) (ds : list nat) :
  unvalidated (kmeans pixels k ds).
Proof.
  unfold kmeans. apply unvalidated_bind; [apply seedCentroids_unvalidated|].
  intros cs ds'. apply kmeansLoop_unvalidated.
Qed.

Lemma selectColors_unvalidated (k : Z) (n : nat) :
  forall finalPalette candidates ds,
    unvalidated (selectColors n finalPalette candidates k ds).
Proof.
  induction n as [|n IH]; intros finalPalette candidates ds; [done|]. cbn [selectColors].
  unfold bestCandidate, minDistanceToPalette.
  repeat first [apply euclideanDistance_unvalidated | apply IH | unvalidated_step].
Qed.

Lemma generateOptimalPalette_unvalidated (cs : list (option Pixel)) (cls : list (list Pixel))
    (k : Z) (ds : list nat) :
  unvalidated (generateOptimalPalette cs cls k ds).
Proof.
  unfold generateOptimalPalette.
  repeat first [apply selectColors_unvalidated | unvalidated_step].
Qed.

Lemma generatePbnImage_unvalidated (img : ImageData) (colors : list (option Pixel))
    (options : Options) (ds : list nat) :
  unvalidated (generatePbnImage img colors options ds).
Proof.
  unfold generatePbnImage, fueled, assignColors, findClosestColor, mergeRegions, mergeStep,
    bestNeighbor, mergeInto, outlineLabels, fueled, colorRegions, newImageData, paintPixel.
  repeat first [apply euclideanDistance_unvalidated | unvalidated_step].
Qed.

Lemma pipeline_unvalidated (img : ImageData) (options : Options) (k : Z) (ds : list nat) :
  unvalidated (pipeline img options k ds).
Proof.
  unfold pipeline. cbv zeta.
  repeat first [apply kmeans_unvalidated | apply generateOptimalPalette_unvalidated
               | apply generatePbnImage_unvalidated | unvalidated_step].
Qed.

(** ** The message handler: a raster without area *)

Lemma regionKeys_empty (regionMap : list nat) (n : nat) :
  regionKeys (mkSegmentation regionMap ∅ n) = [].
Proof.
  unfold regionKeys. cbn [initialRegions regionId].
  induction (seq 0 n) as [|i l IH]; [done|].
  rewrite filter_cons_False; [done|]. rewrite lookup_empty. by intros [? ?].
Qed.

(** Without area there is no pixel to seed a region from: the renderer gets
    an empty table, and the constructor of the colored raster refuses the
    zero dimension. *)
Lemma generatePbnImage_zero_area (img : ImageData) (colors : list (option Pixel))
    (options : Options) (ds : list nat) :
  width img = 0 \/ height img = 0 ->
  generatePbnImage img colors options ds = Throw IndexSizeError.
Proof.
  intros Hzero. assert (width img * height img = 0) as Harea by nia.
  unfold generatePbnImage, growRegions. rewrite Harea. cbn [seq foldl replicate].
  unfold fueled. unfold bind at 1.
  unfold assignColors. rewrite regionKeys_empty. cbn [forEach]. unfold ret at 1.
  unfold bind at 1. unfold mergeRegions, sortedRegionIds. rewrite regionKeys_empty.
  cbn [sortBy foldr forEach]. unfold ret at 1.
  unfold bind at 1. unfold outlineLabels. rewrite regionKeys_empty. cbn [forEach].
  unfold ret at 1. unfold bind at 1. unfold colorRegions, newImageData.
  rewrite decide_True by done. done.
Qed.

Lemma recomputeCentroids_no_pixels (n : nat) (k : Z) (ds : list nat) :
  forall (cls : list (list Pixel)) (acc : list (option Pixel)) (i : nat),
    (forall j, i <= j < i + n -> cls !! j = Some []) ->
    forEach (seq i n)
      (fun newCentroids i =>
         match cls !! i with
         | Some c =>
             if decide (0 < length c) then ret (newCentroids ++ [Some (meanPixel c)])
             else (index <- randomIndex (length (@nil Pixel)) ;;
                   ret (newCentroids ++ [[] !! index]))
         | None => throw (TypeErrorReadOfUndefined "length")
         end)%js
      acc ds
    = if decide (n <= length ds) then Ok (acc ++ replicate n None, drop n ds) else Starved.
Proof.
  revert ds. induction n as [|n IH]; intros ds cls acc i Hcls.
  - cbn. by rewrite app_nil_r, drop_0.
  - cbn [seq forEach]. unfold bind at 1. rewrite (Hcls i) by lia.
    rewrite decide_False by (simpl; lia). unfold bind at 1, randomIndex.
    destruct ds as [|d ds]; [rewrite decide_False; [done|simpl; lia]|].
    unfold ret at 1. rewrite (IH ds cls _ (S i)) by (intros j Hj; apply Hcls; lia).
    cbn [length drop]. rewrite lookup_nil.
    replace (replicate (S n) None) with ([@None Pixel] ++ replicate n None) by done.
    rewrite app_assoc.
    destruct (decide (n <= length ds)), (decide (S n <= S (length ds))); try done; lia.
Qed.

Lemma hasConverged_undefined (lastCentroids cs : list (option Pixel)) (k : Z) (ds : list nat) :
  (1 <= k)%Z -> mjoin (lastCentroids !! 0) = None ->
  hasConverged lastCentroids cs k ds = Ok (false, ds).
Proof.
  intros Hk Hfirst. unfold hasConverged.
  destruct (Z.to_nat k) as [|n] eqn:Hn; [lia|]. cbn [seq forEach].
  unfold bind at 1. rewrite Hfirst. unfold ret at 1.
  lazymatch goal with
  | |- forEach ?xs ?body false ds = _ =>
      destruct (forEach_invariant (fun converged : bool => converged = false) xs body false ds)
        as (converged & -> & ->); [done| |done]
  end.
  intros i converged _ ->. by exists false.
Qed.

(** On a sample without pixels the clusterer reseeds every centroid with
    [pixels[0]], which is [undefined], in each of its rounds, and never
    converges. *)
Lemma kmeansLoop_no_pixels (k : Z) (n : nat) :
  (1 <= k)%Z ->
  forall cs cls ds,
    mjoin (cs !! 0) = None ->
    kmeansLoop (S n) [] k cs cls ds
    = if decide (S n * Z.to_nat k <= length ds)
      then Ok (mkKmeansResult (replicate (Z.to_nat k) None) (replicate (Z.to_nat k) []),
               drop (S n * Z.to_nat k) ds)
      else Starved.
Proof.
  intros Hk.
  assert (forall m cs cls,
            kmeansLoop (S m) [] k cs cls
            = (cls' <- assignPixels [] cs k ;;
               newCentroids <- recomputeCentroids [] cls' k ;;
               converged <- hasConverged cs newCentroids k ;;
               if converged : bool then ret (mkKmeansResult newCentroids cls')
               else kmeansLoop m [] k newCentroids cls')%js) as Hround by done.
  induction n as [|n IH]; intros cs cls ds Hcs.
  all: rewrite Hround; unfold bind at 1; unfold assignPixels at 1; cbn [forEach];
    unfold ret at 1; unfold bind at 1; unfold recomputeCentroids.
  all: rewrite (recomputeCentroids_no_pixels (Z.to_nat k) k ds _ [] 0)
    by (intros j Hj; apply lookup_replicate_2; lia).
  all: cbn [app].
  all: destruct (decide (Z.to_nat k <= length ds)) as [Hds|Hds];
    [|rewrite decide_False; [done|lia]].
  all: unfold bind at 1; rewrite (hasConverged_undefined cs _ k _ Hk Hcs).
  - cbn [kmeansLoop]. unfold ret. rewrite decide_True by lia.
    by rewrite Nat.mul_1_l.
  - rewrite IH.
    + rewrite length_drop, drop_drop.
      replace (S (S n) * Z.to_nat k) with (Z.to_nat k + S n * Z.to_nat k) by lia.
      destruct (decide (S n * Z.to_nat k <= length ds - Z.to_nat k)),
        (decide (Z.to_nat k + S n * Z.to_nat k <= length ds)); try done; lia.
    + rewrite lookup_replicate_2 by lia. done.
Qed.

Lemma kmeans_no_pixels (k : Z) (ds : list nat) :
  (1 <= k)%Z ->
  kmeans [] k ds
  = if decide (30 * Z.to_nat k <= length ds)
    then Ok (mkKmeansResult (replicate (Z.to_nat k) None) (replicate (Z.to_nat k) []),
             drop (30 * Z.to_nat k) ds)
    else Starved.
Proof.
  intros Hk. unfold kmeans. unfold bind at 1.
  assert (seedCentroids [] k [] [] ds = Ok ([], ds)) as ->.
  { destruct ds; cbn [seedCentroids]; rewrite decide_False; try done; simpl; lia. }
  change maxIterations with (S 29). by apply kmeansLoop_no_pixels.
Qed.

Lemma candidateColors_no_pixels (cs : list (option Pixel)) (n : nat) :
  candidateColors cs (replicate n []) = [].
Proof.
  unfold candidateColors, weightedCentroids.
  assert (forall (l : list (option Pixel)) (f : nat -> option Pixel -> option Pixel * nat),
            (forall i c, (f i c).2 = 0) ->
            filter (fun c : option Pixel * nat => 0 < c.2) (imap f l) = []) as Hnone.
  { induction l as [|c l IH]; intros f Hf; [done|]. rewrite imap_cons.
    rewrite filter_cons_False by (rewrite Hf; lia). apply IH. intros i c'. apply Hf. }
  rewrite Hnone; [done|]. intros i c. cbn [snd].
  destruct (replicate n [] !! i) as [cl|] eqn:Hcl; [|done].
  apply lookup_replicate in Hcl as [-> _]. done.
Qed.

Lemma generateOptimalPalette_no_pixels (cs : list (option Pixel)) (n : nat) (k : Z)
    (ds : list nat) :
  exists colors, generateOptimalPalette cs (replicate n []) k ds = Ok (colors, ds).
Proof.
  unfold generateOptimalPalette. case_decide; [by eexists|].
  rewrite candidateColors_no_pixels. by eexists.
Qed.

(** A raster without area and without bytes. *)
Lemma pipeline_empty_raster (img : ImageData) (options : Options) (k : Z) (ds : list nat) :
  width img = 0 \/ height img = 0 -> data img = [] ->
  pipeline img options k ds
  = if decide (30 * Z.to_nat (Z.min (k * 5) 50) <= length ds)
    then Throw IndexSizeError else Starved.
Proof.
  intros Hzero Hdata. unfold pipeline. cbv zeta.
  unfold getPixels. rewrite Hdata. cbn [length getPixelsFrom].
  assert (samplePixels (@nil Pixel) (Z.to_nat 30000) = []) as ->.
  { unfold samplePixels. by rewrite decide_True by (simpl; lia). }
  unfold bind at 1.
  destruct (decide (1 <= Z.min (k * 5) 50)%Z) as [Hk|Hk].
  - rewrite kmeans_no_pixels by done. case_decide; [|done]. cbn [centroids clusters].
    unfold bind at 1.
    destruct (generateOptimalPalette_no_pixels
                (replicate (Z.to_nat (Z.min (k * 5) 50)) None)
                (Z.to_nat (Z.min (k * 5) 50)) k
                (drop (30 * Z.to_nat (Z.min (k * 5) 50)) ds)) as [colors ->].
    unfold bind at 1. by rewrite generatePbnImage_zero_area.
  - assert (kmeans [] (Z.min (k * 5) 50) ds = Ok (mkKmeansResult [] [], ds)) as ->.
    { unfold kmeans. unfold bind at 1.
      assert (seedCentroids [] (Z.min (k * 5) 50) [] [] ds = Ok ([], ds)) as ->.
      { destruct ds; cbn [seedCentroids]; rewrite decide_False; try done; simpl; lia. }
      destruct (Z.min (k * 5) 50) as [|p|p]; try lia; reflexivity. }
    rewrite decide_True by lia. cbn [centroids clusters]. unfold bind at 1.
    destruct (generateOptimalPalette_no_pixels [] 0 k ds) as [colors Hcolors].
    cbn [replicate] in Hcolors. rewrite Hcolors.
    unfold bind at 1. by rewrite generatePbnImage_zero_area.
Qed.

Lemma pipeline_zero_area (img : ImageData) (options : Options) (k : Z) (ds : list nat)
    (result : list (option Pixel) * PbnResult) (ds' : list nat) :
  width img = 0 \/ height img = 0 ->
  pipeline img options k ds ≠ Ok (result, ds').
Proof.
  intros Hzero. unfold pipeline. cbv zeta. unfold bind at 1.
  destruct (kmeans _ _ ds) as [[kmeansResult ds1]| |]; [|done..].
  unfold bind at 1.
  destruct (generateOptimalPalette _ _ k ds1) as [[dominantColors ds2]| |]; [|done..].
  unfold bind at 1. by rewrite generatePbnImage_zero_area.
Qed.

(** C8 (amended).  A request with a raster without area, or with a palette
    size [k < 1] on a raster with at least one pixel, never gets a success
    response, whatever the options and whatever [Math.random] returns: a
    response that is posted is an error response.  No validation of the
    input produces it; it carries the exception the pipeline runs into.
    With [k < 1] that is the [TypeError] of the first assignment pass of the
    ColorClusterer, which pushes a pixel onto the missing cluster 0.  For a
    raster without area and without bytes it is the [IndexSizeError] of the
    constructor of the colored raster, at the end of the pipeline, after the
    clusterer has gone through its thirty rounds with [min(5k, 50)] draws of
    [Math.random] in each. *)
Theorem onmessage_malformed_input
    (img : ImageData) (options : Options) (k : Z) (ds : list nat) :
  (width img = 0 \/ height img = 0) \/ (4 <= length (data img) /\ (k < 1)%Z) ->
  (forall dominantColors outline coloredRaster,
     onmessage img options k ds ≠ Some (Success dominantColors outline coloredRaster)) /\
  (forall message, onmessage img options k ds ≠ Some (Failure (ThrownError message))) /\
  (4 <= length (data img) -> (k < 1)%Z ->
   onmessage img options k ds = Some (Failure (TypeErrorReadOfUndefined "push"))) /\
  (width img = 0 \/ height img = 0 -> data img = [] ->
   onmessage img options k ds
   = if decide (30 * Z.to_nat (Z.min (k * 5) 50) <= length ds)
     then Some (Failure IndexSizeError) else None).
Proof.
  intros Hmalformed. split; [|split; [|split]].
  - intros dominantColors outline coloredRaster.
    destruct Hmalformed as [Hzero|[Hdata Hk]].
    + unfold onmessage.
      pose proof (fun result ds' => pipeline_zero_area img options k ds result ds' Hzero)
        as Hfails.
      destruct (pipeline img options k ds) as [[[colors results] ds']| |]; [|done..].
      by destruct (Hfails (colors, results) ds').
    + by rewrite onmessage_nonpositive_palette_size.
  - intros message. unfold onmessage.
    pose proof (pipeline_unvalidated img options k ds) as Hnone.
    destruct (pipeline img options k ds) as [[[colors results] ds']|e|]; [done| |done].
    intros [= ->]. exact Hnone.
  - apply onmessage_nonpositive_palette_size.
  - intros Hzero Hdata. unfold onmessage.
    rewrite pipeline_empty_raster by done. by case_decide.
Qed.

Lemma onmessage_malformed_input_witness :
  ((forall dominantColors outline coloredRaster,
      onmessage emptyRaster stripeOptions 1 draws150
      ≠ Some (Success dominantColors outline coloredRaster)) /\
   (forall message,
      onmessage emptyRaster stripeOptions 1 draws150 ≠ Some (Failure (ThrownError message))) /\
   (4 <= length (data emptyRaster) -> (1 < 1)%Z ->
    onmessage emptyRaster stripeOptions 1 draws150
    = Some (Failure (TypeErrorReadOfUndefined "push"))) /\
   (width emptyRaster = 0 \/ height emptyRaster = 0 -> data emptyRaster = [] ->
    onmessage emptyRaster stripeOptions 1 draws150
    = if decide (30 * Z.to_nat (Z.min (1 * 5) 50) <= length draws150)
      then Some (Failure IndexSizeError) else None)) /\
  ((forall dominantColors outline coloredRaster,
      onmessage onePixel stripeOptions 0 []
      ≠ Some (Success dominantColors outline coloredRaster)) /\
   (forall message,
      onmessage onePixel stripeOptions 0 [] ≠ Some (Failure (ThrownError message))) /\
   (4 <= length (data onePixel) -> (0 < 1)%Z ->
    onmessage onePixel stripeOptions 0 [] = Some (Failure (TypeErrorReadOfUndefined "push"))) /\
   (width onePixel = 0 \/ height onePixel = 0 -> data onePixel = [] ->
    onmessage onePixel stripeOptions 0 []
    = if decide (30 * Z.to_nat (Z.min (0 * 5) 50) <= length (@nil nat))
      then Some (Failure IndexSizeError) else None)).
Proof.
  split.
  - apply (onmessage_malformed_input emptyRaster stripeOptions 1 draws150). left. by left.
  - apply (onmessage_malformed_input onePixel stripeOptions 0 []). right.
    split; [simpl; lia|lia].
Defined.

(** ** LabelPlacer: insertion-ordered sets *)

Lemma setOf_from {A} `{EqDecision A} (xs : list A) :
  forall s, NoDup s ->
    NoDup (foldl (fun s x => setAdd x s) s xs) /\
    forall y, y ∈ foldl (fun s x => setAdd x s) s xs <-> y ∈ s \/ y ∈ xs.
Proof.
  induction xs as [|x xs IH]; intros s Hs; cbn [foldl].
  - split; [done|]. intros y. rewrite elem_of_nil. tauto.
  - destruct (IH (setAdd x s)) as [Hnd Hin].
    { unfold setAdd. case_decide; [done|]. apply NoDup_app. split; [done|].
      split; [|apply NoDup_singleton]. intros y Hy Hy'.
      apply list_elem_of_singleton in Hy' as ->. done. }
    split; [done|]. intros y. rewrite Hin, elem_of_setAdd, elem_of_cons. tauto.
Qed.

Lemma setOf_NoDup {A} `{EqDecision A} (xs : list A) : NoDup (setOf xs).
Proof. apply setOf_from. constructor. Qed.

Lemma elem_of_setOf {A} `{EqDecision A} (xs : list A) (y : A) : y ∈ setOf xs <-> y ∈ xs.
Proof.
  unfold setOf. destruct (setOf_from xs [] (NoDup_nil_2)) as [_ ->].
  rewrite elem_of_nil. tauto.
Qed.

(** ** LabelPlacer: the neighbours of a pixel, by coordinates *)

Section grid.
Variable W : Z.
Hypothesis W_pos : (0 < W)%Z.

Lemma coords_of (x y : Z) :
  (0 <= x < W)%Z -> ((y * W + x) `mod` W = x /\ (y * W + x) `div` W = y)%Z.
Proof.
  intros Hx. split.
  - symmetry. apply (Z.mod_unique _ _ y); lia.
  - symmetry. apply (Z.div_unique _ _ _ x); lia.
Qed.

Lemma coords_decompose (p : Z) :
  (p = p `div` W * W + p `mod` W /\ 0 <= p `mod` W < W)%Z.
Proof.
  pose proof (Z.div_mod p W ltac:(lia)). pose proof (Z.mod_pos_bound p W W_pos). lia.
Qed.

Lemma coords_right (p : Z) :
  ((p `mod` W + 1 < W /\ (p + 1) `mod` W = p `mod` W + 1 /\ (p + 1) `div` W = p `div` W) \/
   (p `mod` W + 1 = W /\ (p + 1) `mod` W = 0 /\ (p + 1) `div` W = p `div` W + 1))%Z.
Proof.
  destruct (coords_decompose p) as [Hp Hx].
  destruct (decide (p `mod` W + 1 < W)%Z) as [Hlt|Hge].
  - left. split; [done|].
    replace (p + 1)%Z with (p `div` W * W + (p `mod` W + 1))%Z by lia.
    apply coords_of. lia.
  - right. split; [lia|].
    replace (p + 1)%Z with ((p `div` W + 1) * W + 0)%Z by lia.
    apply coords_of. lia.
Qed.

Lemma coords_left (p : Z) :
  ((0 < p `mod` W /\ (p - 1) `mod` W = p `mod` W - 1 /\ (p - 1) `div` W = p `div` W) \/
   (p `mod` W = 0 /\ (p - 1) `mod` W = W - 1 /\ (p - 1) `div` W = p `div` W - 1))%Z.
Proof.
  destruct (coords_decompose p) as [Hp Hx].
  destruct (decide (0 < p `mod` W)%Z) as [Hlt|Hge].
  - left. split; [done|].
    replace (p - 1)%Z with (p `div` W * W + (p `mod` W - 1))%Z by lia.
    apply coords_of. lia.
  - right. split; [lia|].
    replace (p - 1)%Z with ((p `div` W - 1) * W + (W - 1))%Z by lia.
    apply coords_of. lia.
Qed.

Lemma coords_down (p : Z) :
  ((p + W) `mod` W = p `mod` W /\ (p + W) `div` W = p `div` W + 1)%Z.
Proof.
  destruct (coords_decompose p) as [Hp Hx].
  replace (p + W)%Z with ((p `div` W + 1) * W + p `mod` W)%Z by lia.
  by apply coords_of.
Qed.

Lemma coords_up (p : Z) :
  ((p - W) `mod` W = p `mod` W /\ (p - W) `div` W = p `div` W - 1)%Z.
Proof.
  destruct (coords_decompose p) as [Hp Hx].
  replace (p - W)%Z with ((p `div` W - 1) * W + p `mod` W)%Z by lia.
  by apply coords_of.
Qed.
End grid.

(** ** LabelPlacer: one erosion of a rectangle *)

Lemma filter_all {A} (P : A -> Prop) `{!forall x, Decision (P x)} (l : list A) :
  (forall x, x ∈ l -> P x) -> filter P l = l.
Proof.
  induction l as [|x l IH]; intros Hall; [done|].
  rewrite filter_cons_True by (apply Hall; left). f_equal. apply IH.
  intros y Hy. apply Hall. by right.
Qed.

Section erosion.
Variables W cx cy : Z.
Hypothesis W_pos : (0 < W)%Z.

Lemma onBoundary_rect (a b : Z) (currentPixels : list Z) (p : Z) :
  (0 <= a)%Z -> (0 <= cx - a)%Z -> (cx + a < W)%Z ->
  isRect W cx cy a b currentPixels ->
  inRect W cx cy a b p ->
  (~ onBoundary W currentPixels p <-> inRect W cx cy (shrinkA W a) (b - 1) p).
Proof.
  intros Ha Hleft Hright Hrect Hp.
  unfold onBoundary, labelNeighbors. unfold isRect in Hrect.
  rewrite !Exists_cons, Exists_nil. unfold not. rewrite !Hrect.
  unfold inRect in *. unfold shrinkA.
  destruct (coords_up W W_pos p) as [-> ->].
  destruct (coords_down W W_pos p) as [-> ->].
  destruct (coords_decompose W W_pos p) as [_ Hx].
  destruct (coords_left W W_pos p) as [(Hl & -> & ->)|(Hl & -> & ->)];
    destruct (coords_right W W_pos p) as [(Hr & -> & ->)|(Hr & -> & ->)];
    case_decide; lia.
Qed.

Lemma eroded_rect (a b : Z) (currentPixels : list Z) :
  (0 <= a)%Z -> (0 <= cx - a)%Z -> (cx + a < W)%Z ->
  isRect W cx cy a b currentPixels ->
  isRect W cx cy (shrinkA W a) (b - 1)
         (filter (fun p => p ∉ filter (onBoundary W currentPixels) currentPixels)
                 currentPixels).
Proof.
  intros Ha Hleft Hright Hrect p.
  rewrite list_elem_of_filter, list_elem_of_filter. split.
  - intros [Hout Hin]. apply (onBoundary_rect a b currentPixels); try done.
    + by apply Hrect.
    + intros Hb. apply Hout. done.
  - intros Hp.
    assert (Hin : inRect W cx cy a b p).
    { unfold inRect, shrinkA in *. case_decide; lia. }
    split; [|by apply Hrect].
    intros [Hb _]. by apply (onBoundary_rect a b currentPixels p) in Hp.
Qed.

(** The erosion of an odd rectangle returns a rectangle of the same centre. *)
Lemma erode_rect (fuel : nat) :
  forall (a b : Z) (currentPixels lastPixels : list Z),
    (0 <= a)%Z -> (0 <= b)%Z -> (0 <= cx - a)%Z -> (cx + a < W)%Z -> (0 <= cy - b)%Z ->
    NoDup currentPixels -> isRect W cx cy a b currentPixels ->
    length currentPixels <= fuel ->
    exists a' b' res,
      erode fuel W currentPixels lastPixels = Some res /\
      (0 <= a')%Z /\ (0 <= b')%Z /\ (0 <= cx - a')%Z /\ (cx + a' < W)%Z /\
      (0 <= cy - b')%Z /\
      NoDup res /\ isRect W cx cy a' b' res.
Proof.
  induction fuel as [|fuel IH];
    intros a b current last Ha Hb Hleft Hright Htop Hnd Hrect Hlen.
  - assert (Hcentre : (cy * W + cx)%Z ∈ current).
    { apply Hrect. unfold inRect. destruct (coords_of W cx cy) as [-> ->]; lia. }
    destruct current; [by apply elem_of_nil in Hcentre | simpl in Hlen; lia].
  - destruct current as [|p0 current']; [|set (current := p0 :: current') in *].
    { assert (Hcentre : (cy * W + cx)%Z ∈ @nil Z); [|by apply elem_of_nil in Hcentre].
      apply Hrect. unfold inRect. destruct (coords_of W cx cy) as [-> ->]; lia. }
    cbn [erode]. fold current. cbv zeta.
    case_decide as Hall.
    { exists a, b, current. done. }
    set (next := filter (fun p => p ∉ filter (onBoundary W current) current) current).
    assert (Hnext : isRect W cx cy (shrinkA W a) (b - 1) next) by by apply eroded_rect.
    assert (Hsome : exists q, q ∈ next).
    { destruct (decide (next = [])) as [Hnil|Hne].
      - exfalso. apply Hall.
        assert (Hsame : filter (onBoundary W current) current = current); [|by rewrite Hsame].
        apply filter_all. intros q Hq.
        destruct (decide (onBoundary W current q)) as [|Hnb]; [done|].
        assert (q ∈ next); [|rewrite Hnil in *; by apply elem_of_nil in H].
        apply list_elem_of_filter. split; [|done].
        intros [? _]%list_elem_of_filter. done.
      - destruct next as [|q ?]; [done|]. exists q. left. }
    destruct Hsome as [q Hq]. apply Hnext in Hq. unfold inRect, shrinkA in Hq.
    apply (IH (shrinkA W a) (b - 1)%Z).
    + unfold shrinkA. case_decide; lia.
    + lia.
    + unfold shrinkA. case_decide; lia.
    + unfold shrinkA. case_decide; lia.
    + lia.
    + by apply NoDup_filter.
    + done.
    + destruct (boundary_nonempty W current) as (m & Hm & Hbd); [done|].
      assert (length next < length current); [|lia].
      apply (length_filter_lt _ _ m); [done|].
      intros Hout. apply Hout. by apply list_elem_of_filter.
Qed.
End erosion.

(** ** LabelPlacer: the centroid of a rectangle *)

Lemma sumZ_from (l : list Z) (a : Z) : foldl Z.add a l = (a + sumZ l)%Z.
Proof.
  unfold sumZ. revert a. induction l as [|x l IH]; intros a; cbn [foldl]; [lia|].
  rewrite (IH (a + x)%Z), (IH (0 + x)%Z). lia.
Qed.

Lemma sumZ_cons (x : Z) (l : list Z) : sumZ (x :: l) = (x + sumZ l)%Z.
Proof. unfold sumZ at 1. cbn [foldl]. rewrite sumZ_from. lia. Qed.

Lemma sumZ_app (l k : list Z) : sumZ (l ++ k) = (sumZ l + sumZ k)%Z.
Proof.
  induction l as [|x l IH]; [done|]. cbn [app]. rewrite !sumZ_cons, IH. lia.
Qed.

Lemma sumZ_Permutation (l k : list Z) : l ≡ₚ k -> sumZ l = sumZ k.
Proof.
  induction 1 as [|x l k _ IH|x y l|l k m _ IH1 _ IH2]; [done| | |congruence].
  - by rewrite !sumZ_cons, IH.
  - rewrite !sumZ_cons. lia.
Qed.

Lemma sumZ_constant (c : Z) {A} (f : A -> Z) (l : list A) :
  (forall x, x ∈ l -> f x = c) -> sumZ (f <$> l) = (Z.of_nat (length l) * c)%Z.
Proof.
  induction l as [|x l IH]; intros Hf; [done|].
  cbn [fmap list_fmap length]. rewrite sumZ_cons, Hf by left.
  rewrite IH; [lia|]. intros y Hy. apply Hf. by right.
Qed.

Lemma sumZ_fmap_ext {A} (f g : A -> Z) (l : list A) :
  (forall x, x ∈ l -> f x = g x) -> sumZ (f <$> l) = sumZ (g <$> l).
Proof.
  induction l as [|x l IH]; intros Hfg; [done|].
  cbn [fmap list_fmap]. rewrite !sumZ_cons, Hfg by left.
  rewrite IH; [done|]. intros y Hy. apply Hfg. by right.
Qed.

Lemma sumZ_bind {A} (g : A -> list Z) (l : list A) :
  sumZ (l ≫= g) = sumZ ((fun y => sumZ (g y)) <$> l).
Proof.
  induction l as [|y l IH]; [done|].
  cbn [mbind list_bind fmap list_fmap]. by rewrite sumZ_app, sumZ_cons, IH.
Qed.

Lemma fmap_of_bind {A B C} (f : B -> C) (g : A -> list B) (l : list A) :
  f <$> (l ≫= g) = l ≫= (fun y => f <$> g y).
Proof.
  induction l as [|y l IH]; [done|].
  cbn [mbind list_bind]. by rewrite fmap_app, IH.
Qed.

Lemma seqZ_succ (m : Z) (n : nat) :
  seqZ m (Z.of_nat (S n)) = seqZ m (Z.of_nat n) ++ [(m + Z.of_nat n)%Z].
Proof.
  unfold seqZ. rewrite !Nat2Z.id, seq_S, fmap_app. cbn. do 2 f_equal. lia.
Qed.

Lemma sumZ_seqZ (m : Z) (n : nat) :
  (2 * sumZ (seqZ m (Z.of_nat n)))%Z = (Z.of_nat n * (2 * m + Z.of_nat n - 1))%Z.
Proof.
  induction n as [|n IH]; [done|].
  rewrite seqZ_succ, sumZ_app, sumZ_cons. unfold sumZ at 2. cbn [foldl]. nia.
Qed.

Lemma length_seqZ_nat (m n : Z) : (0 <= n)%Z -> Z.of_nat (length (seqZ m n)) = n.
Proof. intros Hn. rewrite length_seqZ. lia. Qed.

Lemma length_bind_constant {A B} (g : A -> list B) (n : nat) (l : list A) :
  (forall y, y ∈ l -> length (g y) = n) -> length (l ≫= g) = length l * n.
Proof.
  induction l as [|y l IH]; intros Hg; [done|].
  cbn [mbind list_bind length]. rewrite length_app, Hg by left.
  rewrite IH; [lia|]. intros z Hz. apply Hg. by right.
Qed.

Lemma roundDiv_multiple (n c : Z) : (0 < n)%Z -> roundDiv (n * c) n = c.
Proof.
  intros Hn. unfold roundDiv. symmetry. apply (Z.div_unique _ _ _ n); lia.
Qed.

Section rectangle.
Variables W cx cy a b : Z.
Hypotheses (W_pos : (0 < W)%Z) (a_nonneg : (0 <= a)%Z) (b_nonneg : (0 <= b)%Z)
           (left_in : (0 <= cx - a)%Z) (right_in : (cx + a < W)%Z)
           (top_in : (0 <= cy - b)%Z).

Lemma elem_of_rectList (p : Z) : p ∈ rectList W cx cy a b <-> inRect W cx cy a b p.
Proof.
  unfold rectList, inRect. rewrite list_elem_of_bind. split.
  - intros (y & Hp & Hy). apply list_elem_of_fmap in Hp as (x & -> & Hx).
    apply elem_of_seqZ in Hy, Hx.
    destruct (coords_of W x y) as [-> ->]; lia.
  - intros Hp. destruct (coords_decompose W W_pos p) as [Heq Hx].
    exists (p `div` W)%Z. split; [|apply elem_of_seqZ; lia].
    apply list_elem_of_fmap. exists (p `mod` W)%Z. split; [done|].
    apply elem_of_seqZ. lia.
Qed.

Lemma rectList_NoDup : NoDup (rectList W cx cy a b).
Proof.
  unfold rectList. apply NoDup_bind; [| |apply NoDup_seqZ].
  - intros y1 y2 p _ _ Hp1 Hp2.
    apply list_elem_of_fmap in Hp1 as (x1 & -> & Hx1).
    apply list_elem_of_fmap in Hp2 as (x2 & Heq & Hx2).
    apply elem_of_seqZ in Hx1, Hx2.
    destruct (coords_of W x1 y1) as [_ H1]; [lia|].
    destruct (coords_of W x2 y2) as [_ H2]; [lia|].
    congruence.
  - intros y _. apply NoDup_fmap_2; [|apply NoDup_seqZ].
    intros x1 x2 Heq. lia.
Qed.

Lemma rectList_length :
  Z.of_nat (length (rectList W cx cy a b)) = ((2 * a + 1) * (2 * b + 1))%Z.
Proof.
  unfold rectList.
  rewrite (length_bind_constant _ (Z.to_nat (2 * a + 1))).
  - rewrite length_seqZ. lia.
  - intros y _. rewrite length_fmap, length_seqZ. done.
Qed.

Lemma rectList_sumX :
  sumZ ((fun p => Z.rem p W) <$> rectList W cx cy a b)
  = ((2 * a + 1) * (2 * b + 1) * cx)%Z.
Proof.
  unfold rectList. rewrite fmap_of_bind, sumZ_bind.
  rewrite (sumZ_constant ((2 * a + 1) * cx)%Z).
  - rewrite length_seqZ_nat by lia. lia.
  - intros y Hy. apply elem_of_seqZ in Hy.
    rewrite <- list_fmap_compose.
    rewrite (sumZ_fmap_ext _ id).
    + rewrite list_fmap_id.
      pose proof (sumZ_seqZ (cx - a) (Z.to_nat (2 * a + 1))) as Hsum.
      rewrite Z2Nat.id in Hsum by lia. nia.
    + intros x Hx. apply elem_of_seqZ in Hx. cbn.
      rewrite Z.rem_mod_nonneg by nia.
      destruct (coords_of W x y) as [-> _]; [lia | done].
Qed.

Lemma rectList_sumY :
  sumZ ((fun p => p `div` W)%Z <$> rectList W cx cy a b)
  = ((2 * a + 1) * (2 * b + 1) * cy)%Z.
Proof.
  unfold rectList. rewrite fmap_of_bind, sumZ_bind.
  rewrite (sumZ_fmap_ext _ (fun y => (2 * a + 1) * y)%Z).
  - assert (Hrows : forall l : list Z,
              sumZ ((fun y => (2 * a + 1) * y)%Z <$> l) = ((2 * a + 1) * sumZ l)%Z).
    { induction l as [|y l IH]; [cbn; lia|].
      cbn [fmap list_fmap]. rewrite !sumZ_cons, IH. lia. }
    rewrite Hrows.
    pose proof (sumZ_seqZ (cy - b) (Z.to_nat (2 * b + 1))) as Hsum.
    rewrite Z2Nat.id in Hsum by lia. nia.
  - intros y Hy. apply elem_of_seqZ in Hy. cbn.
    rewrite <- list_fmap_compose.
    rewrite (sumZ_constant y).
    + rewrite length_seqZ_nat by lia. done.
    + intros x Hx. apply elem_of_seqZ in Hx. cbn.
      destruct (coords_of W x y) as [_ ->]; [lia | done].
Qed.

(** Any duplicate-free list of the pixels of the rectangle has the centre
    as its rounded mean. *)
Lemma rect_centroid (pixels : list Z) :
  NoDup pixels -> isRect W cx cy a b pixels ->
  let n := Z.of_nat (length pixels) in
  (0 < n)%Z /\
  roundDiv (sumZ ((fun p => Z.rem p W) <$> pixels)) n = cx /\
  roundDiv (sumZ ((fun p => p `div` W)%Z <$> pixels)) n = cy.
Proof.
  intros Hnd Hrect.
  assert (Hperm : pixels ≡ₚ rectList W cx cy a b).
  { apply NoDup_Permutation; [done | apply rectList_NoDup|].
    intros p. rewrite elem_of_rectList. apply Hrect. }
  cbv zeta. rewrite (sumZ_Permutation _ _ (fmap_Permutation _ _ _ Hperm)).
  rewrite (sumZ_Permutation _ _ (fmap_Permutation (fun p => p `div` W)%Z _ _ Hperm)).
  rewrite Hperm, rectList_length, rectList_sumX, rectList_sumY.
  split; [nia|].
  rewrite !roundDiv_multiple by nia. done.
Qed.
End rectangle.

Lemma solidRectangle_isRect (W x0 y0 a b : Z) (pixels : list Z) :
  (0 < W)%Z -> (0 <= x0)%Z -> (x0 + (2 * a + 1) <= W)%Z ->
  solidRectangle W x0 y0 (2 * a + 1) (2 * b + 1) pixels ->
  isRect W (x0 + a) (y0 + b) a b pixels.
Proof.
  intros HW Hx0 Hfit Hsolid p. rewrite (Hsolid p). unfold inRect. split.
  - intros (x & y & Hx & Hy & ->). destruct (coords_of W x y) as [-> ->]; lia.
  - intros [Hx Hy]. exists (p `mod` W)%Z, (p `div` W)%Z.
    destruct (coords_decompose W HW p) as [Heq _]. lia.
Qed.

(** C7.  For a solid rectangle of odd width [w] and odd height [h] with
    corner [(x0, y0)] inside a raster of width [W], listed in any order, the
    boundary erosion returns the centre [(x0 + (w-1)/2, y0 + (h-1)/2)]. *)
Theorem findBestLabelPosition_rectangle (W x0 y0 w h : Z) (pixels : list Z) :
  (0 < W)%Z -> (0 <= x0)%Z -> (0 <= y0)%Z -> (0 < w)%Z -> (0 < h)%Z ->
  (x0 + w <= W)%Z -> Z.odd w = true -> Z.odd h = true ->
  solidRectangle W x0 y0 w h pixels ->
  findBestLabelPosition pixels W = Some (x0 + (w - 1) / 2, y0 + (h - 1) / 2)%Z.
Proof.
  intros HW Hx0 Hy0 Hw Hh Hfit Hwodd Hhodd Hsolid.
  apply Z.odd_spec in Hwodd as [a ->]. apply Z.odd_spec in Hhodd as [b ->].
  replace ((2 * a + 1 - 1) / 2)%Z with a
    by (apply (Z.div_unique _ _ _ 0); lia).
  replace ((2 * b + 1 - 1) / 2)%Z with b
    by (apply (Z.div_unique _ _ _ 0); lia).
  pose proof (solidRectangle_isRect W x0 y0 a b pixels HW Hx0 Hfit Hsolid) as Hrect.
  set (cx := (x0 + a)%Z) in *. set (cy := (y0 + b)%Z) in *.
  assert (Hcentre : forall a' b' l, (0 <= a')%Z -> (0 <= b')%Z ->
            isRect W cx cy a' b' l -> l ≠ []).
  { intros a' b' l Ha' Hb' Hl Hnil.
    assert (Hin : (cy * W + cx)%Z ∈ l); [|rewrite Hnil in Hin; by apply elem_of_nil in Hin].
    apply Hl. unfold inRect. destruct (coords_of W cx cy) as [-> ->]; lia. }
  unfold findBestLabelPosition.
  destruct pixels as [|p0 pixels']; [exfalso; by apply (Hcentre a b []); [lia | lia | |]|].
  set (pixels := p0 :: pixels') in *.
  destruct (erode_rect W cx cy HW (length (setOf pixels)) a b (setOf pixels) [])
    as (a' & b' & res & -> & Ha' & Hb' & Hleft & Hright & Htop & Hnd & Hres);
    try (unfold cx, cy; lia); [apply setOf_NoDup | |].
  { intros p. rewrite elem_of_setOf. apply Hrect. }
  cbn [mbind option_bind].
  destruct res as [|q res']; [exfalso; by apply (Hcentre a' b' [])|].
  destruct (rect_centroid W cx cy a' b' HW Ha' Hb' Hleft Hright Htop (q :: res')
              Hnd Hres) as (_ & -> & ->).
  done.
Qed.

Lemma findBestLabelPosition_rectangle_witness :
  (0 < 7)%Z /\ (0 <= 1)%Z /\ (0 <= 1)%Z /\ (0 < 5)%Z /\ (0 < 3)%Z /\ (1 + 5 <= 7)%Z /\
  Z.odd 5 = true /\ Z.odd 3 = true /\ solidRectangle 7 1 1 5 3 rect5x3 /\
  findBestLabelPosition rect5x3 7 = Some (3, 2)%Z.
Proof.
  assert (Hsolid : solidRectangle 7 1 1 5 3 rect5x3).
  { intros p. split.
    - intros Hp. unfold rect5x3 in Hp. repeat (apply elem_of_cons in Hp as [->|Hp]);
        [..|by apply elem_of_nil in Hp].
      all: match goal with
           | |- exists x y, _ /\ _ /\ (?p = _)%Z =>
               exists (p `mod` 7)%Z, (p `div` 7)%Z; vm_compute; repeat split; congruence
           end.
    - intros (x & y & Hx & Hy & ->).
      assert (x = 1 \/ x = 2 \/ x = 3 \/ x = 4 \/ x = 5)%Z as Hxs by lia.
      assert (y = 1 \/ y = 2 \/ y = 3)%Z as Hys by lia.
      unfold rect5x3. rewrite !elem_of_cons.
      destruct Hxs as [->|[->|[->|[->| ->]]]], Hys as [->|[->| ->]]; simpl; tauto. }
  do 8 (split; [done || lia|]). split; [exact Hsolid|].
  apply (findBestLabelPosition_rectangle 7 1 1 5 3 rect5x3); try lia; done.
Defined.

(** ** Runs of the handler *)

(** A run that succeeds: the 9x1 stripe with palette size 1.  The five red
    pixels form the largest cluster, so the palette is red alone. *)
Example onmessage_stripe_succeeds :
  exists outline coloredRaster,
    onmessage stripe9x1 stripeOptions 1 (seq 0 200)
    = Some (Success [Some (200, 0, 0)%Z] outline coloredRaster) /\
    data coloredRaster = concat (replicate 9 [200; 0; 0; 255]%Z).
Proof. do 2 eexists. split; vm_compute; reflexivity. Qed.

(** A raster without pixels is not rejected up front either: the clusterer
    runs its thirty rounds, asking [Math.random] for five reseeds in each,
    and the run ends only in the constructor of the colored raster. *)
Example onmessage_empty_raster :
  onmessage emptyRaster stripeOptions 1 draws150 = Some (Failure IndexSizeError) /\
  onmessage emptyRaster stripeOptions 1 draws149 = None.
Proof. split; vm_compute; reflexivity. Qed.

(** ** Loops in the [Js] monad: what a normal return tells *)

Lemma forEach_inversion {A S} (I : S -> Prop) (xs : list A) (body : S -> A -> Js S) :
  (forall x acc ds acc' ds', x ∈ xs -> I acc -> body acc x ds = Ok (acc', ds') -> I acc') ->
  forall acc ds res ds',
    I acc -> forEach xs body acc ds = Ok (res, ds') -> I res.
Proof.
  induction xs as [|x xs IH]; intros Hbody acc ds res ds' Hacc; cbn [forEach].
  - by intros [= <- _].
  - unfold bind at 1. destruct (body acc x ds) as [[acc1 ds1]| |] eqn:Hx; [|done..].
    apply IH; [|by eapply Hbody; [left|..]].
    intros y acc0 d0 acc0' d0' Hy. apply Hbody. by right.
Qed.

(** ** PixelSampler: the pixels of a raster *)

Lemma getPixelsFrom_lookup (n : nat) :
  forall d fuel,
    length d = 4 * n -> n <= fuel ->
    length (getPixelsFrom fuel d) = n /\
    forall i, i < n ->
      getPixelsFrom fuel d !! i
      = Some (channelAt d (4 * i), channelAt d (4 * i + 1), channelAt d (4 * i + 2)).
Proof.
  induction n as [|n IH]; intros d fuel Hd Hfuel.
  - destruct d; [|simpl in Hd; lia]. split; [by destruct fuel|lia].
  - destruct fuel as [|fuel]; [lia|].
    destruct d as [|r [|g [|b [|a rest]]]]; simpl in Hd; try lia.
    destruct (IH rest fuel) as [Hlen Hget]; [lia..|].
    cbn [getPixelsFrom]. split; [simpl; lia|].
    intros [|i] Hi; [done|].
    rewrite lookup_cons_ne_0 by lia. cbn [Nat.pred]. rewrite Hget by lia.
    unfold channelAt.
    replace (4 * S i) with (S (S (S (S (4 * i))))) by lia. done.
Qed.

(** X1.  [getPixels] reads a buffer of [4 * n] bytes as [n] pixels: pixel [i]
    is the triple of the bytes [4i], [4i + 1] and [4i + 2]; the alpha byte is
    dropped. *)
Theorem getPixels_rgb (img : ImageData) (n : nat) :
  length (data img) = 4 * n ->
  length (getPixels img) = n /\
  forall i, i < n ->
    getPixels img !! i
    = Some (channelAt (data img) (4 * i), channelAt (data img) (4 * i + 1),
            channelAt (data img) (4 * i + 2)).
Proof. intros Hd. apply getPixelsFrom_lookup; [done|lia]. Qed.

Lemma getPixels_rgb_witness :
  length (getPixels stripe9x1) = 9 /\
  getPixels stripe9x1 !! 4 = Some (200, 0, 0)%Z.
Proof.
  destruct (getPixels_rgb stripe9x1 9) as [Hlen Hget]; [reflexivity|].
  split; [exact Hlen|]. rewrite (Hget 4) by lia. reflexivity.
Defined.

(** ** PixelSampler: the sample is drawn from the input, in order *)

Lemma strideLoop_sublist {A} (pixels : list A) (step : nat) :
  0 < step ->
  forall fuel i, strideLoop fuel pixels i step `sublist_of` drop i pixels.
Proof.
  intros Hstep. induction fuel as [|fuel IH]; intros i; cbn [strideLoop].
  - apply sublist_nil_l.
  - destruct (pixels !! i) as [p|] eqn:Hp; [|apply sublist_nil_l].
    rewrite (drop_S _ _ _ Hp). apply sublist_skip.
    etrans; [apply IH|].
    replace (i + step) with (S i + (step - 1)) by lia.
    rewrite <-drop_drop. apply sublist_drop.
Qed.

Lemma samplePixels_sublist_of {A} (pixels : list A) (sampleSize : nat) :
  samplePixels pixels sampleSize `sublist_of` pixels.
Proof.
  unfold samplePixels. case_decide as Hall; [done|]. case_decide as Hzero.
  - apply sublist_take.
  - assert (0 < length pixels / sampleSize) as Hstep by (apply Nat.div_str_pos; lia).
    apply (strideLoop_sublist pixels _ Hstep _ 0).
Qed.

(** X2.  Whatever the sample size, [samplePixels] returns pixels of its input
    in their original order, without repeating a position, and a nonempty
    input always gives its first pixel first. *)
Theorem samplePixels_sublist {A} (pixels : list A) (sampleSize : nat) :
  samplePixels pixels sampleSize `sublist_of` pixels /\
  head (samplePixels pixels sampleSize) = head pixels.
Proof.
  split; [apply samplePixels_sublist_of|].
  unfold samplePixels. case_decide as Hall; [done|].
  destruct pixels as [|p pixels]; [by case_decide|]. by case_decide.
Qed.

(** ** ColorClusterer: the shape of a result *)

Lemma roundDiv_bounds (s n lo hi : Z) :
  (0 < n)%Z -> (lo * n <= s <= hi * n)%Z -> (lo <= roundDiv s n <= hi)%Z.
Proof.
  intros Hn Hs. unfold roundDiv. split.
  - apply Z.div_le_lower_bound; lia.
  - apply Z.lt_succ_r, Z.div_lt_upper_bound; lia.
Qed.

Lemma sumZ_bounds {A} (f : A -> Z) (lo hi : Z) (l : list A) :
  Forall (fun x => (lo <= f x <= hi)%Z) l ->
  (lo * Z.of_nat (length l) <= sumZ (f <$> l) <= hi * Z.of_nat (length l))%Z.
Proof.
  induction 1 as [|x l Hx _ IH]; [cbn; unfold sumZ; cbn; lia|].
  rewrite fmap_cons, sumZ_cons. cbn [length]. lia.
Qed.

Lemma meanPixel_sums (cluster : list Pixel) (acc : Pixel) :
  foldl (fun (acc : Pixel) (pixel : Pixel) =>
           (chanR acc + chanR pixel, chanG acc + chanG pixel, chanB acc + chanB pixel)%Z)
        acc cluster
  = (chanR acc + sumZ (chanR <$> cluster), chanG acc + sumZ (chanG <$> cluster),
     chanB acc + sumZ (chanB <$> cluster))%Z.
Proof.
  revert acc. induction cluster as [|p cluster IH]; intros [[r g] b].
  - unfold chanR, chanG, chanB; cbn. f_equal; [f_equal|]; lia.
  - cbn [foldl]. rewrite IH, !fmap_cons, !sumZ_cons.
    unfold chanR, chanG, chanB; cbn. f_equal; [f_equal|]; lia.
Qed.

Lemma meanPixel_byte (cluster : list Pixel) :
  cluster ≠ [] -> Forall bytePixel cluster -> bytePixel (meanPixel cluster).
Proof.
  intros Hne Hbytes. unfold meanPixel. rewrite meanPixel_sums.
  assert (0 < Z.of_nat (length cluster))%Z as Hn by (destruct cluster; [done|simpl; lia]).
  unfold bytePixel at 1, chanR at 1 3, chanG at 1 3, chanB at 1 3. cbn [fst snd].
  unfold chanR at 1, chanG at 1, chanB at 1. cbn [fst snd]. rewrite !Z.add_0_l.
  split; [|split]; (apply roundDiv_bounds; [done|]); apply sumZ_bounds;
    (eapply Forall_impl; [exact Hbytes|]); intros p (? & ? & ?); done.
Qed.

Lemma elem_of_concat {A} (ls : list (list A)) (x : A) :
  x ∈ concat ls <-> exists l, l ∈ ls /\ x ∈ l.
Proof.
  induction ls as [|l0 ls IH]; cbn [concat].
  - split; [by intros ?%elem_of_nil|]. by intros (l & ?%elem_of_nil & _).
  - rewrite elem_of_app, IH. split.
    + intros [Hx|(l & Hl & Hx)]; [exists l0; split; [left|done]|exists l; split; [by right|done]].
    + intros (l & [->|Hl]%elem_of_cons & Hx); [by left|right; eauto].
Qed.

Lemma concat_insert_snoc {A} (cls : list (list A)) (i : nat) (c : list A) (x : A) :
  cls !! i = Some c -> concat (<[i := c ++ [x]]> cls) ≡ₚ x :: concat cls.
Proof.
  revert i. induction cls as [|c0 cls IH]; intros [|i] Hi; try done.
  - injection Hi as ->. cbn. rewrite <-app_assoc. cbn. by rewrite <-Permutation_middle.
  - cbn. rewrite (IH i Hi). by rewrite <-Permutation_middle.
Qed.

Lemma assignPixels_loop (cs : list (option Pixel)) (k : Z) (pixels : list Pixel) :
  forall acc ds res ds',
    forEach pixels
      (fun cls pixel =>
         closest <- closestCentroidIndex cs k pixel ;;
         match cls !! closest with
         | Some c => ret (<[closest := c ++ [pixel]]> cls)
         | None => throw (TypeErrorReadOfUndefined "push")
         end)%js acc ds = Ok (res, ds') ->
    length res = length acc /\ concat res ≡ₚ concat acc ++ pixels.
Proof.
  induction pixels as [|pixel pixels IH]; intros acc ds res ds'; cbn [forEach].
  - intros [= <- _]. by rewrite app_nil_r.
  - unfold bind at 1 2.
    destruct (closestCentroidIndex cs k pixel ds) as [[closest ds1]| |]; [|done..].
    destruct (acc !! closest) as [c|] eqn:Hc; [|done]. unfold ret at 1.
    intros Hrest. apply IH in Hrest as [Hlen Hperm].
    rewrite length_insert in Hlen. split; [done|].
    rewrite Hperm, (concat_insert_snoc _ _ _ _ Hc). by rewrite <-Permutation_middle.
Qed.

Lemma assignPixels_partition (pixels : list Pixel) (cs : list (option Pixel)) (k : Z)
    (ds : list nat) (cls : list (list Pixel)) (ds' : list nat) :
  assignPixels pixels cs k ds = Ok (cls, ds') ->
  length cls = Z.to_nat k /\ concat cls ≡ₚ pixels.
Proof.
  intros Hrun. apply assignPixels_loop in Hrun as [Hlen Hperm].
  rewrite length_replicate in Hlen. split; [done|].
  rewrite Hperm.
  assert (forall n, concat (replicate n ([] : list Pixel)) = []) as ->; [|done].
  intros n. induction n as [|n IHn]; [done|exact IHn].
Qed.

Lemma recomputeCentroids_loop (pixels : list Pixel) (cls : list (list Pixel))
    (P : option Pixel -> Prop) :
  (forall c, c ∈ cls -> c ≠ [] -> P (Some (meanPixel c))) ->
  (forall i, i < length pixels -> P (pixels !! i)) ->
  (pixels = [] -> P None) ->
  forall l acc ds res ds',
    forEach l
      (fun newCentroids i =>
         match cls !! i with
         | Some c =>
             if decide (0 < length c) then ret (newCentroids ++ [Some (meanPixel c)])
             else (index <- randomIndex (length pixels) ;;
                   ret (newCentroids ++ [pixels !! index]))
         | None => throw (TypeErrorReadOfUndefined "length")
         end)%js acc ds = Ok (res, ds') ->
    length res = length acc + length l /\ (Forall P acc -> Forall P res).
Proof.
  intros Hmean Hpick Hnone.
  induction l as [|i l IH]; intros acc ds res ds'; cbn [forEach].
  - intros [= <- _]. split; [simpl; lia|done].
  - unfold bind at 1. destruct (cls !! i) as [c|] eqn:Hc; [|done].
    case_decide as Hsize.
    + unfold ret at 1. intros Hrest. apply IH in Hrest as [Hlen Hall].
      rewrite length_app in Hlen. split; [simpl in *; lia|].
      intros Hacc. apply Hall, Forall_app. split; [done|]. apply Forall_singleton.
      apply Hmean; [by eapply list_elem_of_lookup_2|]. by destruct c; [simpl in Hsize; lia|].
    + unfold bind at 1, randomIndex. destruct ds as [|d ds]; [done|]. unfold ret at 1.
      intros Hrest. apply IH in Hrest as [Hlen Hall].
      rewrite length_app in Hlen. split; [simpl in *; lia|].
      intros Hacc. apply Hall, Forall_app. split; [done|]. apply Forall_singleton.
      case_decide as Hempty.
      * apply length_zero_iff_nil in Hempty. subst pixels. by apply Hnone.
      * apply Hpick. apply Nat.mod_upper_bound. done.
Qed.

Lemma kmeansLoop_step (n : nat) (pixels : list Pixel) (k : Z) (cs : list (option Pixel))
    (cls : list (list Pixel)) (ds : list nat) (res : KmeansResult) (ds' : list nat) :
  kmeansLoop (S n) pixels k cs cls ds = Ok (res, ds') ->
  exists cls' ds1 newCentroids ds2 ds3,
    assignPixels pixels cs k ds = Ok (cls', ds1) /\
    recomputeCentroids pixels cls' k ds1 = Ok (newCentroids, ds2) /\
    (res = mkKmeansResult newCentroids cls' \/
     kmeansLoop n pixels k newCentroids cls' ds3 = Ok (res, ds')).
Proof.
  cbn [kmeansLoop]. unfold bind.
  destruct (assignPixels pixels cs k ds) as [[cls' ds1]| |] eqn:Hassign; [|done..].
  destruct (recomputeCentroids pixels cls' k ds1) as [[newCentroids ds2]| |] eqn:Hnew;
    [|done..].
  destruct (hasConverged cs newCentroids k ds2) as [[[|] ds3]| |]; [| |done..].
  - intros [= <- <-]. exists cls', ds1, newCentroids, ds2, ds3.
    split; [done|]. split; [done|]. by left.
  - intros Hrest. exists cls', ds1, newCentroids, ds2, ds3.
    split; [done|]. split; [done|]. by right.
Qed.

Lemma recomputed_clustering (pixels : list Pixel) (k : Z) (cs : list (option Pixel))
    (ds : list nat) (cls : list (list Pixel)) (ds1 : list nat)
    (newCentroids : list (option Pixel)) (ds2 : list nat) :
  assignPixels pixels cs k ds = Ok (cls, ds1) ->
  recomputeCentroids pixels cls k ds1 = Ok (newCentroids, ds2) ->
  clustering pixels k (mkKmeansResult newCentroids cls).
Proof.
  intros Hassign Hnew. apply assignPixels_partition in Hassign as [Hlen Hperm].
  assert (forall c, c ∈ cls -> c ⊆ pixels) as Hsub.
  { intros c Hc p Hp. rewrite <-Hperm. apply elem_of_concat. eauto. }
  unfold clustering. cbn [centroids clusters].
  split; [|split; [done|split; [done|split]]].
  - eapply (recomputeCentroids_loop pixels cls (fun _ => True)) in Hnew as [Hn _]; [|done..].
    by rewrite Hn, length_seq.
  - intros Hne.
    eapply (recomputeCentroids_loop pixels cls is_Some) in Hnew as [_ Hall]; [by apply Hall| | |].
    + by eexists.
    + intros i Hi. by apply lookup_lt_is_Some.
    + done.
  - intros Hbytes c Hc.
    eapply (recomputeCentroids_loop pixels cls
              (fun oc => forall c, oc = Some c -> bytePixel c)) in Hnew as [_ Hall].
    + specialize (Hall ltac:(constructor)). rewrite Forall_forall in Hall. by eapply Hall.
    + intros c' Hc' Hne ? [= <-]. apply meanPixel_byte; [done|].
      apply Forall_forall. intros p Hp. rewrite Forall_forall in Hbytes.
      by apply Hbytes, (Hsub c').
    + intros i _ p Hp. rewrite Forall_forall in Hbytes.
      by eapply Hbytes, list_elem_of_lookup_2.
    + done.
Qed.

Lemma kmeansLoop_clustering (pixels : list Pixel) (k : Z) (n : nat) :
  forall cs cls ds res ds',
    kmeansLoop (S n) pixels k cs cls ds = Ok (res, ds') -> clustering pixels k res.
Proof.
  induction n as [|n IH]; intros cs cls ds res ds' Hrun;
    apply kmeansLoop_step in Hrun
      as (cls' & ds1 & newCentroids & ds2 & ds3 & Hassign & Hnew & [->|Hrest]);
    try by eapply recomputed_clustering.
  - injection Hrest as <- _. by eapply recomputed_clustering.
  - by eapply IH.
Qed.

(** X3.  Whenever [kmeans] returns, it returns [k] centroids and [k]
    clusters; the clusters hold every input pixel exactly once; with a
    nonempty input every centroid is defined; and on 8-bit pixels every
    centroid is an 8-bit colour. *)
Theorem kmeans_result_shape (pixels : list Pixel) (k : Z) (ds : list nat)
    (res : KmeansResult) (ds' : list nat) :
  kmeans pixels k ds = Ok (res, ds') -> clustering pixels k res.
Proof.
  unfold kmeans. unfold bind at 1.
  destruct (seedCentroids pixels k [] [] ds) as [[cs ds1]| |]; [|done..].
  apply kmeansLoop_clustering.
Qed.

Lemma kmeans_result_shape_witness :
  exists res ds',
    kmeans (getPixels stripe9x1) 5 (seq 0 200) = Ok (res, ds') /\
    clustering (getPixels stripe9x1) 5 res.
Proof.
  destruct (kmeans (getPixels stripe9x1) 5 (seq 0 200)) as [[res ds']| |] eqn:Hrun;
    [|vm_compute in Hrun; discriminate Hrun..].
  exists res, ds'. split; [reflexivity|]. exact (kmeans_result_shape _ _ _ _ _ Hrun).
Defined.

(** X5.  With [k <= 0] the clusterer seeds nothing: on an empty sample it
    returns no centroids and no clusters without a draw, on a nonempty one the
    first [clusters[0].push] throws. *)
Theorem kmeans_nonpositive_k (pixels : list Pixel) (k : Z) (ds : list nat) :
  (k <= 0)%Z ->
  kmeans pixels k ds
  = match pixels with
    | [] => Ok (mkKmeansResult [] [], ds)
    | _ :: _ => Throw (TypeErrorReadOfUndefined "push")
    end.
Proof.
  intros Hk. destruct pixels as [|pixel pixels]; [|by apply kmeans_no_clusters].
  unfold kmeans. unfold bind at 1.
  assert (Hseed : seedCentroids [] k [] [] ds = Ok ([], ds)).
  { destruct ds; cbn [seedCentroids]; rewrite decide_False; try done; simpl; lia. }
  rewrite Hseed. destruct k as [|k|k]; try lia; reflexivity.
Qed.

Lemma kmeans_nonpositive_k_witness :
  kmeans [] (-3) [7] = Ok (mkKmeansResult [] [], [7]) /\
  kmeans [(1, 2, 3)%Z] 0 [7] = Throw (TypeErrorReadOfUndefined "push").
Proof.
  split.
  - apply (kmeans_nonpositive_k [] (-3) [7]). lia.
  - apply (kmeans_nonpositive_k [(1, 2, 3)%Z] 0 [7]). lia.
Defined.

(** ** Palette assignment: the closest colour *)

Lemma findClosestColor_loop (avg : Pixel * Z) (ds : list nat) (l : list Pixel) :
  forall (pre : list Pixel) (acc : dist * option Pixel),
    (pre = [] /\ acc.1 = Infinity \/
     exists l1 c l2,
       pre = l1 ++ c :: l2 /\ acc = (Fin (scaledRadicand avg c), Some c) /\
       (forall c', c' ∈ l1 -> scaledRadicand avg c < scaledRadicand avg c')%Z /\
       (forall c', c' ∈ l2 -> scaledRadicand avg c <= scaledRadicand avg c')%Z) ->
    exists acc',
      forEach (Some <$> l)
        (fun (acc : dist * option Pixel) color =>
           match color with
           | None => throw (TypeErrorReadOfUndefined "0")
           | Some c =>
               ret (if dist_ltb (Fin (scaledRadicand avg c)) acc.1
                    then (Fin (scaledRadicand avg c), Some c) else acc)
           end) acc ds = Ok (acc', ds) /\
      (pre ++ l = [] /\ acc' = acc \/
       exists l1 c l2,
         pre ++ l = l1 ++ c :: l2 /\ acc' = (Fin (scaledRadicand avg c), Some c) /\
         (forall c', c' ∈ l1 -> scaledRadicand avg c < scaledRadicand avg c')%Z /\
         (forall c', c' ∈ l2 -> scaledRadicand avg c <= scaledRadicand avg c')%Z).
Proof.
  induction l as [|x l IH]; intros pre acc Hacc.
  - exists acc. split; [done|]. rewrite app_nil_r.
    destruct Hacc as [[-> _]|Hacc]; [by left|by right].
  - cbn [fmap list_fmap forEach]. unfold bind at 1, ret at 1.
    replace (pre ++ x :: l) with ((pre ++ [x]) ++ l) by (by rewrite <-app_assoc).
    edestruct (IH (pre ++ [x])) as (acc' & Hrun & Hacc'); [|exists acc'; split; [exact Hrun|]].
    + right. destruct Hacc as [[-> Hinf]|(l1 & c & l2 & -> & -> & Hl1 & Hl2)].
      * destruct acc as [m oc]. cbn [fst] in *. subst m. cbn [dist_ltb].
        exists [], x, []. split; [done|]. split; [done|].
        split; intros c' Hc'; by apply elem_of_nil in Hc'.
      * cbn [fst dist_ltb].
        destruct (Z.ltb_spec (scaledRadicand avg x) (scaledRadicand avg c)) as [Hlt|Hge].
        -- exists (l1 ++ c :: l2), x, []. split; [done|]. split; [done|]. split.
           ++ intros c' [Hc' | [-> | Hc']%elem_of_cons]%elem_of_app.
              ** specialize (Hl1 c' Hc'). lia.
              ** lia.
              ** specialize (Hl2 c' Hc'). lia.
           ++ intros c' Hc'. by apply elem_of_nil in Hc'.
        -- exists l1, c, (l2 ++ [x]). split; [by rewrite <-app_assoc|]. split; [done|].
           split; [done|].
           intros c' [Hc' | ->%list_elem_of_singleton]%elem_of_app; [by apply Hl2|lia].
    + destruct Hacc' as [[Hnil _]|Hacc']; [|by right].
      by destruct pre, l.
Qed.

(** X6.  For a colour with integer channels, be it a pixel or the average
    [n * p / n] of [n] pixels of one colour [p], and a nonempty palette of
    defined colours, [findClosestColor] returns the first palette colour at
    the least distance from it: every colour before it in the palette is
    strictly farther away, and no colour after it is closer. *)
Theorem findClosestColor_closest (p : Pixel) (n : Z) (palette : list Pixel) (ds : list nat) :
  (0 < n)%Z -> palette ≠ [] ->
  exists l1 c l2,
    findClosestColor (Some ((n * chanR p, n * chanG p, n * chanB p), n)%Z)
                     (Some <$> palette) ds
    = Ok (Some c, ds) /\
    palette = l1 ++ c :: l2 /\
    (forall c', c' ∈ l1 -> radicand p c < radicand p c')%Z /\
    (forall c', c' ∈ l2 -> radicand p c <= radicand p c')%Z.
Proof.
  intros Hn Hne. set (avg := ((n * chanR p, n * chanG p, n * chanB p), n)%Z).
  assert (forall c, scaledRadicand avg c = (n ^ 2 * radicand p c)%Z) as Hscaled.
  { intros c. unfold scaledRadicand, radicand, avg, chanR, chanG, chanB. cbn [fst snd]. lia. }
  unfold findClosestColor. unfold bind at 1.
  destruct (findClosestColor_loop avg ds palette [] (Infinity, mjoin ((Some <$> palette) !! 0)))
    as (acc' & Hrun & Hacc'); [by left|].
  rewrite Hrun. destruct Hacc' as [[Hnil _]|(l1 & c & l2 & Hsplit & -> & Hl1 & Hl2)]; [done|].
  exists l1, c, l2. do 2 (split; [done|]). split.
  - intros c' Hc'. specialize (Hl1 c' Hc'). rewrite !Hscaled in Hl1. nia.
  - intros c' Hc'. specialize (Hl2 c' Hc'). rewrite !Hscaled in Hl2. nia.
Qed.

Lemma findClosestColor_closest_witness :
  exists l1 c l2,
    findClosestColor (Some ((6, 6, 6), 2)%Z) (Some <$> [(200, 0, 0); (1, 1, 5); (1, 5, 1)]%Z) []
    = Ok (Some c, []) /\
    [(200, 0, 0); (1, 1, 5); (1, 5, 1)]%Z = l1 ++ c :: l2 /\
    (forall c', c' ∈ l1 -> radicand (3, 3, 3)%Z c < radicand (3, 3, 3)%Z c')%Z /\
    (forall c', c' ∈ l2 -> radicand (3, 3, 3)%Z c <= radicand (3, 3, 3)%Z c')%Z.
Proof.
  apply (findClosestColor_closest (3, 3, 3)%Z 2 [(200, 0, 0); (1, 1, 5); (1, 5, 1)]%Z []);
    [lia|done].
Defined.

(** In that palette two colours are equally close; the first of them is
    returned. *)
Example findClosestColor_first_of_two :
  findClosestColor (Some ((6, 6, 6), 2)%Z) (Some <$> [(200, 0, 0); (1, 1, 5); (1, 5, 1)]%Z) []
  = Ok (Some (1, 1, 5)%Z, []).
Proof. reflexivity. Qed.

(** ** PaletteOptimizer: the largest cluster keeps its colour *)

Lemma sortByLuminance_Permutation (colors : list (option Pixel)) :
  sortByLuminance colors ≡ₚ colors.
Proof.
  unfold sortByLuminance. rewrite sortBy_Permutation.
  induction colors as [|[c|] colors IH].
  - done.
  - cbn [omap list_omap id fmap list_fmap]. rewrite filter_cons_False by done.
    cbn. by rewrite IH.
  - cbn [omap list_omap id]. rewrite filter_cons_True by done.
    cbn [length replicate]. by rewrite <-Permutation_middle, IH.
Qed.

Lemma selectColors_prefix (k : Z) (remaining : nat) :
  forall fp cands ds res ds',
    selectColors remaining fp cands k ds = Ok (res, ds') -> fp `prefix_of` res.
Proof.
  induction remaining as [|remaining IH]; intros fp cands ds res ds'; cbn [selectColors].
  - by intros [= <- _].
  - case_decide; [|by intros [= <- _]]. unfold bind at 1.
    destruct (bestCandidate fp cands ds) as [[[[i|] m] ds1]| |]; [| |done..].
    + cbn [fst]. destruct (mjoin (cands !! i)) as [c|]; [|by intros [= <- _]].
      intros Hrest. apply IH in Hrest. etrans; [|exact Hrest]. by apply prefix_app_r.
    + by intros [= <- _].
Qed.

Lemma sortBy_head_least {A} (key : A -> Z) (l : list A) (hd : A) (tl : list A) :
  sortBy key l = hd :: tl -> forall x, x ∈ l -> (key hd <= key x)%Z.
Proof.
  intros Hsorted x Hx.
  assert (Transitive (fun a b : A => (key a <= key b)%Z)) as Htrans by (intros ???; lia).
  pose proof (sortBy_Sorted key l) as Hs. rewrite Hsorted in Hs.
  apply (Sorted_StronglySorted _) in Hs. apply StronglySorted_inv in Hs as [_ Hall].
  rewrite <-(sortBy_Permutation key), Hsorted in Hx.
  apply elem_of_cons in Hx as [->|Hx]; [lia|].
  rewrite Forall_forall in Hall. by apply Hall.
Qed.

(** X7.  When there are more centroids than [k] and some cluster is not
    empty, a palette that [generateOptimalPalette] returns holds the centroid
    of a cluster that no other cluster exceeds in size. *)
Theorem generateOptimalPalette_keeps_largest
    (cs : list (option Pixel)) (cls : list (list Pixel)) (k : Z) (ds : list nat)
    (palette : list (option Pixel)) (ds' : list nat) :
  (k < Z.of_nat (length cs))%Z ->
  (exists j, j < length cs /\ 0 < from_option length 0 (cls !! j)) ->
  generateOptimalPalette cs cls k ds = Ok (palette, ds') ->
  exists i centroid,
    cs !! i = Some centroid /\ centroid ∈ palette /\
    forall j, j < length cs ->
              from_option length 0 (cls !! j) <= from_option length 0 (cls !! i).
Proof.
  intros Hk (j0 & Hj0 & Hsize0) Hrun.
  assert (forall j, j < length cs -> 0 < from_option length 0 (cls !! j) ->
                    exists c, cs !! j = Some c /\
                              (c, from_option length 0 (cls !! j)) ∈ weightedCentroids cs cls)
    as Hweighted.
  { intros j Hj Hsize. destruct (lookup_lt_is_Some_2 cs j Hj) as [c Hc].
    exists c. split; [done|]. apply list_elem_of_filter. split; [done|].
    apply elem_of_lookup_imap. by exists j, c. }
  unfold generateOptimalPalette in Hrun. rewrite decide_False in Hrun by lia.
  unfold candidateColors in Hrun.
  destruct (sortBy _ (weightedCentroids cs cls)) as [|[first n] sorted] eqn:Hsorted.
  { destruct (Hweighted j0 Hj0 Hsize0) as (c & _ & Hc).
    rewrite <-(sortBy_Permutation (fun c => (- Z.of_nat c.2)%Z)), Hsorted in Hc.
    by apply elem_of_nil in Hc. }
  assert ((first, n) ∈ weightedCentroids cs cls) as Hfirst.
  { rewrite <-(sortBy_Permutation (fun c => (- Z.of_nat c.2)%Z)), Hsorted. left. }
  apply list_elem_of_filter in Hfirst as [_ Hfirst].
  apply elem_of_lookup_imap in Hfirst as (i & centroid & [= -> ->] & Hi).
  exists i, centroid. split; [done|]. split.
  - cbn [fmap list_fmap fst] in Hrun. unfold bind in Hrun.
    destruct (selectColors _ _ _ _ _) as [[fp ds1]| |] eqn:Hselect; [|done..].
    injection Hrun as <- _. rewrite sortByLuminance_Permutation.
    apply selectColors_prefix in Hselect as [rest ->]. left.
  - intros j Hj. destruct (decide (0 < from_option length 0 (cls !! j))) as [Hsize|]; [|lia].
    destruct (Hweighted j Hj Hsize) as (c & _ & Hc).
    pose proof (sortBy_head_least _ _ _ _ Hsorted _ Hc) as Hle. cbn [snd] in Hle. lia.
Qed.

Lemma generateOptimalPalette_keeps_largest_witness :
  exists i centroid,
    (Some <$> greyRedPalette) !! i = Some centroid /\
    centroid ∈ [Some (200, 0, 0)%Z] /\
    forall j, j < length (Some <$> greyRedPalette) ->
              from_option length 0 (greyRedClusters !! j)
              <= from_option length 0 (greyRedClusters !! i).
Proof.
  apply (generateOptimalPalette_keeps_largest (Some <$> greyRedPalette) greyRedClusters 1 []
           [Some (200, 0, 0)%Z] []).
  - simpl. lia.
  - exists 0. simpl. lia.
  - reflexivity.
Defined.

(** ** Smoother: the median of a window *)

Lemma median9_isMedian (l : list Z) : length l = 9 -> isMedian (median9 l) l.
Proof.
  intros Hlen. unfold median9, isMedian.
  pose proof (sortBy_Permutation id l) as Hperm.
  pose proof (sortBy_Sorted id l) as Hsorted.
  pose proof (sortBy_length id l) as Hlen'. rewrite Hlen in Hlen'.
  assert (Transitive (fun a b : Z => (id a <= id b)%Z)) as Htrans
    by (unfold id; intros ???; lia).
  apply (Sorted_StronglySorted _) in Hsorted.
  rewrite Hlen.
  assert (forall v, length (filter (fun x => (x <= v)%Z) l)
                    = length (filter (fun x => (x <= v)%Z) (sortBy id l))) as Hbelow
    by (intros v; by rewrite Hperm).
  assert (forall v, length (filter (fun x => (v <= x)%Z) l)
                    = length (filter (fun x => (v <= x)%Z) (sortBy id l))) as Habove
    by (intros v; by rewrite Hperm).
  assert (forall v, v ∈ sortBy id l -> v ∈ l) as Hin by (intros v; by rewrite Hperm).
  rewrite Hbelow, Habove.
  destruct (sortBy id l) as [|a0 [|a1 [|a2 [|a3 [|a4 [|a5 [|a6 [|a7 [|a8 [|? ?]]]]]]]]]];
    try discriminate Hlen'.
  cbn [lookup list_lookup default from_option].
  repeat match goal with
         | H : StronglySorted _ (_ :: _) |- _ => apply StronglySorted_inv in H as [H ?]
         | H : Forall _ (_ :: _) |- _ => apply Forall_cons in H as [? H]
         end.
  unfold id in *. cbn beta in *. split; [|split].
  - apply Hin. do 4 right. left.
  - rewrite !filter_cons_True by lia. cbn [length]. lia.
  - change [a0; a1; a2; a3; a4; a5; a6; a7; a8] with ([a0; a1; a2; a3] ++ [a4; a5; a6; a7; a8]).
    rewrite filter_app, length_app.
    assert (length (filter (fun x => (a4 <= x)%Z) [a4; a5; a6; a7; a8]) = 5) as ->; [|lia].
    by rewrite !filter_cons_True by lia.
Qed.

Lemma window_length (d : list Z) (w x y c : nat) : length (window d w x y c) = 9.
Proof. reflexivity. Qed.

Lemma window_bytes (d : list Z) (w x y c : nat) :
  Forall (fun v => (0 <= v <= 255)%Z) d ->
  Forall (fun v => (0 <= v <= 255)%Z) (window d w x y c).
Proof.
  intros Hd. unfold window. cbn [flat_map map seq app].
  repeat (apply Forall_cons; split; [by apply channelAt_byte|]). by apply Forall_nil.
Qed.

(** X8.  On any raster the host can hand over, the median filter returns a
    raster of the same dimensions: a border pixel keeps its four bytes; an
    interior pixel gets alpha 255 and, in each colour channel, a median of the
    nine values of its 3x3 window in the input. *)
Theorem applyMedianFilter_median (img : ImageData) (ds : list nat) :
  wfImageData img ->
  exists out,
    applyMedianFilter img ds = Ok (out, ds) /\
    width out = width img /\ height out = height img /\
    wfImageData out /\
    forall p, p < width img * height img ->
      let x := p `mod` width img in
      let y := p `div` width img in
      (onBorder img x y ->
       forall c, c < 4 -> data out !! (4 * p + c) = data img !! (4 * p + c)) /\
      (~ onBorder img x y ->
       data out !! (4 * p + 3) = Some 255%Z /\
       forall c, c < 3 ->
         exists v, data out !! (4 * p + c) = Some v /\
                   isMedian v (window (data img) (width img) x y c)).
Proof.
  intros Hwf.
  destruct (applyMedianFilter_lookup img ds Hwf) as (out & Hrun & Hw & Hh & Hlen & Hlk).
  destruct Hwf as (Hw0 & Hh0 & Hlen0 & Hbytes).
  exists out. do 3 (split; [done|]). split.
  { unfold wfImageData. rewrite Hw, Hh, Hlen. do 3 (split; [done|]).
    apply Forall_lookup_2. intros j v Hv.
    pose proof (lookup_lt_Some _ _ _ Hv) as Hj. rewrite Hlen in Hj.
    rewrite Hlk in Hv by done. injection Hv as <-. apply clamp8_range. }
  intros p Hp x y. split.
  - intros Hb c Hc. rewrite Hlk by lia.
    destruct (pixel_channel_div_mod p c Hc) as [-> ->].
    unfold medianChannel. cbv zeta. fold x y. rewrite decide_True by done.
    replace (p * 4 + c) with (4 * p + c) by lia.
    rewrite clamp8_byte by (by apply channelAt_byte).
    symmetry. apply lookup_channelAt. lia.
  - intros Hb. split.
    + rewrite Hlk by lia. destruct (pixel_channel_div_mod p 3 ltac:(lia)) as [-> ->].
      unfold medianChannel. cbv zeta. fold x y.
      rewrite decide_False by done. rewrite decide_False by lia. done.
    + intros c Hc. eexists. rewrite Hlk by lia.
      destruct (pixel_channel_div_mod p c ltac:(lia)) as [-> ->].
      unfold medianChannel. cbv zeta. fold x y.
      rewrite decide_False by done. rewrite decide_True by done.
      pose proof (median9_isMedian _ (window_length (data img) (width img) x y c)) as Hmed.
      split; [|exact Hmed]. f_equal. apply clamp8_byte.
      destruct Hmed as [Hin _].
      pose proof (window_bytes (data img) (width img) x y c Hbytes) as Hwin.
      rewrite Forall_forall in Hwin. by apply Hwin.
Qed.

Lemma speckled3x3_wf : wfImageData speckled3x3.
Proof.
  repeat split; simpl; try lia. repeat (constructor; [lia|]). constructor.
Qed.

Lemma applyMedianFilter_median_witness :
  exists out,
    applyMedianFilter speckled3x3 [] = Ok (out, []) /\
    wfImageData out /\
    exists v, data out !! (4 * 4 + 0) = Some v /\ isMedian v (window (data speckled3x3) 3 1 1 0).
Proof.
  destruct (applyMedianFilter_median speckled3x3 [] speckled3x3_wf)
    as (out & Hrun & _ & _ & Hwf & Hdata).
  exists out. split; [exact Hrun|]. split; [exact Hwf|].
  destruct (Hdata 4 ltac:(simpl; lia)) as [_ Hinner].
  destruct Hinner as [_ Hmed].
  - unfold onBorder. simpl. lia.
  - exact (Hmed 0 ltac:(lia)).
Defined.

(** ** LabelPlacer: the label stays in the bounding box *)

Lemma erode_subseteq (width : Z) (fuel : nat) :
  forall currentPixels lastPixels res,
    erode fuel width currentPixels lastPixels = Some res ->
    match currentPixels with
    | [] => res = lastPixels
    | _ :: _ => res ≠ [] /\ res ⊆ currentPixels
    end.
Proof.
  induction fuel as [|fuel IH]; intros current last res.
  - destruct current; [by intros [= <-]|done].
  - destruct current as [|p current']; [by intros [= <-]|].
    set (current := p :: current') in *. cbn [erode]. fold current. cbv zeta.
    case_decide; [by intros [= <-]|].
    intros Hrest. apply IH in Hrest.
    lazymatch type of Hrest with
    | match ?kept with _ => _ end => destruct kept as [|q rest] eqn:Hfilter
    end.
    + rewrite Hrest. by split.
    + destruct Hrest as [Hne Hsub]. split; [done|].
      intros z Hz. apply Hsub in Hz. rewrite <-Hfilter in Hz.
      by apply list_elem_of_filter in Hz as [_ Hz].
Qed.

(** The label of a nonempty region is the rounded centroid of a nonempty
    part of its pixels: what the erosion leaves. *)
Lemma findBestLabelPosition_centroid (pixels : list Z) (width : Z) :
  pixels ≠ [] ->
  exists lastPixels,
    lastPixels ≠ [] /\ lastPixels ⊆ pixels /\
    findBestLabelPosition pixels width
    = Some (roundDiv (sumZ ((fun pixelIndex => Z.rem pixelIndex width) <$> lastPixels))
                     (Z.of_nat (length lastPixels)),
            roundDiv (sumZ ((fun pixelIndex => pixelIndex `div` width)%Z <$> lastPixels))
                     (Z.of_nat (length lastPixels))).
Proof.
  intros Hne. unfold findBestLabelPosition.
  destruct pixels as [|fallbackIndex pixels']; [done|].
  set (pixels := fallbackIndex :: pixels') in *.
  destruct (erode_returns width (length (setOf pixels)) (setOf pixels) [])
    as [lastPixels Herode]; [done|].
  rewrite Herode. cbn [mbind option_bind].
  apply erode_subseteq in Herode.
  destruct (setOf pixels) as [|s0 set'] eqn:Hset.
  { assert (fallbackIndex ∈ setOf pixels) as Hin by (apply elem_of_setOf; left).
    rewrite Hset in Hin. by apply elem_of_nil in Hin. }
  destruct Herode as [Hlast Hsub].
  exists lastPixels. split; [done|]. split.
  - intros p Hp. apply elem_of_setOf. rewrite Hset. by apply Hsub.
  - by destruct lastPixels.
Qed.

Lemma centroid_bounds {A} (f : A -> Z) (lo hi : Z) (l : list A) :
  l ≠ [] -> (forall x, x ∈ l -> (lo <= f x <= hi)%Z) ->
  (lo <= roundDiv (sumZ (f <$> l)) (Z.of_nat (length l)) <= hi)%Z.
Proof.
  intros Hne Hall. apply roundDiv_bounds; [destruct l; [done|simpl; lia]|].
  apply sumZ_bounds. by apply Forall_forall.
Qed.

(** X9.  For a nonempty pixel list, [findBestLabelPosition] returns a
    position inside every box that bounds the coordinates of the pixels, so
    the label of a region never leaves the bounding box of the region. *)
Theorem findBestLabelPosition_in_bounding_box
    (pixels : list Z) (width x0 x1 y0 y1 : Z) :
  pixels ≠ [] ->
  (forall p, p ∈ pixels ->
     (x0 <= Z.rem p width <= x1)%Z /\ (y0 <= p `div` width <= y1)%Z) ->
  exists x y,
    findBestLabelPosition pixels width = Some (x, y) /\
    (x0 <= x <= x1)%Z /\ (y0 <= y <= y1)%Z.
Proof.
  intros Hne Hbox.
  destruct (findBestLabelPosition_centroid pixels width Hne)
    as (lastPixels & Hlast & Hsub & ->).
  eexists _, _. split; [reflexivity|]. split.
  - apply centroid_bounds; [done|]. intros p Hp. by apply Hbox, Hsub.
  - apply centroid_bounds; [done|]. intros p Hp. by apply Hbox, Hsub.
Qed.

Lemma findBestLabelPosition_in_bounding_box_witness :
  exists x y,
    findBestLabelPosition rect5x3 7 = Some (x, y) /\ (1 <= x <= 5)%Z /\ (1 <= y <= 3)%Z.
Proof.
  apply (findBestLabelPosition_in_bounding_box rect5x3 7 1 5 1 3); [done|].
  apply Forall_forall. unfold rect5x3.
  repeat (apply Forall_cons; split; [vm_compute; repeat split; discriminate|]).
  by apply Forall_nil.
Defined.

(** ** RegionGrower: what a flood fill pushes *)

Lemma visitNeighbor_pushed (img : ImageData) (thr : Z) (start : option Pixel)
    (cur p : nat) (regionMap stack : list nat) (nb : Z) (regionMap' stack' : list nat) :
  visitNeighbor img thr start cur p (regionMap, stack) nb = (regionMap', stack') ->
  length regionMap' = length regionMap /\
  (stack' = stack \/
   exists q, stack' = q :: stack /\ Z.of_nat q = nb /\
             q < length regionMap /\
             closerThan thr start (pixelColor (data img) q) = true /\
             (q `mod` width img = p `mod` width img \/
              q `div` width img = p `div` width img)).
Proof.
  unfold visitNeighbor. cbv zeta.
  case_decide as Hin; [|intros [= <- <-]; by split; [|left]].
  case_decide as Hline; [|intros [= <- <-]; by split; [|left]].
  destruct (closerThan _ _ _) eqn:Hclose; [|intros [= <- <-]; by split; [|left]].
  intros [= <- <-]. split; [by rewrite length_insert|]. right.
  exists (Z.to_nat nb). split; [done|]. split; [lia|]. tauto.
Qed.

Lemma visitNeighbors_pushed (img : ImageData) (thr : Z) (start : option Pixel)
    (cur p : nat) (nbs : list Z) :
  forall regionMap stack regionMap' stack',
    foldl (visitNeighbor img thr start cur p) (regionMap, stack) nbs = (regionMap', stack') ->
    length regionMap' = length regionMap /\
    forall q, q ∈ stack' ->
      q ∈ stack \/
      (q < length regionMap /\
       closerThan thr start (pixelColor (data img) q) = true /\
       Z.of_nat q ∈ nbs /\
       (q `mod` width img = p `mod` width img \/ q `div` width img = p `div` width img)).
Proof.
  induction nbs as [|nb nbs IH]; intros regionMap stack regionMap' stack'; cbn [foldl].
  - intros [= <- <-]. split; [done|]. by left.
  - destruct (visitNeighbor img thr start cur p (regionMap, stack) nb)
      as [map1 stack1] eqn:Hvisit.
    apply visitNeighbor_pushed in Hvisit as [Hlen1 Hstack1].
    intros Hrest. apply IH in Hrest as [Hlen Hstack]. split; [congruence|].
    intros q Hq. apply Hstack in Hq as [Hq|(Hq & Hclose & Hnb & Hline)].
    + destruct Hstack1 as [->|(q' & -> & Hq' & Hlt & Hclose & Hline)]; [by left|].
      apply elem_of_cons in Hq as [->|Hq]; [|by left].
      right. split; [done|]. split; [done|]. split; [rewrite Hq'; left|done].
    + right. split; [lia|]. split; [done|]. split; [by right|done].
Qed.

Section fill_invariant.
Variables (img : ImageData) (thr : Z) (start : option Pixel) (n : nat).
Variable I : Region.t -> list nat -> Prop.
Hypothesis I_step :
  forall region p stack stack',
    I region (p :: stack) ->
    (forall q, q ∈ stack' -> q ∈ stack \/ pushedFrom img thr start n p q) ->
    I (recordPixel img region p) stack'.

Lemma growRegion_invariant (fuel : nat) :
  forall regionMap region stack regionMap' region',
    length regionMap = n -> I region stack ->
    growRegion fuel img thr start regionMap region stack = Some (regionMap', region') ->
    I region' [].
Proof.
  induction fuel as [|fuel IH]; intros regionMap region stack regionMap' region' Hlen Hinv.
  - destruct stack; [by intros [= _ <-]|done].
  - destruct stack as [|p stack]; [by intros [= _ <-]|].
    cbn [growRegion]. cbv zeta.
    destruct (foldl _ (regionMap, stack) _) as [map1 stack1] eqn:Hvisit.
    apply visitNeighbors_pushed in Hvisit as [Hlen1 Hstack1].
    apply IH; [congruence|]. apply (I_step _ _ stack); [done|].
    intros q Hq. destruct (Hstack1 q Hq) as [?|(? & ? & ? & ?)]; [by left|].
    right. unfold pushedFrom. rewrite <-Hlen. done.
Qed.
End fill_invariant.

(** Every region of the table was grown by one flood fill from a fresh
    region at an unassigned seed. *)
Lemma growRegions_regions (img : ImageData) (thr : Z) (T : Region.t -> Prop) :
  (forall seg i regionMap' grown,
     scanState (width img * height img) i seg -> 0 < regionId seg ->
     i < width img * height img -> initialRegionMap seg !! i = Some 0 ->
     growRegion (length (initialRegionMap seg)) img thr (pixelColor (data img) i)
                (<[i := regionId seg]> (initialRegionMap seg))
                (Region.mk (regionId seg) [] (Some 0%Z) (Some 0%Z) (Some 0%Z)
                           (Z.of_nat (width img)) (Z.of_nat (height img)) (-1) (-1) None)
                [i] = Some (regionMap', grown) ->
     T grown) ->
  forall seg, growRegions img thr = Some seg ->
    forall id region, initialRegions seg !! id = Some region -> T region.
Proof.
  intros Hfill.
  assert (forall i, i <= width img * height img ->
            forall seg,
              foldl (fun seg i => seg ≫= fun seg => seedRegion img thr seg i)
                    (Some (mkSegmentation (replicate (width img * height img) 0) ∅ 1))
                    (seq 0 i) = Some seg ->
              forall id region, initialRegions seg !! id = Some region -> T region)
    as Hprefix; [|by apply Hprefix].
  induction i as [|i IH]; intros Hi seg.
  - intros [= <-] id region. cbn. by rewrite lookup_empty.
  - rewrite seq_S, foldl_snoc. cbn [Nat.add].
    destruct (growRegions_scan img thr (width img * height img) i ltac:(lia))
      as (seg0 & Hrun & Hpos & Hst).
    specialize (IH ltac:(lia) seg0 Hrun). rewrite Hrun. cbn [mbind option_bind].
    unfold seedRegion. case_decide as Hzero; [|by intros [= <-]].
    destruct (growRegion _ _ _ _ _ _ _) as [[regionMap' grown]|] eqn:Hgrow; [|done].
    cbn. intros [= <-] id region. cbn [initialRegions].
    destruct (decide (id = regionId seg0)) as [->|Hne].
    + rewrite lookup_insert_eq. intros [= <-].
      by apply (Hfill seg0 i regionMap' grown Hst Hpos ltac:(lia) Hzero).
    + rewrite lookup_insert_ne by done. apply IH.
Qed.

(** ** RegionGrower: bounding boxes and colour sums *)

Lemma recordPixel_growingBox (img : ImageData) (region : Region.t) (p : nat) :
  p < width img * height img ->
  growingBox img region -> boundingBoxExact (width img) (recordPixel img region p).
Proof.
  intros Hp Hbox. unfold growingBox in Hbox.
  assert (0 < width img) as Hw by nia.
  assert (0 <= xOf (width img) p < Z.of_nat (width img))%Z as Hx.
  { unfold xOf. pose proof (Nat.mod_upper_bound p (width img)). lia. }
  assert (0 <= yOf (width img) p < Z.of_nat (height img))%Z as Hy.
  { unfold yOf. assert (p `div` width img < height img); [|lia].
    apply Nat.Div0.div_lt_upper_bound. lia. }
  unfold boundingBoxExact, recordPixel.
  cbn [Region.pixels Region.minX Region.minY Region.maxX Region.maxY].
  fold (xOf (width img) p) (yOf (width img) p).
  destruct (Region.pixels region) as [|q0 l] eqn:Hpx; cbn [app].
  - destruct Hbox as (-> & -> & -> & ->).
    rewrite !(proj2 (Z.ltb_lt _ _)) by lia.
    split; [intros q ->%list_elem_of_singleton; lia|].
    repeat split; exists p; (split; [left|done]).
  - destruct Hbox as (Hin & (a & Ha & Hxa) & (b & Hb & Hxb) & (c & Hc & Hyc) & (e & He & Hye)).
    rewrite Hpx in *. rewrite app_comm_cons.
    assert (forall q, q ∈ q0 :: l -> q ∈ (q0 :: l) ++ [p]) as Hold
      by (intros q Hq; apply elem_of_app; by left).
    assert (p ∈ (q0 :: l) ++ [p]) as Hnew by (apply elem_of_app; right; left).
    destruct (Z.ltb_spec (xOf (width img) p) (Region.minX region)),
             (Z.ltb_spec (yOf (width img) p) (Region.minY region)),
             (Z.ltb_spec (Region.maxX region) (xOf (width img) p)),
             (Z.ltb_spec (Region.maxY region) (yOf (width img) p));
      (split;
       [intros q [Hq| ->%list_elem_of_singleton]%elem_of_app;
        [specialize (Hin q Hq)|]; lia|]);
      repeat split; eauto.
Qed.

Lemma recordPixel_sumsExact (img : ImageData) (region : Region.t) (p : nat) :
  p * 4 + 2 < length (data img) ->
  sumsExact (data img) region -> sumsExact (data img) (recordPixel img region p).
Proof.
  intros Hp (HR & HG & HB).
  unfold sumsExact, recordPixel. cbn [Region.sumR Region.sumG Region.sumB Region.pixels].
  rewrite HR, HG, HB, !fmap_app, !sumZ_app, !lookup_channelAt by lia.
  cbn. unfold sumZ. cbn. done.
Qed.

(** The flood fill leaves a region that has pixels, with the least box
    around them. *)
Lemma growRegion_boxed (img : ImageData) (thr : Z) (start : option Pixel) (fuel i cur : nat)
    (regionMap regionMap' : list nat) (grown : Region.t) :
  length regionMap = width img * height img -> i < width img * height img ->
  growRegion fuel img thr start regionMap
             (Region.mk cur [] (Some 0%Z) (Some 0%Z) (Some 0%Z)
                        (Z.of_nat (width img)) (Z.of_nat (height img)) (-1) (-1) None)
             [i] = Some (regionMap', grown) ->
  Region.pixels grown ≠ [] /\ boundingBoxExact (width img) grown.
Proof.
  intros Hlen Hi Hgrow.
  apply (growRegion_invariant img thr start (width img * height img)
           (fun region stack =>
              growingBox img region /\
              (forall q, q ∈ stack -> q < width img * height img) /\
              (Region.pixels region = [] -> stack ≠ []))) in Hgrow.
  - destruct Hgrow as (Hbox & _ & Hne). unfold growingBox in Hbox.
    destruct (Region.pixels grown) eqn:Hpx; [by destruct Hne|]. done.
  - intros region p stack stack' (Hbox & Hstack & _) Hpushed.
    assert (boundingBoxExact (width img) (recordPixel img region p)) as Hbox'.
    { apply recordPixel_growingBox; [|done]. apply Hstack. left. }
    split; [|split].
    + unfold growingBox. rewrite recordPixel_pixels.
      destruct (Region.pixels region ++ [p]) eqn:Hpx; [|done].
      by apply app_eq_nil in Hpx as [_ ?].
    + intros q Hq. destruct (Hpushed q Hq) as [?|[? _]]; [|done]. apply Hstack. by right.
    + rewrite recordPixel_pixels. intros Hnil. by apply app_eq_nil in Hnil as [_ ?].
  - done.
  - split; [|split].
    + repeat split.
    + by intros q ->%list_elem_of_singleton.
    + done.
Qed.

(** X10.  On a raster with four bytes per pixel, every region the flood-fill
    pass leaves has at least one pixel; its bounding box is the least box
    around its pixels, and its three colour sums are the sums of the red,
    green and blue bytes of its pixels. *)
Theorem growRegions_bookkeeping (img : ImageData) (thr : Z) :
  length (data img) = 4 * (width img * height img) ->
  exists seg,
    growRegions img thr = Some seg /\
    forall id region, initialRegions seg !! id = Some region ->
      Region.pixels region ≠ [] /\
      boundingBoxExact (width img) region /\
      sumsExact (data img) region.
Proof.
  intros Hd. destruct (growRegions_grown img thr) as (seg & Hrun & _).
  exists seg. split; [done|].
  apply (growRegions_regions img thr
           (fun region => Region.pixels region ≠ [] /\
                          boundingBoxExact (width img) region /\
                          sumsExact (data img) region)); [|done].
  intros seg0 i regionMap' grown (Hlen & _) _ Hi _ Hgrow.
  destruct (growRegion_boxed img thr _ _ i _ _ _ _ ltac:(by rewrite length_insert) Hi Hgrow)
    as [Hne Hbox].
  split; [done|]. split; [done|].
  apply (growRegion_invariant img thr (pixelColor (data img) i) (width img * height img)
           (fun region stack =>
              sumsExact (data img) region /\
              forall q, q ∈ stack -> q < width img * height img)) in Hgrow.
  - by destruct Hgrow.
  - intros region p stack stack' (Hsums & Hstack) Hpushed. split.
    + apply recordPixel_sumsExact; [|done]. specialize (Hstack p ltac:(left)). lia.
    + intros q Hq. destruct (Hpushed q Hq) as [?|[? _]]; [|done]. apply Hstack. by right.
  - by rewrite length_insert.
  - split; [by repeat split|]. by intros q ->%list_elem_of_singleton.
Qed.

Lemma growRegions_bookkeeping_witness :
  exists seg,
    growRegions stripe9x1 12 = Some seg /\
    forall id region, initialRegions seg !! id = Some region ->
      Region.pixels region ≠ [] /\
      boundingBoxExact (width stripe9x1) region /\
      sumsExact (data stripe9x1) region.
Proof. apply (growRegions_bookkeeping stripe9x1 12). reflexivity. Defined.

(** ** RegionGrower: regions are connected and close to their seed *)

Lemma mul_succ_unit (w a b : nat) : w * a = w * b + 1 -> w = 1.
Proof.
  intros H. destruct (decide (a <= b)) as [Hle|Hgt].
  - pose proof (Nat.mul_le_mono_l _ _ w Hle). lia.
  - pose proof (Nat.mul_le_mono_l (b + 1) a w ltac:(lia)) as Hm.
    rewrite Nat.mul_add_distr_l, Nat.mul_1_r in Hm. lia.
Qed.

Lemma adjacent_of_neighbor (w p q : nat) :
  0 < w -> Z.of_nat q ∈ gridNeighbors w p ->
  q `mod` w = p `mod` w \/ q `div` w = p `div` w ->
  adjacent w p q.
Proof.
  intros Hw Hnb Hline. unfold adjacent. unfold gridNeighbors in Hnb.
  rewrite !elem_of_cons, elem_of_nil in Hnb.
  destruct Hnb as [Hq|[Hq|[Hq|[Hq|[]]]]].
  - assert (p = q + 1 * w) as -> by lia.
    rewrite Nat.Div0.mod_add, Nat.div_add by lia. left. split; [done|]. right. lia.
  - assert (q = p + 1 * w) as -> by lia.
    rewrite Nat.Div0.mod_add, Nat.div_add by lia. left. split; [done|]. left. lia.
  - pose proof (Nat.div_mod_eq p w). pose proof (Nat.div_mod_eq q w).
    pose proof (Nat.mod_upper_bound p w ltac:(lia)).
    pose proof (Nat.mod_upper_bound q w ltac:(lia)).
    destruct Hline as [Hcol|Hrow].
    + assert (w = 1) as -> by (apply (mul_succ_unit w (p `div` w) (q `div` w)); lia).
      rewrite !Nat.div_1_r, !Nat.mod_1_r. left. split; [done|]. right. lia.
    + right. split; [done|]. right. rewrite Hrow in *. lia.
  - pose proof (Nat.div_mod_eq p w). pose proof (Nat.div_mod_eq q w).
    pose proof (Nat.mod_upper_bound p w ltac:(lia)).
    pose proof (Nat.mod_upper_bound q w ltac:(lia)).
    destruct Hline as [Hcol|Hrow].
    + assert (w = 1) as -> by (apply (mul_succ_unit w (q `div` w) (p `div` w)); lia).
      rewrite !Nat.div_1_r, !Nat.mod_1_r. left. split; [done|]. left. lia.
    + right. split; [done|]. left. rewrite Hrow in *. lia.
Qed.

(** X11.  Every region the flood-fill pass leaves lists its seed first;
    every other pixel of it has a colour within the threshold of the colour
    of the seed and is the neighbour, in a column or in a row, of a pixel
    listed before it.  So a region is 4-connected. *)
Theorem growRegions_connected (img : ImageData) (thr : Z) :
  exists seg,
    growRegions img thr = Some seg /\
    forall id region, initialRegions seg !! id = Some region ->
      grownFromSeed img thr (Region.pixels region).
Proof.
  destruct (growRegions_grown img thr) as (seg & Hrun & _).
  exists seg. split; [done|].
  apply (growRegions_regions img thr
           (fun region => grownFromSeed img thr (Region.pixels region))); [|done].
  intros seg0 seed regionMap' grown (Hlen & _) _ Hseed _ Hgrow.
  set (close := fun q => closerThan thr (pixelColor (data img) seed)
                                    (pixelColor (data img) q) = true).
  set (linked := fun pixels : list nat =>
         pixels !! 0 = Some seed /\
         forall j q, pixels !! S j = Some q ->
           close q /\ exists i p, i <= j /\ pixels !! i = Some p /\ adjacent (width img) p q).
  apply (growRegion_invariant img thr (pixelColor (data img) seed) (width img * height img)
           (fun region stack =>
              (Region.pixels region = [] /\ stack = [seed]) \/
              (linked (Region.pixels region) /\
               forall q, q ∈ stack ->
                 close q /\
                 exists i p, Region.pixels region !! i = Some p /\
                             adjacent (width img) p q))) in Hgrow.
  - destruct Hgrow as [[_ ?]|[[Hhead Hlinked] _]]; [done|]. by exists seed.
  - intros region p stack stack' Hinv Hpushed. right.
    assert (forall q, pushedFrom img thr (pixelColor (data img) seed)
                        (width img * height img) p q ->
                      close q /\ adjacent (width img) p q) as Hadj.
    { intros q (Hq & Hclose & Hnb & Hline). split; [done|].
      apply adjacent_of_neighbor; [nia|done..]. }
    rewrite recordPixel_pixels.
    destruct Hinv as [[Hnil [= -> ->]]|[[Hhead Hlinked] Hstack]].
    + rewrite Hnil. cbn [app]. split; [split; [done|]|].
      * intros j q Hq. done.
      * intros q Hq. destruct (Hpushed q Hq) as [?%elem_of_nil|Hq']; [done|].
        destruct (Hadj q Hq') as [? ?]. split; [done|]. by exists 0, seed.
    + pose proof (lookup_lt_Some _ _ _ Hhead) as Hpos.
      split; [split|].
      * by rewrite lookup_app_l.
      * intros j q Hq. apply lookup_snoc_Some in Hq as [[Hj Hq]|[Hj <-]].
        -- destruct (Hlinked j q Hq) as (Hclose & i & p0 & Hi & Hp0 & Hadj0).
           split; [done|]. exists i, p0. split; [done|]. split; [|done].
           rewrite lookup_app_l; [done|]. by apply lookup_lt_Some in Hp0.
        -- destruct (Hstack p ltac:(left)) as (Hclose & i & p0 & Hp0 & Hadj0).
           split; [done|]. exists i, p0.
           pose proof (lookup_lt_Some _ _ _ Hp0). split; [lia|]. split; [|done].
           by rewrite lookup_app_l.
      * intros q Hq. destruct (Hpushed q Hq) as [Hold|Hq'].
        -- destruct (Hstack q ltac:(by right)) as (Hclose & i & p0 & Hp0 & Hadj0).
           split; [done|]. exists i, p0. split; [|done].
           rewrite lookup_app_l; [done|]. by apply lookup_lt_Some in Hp0.
        -- destruct (Hadj q Hq') as [? ?]. split; [done|].
           exists (length (Region.pixels region)), p. split; [|done].
           by apply list_lookup_middle.
  - by rewrite length_insert.
  - by left.
Qed.

(** ** RegionMerger: no pixel is lost or duplicated *)

Lemma partition_regionPixels (n : nat) (seg : Segmentation) :
  length (initialRegionMap seg) = n -> regionsOwnPixels seg -> mapLive seg ->
  (forall q, q < n -> initialRegionMap seg !! q ≠ Some 0) ->
  regionPixels seg ≡ₚ seq 0 n.
Proof.
  intros Hlen Hown Hlive Hnonzero. unfold regionPixels.
  apply NoDup_Permutation.
  - apply NoDup_bind.
    + intros [id1 r1] [id2 r2] q Hr1%elem_of_map_to_list Hr2%elem_of_map_to_list Hq1 Hq2.
      cbn [snd] in *.
      destruct (Hown id1 r1 Hr1) as (_ & _ & _ & Hpx1).
      destruct (Hown id2 r2 Hr2) as (_ & _ & _ & Hpx2).
      apply Hpx1 in Hq1. apply Hpx2 in Hq2.
      assert (id1 = id2) as -> by congruence. congruence.
    + intros [id r] Hr%elem_of_map_to_list. by destruct (Hown id r Hr) as (_ & _ & ? & _).
    + apply NoDup_map_to_list.
  - apply NoDup_seq.
  - intros q. rewrite list_elem_of_bind, elem_of_seq. split.
    + intros ([id r] & Hq & Hr%elem_of_map_to_list). cbn [snd] in Hq.
      destruct (Hown id r Hr) as (_ & _ & _ & Hpx). apply Hpx in Hq.
      apply lookup_lt_Some in Hq. lia.
    + intros [_ Hq]. cbn in Hq.
      destruct (lookup_lt_is_Some_2 (initialRegionMap seg) q) as [id Hid]; [lia|].
      assert (id ≠ 0) as Hid0 by (intros ->; by apply (Hnonzero q)).
      destruct (Hlive q id Hid Hid0) as [r Hr].
      exists (id, r). split; [|by apply elem_of_map_to_list].
      destruct (Hown id r Hr) as (_ & _ & _ & Hpx). by apply Hpx.
Qed.

(** X12.  The regions partition the raster before and after the merge pass:
    listing the pixels of all regions of the table gives every pixel index of
    the raster exactly once, so the region sizes add up to the number of
    pixels and merging neither loses nor duplicates a pixel. *)
Theorem merge_conserves_pixels
    (img : ImageData) (palette : list Pixel) (options : Options) (ds : list nat) :
  exists grown assigned merged,
    growRegions img (colorThreshold options) = Some grown /\
    assignColors (Some <$> palette) grown ds = Ok (assigned, ds) /\
    mergeRegions img options assigned ds = Ok (merged, ds) /\
    regionPixels grown ≡ₚ seq 0 (width img * height img) /\
    regionPixels merged ≡ₚ seq 0 (width img * height img).
Proof.
  destruct (growRegions_grown img (colorThreshold options)) as (grown & Hgrown & _ & Hscan).
  destruct (assignColors_mergeState palette _ grown ds Hscan)
    as (assigned & Hassigned & Hst & Hcolors).
  destruct (mergeLoop_mergeState palette img options _ (sortedRegionIds assigned)
              assigned ds Hst Hcolors) as (merged & Hmerged & Hst' & _).
  exists grown, assigned, merged. do 3 (split; [done|]). split.
  - destruct Hscan as (Hlen & _ & _ & Hown & Hlive & Hdone).
    by apply partition_regionPixels.
  - destruct Hst' as (Hlen & Hown & Hlive & Hnonzero).
    by apply partition_regionPixels.
Qed.

(** ** RegionMerger: bounding boxes follow the merges *)

Lemma absorb_boundingBoxExact (w : nat) (target region : Region.t) :
  boundingBoxExact w target -> boundingBoxExact w region ->
  boundingBoxExact w (absorb target region).
Proof.
  intros (Hin & (a & Ha & Hxa) & (b & Hb & Hxb) & (c & Hc & Hyc) & (e & He & Hye))
         (Hin' & (a' & Ha' & Hxa') & (b' & Hb' & Hxb') & (c' & Hc' & Hyc') & (e' & He' & Hye')).
  unfold boundingBoxExact, absorb.
  cbn [Region.pixels Region.minX Region.minY Region.maxX Region.maxY].
  assert (forall q, q ∈ Region.pixels target ->
                    q ∈ Region.pixels target ++ Region.pixels region) as Hl
    by (intros q Hq; apply elem_of_app; by left).
  assert (forall q, q ∈ Region.pixels region ->
                    q ∈ Region.pixels target ++ Region.pixels region) as Hr
    by (intros q Hq; apply elem_of_app; by right).
  split; [intros q [Hq|Hq]%elem_of_app; [specialize (Hin q Hq)|specialize (Hin' q Hq)]; lia|].
  split; [|split; [|split]].
  - destruct (Z.min_spec (Region.minX target) (Region.minX region)) as [[_ ->]|[_ ->]]; eauto.
  - destruct (Z.max_spec (Region.maxX target) (Region.maxX region)) as [[_ ->]|[_ ->]]; eauto.
  - destruct (Z.min_spec (Region.minY target) (Region.minY region)) as [[_ ->]|[_ ->]]; eauto.
  - destruct (Z.max_spec (Region.maxY target) (Region.maxY region)) as [[_ ->]|[_ ->]]; eauto.
Qed.

Lemma mergeStep_inversion (img : ImageData) (options : Options) (seg : Segmentation)
    (id : nat) (ds : list nat) (seg' : Segmentation) (ds' : list nat) :
  mergeStep img options seg id ds = Ok (seg', ds') ->
  seg' = seg \/
  exists region b target,
    initialRegions seg !! id = Some region /\
    negb (isSmall options region) && negb (isThin img options region) = false /\
    bestNeighbor seg region (neighborIdsOf (width img) seg region) ds = Ok (Some b, ds') /\
    initialRegions seg !! b = Some target /\
    initialRegions seg' = delete id (<[b := absorb target region]> (initialRegions seg)).
Proof.
  unfold mergeStep. destruct (initialRegions seg !! id) as [region|] eqn:Hregion;
    [|intros [= <- _]; by left].
  destruct (_ && _) eqn:Hkeep; [intros [= <- _]; by left|].
  unfold bind. destruct (bestNeighbor _ _ _ _) as [[[b|] ds1]| |] eqn:Hbest; [| |done..];
    [|intros [= <- _]; by left].
  unfold mergeInto. destruct (initialRegions seg !! b) as [target|] eqn:Htarget; [|done].
  intros [= <- <-]. right. by exists region, b, target.
Qed.

Lemma assignColors_regions (T : Region.t -> Prop) (colors : list (option Pixel)) :
  (forall region c, T region -> T (setColor region c)) ->
  forall seg ds seg' ds',
    (forall id region, initialRegions seg !! id = Some region -> T region) ->
    assignColors colors seg ds = Ok (seg', ds') ->
    forall id region, initialRegions seg' !! id = Some region -> T region.
Proof.
  intros Hset seg ds seg' ds' Hseg Hrun. unfold assignColors in Hrun.
  revert Hrun.
  apply (forEach_inversion
           (fun seg => forall id region, initialRegions seg !! id = Some region -> T region));
    [|done].
  intros id0 seg0 ds0 seg1 ds1 _ Hseg0.
  destruct (initialRegions seg0 !! id0) as [region0|] eqn:Hregion0; [|by intros [= <- _]].
  case_decide.
  - unfold bind. destruct (findClosestColor _ _ _) as [[c ds2]| |]; [|done..].
    intros [= <- _] id region. cbn [initialRegions].
    destruct (decide (id = id0)) as [->|Hne].
    + rewrite lookup_insert_eq. intros [= <-]. by eapply Hset, Hseg0.
    + rewrite lookup_insert_ne by done. apply Hseg0.
  - intros [= <- _] id region. cbn [initialRegions].
    intros Hdel%lookup_delete_Some. by eapply Hseg0, Hdel.
Qed.

Lemma mergeRegions_regions (T : Region.t -> Prop) (img : ImageData) (options : Options)
    (ids : list nat) :
  (forall target region, T target -> T region -> T (absorb target region)) ->
  forall seg ds seg' ds',
    (forall id region, initialRegions seg !! id = Some region -> T region) ->
    forEach ids (mergeStep img options) seg ds = Ok (seg', ds') ->
    forall id region, initialRegions seg' !! id = Some region -> T region.
Proof.
  intros Habsorb seg ds seg' ds' Hseg.
  apply (forEach_inversion
           (fun seg => forall id region, initialRegions seg !! id = Some region -> T region));
    [|done].
  intros id0 seg0 ds0 seg1 ds1 _ Hseg0 Hstep.
  apply mergeStep_inversion in Hstep
    as [->|(region0 & b & target & Hregion0 & _ & _ & Htarget & Hregions)]; [done|].
  intros id region. rewrite Hregions. intros [Hne Hlk]%lookup_delete_Some.
  destruct (decide (id = b)) as [->|Hb].
  - rewrite lookup_insert_eq in Hlk. injection Hlk as <-.
    apply Habsorb; by eapply Hseg0.
  - rewrite lookup_insert_ne in Hlk by done. by eapply Hseg0.
Qed.

(** Whatever palette is assigned, the regions that come out of the flood
    fill, the palette assignment and the merge pass have pixels and the least
    box around them. *)
Lemma merged_boundingBoxes (img : ImageData) (options : Options)
    (colors : list (option Pixel)) (grown assigned merged : Segmentation)
    (ds ds1 ds2 ds3 : list nat) :
  growRegions img (colorThreshold options) = Some grown ->
  assignColors colors grown ds = Ok (assigned, ds1) ->
  mergeRegions img options assigned ds2 = Ok (merged, ds3) ->
  forall id region, initialRegions merged !! id = Some region ->
    Region.pixels region ≠ [] /\ boundingBoxExact (width img) region.
Proof.
  intros Hgrown Hassigned Hmerged.
  set (T := fun region : Region.t =>
              Region.pixels region ≠ [] /\ boundingBoxExact (width img) region).
  apply (mergeRegions_regions T img options (sortedRegionIds assigned)) with assigned ds2 ds3;
    [| |done].
  - intros target region [Hne Hbox] [_ Hbox']. split; [|by apply absorb_boundingBoxExact].
    unfold absorb. cbn [Region.pixels]. intros [? _]%app_eq_nil. done.
  - apply (assignColors_regions T colors) with grown ds ds1; [done| |done].
    apply (growRegions_regions img (colorThreshold options) T); [|done].
    intros seg0 i regionMap' grown0 (Hlen & _) _ Hi _ Hgrow.
    apply (growRegion_boxed img _ _ _ i _ _ _ _ ltac:(by rewrite length_insert) Hi Hgrow).
Qed.

(** X13.  After the merge pass every region still in the table has pixels,
    and its bounding box is the least box around them: a merge gives the
    target the union of the two boxes together with the pixels. *)
Theorem merge_keeps_bounding_boxes
    (img : ImageData) (palette : list Pixel) (options : Options) (ds : list nat) :
  exists grown assigned merged,
    growRegions img (colorThreshold options) = Some grown /\
    assignColors (Some <$> palette) grown ds = Ok (assigned, ds) /\
    mergeRegions img options assigned ds = Ok (merged, ds) /\
    forall id region, initialRegions merged !! id = Some region ->
      Region.pixels region ≠ [] /\ boundingBoxExact (width img) region.
Proof.
  destruct (growRegions_grown img (colorThreshold options)) as (grown & Hgrown & _ & Hscan).
  destruct (assignColors_mergeState palette _ grown ds Hscan)
    as (assigned & Hassigned & Hst & Hcolors).
  destruct (mergeLoop_mergeState palette img options _ (sortedRegionIds assigned)
              assigned ds Hst Hcolors) as (merged & Hmerged & _ & _).
  exists grown, assigned, merged. do 3 (split; [done|]).
  by apply (merged_boundingBoxes img options (Some <$> palette) grown assigned merged
              ds ds ds ds).
Qed.

(** ** Renderer: the outline *)

Lemma foldl_app_bind {A B} (g : A -> list B) (l : list A) (acc : list B) :
  foldl (fun acc a => acc ++ g a) acc l = acc ++ (l ≫= g).
Proof.
  revert acc. induction l as [|a l IH]; intros acc; cbn [foldl].
  - by rewrite app_nil_r.
  - rewrite IH. cbn. by rewrite app_assoc.
Qed.

Lemma outlineEdges_bind (w h : nat) (regionMap : list nat) :
  outlineEdges w h regionMap
  = y ← seq 0 h; x ← seq 0 w; edgesAt w h regionMap x y.
Proof.
  unfold outlineEdges.
  rewrite (foldl_ext_in _ (fun acc y => acc ++ (seq 0 w ≫= fun x => edgesAt w h regionMap x y))).
  2:{ intros acc y _. rewrite <-foldl_app_bind. apply foldl_ext_in. intros acc' x _.
      unfold edgesAt. cbv zeta. repeat case_decide; by rewrite <-?app_assoc, ?app_nil_r. }
  by rewrite foldl_app_bind.
Qed.

Lemma elem_of_outlineEdges (w h : nat) (regionMap : list nat) (e : nat * nat * nat * nat) :
  e ∈ outlineEdges w h regionMap <->
  exists x y, x < w /\ y < h /\ e ∈ edgesAt w h regionMap x y.
Proof.
  rewrite outlineEdges_bind, list_elem_of_bind. split.
  - intros (y & (x & He & Hx%elem_of_seq)%list_elem_of_bind & Hy%elem_of_seq).
    exists x, y. split; [lia|]. split; [lia|done].
  - intros (x & y & Hx & Hy & He). exists y. split; [|apply elem_of_seq; lia].
    apply list_elem_of_bind. exists x. split; [done|apply elem_of_seq; lia].
Qed.

(** X14.  The outline holds a segment exactly where two horizontally or
    vertically adjacent pixels of the raster have different entries in the
    region map: the vertical segment between a pixel and its right
    neighbour, the horizontal one between a pixel and the pixel below. *)
Theorem outlineEdges_between_regions (w h : nat) (regionMap : list nat)
    (e : nat * nat * nat * nat) :
  e ∈ outlineEdges w h regionMap <->
  exists x y,
    x < w /\ y < h /\
    (x + 1 < w /\ regionMap !! (y * w + x + 1) ≠ regionMap !! (y * w + x) /\
     e = (x + 1, y, x + 1, y + 1) \/
     y + 1 < h /\ regionMap !! (y * w + x + w) ≠ regionMap !! (y * w + x) /\
     e = (x, y + 1, x + 1, y + 1)).
Proof.
  rewrite elem_of_outlineEdges. split.
  - intros (x & y & Hx & Hy & He). exists x, y. do 2 (split; [done|]). unfold edgesAt in He.
    apply elem_of_app in He as [He|He]; case_decide as Hc; try by apply elem_of_nil in He.
    + apply list_elem_of_singleton in He. left. tauto.
    + apply list_elem_of_singleton in He. right. tauto.
  - intros (x & y & Hx & Hy & He). exists x, y. do 2 (split; [done|]). unfold edgesAt.
    apply elem_of_app. destruct He as [(? & ? & ->)|(? & ? & ->)].
    + left. rewrite decide_True by done. left.
    + right. rewrite decide_True by done. left.
Qed.

(** X15.  The label loop returns, and every label it draws belongs to a
    region of the table that has at least [minRegionSize] pixels: the number
    is one more than the first palette index that holds the colour of the
    region, and the position is the one [findBestLabelPosition] gives for the
    pixels of the region. *)
Theorem outlineLabels_numbers (w : nat) (colors : list (option Pixel)) (options : Options)
    (seg : Segmentation) (ds : list nat) :
  exists numbers,
    outlineLabels w colors options seg ds = Ok (numbers, ds) /\
    forall number x y, (number, x, y) ∈ numbers ->
      exists id region,
        initialRegions seg !! id = Some region /\
        (minRegionSize options <= Z.of_nat (length (Region.pixels region)))%Z /\
        1 <= number <= length colors /\
        colors !! (number - 1) = Some (Region.color region) /\
        (forall j, j < number - 1 -> colors !! j ≠ Some (Region.color region)) /\
        findBestLabelPosition (Z.of_nat <$> Region.pixels region) (Z.of_nat w) = Some (x, y).
Proof.
  destruct (outlineLabels_returns w colors options seg ds) as (numbers & Hrun).
  exists numbers. split; [done|]. revert Hrun. unfold outlineLabels.
  apply (forEach_inversion
           (fun numbers : list (nat * Z * Z) =>
              forall number x y, (number, x, y) ∈ numbers ->
                exists id region,
                  initialRegions seg !! id = Some region /\
                  (minRegionSize options <= Z.of_nat (length (Region.pixels region)))%Z /\
                  1 <= number <= length colors /\
                  colors !! (number - 1) = Some (Region.color region) /\
                  (forall j, j < number - 1 -> colors !! j ≠ Some (Region.color region)) /\
                  findBestLabelPosition (Z.of_nat <$> Region.pixels region) (Z.of_nat w)
                  = Some (x, y)));
    [|by intros ??? ?%elem_of_nil].
  intros id acc ds0 acc' ds0' _ Hacc.
  destruct (initialRegions seg !! id) as [region|] eqn:Hregion; [|by intros [= <- _]].
  destruct (Z.ltb_spec (Z.of_nat (length (Region.pixels region))) (minRegionSize options))
    as [Hsmall|Hsize]; [by intros [= <- _]|].
  unfold bind, fueled.
  destruct (findBestLabelPosition _ _) as [[px py]|] eqn:Hposition; [|done].
  destruct (list_find _ colors) as [[colorIndex c]|] eqn:Hfind; [|by intros [= <- _]].
  intros [= <- _] number x y [Hold|Hnew%list_elem_of_singleton]%elem_of_app; [by apply Hacc|].
  injection Hnew as -> -> ->.
  apply list_find_Some in Hfind as (Hc & -> & Hfirst).
  exists id, region. do 2 (split; [done|]).
  pose proof (lookup_lt_Some _ _ _ Hc).
  replace (colorIndex + 1 - 1) with colorIndex by lia.
  split; [lia|]. split; [done|]. split; [|done].
  intros j Hj Hcj. by apply (Hfirst j _ Hcj).
Qed.

(** ** Renderer: a palette with a hole *)

Lemma findClosestColor_undefined (avg : option (Pixel * Z)) (colors : list (option Pixel))
    (ds : list nat) :
  None ∈ colors ->
  findClosestColor avg colors ds = Throw (TypeErrorReadOfUndefined "0").
Proof.
  intros Hnone. unfold findClosestColor. unfold bind at 1.
  rewrite (forEach_throws (TypeErrorReadOfUndefined "0")); [done| |].
  - intros [c|] acc _; [|by left]. right. destruct avg; by eexists.
  - exists None. done.
Qed.

Lemma growRegions_nonempty (img : ImageData) (thr : Z) (seg : Segmentation) :
  growRegions img thr = Some seg ->
  forall id region, initialRegions seg !! id = Some region -> Region.pixels region ≠ [].
Proof.
  intros Hrun.
  apply (growRegions_regions img thr (fun region => Region.pixels region ≠ [])); [|done].
  intros seg0 i regionMap' grown (Hlen & _) _ Hi _ Hgrow.
  by destruct (growRegion_boxed img thr _ _ i _ _ _ _ ltac:(by rewrite length_insert) Hi Hgrow).
Qed.

(** X16.  On a raster with at least one pixel, a palette that is empty or
    has an undefined entry makes [generatePbnImage] throw the [TypeError] of
    reading [[0]] of [undefined]: in the palette assignment when an entry is
    undefined, in the colored raster when the palette is empty. *)
Theorem generatePbnImage_undefined_color
    (img : ImageData) (colors : list (option Pixel)) (options : Options) (ds : list nat) :
  0 < width img * height img ->
  colors = [] \/ None ∈ colors ->
  generatePbnImage img colors options ds = Throw (TypeErrorReadOfUndefined "0").
Proof.
  intros Hpos Hcolors.
  destruct (growRegions_grown img (colorThreshold options)) as (grown & Hgrown & _ & Hscan).
  unfold generatePbnImage. unfold bind at 1, fueled. rewrite Hgrown.
  destruct Hcolors as [->|Hnone].
  - destruct (assignColors_mergeState [] _ grown ds Hscan)
      as (assigned & Hassigned & Hst & Hnocolor).
    destruct (mergeLoop_mergeState [] img options _ (sortedRegionIds assigned)
                assigned ds Hst Hnocolor) as (merged & Hmerged & Hst' & Hnocolor').
    destruct (outlineLabels_returns (width img) [] options merged ds) as (numbers & Hnumbers).
    cbn [fmap list_fmap] in Hassigned.
    unfold bind, mergeRegions. rewrite Hassigned, Hmerged, Hnumbers.
    unfold colorRegions, newImageData, bind. rewrite decide_False by lia. unfold ret at 1.
    destruct Hst' as (Hlen & Hown & Hlive & Hnonzero). rewrite Hlen.
    destruct (width img * height img) as [|n] eqn:Hn; [lia|].
    cbn [seq forEach]. unfold bind at 1.
    destruct (lookup_lt_is_Some_2 (initialRegionMap merged) 0) as [id Hid]; [lia|].
    assert (id ≠ 0) as Hid0 by (intros ->; by apply (Hnonzero 0)).
    destruct (Hlive 0 id Hid Hid0) as [region Hregion].
    pose proof (Hnocolor' id region Hregion) as Hc. cbn in Hc.
    unfold paintPixel. rewrite Hid, decide_True by lia. rewrite Hregion, Hc. done.
  - unfold bind at 1.
    destruct Hscan as (Hlen & Hbelow & Hkeys & Hown & Hlive & Hdone).
    destruct (lookup_lt_is_Some_2 (initialRegionMap grown) 0) as [id Hid]; [lia|].
    assert (id ≠ 0) as Hid0 by (intros ->; by apply (Hdone 0)).
    pose proof (regionKeys_complete grown id Hkeys (Hlive 0 id Hid Hid0)) as Hkey.
    unfold assignColors.
    destruct (regionKeys grown) as [|id0 ids] eqn:Hids; [by apply elem_of_nil in Hkey|].
    assert (id0 ∈ regionKeys grown) as Hid0' by (rewrite Hids; left).
    apply list_elem_of_filter in Hid0' as [[region Hregion] _].
    cbn [forEach]. unfold bind at 1. rewrite Hregion.
    pose proof (growRegions_nonempty img _ grown Hgrown id0 region Hregion) as Hne.
    rewrite decide_True by (destruct (Region.pixels region); [done|simpl; lia]).
    unfold bind at 1. by rewrite findClosestColor_undefined.
Qed.

Lemma generatePbnImage_undefined_color_witness :
  generatePbnImage onePixel [] stripeOptions [] = Throw (TypeErrorReadOfUndefined "0") /\
  generatePbnImage onePixel [Some (0, 0, 0)%Z; None] stripeOptions []
  = Throw (TypeErrorReadOfUndefined "0").
Proof.
  split.
  - apply (generatePbnImage_undefined_color onePixel [] stripeOptions []); [simpl; lia|by left].
  - apply (generatePbnImage_undefined_color onePixel [Some (0, 0, 0)%Z; None] stripeOptions []);
      [simpl; lia|]. right. right. left.
Defined.

(** ** The message handler: rasters with too few pixels *)

Lemma getPixels_bytes (img : ImageData) (n : nat) :
  length (data img) = 4 * n -> Forall (fun v => (0 <= v <= 255)%Z) (data img) ->
  Forall bytePixel (getPixels img).
Proof.
  intros Hd Hbytes.
  destruct (getPixelsFrom_lookup n (data img) (length (data img)) Hd ltac:(lia))
    as [Hlen Hget].
  apply Forall_lookup_2. intros i p Hp. unfold getPixels in Hp.
  pose proof (lookup_lt_Some _ _ _ Hp) as Hi. rewrite Hget in Hp by lia.
  injection Hp as <-. unfold bytePixel, chanR, chanG, chanB. cbn [fst snd].
  split; [|split]; by apply channelAt_byte.
Qed.

(** X4.  A raster with fewer pixels than the [min(5k, 50)] clusters the
    handler asks for never gets a success response: the first assignment
    pass of the clusterer reads a centroid that was never seeded, and the
    response is that [TypeError] - unless the seeding loop starves first. *)
Theorem onmessage_small_raster
    (img : ImageData) (options : Options) (k : Z) (ds : list nat) :
  wfImageData img -> (1 <= k)%Z ->
  (Z.of_nat (width img * height img) < Z.min (k * 5) 50)%Z ->
  onmessage img options k ds = Some (Failure (TypeErrorReadOfUndefined "0")) \/
  onmessage img options k ds = None.
Proof.
  intros (Hw & Hh & Hlen & Hbytes) Hk Hsmall.
  destruct (getPixelsFrom_lookup _ (data img) (length (data img)) Hlen ltac:(lia))
    as [Hpixels _]. fold (getPixels img) in Hpixels.
  assert (pipeline img options k ds = Starved \/
          pipeline img options k ds = Throw (TypeErrorReadOfUndefined "0")) as Hrun.
  { unfold pipeline. cbv zeta.
    assert (samplePixels (getPixels img) (Z.to_nat 30000) = getPixels img) as ->.
    { unfold samplePixels. rewrite decide_True; [done|]. lia. }
    unfold bind.
    destruct (kmeans_few_pixels (getPixels img) (Z.min (k * 5) 50) ds) as [->| ->].
    - apply getPixels_nonempty. nia.
    - lia.
    - by left.
    - by right. }
  unfold onmessage. destruct Hrun as [->| ->]; [by right|by left].
Qed.

Lemma onmessage_small_raster_witness :
  onmessage stripe9x1 stripeOptions 2 (seq 0 200)
  = Some (Failure (TypeErrorReadOfUndefined "0")) \/
  onmessage stripe9x1 stripeOptions 2 (seq 0 200) = None.
Proof.
  apply (onmessage_small_raster stripe9x1 stripeOptions 2 (seq 0 200)).
  - repeat split; simpl; try lia. repeat (constructor; [lia|]). constructor.
  - lia.
  - simpl. lia.
Defined.

(** ** The message handler: what a success response holds *)

Lemma concat_nonempty {A} (ls : list (list A)) :
  concat ls ≠ [] -> exists j l, ls !! j = Some l /\ l ≠ [].
Proof.
  induction ls as [|l ls IH]; [done|]. cbn [concat]. intros Hne.
  destruct l as [|x l].
  - destruct (IH Hne) as (j & l' & Hj & Hl'). by exists (S j), l'.
  - by exists 0, (x :: l).
Qed.

Lemma generateOptimalPalette_palette
    (cs : list Pixel) (cls : list (list Pixel)) (k : Z) (ds : list nat) :
  (1 <= k)%Z ->
  (exists j, j < length cs /\ 0 < from_option length 0 (cls !! j)) ->
  exists palette,
    generateOptimalPalette (Some <$> cs) cls k ds = Ok (Some <$> palette, ds) /\
    1 <= length palette <= Z.to_nat k /\
    Sorted byLuminance palette /\
    palette ⊆ cs.
Proof.
  intros Hk (j & Hj & Hsize). unfold generateOptimalPalette.
  rewrite length_fmap. case_decide as Hle.
  - exists (sortBy luminance cs). rewrite sortByLuminance_defined.
    split; [done|]. split; [rewrite sortBy_length; lia|].
    split; [apply sortBy_Sorted|]. intros c. by rewrite sortBy_Permutation.
  - destruct (candidateColors_defined cs cls) as (cands & -> & Hsub & Hcount).
    assert (0 < length cands) as Hcands.
    { rewrite Hcount. destruct (lookup_lt_is_Some_2 cs j Hj) as [c Hc].
      assert ((j, c) ∈ filter (fun ic : nat * Pixel => 0 < from_option length 0 (cls !! ic.1))
                              (imap (fun i c => (i, c)) cs)) as Hin.
      { apply list_elem_of_filter. split; [done|]. apply elem_of_lookup_imap. by exists j, c. }
      destruct (filter _ _); [by apply elem_of_nil in Hin|simpl; lia]. }
    destruct cands as [|first cands]; [simpl in Hcands; lia|]. cbn [fmap list_fmap].
    destruct (selectColors_length k ds (length cands) [first] cands)
      as (res & Hrun & Hlen & Hres); [done | lia |].
    rewrite length_fmap. unfold bind. cbn [fmap list_fmap] in Hrun. rewrite Hrun.
    exists (sortBy luminance res). rewrite sortByLuminance_defined.
    split; [done|]. split; [rewrite sortBy_length, Hlen; simpl; lia|].
    split; [apply sortBy_Sorted|].
    intros c. rewrite sortBy_Permutation. intros Hc. apply Hsub. by apply Hres.
Qed.

(** X17.  A success response of the handler on a raster the host can hand
    over was asked for with [k >= 1]; its palette holds between 1 and [k]
    defined 8-bit colours in the order of non-decreasing luminance; and the
    colored raster has the dimensions of the input and gives every pixel a
    colour of that palette with alpha 255. *)
Theorem onmessage_success
    (img : ImageData) (options : Options) (k : Z) (ds : list nat)
    (dominantColors : list (option Pixel)) (outline : Outline) (coloredRaster : ImageData) :
  wfImageData img ->
  onmessage img options k ds = Some (Success dominantColors outline coloredRaster) ->
  (1 <= k)%Z /\
  exists palette : list Pixel,
    dominantColors = Some <$> palette /\
    1 <= length palette <= Z.to_nat k /\
    Sorted byLuminance palette /\
    Forall bytePixel palette /\
    width coloredRaster = width img /\ height coloredRaster = height img /\
    forall i, i < width img * height img ->
      exists c, c ∈ palette /\
        data coloredRaster !! (4 * i) = Some (chanR c) /\
        data coloredRaster !! (4 * i + 1) = Some (chanG c) /\
        data coloredRaster !! (4 * i + 2) = Some (chanB c) /\
        data coloredRaster !! (4 * i + 3) = Some 255%Z.
Proof.
  intros (Hw & Hh & Hlen & Hbytes) Hrun. unfold onmessage in Hrun.
  destruct (pipeline img options k ds) as [[[pal results] ds']| |] eqn:Hp; [|done..].
  injection Hrun as <- <- <-. unfold pipeline in Hp. cbv zeta in Hp. unfold bind in Hp.
  set (sample := samplePixels (getPixels img) (Z.to_nat 30000)) in *.
  assert (sample ≠ []) as Hsample.
  { apply samplePixels_nonempty, getPixels_nonempty. nia. }
  assert (Forall bytePixel sample) as Hsample_bytes.
  { apply Forall_forall. intros p Hp'.
    pose proof (getPixels_bytes img _ Hlen Hbytes) as Hall. rewrite Forall_forall in Hall.
    apply Hall. by eapply sublist_subseteq; [apply samplePixels_sublist_of|]. }
  destruct (kmeans sample (Z.min (k * 5) 50) ds) as [[res ds1]| |] eqn:Hkm; [|done..].
  assert (1 <= k)%Z as Hk.
  { destruct (decide (1 <= k)%Z) as [|Hk]; [done|].
    rewrite kmeans_no_clusters in Hkm by (done || lia). discriminate Hkm. }
  split; [done|].
  assert (clustering sample (Z.min (k * 5) 50) res)
    as (Hcentroids & Hclusters & Hperm & Hdefined & Hbyte).
  { unfold kmeans in Hkm. unfold bind at 1 in Hkm.
    destruct (seedCentroids sample _ [] [] ds) as [[cs0 ds0]| |]; [|done..].
    change maxIterations with (S 29) in Hkm. by eapply kmeansLoop_clustering. }
  rewrite (fmap_Some_of_defined (centroids res) (Hdefined Hsample)) in Hp.
  set (cs := omap id (centroids res)) in *.
  assert (length cs = Z.to_nat (Z.min (k * 5) 50)) as Hcs.
  { rewrite <-Hcentroids, (fmap_Some_of_defined (centroids res) (Hdefined Hsample)).
    by rewrite length_fmap. }
  destruct (generateOptimalPalette_palette cs (clusters res) k ds1 Hk)
    as (palette & Hpal & Hcount & Hsorted & Hsub).
  { destruct (concat_nonempty (clusters res)) as (j & cluster & Hj & Hne).
    { intros Hnil. rewrite Hnil in Hperm. by apply Permutation_nil_l in Hperm. }
    exists j. pose proof (lookup_lt_Some _ _ _ Hj). split; [lia|].
    rewrite Hj. destruct cluster; [done|simpl; lia]. }
  rewrite Hpal in Hp.
  assert (Forall bytePixel palette) as Hpalette_bytes.
  { apply Forall_forall. intros c Hc. apply Hbyte; [done|].
    rewrite (fmap_Some_of_defined (centroids res) (Hdefined Hsample)).
    apply list_elem_of_fmap. exists c. split; [done|]. by apply Hsub. }
  assert (palette ≠ []) as Hpalette by (destruct palette; [simpl in Hcount; lia|done]).
  assert (0 < width img * height img) as Hpos by nia.
  destruct (growRegions_grown img (colorThreshold options)) as (grown & Hgrown & _ & Hscan).
  destruct (assignColors_mergeState palette _ grown ds1 Hscan)
    as (assigned & Hassigned & Hst & Hcolors).
  destruct (mergeLoop_mergeState palette img options _ (sortedRegionIds assigned)
              assigned ds1 Hst Hcolors) as (merged & Hmerged & Hst' & Hcolors').
  destruct (outlineLabels_returns (width img) (Some <$> palette) options merged ds1)
    as (numbers & Hnumbers).
  destruct (colorRegions_painted palette (width img) (height img) merged ds1
              Hpos Hst' Hcolors' Hpalette)
    as (coloredImageData & Hcolored & Hcw & Hch & Hclen & Hdata).
  unfold generatePbnImage, mergeRegions, bind, fueled in Hp.
  rewrite Hgrown, Hassigned, Hmerged, Hnumbers, Hcolored in Hp.
  injection Hp as <- <- _. cbn [colored].
  exists palette. do 6 (split; [done|]). intros i Hi.
  destruct (regionColorAt_defined palette _ merged i Hst' Hcolors' Hpalette Hi)
    as (id & region & c & _ & _ & _ & _ & Hin & Hat).
  exists c. split; [done|].
  destruct (Hdata i c Hi Hat) as (Hr & Hg & Hb & Ha).
  destruct (proj1 (Forall_forall _ _) Hpalette_bytes c Hin) as (Hcr & Hcg & Hcb).
  rewrite Hr, Hg, Hb, !clamp8_byte by done. done.
Qed.

Lemma onmessage_success_witness :
  exists dominantColors outline coloredRaster,
    onmessage stripe9x1 stripeOptions 1 (seq 0 200)
    = Some (Success dominantColors outline coloredRaster) /\
    exists palette : list Pixel,
      dominantColors = Some <$> palette /\
      1 <= length palette <= 1 /\
      width coloredRaster = 9.
Proof.
  destruct (onmessage stripe9x1 stripeOptions 1 (seq 0 200))
    as [[dominantColors outline coloredRaster|e]|] eqn:Hrun;
    [|vm_compute in Hrun; discriminate Hrun..].
  exists dominantColors, outline, coloredRaster. split; [reflexivity|].
  assert (wfImageData stripe9x1) as Hwf.
  { repeat split; simpl; try lia. repeat (constructor; [lia|]). constructor. }
  destruct (onmessage_success stripe9x1 stripeOptions 1 (seq 0 200) _ _ _ Hwf Hrun)
    as (_ & palette & Hpal & Hcount & _ & _ & Hcw & _).
  exists palette. split; [exact Hpal|]. split; [exact Hcount|exact Hcw].
Defined.

(** ** Palette assignment: every region gets the colour closest to its mean *)

Lemma findClosestColor_least (avg : Pixel * Z) (palette : list Pixel) (ds : list nat)
    (c : option Pixel) (ds' : list nat) :
  palette ≠ [] ->
  findClosestColor (Some avg) (Some <$> palette) ds = Ok (c, ds') ->
  exists c0, c = Some c0 /\ c0 ∈ palette /\
             forall c', c' ∈ palette -> (scaledRadicand avg c0 <= scaledRadicand avg c')%Z.
Proof.
  intros Hne. unfold findClosestColor. unfold bind at 1.
  destruct (findClosestColor_loop avg ds palette [] (Infinity, mjoin ((Some <$> palette) !! 0)))
    as (acc' & Hrun & Hacc'); [by left|].
  rewrite Hrun. intros [= <- _].
  destruct Hacc' as [[Hnil _]|(l1 & c0 & l2 & Hsplit & -> & Hl1 & Hl2)]; [done|].
  cbn [app] in Hsplit. subst palette. exists c0. split; [done|]. split.
  - apply elem_of_app. right. left.
  - intros c' [Hc' | [-> | Hc']%elem_of_cons]%elem_of_app.
    + specialize (Hl1 c' Hc'). lia.
    + lia.
    + by apply Hl2.
Qed.

Lemma avgColor_meanColor (d : list Z) (region : Region.t) :
  sumsExact d region -> avgColor region = Some (meanColor d (Region.pixels region)).
Proof. intros (HR & HG & HB). unfold avgColor. by rewrite HR, HG, HB. Qed.

(** X18.  On a raster with four bytes per pixel and a nonempty palette of
    defined colours, the palette assignment gives every region a colour of
    the palette that is at the least distance from the mean colour of the
    pixels of the region. *)
Theorem assignColors_closest_to_mean
    (img : ImageData) (thr : Z) (palette : list Pixel) (ds : list nat) :
  length (data img) = 4 * (width img * height img) -> palette ≠ [] ->
  exists grown assigned,
    growRegions img thr = Some grown /\
    assignColors (Some <$> palette) grown ds = Ok (assigned, ds) /\
    forall id region, initialRegions assigned !! id = Some region ->
      exists c,
        Region.color region = Some c /\ c ∈ palette /\
        forall c', c' ∈ palette ->
          (scaledRadicand (meanColor (data img) (Region.pixels region)) c
           <= scaledRadicand (meanColor (data img) (Region.pixels region)) c')%Z.
Proof.
  intros Hd Hpalette.
  destruct (growRegions_grown img thr) as (grown & Hgrown & _ & Hscan).
  destruct (assignColors_mergeState palette _ grown ds Hscan)
    as (assigned & Hassigned & _ & Hcolors).
  exists grown, assigned. do 2 (split; [done|]).
  set (closest := fun (region : Region.t) (c : Pixel) =>
         c ∈ palette /\
         forall c', c' ∈ palette ->
           (scaledRadicand (meanColor (data img) (Region.pixels region)) c
            <= scaledRadicand (meanColor (data img) (Region.pixels region)) c')%Z).
  set (T := fun region : Region.t =>
         sumsExact (data img) region /\
         forall c, Region.color region = Some c -> closest region c).
  assert (forall id region, initialRegions assigned !! id = Some region -> T region) as Hall.
  { revert Hassigned. unfold assignColors.
    apply (forEach_inversion
             (fun seg => forall id region, initialRegions seg !! id = Some region -> T region)).
    - intros id0 seg0 ds0 seg1 ds1 _ Hseg0.
      destruct (initialRegions seg0 !! id0) as [region0|] eqn:Hregion0; [|by intros [= <- _]].
      case_decide.
      + destruct (Hseg0 id0 region0 Hregion0) as [Hsums _].
        unfold bind. rewrite (avgColor_meanColor _ _ Hsums).
        destruct (findClosestColor _ _ _) as [[c ds2]| |] eqn:Hclosest; [|done..].
        apply findClosestColor_least in Hclosest as (c0 & -> & Hin & Hleast); [|done].
        intros [= <- _] id region. cbn [initialRegions].
        destruct (decide (id = id0)) as [->|Hne].
        * rewrite lookup_insert_eq. intros [= <-]. split; [done|].
          cbn [setColor Region.color]. by intros c [= <-].
        * rewrite lookup_insert_ne by done. apply Hseg0.
      + intros [= <- _] id region. cbn [initialRegions].
        intros Hdel%lookup_delete_Some. by eapply Hseg0, Hdel.
    - apply (growRegions_regions img thr T); [|done].
      intros seg0 i regionMap' grown0 (Hlen & _) _ Hi _ Hgrow.
      apply (growRegion_invariant img thr (pixelColor (data img) i) (width img * height img)
               (fun region stack =>
                  (sumsExact (data img) region /\ Region.color region = None) /\
                  forall q, q ∈ stack -> q < width img * height img)) in Hgrow.
      + destruct Hgrow as [[Hsums Hnone] _]. split; [done|]. by rewrite Hnone.
      + intros region p stack stack' ([Hsums Hnone] & Hstack) Hpushed. split; [split|].
        * apply recordPixel_sumsExact; [|done]. specialize (Hstack p ltac:(left)). lia.
        * done.
        * intros q Hq. destruct (Hpushed q Hq) as [?|[? _]]; [|done]. apply Hstack. by right.
      + by rewrite length_insert.
      + split; [by repeat split|]. by intros q ->%list_elem_of_singleton. }
  intros id region Hregion.
  pose proof (Hcolors id region Hregion) as Hc. unfold colorFrom in Hc.
  destruct palette as [|p0 palette']; [done|]. destruct Hc as (c & Hc & _).
  destruct (Hall id region Hregion) as [_ Hclosest].
  exists c. split; [done|]. by apply Hclosest.
Qed.

Lemma assignColors_closest_to_mean_witness :
  exists grown assigned,
    growRegions stripe9x1 12 = Some grown /\
    assignColors (Some <$> greyRedPalette) grown [] = Ok (assigned, []) /\
    forall id region, initialRegions assigned !! id = Some region ->
      exists c,
        Region.color region = Some c /\ c ∈ greyRedPalette /\
        forall c', c' ∈ greyRedPalette ->
          (scaledRadicand (meanColor (data stripe9x1) (Region.pixels region)) c
           <= scaledRadicand (meanColor (data stripe9x1) (Region.pixels region)) c')%Z.
Proof.
  apply (assignColors_closest_to_mean stripe9x1 12 greyRedPalette []); [reflexivity|done].
Defined.

(** ** RegionMerger: large regions survive *)

(** X19.  When the longer side of the image is at most [thinnessThreshold]
    times the shorter one, the merge pass never removes a region that has at
    least [minRegionSize] pixels: the region is still in the table afterwards
    with its colour, and its pixel list has only grown at the end. *)
Theorem merge_spares_large_regions
    (img : ImageData) (palette : list Pixel) (options : Options) (ds : list nat) :
  ratioExceeds (Z.max (Z.of_nat (width img)) (Z.of_nat (height img)))
               (Z.min (Z.of_nat (width img)) (Z.of_nat (height img)))
               (thinnessThreshold options) = false ->
  exists grown assigned merged,
    growRegions img (colorThreshold options) = Some grown /\
    assignColors (Some <$> palette) grown ds = Ok (assigned, ds) /\
    mergeRegions img options assigned ds = Ok (merged, ds) /\
    forall id region,
      initialRegions assigned !! id = Some region ->
      (minRegionSize options <= Z.of_nat (length (Region.pixels region)))%Z ->
      exists region',
        initialRegions merged !! id = Some region' /\
        Region.pixels region `prefix_of` Region.pixels region' /\
        Region.color region' = Region.color region.
Proof.
  intros Hratio.
  destruct (growRegions_grown img (colorThreshold options)) as (grown & Hgrown & _ & Hscan).
  destruct (assignColors_mergeState palette _ grown ds Hscan)
    as (assigned & Hassigned & Hst & Hcolors).
  destruct (mergeLoop_mergeState palette img options _ (sortedRegionIds assigned)
              assigned ds Hst Hcolors) as (merged & Hmerged & _ & _).
  exists grown, assigned, merged. do 3 (split; [done|]).
  revert Hmerged.
  apply (forEach_inversion
           (fun seg =>
              forall id region,
                initialRegions assigned !! id = Some region ->
                (minRegionSize options <= Z.of_nat (length (Region.pixels region)))%Z ->
                exists region',
                  initialRegions seg !! id = Some region' /\
                  Region.pixels region `prefix_of` Region.pixels region' /\
                  Region.color region' = Region.color region));
    [|intros id region Hregion _; by exists region].
  intros id0 seg0 ds0 seg1 ds1 _ Hseg0 Hstep id region Hregion Hsize.
  destruct (Hseg0 id region Hregion Hsize) as (region' & Hregion' & Hprefix & Hcolor).
  apply mergeStep_inversion in Hstep
    as [->|(region0 & b & target & Hregion0 & Hmerge & _ & Htarget & Hregions)];
    [by exists region'|].
  rewrite Hregions.
  assert (id ≠ id0) as Hne.
  { intros ->. rewrite Hregion' in Hregion0. injection Hregion0 as <-.
    unfold isThin in Hmerge. rewrite Hratio, andb_false_r in Hmerge.
    unfold isSmall in Hmerge. apply prefix_length in Hprefix.
    rewrite (proj2 (Z.ltb_ge _ _)) in Hmerge by lia. done. }
  rewrite lookup_delete_ne by done.
  destruct (decide (id = b)) as [->|Hb].
  - rewrite lookup_insert_eq. eexists. split; [done|].
    rewrite Hregion' in Htarget. injection Htarget as <-.
    cbn [absorb Region.pixels Region.color]. split; [|done].
    etrans; [exact Hprefix|]. by apply prefix_app_r.
  - rewrite lookup_insert_ne by done. by exists region'.
Qed.

Lemma merge_spares_large_regions_witness :
  exists grown assigned merged,
    growRegions speckled3x3 (colorThreshold stripeOptions) = Some grown /\
    assignColors (Some <$> greyRedPalette) grown [] = Ok (assigned, []) /\
    mergeRegions speckled3x3 stripeOptions assigned [] = Ok (merged, []) /\
    forall id region,
      initialRegions assigned !! id = Some region ->
      (minRegionSize stripeOptions <= Z.of_nat (length (Region.pixels region)))%Z ->
      exists region',
        initialRegions merged !! id = Some region' /\
        Region.pixels region `prefix_of` Region.pixels region' /\
        Region.color region' = Region.color region.
Proof.
  apply (merge_spares_large_regions speckled3x3 greyRedPalette stripeOptions []). reflexivity.
Defined.

(** ** RegionMerger: the neighbours of a region *)

Lemma foldl_setAdd {A} (pick : A -> option nat) (l : list A) :
  forall ids b,
    b ∈ foldl (fun ids a => match pick a with Some v => setAdd v ids | None => ids end) ids l
    <-> b ∈ ids \/ exists a, a ∈ l /\ pick a = Some b.
Proof.
  induction l as [|a l IH]; intros ids b; cbn [foldl].
  - split; [by left|]. intros [?|(a & ?%elem_of_nil & _)]; done.
  - rewrite IH. split.
    + intros [Hb|(a' & Ha' & Hpick)].
      * destruct (pick a) as [v|] eqn:Hv; [|by left].
        apply elem_of_setAdd in Hb as [->|Hb]; [|by left]. right. exists a. split; [left|done].
      * right. exists a'. split; [by right|done].
    + intros [Hb|(a' & [->|Ha']%elem_of_cons & Hpick)].
      * left. destruct (pick a); [|done]. apply elem_of_setAdd. by right.
      * left. rewrite Hpick. apply elem_of_setAdd. by left.
      * right. by exists a'.
Qed.

Lemma pickNeighbor_Some (seg : Segmentation) (region : Region.t) (nb : Z) (b : nat) :
  pickNeighbor seg region nb = Some b <->
  (0 <= nb)%Z /\ initialRegionMap seg !! Z.to_nat nb = Some b /\
  b ≠ Region.id region /\ is_Some (initialRegions seg !! b).
Proof.
  unfold pickNeighbor. split.
  - case_decide as Hin; [|done].
    destruct (initialRegionMap seg !! Z.to_nat nb) as [v|]; [|done].
    case_decide as Hv; [|done]. intros [= ->]. tauto.
  - intros (Hnb & Hlk & Hv). rewrite decide_True.
    + rewrite Hlk. by rewrite decide_True.
    + split; [done|]. by apply lookup_lt_Some in Hlk.
Qed.

Lemma neighborIdsOf_pick (w : nat) (seg : Segmentation) (region : Region.t) (b : nat) :
  b ∈ neighborIdsOf w seg region <->
  exists p nb,
    p ∈ Region.pixels region /\ nb ∈ gridNeighbors w p /\
    pickNeighbor seg region nb = Some b.
Proof.
  unfold neighborIdsOf.
  assert (forall pixels ids,
            b ∈ foldl (fun ids pixelIndex =>
                         foldl (fun ids nb =>
                                  match pickNeighbor seg region nb with
                                  | Some v => setAdd v ids
                                  | None => ids
                                  end)
                               ids (gridNeighbors w pixelIndex))
                      ids pixels
            <-> b ∈ ids \/ exists p nb, p ∈ pixels /\ nb ∈ gridNeighbors w p /\
                                        pickNeighbor seg region nb = Some b) as Hfold.
  { induction pixels as [|p pixels IH]; intros ids; cbn [foldl].
    - split; [by left|]. intros [?|(p & nb & ?%elem_of_nil & _)]; done.
    - rewrite IH, foldl_setAdd. split.
      + intros [[Hb|(nb & Hnb & Hb)]|(p' & nb & Hp' & Hnb & Hb)].
        * by left.
        * right. exists p, nb. split; [left|done].
        * right. exists p', nb. split; [by right|done].
      + intros [Hb|(p' & nb & [->|Hp']%elem_of_cons & Hnb & Hb)].
        * left. by left.
        * left. right. by exists nb.
        * right. by exists p', nb. }
  rewrite (foldl_ext_in _
             (fun ids pixelIndex =>
                foldl (fun ids nb =>
                         match pickNeighbor seg region nb with
                         | Some v => setAdd v ids
                         | None => ids
                         end)
                      ids (gridNeighbors w pixelIndex))).
  2:{ intros ids p _. apply foldl_ext_in. intros ids' nb _. unfold pickNeighbor. cbv zeta.
      case_decide; [|done]. destruct (initialRegionMap seg !! _); [|done].
      by case_decide. }
  rewrite Hfold. split; [|by right].
  by intros [?%elem_of_nil|?].
Qed.

(** X20.  The merge candidates of a region are exactly the ids, other than
    its own, of the regions still in the table that the region map gives to
    an index one or [width] away from a pixel of the region.  Unlike the
    flood fill, the merger does not ask the two indices to share a row or a
    column. *)
Theorem neighborIdsOf_spec (w : nat) (seg : Segmentation) (region : Region.t) (b : nat) :
  b ∈ neighborIdsOf w seg region <->
  exists p nb,
    p ∈ Region.pixels region /\ nb ∈ gridNeighbors w p /\ (0 <= nb)%Z /\
    initialRegionMap seg !! Z.to_nat nb = Some b /\
    b ≠ Region.id region /\ is_Some (initialRegions seg !! b).
Proof.
  rewrite neighborIdsOf_pick. split.
  - intros (p & nb & Hp & Hnb & Hb%pickNeighbor_Some). by exists p, nb.
  - intros (p & nb & Hp & Hnb & Hb). exists p, nb. split; [done|]. split; [done|].
    by apply pickNeighbor_Some.
Qed.

(** ** RegionMerger: the choice of the merge target *)

Lemma bestNeighbor_loop (palette : list Pixel) (seg : Segmentation) (region : Region.t)
    (ds : list nat) :
  colorsFrom palette seg -> colorFrom palette (Region.color region) ->
  forall l pre acc,
    (forall b, b ∈ l -> is_Some (initialRegions seg !! b)) ->
    (acc = (false, Infinity, None) /\ pre = [] \/
     (exists b neighbor,
        acc = (false, Fin (colorGap (Region.color region) (Region.color neighbor)), Some b) /\
        b ∈ pre /\ initialRegions seg !! b = Some neighbor /\
        forall b' neighbor', b' ∈ pre -> initialRegions seg !! b' = Some neighbor' ->
          Region.color neighbor' ≠ Region.color region /\
          (colorGap (Region.color region) (Region.color neighbor)
           <= colorGap (Region.color region) (Region.color neighbor'))%Z) \/
     (exists m b neighbor l1 l2,
        acc = (true, m, Some b) /\ pre = l1 ++ b :: l2 /\
        initialRegions seg !! b = Some neighbor /\
        Region.color neighbor = Region.color region /\
        forall b' neighbor', b' ∈ l1 -> initialRegions seg !! b' = Some neighbor' ->
          Region.color neighbor' ≠ Region.color region)) ->
    exists acc',
      forEach l
        (fun (acc : bool * dist * option nat) neighborId =>
           if acc.1.1 then ret acc
           else
             match initialRegions seg !! neighborId with
             | None => throw (TypeErrorReadOfUndefined "color")
             | Some neighbor =>
                 if decide (Region.color neighbor = Region.color region)
                 then ret (true, acc.1.2, Some neighborId)
                 else
                   diff <- euclideanDistance (Region.color region) (Region.color neighbor) ;;
                   ret (if dist_ltb (Fin diff) acc.1.2
                        then (false, Fin diff, Some neighborId) else acc)
             end)%js acc ds = Ok (acc', ds) /\
      (acc' = (false, Infinity, None) /\ pre ++ l = [] \/
       (exists b neighbor,
          acc' = (false, Fin (colorGap (Region.color region) (Region.color neighbor)), Some b) /\
          b ∈ pre ++ l /\ initialRegions seg !! b = Some neighbor /\
          forall b' neighbor', b' ∈ pre ++ l -> initialRegions seg !! b' = Some neighbor' ->
            Region.color neighbor' ≠ Region.color region /\
            (colorGap (Region.color region) (Region.color neighbor)
             <= colorGap (Region.color region) (Region.color neighbor'))%Z) \/
       (exists m b neighbor l1 l2,
          acc' = (true, m, Some b) /\ pre ++ l = l1 ++ b :: l2 /\
          initialRegions seg !! b = Some neighbor /\
          Region.color neighbor = Region.color region /\
          forall b' neighbor', b' ∈ l1 -> initialRegions seg !! b' = Some neighbor' ->
            Region.color neighbor' ≠ Region.color region)).
Proof.
  intros Hcolors Hcolor.
  induction l as [|x l IH]; intros pre acc Hlive Hacc.
  - exists acc. split; [done|]. by rewrite app_nil_r.
  - cbn [forEach]. unfold bind at 1.
    replace (pre ++ x :: l) with ((pre ++ [x]) ++ l) by (by rewrite <-app_assoc).
    assert (forall b, b ∈ l -> is_Some (initialRegions seg !! b)) as Hlive'
      by (intros b Hb; apply Hlive; by right).
    destruct (Hlive x ltac:(left)) as [nx Hnx].
    destruct Hacc as [[-> ->]|[(b & nb & -> & Hb & Hnb & Hleast)
                              |(m & b & nb & l1 & l2 & -> & -> & Hnb & Hsame & Hfirst)]];
      cbn [fst snd]; rewrite ?Hnx.
    + case_decide as Hx.
      * apply IH; [done|]. right. right. exists Infinity, x, nx, [], [].
        do 4 (split; [done|]). intros b' n' Hb'. by apply elem_of_nil in Hb'.
      * assert (euclideanDistance (Region.color region) (Region.color nx) ds
                = Ok (colorGap (Region.color region) (Region.color nx), ds)) as Hdist.
        { destruct (colorFrom_defined palette (Region.color region) (Region.color nx))
            as (p1 & p2 & -> & ->); [done | by apply (Hcolors x) | done |]. done. }
        unfold bind at 1. rewrite Hdist. unfold ret at 1. cbn [dist_ltb].
        apply IH; [done|]. right. left. exists x, nx.
        split; [done|]. split; [left|]. split; [done|].
        intros b' n' ->%list_elem_of_singleton Hn'. rewrite Hnx in Hn'. injection Hn' as <-.
        split; [congruence|]. lia.
    + case_decide as Hx.
      * apply IH; [done|]. right. right.
        exists (Fin (colorGap (Region.color region) (Region.color nb))), x, nx, pre, [].
        split; [done|]. split; [done|]. split; [done|]. split; [done|].
        intros b' n' Hb' Hn'. by apply (Hleast b' n' Hb' Hn').
      * assert (euclideanDistance (Region.color region) (Region.color nx) ds
                = Ok (colorGap (Region.color region) (Region.color nx), ds)) as Hdist.
        { destruct (colorFrom_defined palette (Region.color region) (Region.color nx))
            as (p1 & p2 & -> & ->); [done | by apply (Hcolors x) | done |]. done. }
        unfold bind at 1. rewrite Hdist. unfold ret at 1. cbn [dist_ltb].
        destruct (Z.ltb_spec (colorGap (Region.color region) (Region.color nx))
                             (colorGap (Region.color region) (Region.color nb))) as [Hlt|Hge].
        -- apply IH; [done|]. right. left. exists x, nx.
           split; [done|]. split; [apply elem_of_app; right; left|]. split; [done|].
           intros b' n' [Hb'| ->%list_elem_of_singleton]%elem_of_app Hn'.
           ++ destruct (Hleast b' n' Hb' Hn'). split; [done|]. lia.
           ++ rewrite Hnx in Hn'. injection Hn' as <-. split; [done|]. lia.
        -- apply IH; [done|]. right. left. exists b, nb.
           split; [done|]. split; [apply elem_of_app; by left|]. split; [done|].
           intros b' n' [Hb'| ->%list_elem_of_singleton]%elem_of_app Hn'.
           ++ by apply (Hleast b' n' Hb' Hn').
           ++ rewrite Hnx in Hn'. injection Hn' as <-. split; [done|]. lia.
    + unfold ret at 1. apply IH; [done|]. right. right.
      exists m, b, nb, l1, (l2 ++ [x]). split; [done|].
      split; [by rewrite <-app_assoc|]. done.
Qed.

(** X21.  When a region has merge candidates, that all have a palette colour
    or all have none, the merger picks one of
    them: the first candidate with the colour of the region if there is one,
    and otherwise a candidate whose colour is at the least distance from the
    colour of the region. *)
Theorem bestNeighbor_choice (palette : list Pixel) (seg : Segmentation) (region : Region.t)
    (ids : list nat) (ds : list nat) :
  colorsFrom palette seg -> colorFrom palette (Region.color region) ->
  (forall b, b ∈ ids -> is_Some (initialRegions seg !! b)) ->
  ids ≠ [] ->
  exists b neighbor,
    bestNeighbor seg region ids ds = Ok (Some b, ds) /\
    b ∈ ids /\ initialRegions seg !! b = Some neighbor /\
    ((Region.color neighbor = Region.color region /\
      exists l1 l2, ids = l1 ++ b :: l2 /\
        forall b' neighbor', b' ∈ l1 -> initialRegions seg !! b' = Some neighbor' ->
          Region.color neighbor' ≠ Region.color region) \/
     (forall b' neighbor', b' ∈ ids -> initialRegions seg !! b' = Some neighbor' ->
        Region.color neighbor' ≠ Region.color region /\
        (colorGap (Region.color region) (Region.color neighbor)
         <= colorGap (Region.color region) (Region.color neighbor'))%Z)).
Proof.
  intros Hcolors Hcolor Hlive Hne. unfold bestNeighbor. unfold bind at 1.
  destruct (bestNeighbor_loop palette seg region ds Hcolors Hcolor ids []
              (false, Infinity, None) Hlive ltac:(by left))
    as (acc' & -> & [[_ Hnil]|[(b & nb & -> & Hb & Hnb & Hleast)
                               |(m & b & nb & l1 & l2 & -> & Hsplit & Hnb & Hsame & Hfirst)]]).
  - done.
  - exists b, nb. cbn [app] in *. do 3 (split; [done|]). by right.
  - exists b, nb. cbn [app] in Hsplit. split; [done|].
    split; [rewrite Hsplit; apply elem_of_app; right; left|]. split; [done|].
    left. split; [done|]. by exists l1, l2.
Qed.

Lemma bestNeighbor_choice_witness :
  exists b neighbor,
    bestNeighbor greyRedDarkRed redRegion [1; 3] [] = Ok (Some b, []) /\
    b ∈ [1; 3] /\ initialRegions greyRedDarkRed !! b = Some neighbor /\
    ((Region.color neighbor = Region.color redRegion /\
      exists l1 l2, [1; 3] = l1 ++ b :: l2 /\
        forall b' neighbor', b' ∈ l1 -> initialRegions greyRedDarkRed !! b' = Some neighbor' ->
          Region.color neighbor' ≠ Region.color redRegion) \/
     (forall b' neighbor', b' ∈ [1; 3] -> initialRegions greyRedDarkRed !! b' = Some neighbor' ->
        Region.color neighbor' ≠ Region.color redRegion /\
        (colorGap (Region.color redRegion) (Region.color neighbor)
         <= colorGap (Region.color redRegion) (Region.color neighbor'))%Z)).
Proof.
  apply (bestNeighbor_choice greyRedDarkRedPalette greyRedDarkRed redRegion [1; 3] []).
  - intros id region. unfold greyRedDarkRed. cbn [initialRegions].
    rewrite !lookup_insert_Some, lookup_empty.
    intros [[<- <-]|[_ [[<- <-]|[_ [[<- <-]|[_ ?]]]]]]; [| | |done].
    + exists (10, 10, 10)%Z. split; [done|]. left.
    + exists (200, 0, 0)%Z. split; [done|]. do 2 right. left.
    + exists (150, 0, 0)%Z. split; [done|]. right. left.
  - exists (200, 0, 0)%Z. split; [done|]. do 2 right. left.
  - intros b Hb. unfold greyRedDarkRed. cbn [initialRegions].
    apply elem_of_cons in Hb as [->|Hb]; [by rewrite lookup_insert_eq|].
    apply list_elem_of_singleton in Hb as ->.
    rewrite lookup_insert_ne by done. rewrite lookup_insert_ne by done.
    by rewrite lookup_insert_eq.
  - done.
Defined.

(** Of the two candidates the dark red region is the closer one. *)
Example bestNeighbor_takes_closer :
  bestNeighbor greyRedDarkRed redRegion [1; 3] [] = Ok (Some 3, []).
Proof. vm_compute. reflexivity. Qed.

(** ** RegionMerger: no small region is left *)

Lemma bestNeighbor_none (palette : list Pixel) (seg : Segmentation) (region : Region.t)
    (ids : list nat) (ds ds' : list nat) :
  colorsFrom palette seg -> colorFrom palette (Region.color region) ->
  (forall b, b ∈ ids -> is_Some (initialRegions seg !! b)) ->
  bestNeighbor seg region ids ds = Ok (None, ds') -> ids = [].
Proof.
  intros Hcolors Hcolor Hlive. unfold bestNeighbor. unfold bind at 1.
  destruct (bestNeighbor_loop palette seg region ds Hcolors Hcolor ids []
              (false, Infinity, None) Hlive ltac:(by left))
    as (acc' & -> & [[_ Hnil]|[(b & nb & -> & _)|(m & b & nb & l1 & l2 & -> & _)]]); done.
Qed.

Lemma mergeStep_cases (img : ImageData) (options : Options) (seg : Segmentation)
    (id : nat) (ds : list nat) (seg' : Segmentation) (ds' : list nat) :
  mergeStep img options seg id ds = Ok (seg', ds') ->
  (seg' = seg /\ initialRegions seg !! id = None) \/
  (exists region,
     seg' = seg /\ initialRegions seg !! id = Some region /\
     (isSmall options region = false \/
      bestNeighbor seg region (neighborIdsOf (width img) seg region) ds = Ok (None, ds'))) \/
  (exists region b target,
     initialRegions seg !! id = Some region /\
     initialRegions seg !! b = Some target /\
     initialRegions seg' = delete id (<[b := absorb target region]> (initialRegions seg))).
Proof.
  unfold mergeStep. destruct (initialRegions seg !! id) as [region|] eqn:Hregion;
    [|intros [= <- _]; by left].
  destruct (negb (isSmall options region) && negb (isThin img options region)) eqn:Hkeep.
  - intros [= <- _]. right. left. exists region. split; [done|]. split; [done|]. left.
    apply andb_true_iff in Hkeep as [Hsmall _]. by apply negb_true_iff.
  - unfold bind. destruct (bestNeighbor _ _ _ _) as [[[b|] ds1]| |] eqn:Hbest; [| |done..].
    + unfold mergeInto. destruct (initialRegions seg !! b) as [target|] eqn:Htarget; [|done].
      intros [= <- _]. right. right. by exists region, b, target.
    + intros [= <- <-]. right. left. exists region. split; [done|]. split; [done|]. by right.
Qed.

Lemma isolated_covers (n w : nat) (seg : Segmentation) (id : nat) (region : Region.t) :
  mergeState n seg -> initialRegions seg !! id = Some region ->
  Region.pixels region ≠ [] -> neighborIdsOf w seg region = [] ->
  forall q, q < n -> q ∈ Region.pixels region.
Proof.
  intros (Hlen & Hown & Hlive & Hnonzero) Hregion Hne Hisolated.
  destruct (Hown id region Hregion) as (Hid & _ & _ & Hpx).
  assert (forall p nb, initialRegionMap seg !! p = Some id -> nb ∈ gridNeighbors w p ->
                       (0 <= nb)%Z -> Z.to_nat nb < n ->
                       initialRegionMap seg !! Z.to_nat nb = Some id) as Hstep.
  { intros p nb Hp Hnb Hpos Hlt.
    destruct (lookup_lt_is_Some_2 (initialRegionMap seg) (Z.to_nat nb)) as [v Hv]; [lia|].
    destruct (decide (v = id)) as [->|Hvid]; [done|]. exfalso.
    assert (v ≠ 0) as Hv0 by (intros ->; by apply (Hnonzero (Z.to_nat nb))).
    assert (v ∈ neighborIdsOf w seg region) as Hin.
    { apply neighborIdsOf_pick. exists p, nb. split; [by apply Hpx|]. split; [done|].
      apply pickNeighbor_Some. rewrite Hid. split; [done|]. split; [done|]. split; [done|].
      by apply (Hlive (Z.to_nat nb)). }
    rewrite Hisolated in Hin. by apply elem_of_nil in Hin. }
  destruct (Region.pixels region) as [|p0 rest] eqn:Hpixels; [done|].
  assert (initialRegionMap seg !! p0 = Some id) as Hp0 by (apply Hpx; left).
  assert (forall d, p0 + d < n -> initialRegionMap seg !! (p0 + d) = Some id) as Hup.
  { induction d as [|d IH]; intros Hd; [by rewrite Nat.add_0_r|].
    replace (p0 + S d) with (Z.to_nat (Z.of_nat (p0 + d) + 1)) by lia.
    apply (Hstep (p0 + d)); [apply IH; lia| |lia..].
    unfold gridNeighbors. do 3 right. left. }
  assert (forall d, d <= p0 -> initialRegionMap seg !! (p0 - d) = Some id) as Hdown.
  { induction d as [|d IH]; intros Hd; [by rewrite Nat.sub_0_r|].
    replace (p0 - S d) with (Z.to_nat (Z.of_nat (p0 - d) - 1)) by lia.
    pose proof (lookup_lt_Some _ _ _ Hp0).
    apply (Hstep (p0 - d)); [apply IH; lia| |lia..].
    unfold gridNeighbors. do 2 right. left. }
  intros q Hq. apply Hpx. destruct (decide (p0 <= q)).
  - replace q with (p0 + (q - p0)) by lia. apply Hup. lia.
  - replace q with (p0 - (p0 - q)) by lia. apply Hdown. lia.
Qed.

Lemma absorb_settled (n : nat) (options : Options) (target region : Region.t) :
  settled n options target -> settled n options (absorb target region).
Proof.
  unfold settled, absorb. cbn [Region.pixels]. rewrite length_app.
  intros [Hsize|Hall]; [left; lia|right].
  intros q Hq. apply elem_of_app. left. by apply Hall.
Qed.

Lemma mergeLoop_settled (palette : list Pixel) (img : ImageData) (options : Options)
    (n : nat) (ds : list nat) (ids : list nat) :
  forall seg,
    mergeState n seg -> colorsFrom palette seg ->
    (forall id region, initialRegions seg !! id = Some region -> Region.pixels region ≠ []) ->
    exists seg',
      forEach ids (mergeStep img options) seg ds = Ok (seg', ds) /\
      forall id region',
        initialRegions seg' !! id = Some region' ->
        exists region,
          initialRegions seg !! id = Some region /\
          (settled n options region -> settled n options region') /\
          (id ∈ ids -> settled n options region').
Proof.
  induction ids as [|id0 ids IH]; intros seg Hst Hcolors Hne.
  - exists seg. split; [done|]. intros id region' Hregion'. exists region'.
    split; [done|]. split; [done|]. by intros ?%elem_of_nil.
  - destruct (mergeStep_mergeState palette img options n seg id0 ds Hst Hcolors)
      as (seg1 & Hstep & Hst1 & Hcolors1 & _).
    pose proof (mergeStep_cases _ _ _ _ _ _ _ Hstep) as Hcases.
    assert (forall id region, initialRegions seg1 !! id = Some region ->
                              Region.pixels region ≠ []) as Hne1.
    { destruct Hcases as [[-> _]|[(r0 & -> & _)|(r0 & b & t & Hr0 & Ht & Hregions)]];
        [done..|].
      intros id region. rewrite Hregions. intros [_ Hlk]%lookup_delete_Some.
      destruct (decide (id = b)) as [->|Hb].
      - rewrite lookup_insert_eq in Hlk. injection Hlk as <-.
        cbn [absorb Region.pixels]. intros [Hnil _]%app_eq_nil. by apply (Hne b t).
      - rewrite lookup_insert_ne in Hlk by done. by apply (Hne id). }
    destruct (IH seg1 Hst1 Hcolors1 Hne1) as (seg' & Hrun & Hseg').
    exists seg'. split; [cbn [forEach]; unfold bind; by rewrite Hstep|].
    intros id region' Hregion'.
    destruct (Hseg' id region' Hregion') as (region1 & Hregion1 & Hmono & Hvisited).
    destruct Hcases as [[-> Hnone]|[(r0 & -> & Hr0 & Hwhy)|(r0 & b & t & Hr0 & Ht & Hregions)]].
    + exists region1. split; [done|]. split; [done|].
      intros [->|Hid]%elem_of_cons; [congruence|by apply Hvisited].
    + exists region1. split; [done|]. split; [done|].
      intros [->|Hid]%elem_of_cons; [|by apply Hvisited].
      apply Hmono. rewrite Hr0 in Hregion1. injection Hregion1 as ->.
      destruct Hwhy as [Hbig|Hbest].
      * left. unfold isSmall in Hbig. by apply Z.ltb_ge in Hbig.
      * right. apply (isolated_covers n (width img) seg id0 region1); [done..| |].
        -- by apply (Hne id0).
        -- apply (bestNeighbor_none palette seg region1 _ ds ds); [done| | |done].
           ++ by apply (Hcolors id0).
           ++ intros b' Hb'. by apply neighborIdsOf_live in Hb' as [_ ?].
    + rewrite Hregions in Hregion1. apply lookup_delete_Some in Hregion1 as [Hid0 Hlk].
      destruct (decide (id = b)) as [->|Hb].
      * rewrite lookup_insert_eq in Hlk. injection Hlk as <-.
        exists t. split; [done|]. split.
        -- intros Hsettled. by apply Hmono, absorb_settled.
        -- intros [->|Hid]%elem_of_cons; [done|by apply Hvisited].
      * rewrite lookup_insert_ne in Hlk by done.
        exists region1. split; [done|]. split; [done|].
        intros [->|Hid]%elem_of_cons; [done|by apply Hvisited].
Qed.

(** X22.  After the merge pass no region is left with fewer than
    [minRegionSize] pixels, unless it is a region that holds every pixel of
    the raster and so has no neighbour to merge into. *)
Theorem merge_leaves_no_small_region
    (img : ImageData) (palette : list Pixel) (options : Options) (ds : list nat) :
  exists grown assigned merged,
    growRegions img (colorThreshold options) = Some grown /\
    assignColors (Some <$> palette) grown ds = Ok (assigned, ds) /\
    mergeRegions img options assigned ds = Ok (merged, ds) /\
    forall id region, initialRegions merged !! id = Some region ->
      (minRegionSize options <= Z.of_nat (length (Region.pixels region)))%Z \/
      forall q, q < width img * height img -> q ∈ Region.pixels region.
Proof.
  destruct (growRegions_grown img (colorThreshold options)) as (grown & Hgrown & _ & Hscan).
  destruct (assignColors_mergeState palette _ grown ds Hscan)
    as (assigned & Hassigned & Hst & Hcolors).
  destruct (assignColors_loop palette ds (regionKeys grown) grown)
    as (assigned' & Hassigned' & _ & Hctr & Hregions & _).
  unfold assignColors in Hassigned. rewrite Hassigned in Hassigned'.
  injection Hassigned' as <-.
  assert (forall id region, initialRegions assigned !! id = Some region ->
                            Region.pixels region ≠ []) as Hne.
  { intros id region Hregion.
    destruct (Hregions id region Hregion) as (r & Hr & _ & -> & _).
    by apply (growRegions_nonempty img _ grown Hgrown id). }
  destruct (mergeLoop_settled palette img options _ ds (sortedRegionIds assigned)
              assigned Hst Hcolors Hne) as (merged & Hmerged & Hsettled).
  exists grown, assigned, merged. do 3 (split; [done|]).
  intros id region Hregion.
  destruct (Hsettled id region Hregion) as (r & Hr & _ & Hvisited).
  apply Hvisited. unfold sortedRegionIds. rewrite sortBy_Permutation.
  apply regionKeys_complete; [|done].
  intros id' [r' Hr']. rewrite Hctr.
  destruct (Hregions id' r' Hr') as (r0 & Hr0 & _).
  destruct Hscan as (_ & _ & Hkeys & _). by apply Hkeys.
Qed.

(** ** Runs that do not throw *)

Lemma safe_bind {A B} (I : A -> Prop) (J : B -> Prop) (m : Js A) (f : A -> Js B)
    (ds : list nat) :
  safe I (m ds) -> (forall a ds', I a -> safe J (f a ds')) -> safe J (bind m f ds).
Proof.
  unfold bind. destruct (m ds) as [[a ds']| |]; [|done..]. intros Ha Hf. by apply Hf.
Qed.

Lemma safe_forEach {A S} (I : S -> Prop) (xs : list A) (body : S -> A -> Js S) :
  (forall x acc ds, x ∈ xs -> I acc -> safe I (body acc x ds)) ->
  forall acc ds, I acc -> safe I (forEach xs body acc ds).
Proof.
  induction xs as [|x xs IH]; intros Hbody acc ds Hacc; [done|].
  cbn [forEach]. apply (safe_bind I); [apply Hbody; [left|done]|].
  intros acc' ds' Hacc'. apply IH; [|done]. intros y acc0 ds0 Hy. apply Hbody. by right.
Qed.

(** ** ColorClusterer: enough pixels, no exception *)

Lemma seedCentroids_safe (pixels : list Pixel) (k : Z) (ds : list nat) :
  (k <= Z.of_nat (length pixels))%Z ->
  forall cs used,
    (Z.of_nat (length cs) <= k)%Z -> Forall is_Some cs ->
    safe (fun cs' => Z.of_nat (length cs') = k /\ Forall is_Some cs')
         (seedCentroids pixels k cs used ds).
Proof.
  intros Hk. induction ds as [|d ds IH]; intros cs used Hlen Hdefined; cbn [seedCentroids].
  - case_decide as Hgo; [done|]. cbn. split; [lia|done].
  - case_decide as Hgo; [|cbn; split; [lia|done]].
    case_decide; [by apply IH|]. apply IH.
    + rewrite length_app. cbn. lia.
    + apply Forall_app. split; [done|]. apply Forall_singleton.
      apply lookup_lt_is_Some. rewrite decide_False by lia.
      apply Nat.mod_upper_bound. lia.
Qed.

Lemma closestCentroidIndex_returns (cs : list (option Pixel)) (k : Z) (pixel : Pixel)
    (ds : list nat) :
  (1 <= k)%Z -> length cs = Z.to_nat k -> Forall is_Some cs ->
  exists i, closestCentroidIndex cs k pixel ds = Ok (i, ds) /\ i < Z.to_nat k.
Proof.
  intros Hk Hlen Hdefined. unfold closestCentroidIndex. unfold bind at 1.
  lazymatch goal with
  | |- context [forEach ?xs ?body ?start ds] =>
      destruct (forEach_invariant (fun best : dist * nat => best.2 < Z.to_nat k)
                  xs body start ds) as ([m i] & -> & Hi)
  end.
  - cbn. lia.
  - intros i acc Hi%elem_of_seq Hacc.
    destruct (lookup_lt_is_Some_2 cs i ltac:(lia)) as [oc Hoc].
    rewrite Forall_forall in Hdefined.
    destruct (Hdefined oc (list_elem_of_lookup_2 _ _ _ Hoc)) as [c ->].
    rewrite Hoc. cbn [mjoin option_join mbind option_bind]. unfold bind.
    destruct (euclideanDistance_defined pixel c ds) as (d & -> & _).
    eexists. split; [reflexivity|]. destruct (dist_ltb _ _); cbn [snd]; [lia|done].
  - by exists i.
Qed.

Lemma assignPixels_returns (pixels : list Pixel) (cs : list (option Pixel)) (k : Z)
    (ds : list nat) :
  (1 <= k)%Z -> length cs = Z.to_nat k -> Forall is_Some cs ->
  exists cls, assignPixels pixels cs k ds = Ok (cls, ds).
Proof.
  intros Hk Hlen Hdefined. unfold assignPixels.
  lazymatch goal with
  | |- context [forEach ?xs ?body ?start ds] =>
      destruct (forEach_invariant (fun cls : list (list Pixel) => length cls = Z.to_nat k)
                  xs body start ds) as (cls & -> & _)
  end.
  - apply length_replicate.
  - intros pixel cls _ Hcls. unfold bind.
    destruct (closestCentroidIndex_returns cs k pixel ds Hk Hlen Hdefined) as (i & -> & Hi).
    destruct (lookup_lt_is_Some_2 cls i ltac:(lia)) as [c ->].
    eexists. split; [reflexivity|]. by rewrite length_insert.
  - by exists cls.
Qed.

Lemma recomputeCentroids_safe (pixels : list Pixel) (cls : list (list Pixel)) (k : Z)
    (ds : list nat) :
  length cls = Z.to_nat k ->
  safe (fun _ => True) (recomputeCentroids pixels cls k ds).
Proof.
  intros Hlen. unfold recomputeCentroids. apply safe_forEach; [|done].
  intros i acc ds0 Hi%elem_of_seq _.
  destruct (lookup_lt_is_Some_2 cls i ltac:(lia)) as [c ->].
  case_decide; [done|]. unfold bind, randomIndex. by destruct ds0.
Qed.

Lemma hasConverged_returns (lastCentroids cs : list (option Pixel)) (k : Z) (ds : list nat) :
  length cs = Z.to_nat k -> Forall is_Some cs ->
  exists converged, hasConverged lastCentroids cs k ds = Ok (converged, ds).
Proof.
  intros Hlen Hdefined. unfold hasConverged.
  lazymatch goal with
  | |- context [forEach ?xs ?body ?start ds] =>
      destruct (forEach_invariant (fun _ : bool => True) xs body start ds)
        as (converged & -> & _)
  end; [done| |by eexists].
  intros i acc Hi%elem_of_seq _. destruct acc; [|by eexists].
  destruct (mjoin (lastCentroids !! i)) as [l|]; [|by eexists].
  destruct (lookup_lt_is_Some_2 cs i ltac:(lia)) as [oc Hoc].
  rewrite Forall_forall in Hdefined.
  destruct (Hdefined oc (list_elem_of_lookup_2 _ _ _ Hoc)) as [c ->].
  rewrite Hoc. cbn [mjoin option_join mbind option_bind]. unfold bind.
  destruct (euclideanDistance_defined l c ds) as (d & -> & _). by eexists.
Qed.

Lemma kmeansLoop_safe (pixels : list Pixel) (k : Z) (n : nat) :
  pixels ≠ [] -> (1 <= k)%Z ->
  forall cs cls ds,
    length cs = Z.to_nat k -> Forall is_Some cs ->
    safe (clustering pixels k) (kmeansLoop (S n) pixels k cs cls ds).
Proof.
  intros Hne Hk. induction n as [|n IH]; intros cs cls ds Hlen Hdefined.
  all: cbn [kmeansLoop].
  all: destruct (assignPixels_returns pixels cs k ds Hk Hlen Hdefined) as (cls' & Hassign).
  all: unfold bind at 1; rewrite Hassign.
  all: pose proof (assignPixels_partition _ _ _ _ _ _ Hassign) as [Hcls' _].
  all: pose proof (recomputeCentroids_safe pixels cls' k ds Hcls') as Hsafe.
  all: unfold bind at 1.
  all: destruct (recomputeCentroids pixels cls' k ds) as [[newCentroids ds2]| |] eqn:Hnew;
    [|done..].
  all: pose proof (recomputed_clustering _ _ _ _ _ _ _ _ Hassign Hnew) as Hclustering.
  all: pose proof Hclustering as (Hnl & _ & _ & Hnd & _).
  all: cbn [centroids] in Hnl, Hnd.
  all: destruct (hasConverged_returns cs newCentroids k ds2 Hnl (Hnd Hne))
    as (converged & Hconverged).
  all: unfold bind at 1; rewrite Hconverged.
  all: destruct converged; [done|].
  - done.
  - apply IH; auto.
Qed.

Lemma kmeans_safe (pixels : list Pixel) (k : Z) (ds : list nat) :
  (1 <= k <= Z.of_nat (length pixels))%Z ->
  safe (clustering pixels k) (kmeans pixels k ds).
Proof.
  intros [Hk Hpixels]. unfold kmeans.
  apply (safe_bind (fun cs => Z.of_nat (length cs) = k /\ Forall is_Some cs)).
  - apply seedCentroids_safe; [done|cbn; lia|done].
  - intros cs ds' [Hlen Hdefined]. change maxIterations with (S 29).
    apply kmeansLoop_safe; [by destruct pixels; [simpl in *; lia|]|done|lia|done].
Qed.

Lemma samplePixels_length_lower {A} (pixels : list A) (sampleSize : nat) :
  length pixels `min` sampleSize <= length (samplePixels pixels sampleSize).
Proof.
  unfold samplePixels. case_decide; [lia|]. case_decide; [lia|].
  set (N := length pixels) in *.
  assert (0 < N / sampleSize) as Hstep by (apply Nat.div_str_pos; lia).
  rewrite strideLoop_length; fold N; try lia; [|nia].
  pose proof (Nat.div_mod_eq N sampleSize).
  pose proof (Nat.mod_upper_bound N sampleSize ltac:(lia)).
  apply Nat.div_le_lower_bound; [lia|]. nia.
Qed.

(** Up to the argument limit of the engine, which [mergeInto] leaves out,
    such a request gets no error response. *)
Lemma onmessage_returns
    (img : ImageData) (options : Options) (k : Z) (ds : list nat) :
  wfImageData img -> (1 <= k)%Z ->
  (Z.min (k * 5) 50 <= Z.of_nat (width img * height img))%Z ->
  onmessage img options k ds = None \/
  exists dominantColors outline coloredRaster,
    onmessage img options k ds = Some (Success dominantColors outline coloredRaster).
Proof.
  intros (Hw & Hh & Hlen & Hbytes) Hk Hpixels.
  destruct (getPixelsFrom_lookup _ (data img) (length (data img)) Hlen ltac:(lia))
    as [Hall _]. fold (getPixels img) in Hall.
  assert (pipeline img options k ds = Starved \/
          exists dominantColors results ds',
            pipeline img options k ds = Ok ((dominantColors, results), ds')) as Hrun.
  { unfold pipeline. cbv zeta.
    set (sample := samplePixels (getPixels img) (Z.to_nat 30000)).
    assert (Z.min (k * 5) 50 <= Z.of_nat (length sample))%Z as Hsample.
    { pose proof (samplePixels_length_lower (getPixels img) (Z.to_nat 30000)) as Hlower.
      fold sample in Hlower. lia. }
    pose proof (kmeans_safe sample (Z.min (k * 5) 50) ds ltac:(lia)) as Hsafe.
    unfold bind.
    destruct (kmeans sample (Z.min (k * 5) 50) ds) as [[res ds1]| |]; [|done|by left].
    destruct Hsafe as (Hcentroids & Hclusters & Hperm & Hdefined & _).
    assert (sample ≠ []) as Hne by (destruct sample; [simpl in Hsample; lia|done]).
    rewrite (fmap_Some_of_defined (centroids res) (Hdefined Hne)).
    destruct (generateOptimalPalette_palette (omap id (centroids res)) (clusters res) k ds1 Hk)
      as (palette & Hpal & Hcount & _).
    { destruct (concat_nonempty (clusters res)) as (j & cluster & Hj & Hcluster).
      { intros Hnil. rewrite Hnil in Hperm. by apply Permutation_nil_l in Hperm. }
      exists j. pose proof (lookup_lt_Some _ _ _ Hj).
      assert (length (omap id (centroids res)) = length (centroids res)) as ->.
      { rewrite (fmap_Some_of_defined (centroids res) (Hdefined Hne)) at 2.
        by rewrite length_fmap. }
      split; [lia|]. rewrite Hj. destruct cluster; [done|simpl; lia]. }
    unfold bind. rewrite Hpal.
    assert (palette ≠ []) as Hpalette by (destruct palette; [simpl in Hcount; lia|done]).
    destruct (growRegions_grown img (colorThreshold options))
      as (grown & Hgrown & _ & Hscan).
    destruct (assignColors_mergeState palette _ grown ds1 Hscan)
      as (assigned & Hassigned & Hst & Hcolors).
    destruct (mergeLoop_mergeState palette img options _ (sortedRegionIds assigned)
                assigned ds1 Hst Hcolors) as (merged & Hmerged & Hst' & Hcolors').
    destruct (outlineLabels_returns (width img) (Some <$> palette) options merged ds1)
      as (numbers & Hnumbers).
    destruct (colorRegions_painted palette (width img) (height img) merged ds1
                ltac:(nia) Hst' Hcolors' Hpalette) as (coloredImageData & Hcolored & _).
    unfold generatePbnImage, mergeRegions, bind, fueled.
    rewrite Hgrown, Hassigned, Hmerged, Hnumbers, Hcolored. right. by eexists _, _, _. }
  unfold onmessage.
  destruct Hrun as [->|(dominantColors & results & ds' & ->)]; [by left|].
  right. by eexists _, _, _.
Qed.

(** ** The message handler: the argument limit of the engine *)

Lemma mergeStepWithin_cases (maxArguments : nat) (img : ImageData) (options : Options)
    (seg : Segmentation) (id : nat) (ds : list nat) :
  mergeStepWithin maxArguments img options seg id ds = mergeStep img options seg id ds \/
  mergeStepWithin maxArguments img options seg id ds = Throw RangeError.
Proof.
  unfold mergeStepWithin, mergeStep.
  destruct (initialRegions seg !! id) as [region|]; [|by left].
  destruct (negb _ && negb _); [by left|]. unfold bind.
  destruct (bestNeighbor _ _ _ ds) as [[[bestNeighborId|] ds']| |]; [|by left..].
  unfold mergeIntoWithin, mergeInto.
  destruct (initialRegions seg !! bestNeighborId); [|by left].
  case_decide; [by left|by right].
Qed.

Lemma mergeRegionsWithin_cases (maxArguments : nat) (img : ImageData) (options : Options)
    (ids : list nat) :
  forall seg ds,
    forEach ids (mergeStepWithin maxArguments img options) seg ds
    = forEach ids (mergeStep img options) seg ds \/
    forEach ids (mergeStepWithin maxArguments img options) seg ds = Throw RangeError.
Proof.
  induction ids as [|id ids IH]; intros seg ds; [by left|]. cbn [forEach]. unfold bind.
  destruct (mergeStepWithin_cases maxArguments img options seg id ds) as [-> | ->];
    [|by right].
  destruct (mergeStep img options seg id ds) as [[seg' ds']| |]; [apply IH|by left..].
Qed.

Lemma bind_cases_l {A B} (m m' : Js A) (f : A -> Js B) (e : JsError) (ds : list nat) :
  m ds = m' ds \/ m ds = Throw e ->
  bind m f ds = bind m' f ds \/ bind m f ds = Throw e.
Proof. unfold bind. intros [-> | ->]; [by left|by right]. Qed.

Lemma bind_cases_r {A B} (m : Js A) (f g : A -> Js B) (e : JsError) (ds : list nat) :
  (forall a ds', f a ds' = g a ds' \/ f a ds' = Throw e) ->
  bind m f ds = bind m g ds \/ bind m f ds = Throw e.
Proof. unfold bind. destruct (m ds) as [[a ds']| |]; auto. Qed.

Lemma bind_ext_returned {A B} (m : Js A) (f g : A -> Js B) (ds : list nat) :
  (forall a ds', m ds = Ok (a, ds') -> f a ds' = g a ds') ->
  bind m f ds = bind m g ds.
Proof. unfold bind. destruct (m ds) as [[a ds']| |]; auto. Qed.

Lemma generatePbnImageWithin_cases (maxArguments : nat) (img : ImageData)
    (colors : list (option Pixel)) (options : Options) (ds : list nat) :
  generatePbnImageWithin maxArguments img colors options ds
  = generatePbnImage img colors options ds \/
  generatePbnImageWithin maxArguments img colors options ds = Throw RangeError.
Proof.
  unfold generatePbnImageWithin, generatePbnImage.
  apply bind_cases_r. intros grown ds1. apply bind_cases_r. intros assigned ds2.
  apply bind_cases_l, mergeRegionsWithin_cases.
Qed.

Lemma onmessageWithin_cases (maxArguments : nat) (img : ImageData) (options : Options)
    (k : Z) (ds : list nat) :
  onmessageWithin maxArguments img options k ds = onmessage img options k ds \/
  onmessageWithin maxArguments img options k ds = Some (Failure RangeError).
Proof.
  assert (pipelineWithin maxArguments img options k ds = pipeline img options k ds \/
          pipelineWithin maxArguments img options k ds = Throw RangeError) as Hcases.
  { unfold pipelineWithin, pipeline. cbv zeta.
    apply bind_cases_r. intros kmeansResult ds1. apply bind_cases_r. intros colors ds2.
    apply bind_cases_l, generatePbnImageWithin_cases. }
  unfold onmessageWithin, onmessage. destruct Hcases as [-> | ->]; [by left|by right].
Qed.

Lemma region_within_raster (n : nat) (seg : Segmentation) (id : nat) (region : Region.t) :
  mergeState n seg -> initialRegions seg !! id = Some region ->
  length (Region.pixels region) <= n.
Proof.
  intros (Hlen & Hown & _) Hregion.
  destruct (Hown id region Hregion) as (_ & _ & Hnodup & Hpixels).
  pose proof (submseteq_length (Region.pixels region) (seq 0 n)) as Hle.
  rewrite length_seq in Hle. apply Hle, NoDup_submseteq; [done|].
  intros q Hq%Hpixels. apply lookup_lt_Some in Hq. apply elem_of_seq. lia.
Qed.

Lemma mergeRegionsWithin_small (maxArguments : nat) (palette : list Pixel) (img : ImageData)
    (options : Options) (n : nat) (ds : list nat) (ids : list nat) :
  n <= maxArguments ->
  forall seg,
    mergeState n seg -> colorsFrom palette seg ->
    forEach ids (mergeStepWithin maxArguments img options) seg ds
    = forEach ids (mergeStep img options) seg ds.
Proof.
  intros Hn. induction ids as [|id ids IH]; intros seg Hst Hcolors; [done|].
  cbn [forEach]. unfold bind.
  assert (mergeStepWithin maxArguments img options seg id ds
          = mergeStep img options seg id ds) as ->.
  { unfold mergeStepWithin, mergeStep.
    destruct (initialRegions seg !! id) as [region|] eqn:Hregion; [|done].
    destruct (negb _ && negb _); [done|]. unfold bind.
    destruct (bestNeighbor _ _ _ ds) as [[[bestNeighborId|] ds']| |]; [|done..].
    unfold mergeIntoWithin, mergeInto.
    destruct (initialRegions seg !! bestNeighborId); [|done].
    pose proof (region_within_raster n seg id region Hst Hregion).
    by rewrite decide_True by lia. }
  destruct (mergeStep_mergeState palette img options n seg id ds Hst Hcolors)
    as (seg' & -> & Hst' & Hcolors' & _).
  by apply IH.
Qed.

Lemma generatePbnImageWithin_small (maxArguments : nat) (img : ImageData)
    (palette : list Pixel) (options : Options) (ds : list nat) :
  width img * height img <= maxArguments ->
  generatePbnImageWithin maxArguments img (Some <$> palette) options ds
  = generatePbnImage img (Some <$> palette) options ds.
Proof.
  intros Hsmall.
  destruct (growRegions_grown img (colorThreshold options)) as (grown & Hgrown & _ & Hscan).
  destruct (assignColors_mergeState palette _ grown ds Hscan)
    as (assigned & Hassigned & Hst & Hcolors).
  unfold generatePbnImageWithin, generatePbnImage, mergeRegionsWithin, mergeRegions.
  unfold bind, fueled. rewrite Hgrown, Hassigned.
  by rewrite (mergeRegionsWithin_small maxArguments palette img options
                (width img * height img) ds (sortedRegionIds assigned) Hsmall assigned
                Hst Hcolors).
Qed.

(** X23.  Take an engine that accepts [maxArguments] arguments in the call
    [push(...region.pixels)] of the merge pass.  A request with [k >= 1] on a
    raster the host can hand over that has at least [min(5k, 50)] pixels gets
    a success response, the same as without the limit, or the error response
    of the [RangeError] of that call, unless a loop of the clusterer runs out
    of random draws; it gets no other error response, and none at all when
    the raster has at most [maxArguments] pixels. *)
Theorem onmessageWithin_enough_pixels
    (maxArguments : nat) (img : ImageData) (options : Options) (k : Z) (ds : list nat) :
  wfImageData img -> (1 <= k)%Z ->
  (Z.min (k * 5) 50 <= Z.of_nat (width img * height img))%Z ->
  (onmessageWithin maxArguments img options k ds = None \/
   (exists dominantColors outline coloredRaster,
      onmessageWithin maxArguments img options k ds
      = Some (Success dominantColors outline coloredRaster) /\
      onmessage img options k ds = Some (Success dominantColors outline coloredRaster)) \/
   onmessageWithin maxArguments img options k ds = Some (Failure RangeError)) /\
  (width img * height img <= maxArguments ->
   onmessageWithin maxArguments img options k ds ≠ Some (Failure RangeError)).
Proof.
  intros Hwf Hk Hpixels.
  pose proof (onmessage_returns img options k ds Hwf Hk Hpixels) as Hreturns.
  split.
  - destruct (onmessageWithin_cases maxArguments img options k ds) as [Hsame|Hrange];
      [|by right; right].
    rewrite Hsame.
    destruct Hreturns as [->|(dominantColors & outline & coloredRaster & ->)]; [by left|].
    right. left. by exists dominantColors, outline, coloredRaster.
  - intros Hsmall.
    enough (onmessageWithin maxArguments img options k ds = onmessage img options k ds)
      as -> by (by destruct Hreturns as [->|(? & ? & ? & ->)]).
    destruct Hwf as (Hw & Hh & Hlen & Hbytes).
    unfold onmessageWithin, onmessage.
    enough (pipelineWithin maxArguments img options k ds = pipeline img options k ds)
      as -> by done.
    unfold pipelineWithin, pipeline. cbv zeta.
    set (sample := samplePixels (getPixels img) (Z.to_nat 30000)).
    assert (Z.min (k * 5) 50 <= Z.of_nat (length sample))%Z as Hsample.
    { pose proof (samplePixels_length_lower (getPixels img) (Z.to_nat 30000)) as Hlower.
      destruct (getPixelsFrom_lookup _ (data img) (length (data img)) Hlen ltac:(lia))
        as [Hall _]. fold (getPixels img) in Hall. fold sample in Hlower. lia. }
    pose proof (kmeans_safe sample (Z.min (k * 5) 50) ds ltac:(lia)) as Hsafe.
    apply bind_ext_returned. intros res ds1 Hkmeans. rewrite Hkmeans in Hsafe.
    destruct Hsafe as (Hcentroids & Hclusters & Hperm & Hdefined & _).
    assert (sample ≠ []) as Hne by (destruct sample; [simpl in Hsample; lia|done]).
    rewrite (fmap_Some_of_defined (centroids res) (Hdefined Hne)).
    destruct (generateOptimalPalette_palette (omap id (centroids res)) (clusters res) k ds1 Hk)
      as (palette & Hpal & _).
    { destruct (concat_nonempty (clusters res)) as (j & cluster & Hj & Hcluster).
      { intros Hnil. rewrite Hnil in Hperm. by apply Permutation_nil_l in Hperm. }
      exists j. pose proof (lookup_lt_Some _ _ _ Hj).
      assert (length (omap id (centroids res)) = length (centroids res)) as ->.
      { rewrite (fmap_Some_of_defined (centroids res) (Hdefined Hne)) at 2.
        by rewrite length_fmap. }
      split; [lia|]. rewrite Hj. destruct cluster; [done|simpl; lia]. }
    apply bind_ext_returned. intros colors ds2. rewrite Hpal. intros [= <- <-].
    unfold bind. by rewrite generatePbnImageWithin_small.
Qed.

Lemma onmessageWithin_enough_pixels_witness :
  (onmessageWithin 9 stripe9x1 stripeOptions 1 (seq 0 200) = None \/
   (exists dominantColors outline coloredRaster,
      onmessageWithin 9 stripe9x1 stripeOptions 1 (seq 0 200)
      = Some (Success dominantColors outline coloredRaster) /\
      onmessage stripe9x1 stripeOptions 1 (seq 0 200)
      = Some (Success dominantColors outline coloredRaster)) \/
   onmessageWithin 9 stripe9x1 stripeOptions 1 (seq 0 200) = Some (Failure RangeError)) /\
  (width stripe9x1 * height stripe9x1 <= 9 ->
   onmessageWithin 9 stripe9x1 stripeOptions 1 (seq 0 200) ≠ Some (Failure RangeError)).
Proof.
  apply (onmessageWithin_enough_pixels 9 stripe9x1 stripeOptions 1 (seq 0 200)).
  - repeat split; simpl; try lia. repeat (constructor; [lia|]). constructor.
  - lia.
  - simpl. lia.
Defined.

(** The limit bites: on the 9x1 stripe the merge pass hands the four grey
    pixels to the red region in one call. *)
Example onmessageWithin_stripe :
  onmessageWithin 3 stripe9x1 stripeOptions 1 (seq 0 200) = Some (Failure RangeError) /\
  onmessageWithin 4 stripe9x1 stripeOptions 1 (seq 0 200)
  = onmessage stripe9x1 stripeOptions 1 (seq 0 200).
Proof. split; vm_compute; reflexivity. Qed.

(** ** ColorClusterer: every pixel joins the cluster of a nearest centroid *)

Lemma closestCentroidIndex_loop (cs : list Pixel) (pixel : Pixel) (ds : list nat) (n : nat) :
  forall a acc,
    a + n <= length cs ->
    (a = 0 /\ acc = (Infinity, 0) \/
     exists i c,
       i < a /\ cs !! i = Some c /\ acc = (Fin (radicand pixel c), i) /\
       (forall j c', j < a -> cs !! j = Some c' -> (radicand pixel c <= radicand pixel c')%Z) /\
       (forall j c', j < i -> cs !! j = Some c' -> (radicand pixel c < radicand pixel c')%Z)) ->
    exists acc',
      forEach (seq a n)
        (fun (acc : dist * nat) i =>
           distance <- euclideanDistance (Some pixel) (mjoin ((Some <$> cs) !! i)) ;;
           ret (if dist_ltb (Fin distance) acc.1 then (Fin distance, i) else acc))%js
        acc ds = Ok (acc', ds) /\
      (a + n = 0 /\ acc' = (Infinity, 0) \/
       exists i c,
         i < a + n /\ cs !! i = Some c /\ acc' = (Fin (radicand pixel c), i) /\
         (forall j c', j < a + n -> cs !! j = Some c' ->
                       (radicand pixel c <= radicand pixel c')%Z) /\
         (forall j c', j < i -> cs !! j = Some c' ->
                       (radicand pixel c < radicand pixel c')%Z)).
Proof.
  induction n as [|n IH]; intros a acc Hn Hacc.
  - exists acc. split; [done|]. by rewrite Nat.add_0_r.
  - cbn [seq forEach]. unfold bind at 1 2.
    destruct (lookup_lt_is_Some_2 cs a ltac:(lia)) as [ca Hca].
    rewrite list_lookup_fmap, Hca. cbn [fmap option_fmap option_map mjoin option_join
      mbind option_bind euclideanDistance]. unfold ret at 1 2.
    replace (a + S n) with (S a + n) by lia.
    apply IH; [lia|]. right.
    destruct Hacc as [[-> ->]|(i & c & Hi & Hc & -> & Hleast & Hfirst)]; cbn [fst dist_ltb].
    + exists 0, ca. split; [lia|]. split; [done|]. split; [done|]. split.
      * intros j c' Hj Hc'. assert (j = 0) as -> by lia. rewrite Hca in Hc'.
        injection Hc' as <-. lia.
      * intros j c' Hj. lia.
    + destruct (Z.ltb_spec (radicand pixel ca) (radicand pixel c)) as [Hlt|Hge].
      * exists a, ca. split; [lia|]. split; [done|]. split; [done|]. split.
        -- intros j c' Hj Hc'. destruct (decide (j = a)) as [->|Hja].
           ++ rewrite Hca in Hc'. injection Hc' as <-. lia.
           ++ specialize (Hleast j c' ltac:(lia) Hc'). lia.
        -- intros j c' Hj Hc'. specialize (Hleast j c' Hj Hc'). lia.
      * exists i, c. split; [lia|]. split; [done|]. split; [done|]. split; [|done].
        intros j c' Hj Hc'. destruct (decide (j = a)) as [->|Hja].
        -- rewrite Hca in Hc'. injection Hc' as <-. lia.
        -- apply (Hleast j c'); [lia|done].
Qed.

(** X24.  With [k >= 1] defined centroids, one assignment pass of the
    clusterer returns [k] clusters, and every pixel of cluster [i] is at
    least as close to centroid [i] as to any other centroid, and strictly
    closer to it than to any centroid of a smaller index. *)
Theorem assignPixels_nearest (pixels : list Pixel) (cs : list Pixel) (k : Z) (ds : list nat) :
  (1 <= k)%Z -> length cs = Z.to_nat k ->
  exists cls,
    assignPixels pixels (Some <$> cs) k ds = Ok (cls, ds) /\
    length cls = Z.to_nat k /\
    forall i cluster p,
      cls !! i = Some cluster -> p ∈ cluster ->
      exists c,
        cs !! i = Some c /\
        (forall j c', cs !! j = Some c' -> (radicand p c <= radicand p c')%Z) /\
        (forall j c', j < i -> cs !! j = Some c' -> (radicand p c < radicand p c')%Z).
Proof.
  intros Hk Hlen. unfold assignPixels.
  lazymatch goal with
  | |- context [forEach ?xs ?body ?start ds] =>
      destruct (forEach_invariant
                  (fun cls : list (list Pixel) =>
                     length cls = Z.to_nat k /\
                     forall i cluster p,
                       cls !! i = Some cluster -> p ∈ cluster ->
                       exists c,
                         cs !! i = Some c /\
                         (forall j c', cs !! j = Some c' ->
                                       (radicand p c <= radicand p c')%Z) /\
                         (forall j c', j < i -> cs !! j = Some c' ->
                                       (radicand p c < radicand p c')%Z))
                  xs body start ds) as (cls & -> & Hcls)
  end.
  - split; [apply length_replicate|].
    intros i cluster p [-> _]%lookup_replicate Hp. by apply elem_of_nil in Hp.
  - intros pixel cls _ [Hcls Hnearest]. unfold bind at 1. unfold closestCentroidIndex.
    unfold bind at 1.
    destruct (closestCentroidIndex_loop cs pixel ds (Z.to_nat k) 0 (Infinity, 0)
                ltac:(lia) ltac:(by left))
      as (best & -> & [[Hzero _]|(i & c & Hi & Hc & -> & Hleast & Hfirst)]); [lia|].
    unfold ret at 1. cbn [snd].
    destruct (lookup_lt_is_Some_2 cls i ltac:(lia)) as [cluster0 Hcluster0].
    rewrite Hcluster0. eexists. split; [reflexivity|].
    split; [by rewrite length_insert|].
    intros i' cluster p Hlk Hp. rewrite list_lookup_insert in Hlk.
    case_decide as Hi'; [|by apply (Hnearest i' cluster)].
    destruct Hi' as [<- _]. injection Hlk as <-.
    apply elem_of_app in Hp as [Hp| ->%list_elem_of_singleton];
      [by apply (Hnearest i cluster0)|].
    exists c. split; [done|]. split; [|done].
    intros j c' Hc'. apply (Hleast j c'); [|done].
    apply lookup_lt_Some in Hc'. cbn. lia.
  - by exists cls.
Qed.

Lemma assignPixels_nearest_witness :
  exists cls,
    assignPixels sevenPixels (Some <$> greyRedPalette) 2 [] = Ok (cls, []) /\
    length cls = 2.
Proof.
  destruct (assignPixels_nearest sevenPixels greyRedPalette 2 [] ltac:(lia) eq_refl)
    as (cls & Hrun & Hlen & _).
  by exists cls.
Defined.

(** ** PaletteOptimizer: the farthest candidate is taken *)

Lemma minDistanceToPalette_least (fp : list Pixel) (c : Pixel) (ds : list nat) :
  fp ≠ [] ->
  exists m, minDistanceToPalette (Some <$> fp) (Some c) ds = Ok (Fin m, ds) /\ gapTo fp c m.
Proof.
  intros Hne. unfold minDistanceToPalette.
  assert (forall l pre acc,
            (pre = [] /\ acc = Infinity \/ exists m, acc = Fin m /\ gapTo pre c m) ->
            exists acc',
              forEach (Some <$> l)
                (fun m color => d <- euclideanDistance (Some c) color ;;
                                ret (dist_min m (Fin d)))%js acc ds = Ok (acc', ds) /\
              (pre ++ l = [] /\ acc' = Infinity \/
               exists m, acc' = Fin m /\ gapTo (pre ++ l) c m)) as Hloop.
  { induction l as [|x l IH]; intros pre acc Hacc.
    - exists acc. split; [done|]. by rewrite app_nil_r.
    - cbn [fmap list_fmap forEach]. unfold bind at 1 2. cbn [euclideanDistance].
      unfold ret at 1 2.
      replace (pre ++ x :: l) with ((pre ++ [x]) ++ l) by (by rewrite <-app_assoc).
      apply IH. right.
      destruct Hacc as [[-> ->]|(m & -> & (p & Hp & Hm) & Hleast)];
        unfold dist_min; cbn [dist_ltb].
      + exists (radicand c x). split; [done|]. split.
        * exists x. split; [left|done].
        * intros p ->%list_elem_of_singleton. lia.
      + destruct (Z.ltb_spec (radicand c x) m) as [Hlt|Hge].
        * exists (radicand c x). split; [done|]. split.
          -- exists x. split; [apply elem_of_app; right; left|done].
          -- intros q [Hq| ->%list_elem_of_singleton]%elem_of_app;
               [specialize (Hleast q Hq)|]; lia.
        * exists m. split; [done|]. split.
          -- exists p. split; [apply elem_of_app; by left|done].
          -- intros q [Hq| ->%list_elem_of_singleton]%elem_of_app;
               [by apply Hleast|lia]. }
  destruct (Hloop fp [] Infinity ltac:(by left)) as (acc' & Hrun & [[Hnil _]|(m & -> & Hm)]);
    [done|]. by exists m.
Qed.

Lemma gapTo_unique (fp : list Pixel) (c : Pixel) (m m' : Z) :
  gapTo fp c m -> gapTo fp c m' -> m = m'.
Proof.
  intros [(p & Hp & ->) Hleast] [(p' & Hp' & ->) Hleast'].
  specialize (Hleast p' Hp'). specialize (Hleast' p Hp). lia.
Qed.

(** X25.  In each round of the selection loop, with a nonempty palette so
    far and at least one candidate left, [bestCandidate] is a candidate whose
    least distance to the colours chosen so far is the greatest among the
    candidates, and the first such candidate. *)
Theorem bestCandidate_farthest (fp cands : list Pixel) (ds : list nat) :
  fp ≠ [] -> cands ≠ [] ->
  exists i c m,
    bestCandidate (Some <$> fp) (Some <$> cands) ds = Ok ((Some i, Fin m), ds) /\
    cands !! i = Some c /\ gapTo fp c m /\
    forall j c' m', cands !! j = Some c' -> gapTo fp c' m' ->
                    (m' <= m)%Z /\ (j < i -> (m' < m)%Z).
Proof.
  intros Hfp Hcands. unfold bestCandidate.
  assert (forall l pre acc,
            (pre = [] /\ acc = (None, Fin (-1)) \/
             exists i c m,
               acc = (Some i, Fin m) /\ pre !! i = Some c /\ gapTo fp c m /\
               forall j c' m', pre !! j = Some c' -> gapTo fp c' m' ->
                               (m' <= m)%Z /\ (j < i -> (m' < m)%Z)) ->
            exists acc',
              forEach (imap (fun i c => (length pre + i, c)) (Some <$> l))
                (fun (acc : option nat * dist) ic =>
                   m <- minDistanceToPalette (Some <$> fp) ic.2 ;;
                   ret (if dist_ltb acc.2 m then (Some ic.1, m) else acc))%js
                acc ds = Ok (acc', ds) /\
              (pre ++ l = [] /\ acc' = (None, Fin (-1)) \/
               exists i c m,
                 acc' = (Some i, Fin m) /\ (pre ++ l) !! i = Some c /\ gapTo fp c m /\
                 forall j c' m', (pre ++ l) !! j = Some c' -> gapTo fp c' m' ->
                                 (m' <= m)%Z /\ (j < i -> (m' < m)%Z))) as Hloop.
  { induction l as [|x l IH]; intros pre acc Hacc.
    - exists acc. split; [done|]. by rewrite app_nil_r.
    - cbn [fmap list_fmap]. rewrite imap_cons. cbn [forEach]. unfold bind at 1 2.
      cbn [fst snd].
      destruct (minDistanceToPalette_least fp x ds Hfp) as (mx & -> & Hmx).
      unfold ret at 1.
      replace (pre ++ x :: l) with ((pre ++ [x]) ++ l) by (by rewrite <-app_assoc).
      rewrite (imap_ext _ (fun i c => (length (pre ++ [x]) + i, c)))
        by (intros; rewrite length_app; cbn; f_equal; lia).
      rewrite Nat.add_0_r.
      assert (0 <= mx)%Z as Hmx0.
      { destruct Hmx as [(p & _ & ->) _]. unfold radicand.
        pose proof (Z.square_nonneg (chanR x - chanR p)).
        pose proof (Z.square_nonneg (chanG x - chanG p)).
        pose proof (Z.square_nonneg (chanB x - chanB p)). rewrite !Z.pow_2_r. lia. }
      apply IH. right.
      destruct Hacc as [[-> ->]|(i & c & m & -> & Hc & Hm & Hbest)]; cbn [snd dist_ltb].
      + rewrite (proj2 (Z.ltb_lt (-1) mx)) by lia.
        exists 0, x, mx. split; [done|]. split; [done|]. split; [done|].
        intros j c' m' Hj Hm'. destruct j as [|j]; [|done]. injection Hj as <-.
        rewrite (gapTo_unique _ _ _ _ Hm' Hmx). lia.
      + pose proof (lookup_lt_Some _ _ _ Hc) as Hi.
        destruct (Z.ltb_spec m mx) as [Hlt|Hge].
        * exists (length pre), x, mx. split; [done|].
          split; [by apply list_lookup_middle|]. split; [done|].
          intros j c' m' Hj Hm'. apply lookup_snoc_Some in Hj as [[Hj Hlk]|[-> <-]].
          -- destruct (Hbest j c' m' Hlk Hm'). lia.
          -- rewrite (gapTo_unique _ _ _ _ Hm' Hmx). lia.
        * exists i, c, m. split; [done|]. split; [by rewrite lookup_app_l|]. split; [done|].
          intros j c' m' Hj Hm'. apply lookup_snoc_Some in Hj as [[Hj Hlk]|[-> <-]].
          -- by apply (Hbest j c' m').
          -- rewrite (gapTo_unique _ _ _ _ Hm' Hmx). lia. }
  destruct (Hloop cands [] (None, Fin (-1)) ltac:(by left))
    as (acc' & Hrun & [[Hnil _]|(i & c & m & -> & Hc & Hm & Hbest)]); [done|].
  cbn [length Nat.add app] in Hrun. rewrite Hrun. by exists i, c, m.
Qed.

Lemma bestCandidate_farthest_witness :
  exists i c m,
    bestCandidate (Some <$> [(0, 0, 0)%Z]) (Some <$> greyRedPalette) []
    = Ok ((Some i, Fin m), []) /\
    greyRedPalette !! i = Some c /\ gapTo [(0, 0, 0)%Z] c m.
Proof.
  destruct (bestCandidate_farthest [(0, 0, 0)%Z] greyRedPalette [])
    as (i & c & m & H1 & H2 & H3 & _); [done..|].
  by exists i, c, m.
Defined.

(** ** Renderer: labels stay on their regions' boxes *)

Lemma coordinates_of_nat (w q : nat) :
  0 < w ->
  Z.rem (Z.of_nat q) (Z.of_nat w) = xOf w q /\ (Z.of_nat q `div` Z.of_nat w)%Z = yOf w q.
Proof.
  intros Hw. unfold xOf, yOf. split.
  - rewrite Z.rem_mod_nonneg by lia. by rewrite Nat2Z.inj_mod.
  - by rewrite Nat2Z.inj_div.
Qed.

(** X26.  Every label the renderer draws is the label of a region of the
    table as it is after the merge pass, one with at least [minRegionSize]
    pixels: its position is the one [findBestLabelPosition] gives for the
    pixels of that region, and its number is one more than the first palette
    index that holds the colour of that region.  The position lies in the
    bounding box of that region, and so on the canvas: its coordinates are
    within [0, width) and [0, height). *)
Theorem labels_inside_bounding_boxes
    (img : ImageData) (palette : list Pixel) (options : Options) (ds : list nat) :
  exists grown assigned merged numbers,
    growRegions img (colorThreshold options) = Some grown /\
    assignColors (Some <$> palette) grown ds = Ok (assigned, ds) /\
    mergeRegions img options assigned ds = Ok (merged, ds) /\
    outlineLabels (width img) (Some <$> palette) options merged ds = Ok (numbers, ds) /\
    forall number x y, (number, x, y) ∈ numbers ->
      exists id region,
        initialRegions merged !! id = Some region /\
        (minRegionSize options <= Z.of_nat (length (Region.pixels region)))%Z /\
        findBestLabelPosition (Z.of_nat <$> Region.pixels region) (Z.of_nat (width img))
        = Some (x, y) /\
        1 <= number /\
        (Some <$> palette) !! (number - 1) = Some (Region.color region) /\
        (forall j, j < number - 1 -> (Some <$> palette) !! j ≠ Some (Region.color region)) /\
        (Region.minX region <= x <= Region.maxX region)%Z /\
        (Region.minY region <= y <= Region.maxY region)%Z /\
        (0 <= x < Z.of_nat (width img))%Z /\ (0 <= y < Z.of_nat (height img))%Z.
Proof.
  destruct (growRegions_grown img (colorThreshold options)) as (grown & Hgrown & _ & Hscan).
  destruct (assignColors_mergeState palette _ grown ds Hscan)
    as (assigned & Hassigned & Hst & Hcolors).
  destruct (mergeLoop_mergeState palette img options _ (sortedRegionIds assigned)
              assigned ds Hst Hcolors) as (merged & Hmerged & Hst' & _).
  destruct (outlineLabels_returns (width img) (Some <$> palette) options merged ds)
    as (numbers & Hnumbers).
  exists grown, assigned, merged, numbers. do 4 (split; [done|]).
  pose proof (merged_boundingBoxes img options _ _ _ _ _ _ _ _ Hgrown Hassigned Hmerged)
    as Hboxes.
  destruct Hst' as (Hlen & Hown & _).
  revert Hnumbers. unfold outlineLabels.
  apply (forEach_inversion
           (fun numbers : list (nat * Z * Z) =>
              forall number x y, (number, x, y) ∈ numbers ->
                exists id region,
                  initialRegions merged !! id = Some region /\
                  (minRegionSize options <= Z.of_nat (length (Region.pixels region)))%Z /\
                  findBestLabelPosition (Z.of_nat <$> Region.pixels region)
                                        (Z.of_nat (width img)) = Some (x, y) /\
                  1 <= number /\
                  (Some <$> palette) !! (number - 1) = Some (Region.color region) /\
                  (forall j, j < number - 1 ->
                             (Some <$> palette) !! j ≠ Some (Region.color region)) /\
                  (Region.minX region <= x <= Region.maxX region)%Z /\
                  (Region.minY region <= y <= Region.maxY region)%Z /\
                  (0 <= x < Z.of_nat (width img))%Z /\ (0 <= y < Z.of_nat (height img))%Z));
    [|by intros ??? ?%elem_of_nil].
  intros id acc ds0 acc' ds0' _ Hacc.
  destruct (initialRegions merged !! id) as [region|] eqn:Hregion; [|by intros [= <- _]].
  destruct (Z.ltb_spec (Z.of_nat (length (Region.pixels region))) (minRegionSize options))
    as [Hsmall|Hsize]; [by intros [= <- _]|].
  destruct (Hboxes id region Hregion)
    as (Hne & Hin & (a & Ha & Hxa) & (b & Hb & Hxb) & (c & Hc & Hyc) & (e & He & Hye)).
  destruct (Hown id region Hregion) as (_ & _ & _ & Hpx).
  assert (forall q, q ∈ Region.pixels region -> q < width img * height img) as Hq.
  { intros q Hq%Hpx. apply lookup_lt_Some in Hq. lia. }
  assert (0 < width img) as Hw by (specialize (Hq a Ha); nia).
  assert (forall q, q ∈ Region.pixels region ->
                    (0 <= xOf (width img) q < Z.of_nat (width img))%Z /\
                    (0 <= yOf (width img) q < Z.of_nat (height img))%Z) as Hcanvas.
  { intros q Hq'. specialize (Hq q Hq'). unfold xOf, yOf.
    pose proof (Nat.mod_upper_bound q (width img) ltac:(lia)).
    assert (q `div` width img < height img) by (apply Nat.Div0.div_lt_upper_bound; lia).
    lia. }
  destruct (findBestLabelPosition_centroid (Z.of_nat <$> Region.pixels region)
              (Z.of_nat (width img)))
    as (lastPixels & Hlast & Hsub & Hposition).
  { by destruct (Region.pixels region). }
  unfold bind, fueled. rewrite Hposition.
  destruct (list_find _ _) as [[colorIndex c0]|] eqn:Hfind; [|by intros [= <- _]].
  intros [= <- _] number x y [Hold|Hnew%list_elem_of_singleton]%elem_of_app;
    [by apply (Hacc number)|].
  injection Hnew as -> -> ->. cbn [fst snd].
  apply list_find_Some in Hfind as (Hc0 & -> & Hfirst).
  assert (forall p, p ∈ lastPixels ->
            (Region.minX region <= Z.rem p (Z.of_nat (width img)) <= Region.maxX region)%Z /\
            (Region.minY region <= p `div` Z.of_nat (width img) <= Region.maxY region)%Z)
    as Hlast_box.
  { intros p Hp%Hsub. apply list_elem_of_fmap in Hp as (q & -> & Hq').
    destruct (coordinates_of_nat (width img) q Hw) as [-> ->]. by apply Hin. }
  assert (Region.minX region
          <= roundDiv (sumZ ((fun p => Z.rem p (Z.of_nat (width img))) <$> lastPixels))
                      (Z.of_nat (length lastPixels))
          <= Region.maxX region)%Z as Hx
    by (apply centroid_bounds; [done|]; intros p Hp; by apply Hlast_box).
  assert (Region.minY region
          <= roundDiv (sumZ ((fun p => p `div` Z.of_nat (width img))%Z <$> lastPixels))
                      (Z.of_nat (length lastPixels))
          <= Region.maxY region)%Z as Hy
    by (apply centroid_bounds; [done|]; intros p Hp; by apply Hlast_box).
  destruct (Hcanvas a Ha) as [? _]. destruct (Hcanvas b Hb) as [? _].
  destruct (Hcanvas c Hc) as [_ ?]. destruct (Hcanvas e He) as [_ ?].
  exists id, region. do 2 (split; [done|]). split; [by rewrite Hposition|].
  replace (colorIndex + 1 - 1) with colorIndex by lia.
  split; [lia|]. split; [done|]. split.
  - intros j Hj Hcj. by apply (Hfirst j _ Hcj).
  - split; [done|]. split; [done|]. split; lia.
Qed.

(** ** Renderer: the outline follows the colours *)

(** X27.  On a raster with at least one pixel and a nonempty palette of
    defined colours, wherever the outline draws no segment between a pixel
    and its right neighbour, or between a pixel and the pixel below, the two
    pixels carry the same four bytes in the colored raster: every change of
    colour is outlined. *)
Theorem colour_changes_are_outlined
    (img : ImageData) (palette : list Pixel) (options : Options) (ds : list nat) :
  0 < width img * height img -> palette ≠ [] ->
  exists result,
    generatePbnImage img (Some <$> palette) options ds = Ok (result, ds) /\
    forall x y c, x < width img -> y < height img -> c < 4 ->
      let i := y * width img + x in
      (x + 1 < width img -> (x + 1, y, x + 1, y + 1) ∉ edges (pbn result) ->
       data (colored result) !! (4 * (i + 1) + c) = data (colored result) !! (4 * i + c)) /\
      (y + 1 < height img -> (x, y + 1, x + 1, y + 1) ∉ edges (pbn result) ->
       data (colored result) !! (4 * (i + width img) + c)
       = data (colored result) !! (4 * i + c)).
Proof.
  intros Hpos Hpalette.
  destruct (growRegions_grown img (colorThreshold options)) as (grown & Hgrown & _ & Hscan).
  destruct (assignColors_mergeState palette _ grown ds Hscan)
    as (assigned & Hassigned & Hst & Hcolors).
  destruct (mergeLoop_mergeState palette img options _ (sortedRegionIds assigned)
              assigned ds Hst Hcolors) as (merged & Hmerged & Hst' & Hcolors').
  destruct (outlineLabels_returns (width img) (Some <$> palette) options merged ds)
    as (numbers & Hnumbers).
  destruct (colorRegions_painted palette (width img) (height img) merged ds
              Hpos Hst' Hcolors' Hpalette)
    as (coloredImageData & Hcolored & Hw & Hh & Hlen & Hdata).
  eexists. split.
  { unfold generatePbnImage, mergeRegions, bind, fueled.
    rewrite Hgrown, Hassigned, Hmerged, Hnumbers, Hcolored. reflexivity. }
  cbn [pbn colored edges].
  assert (forall i j c, i < width img * height img -> j < width img * height img -> c < 4 ->
            initialRegionMap merged !! j = initialRegionMap merged !! i ->
            data coloredImageData !! (4 * j + c) = data coloredImageData !! (4 * i + c))
    as Hsame.
  { intros i j c Hi Hj Hc Hmap.
    destruct (regionColorAt_defined palette _ merged i Hst' Hcolors' Hpalette Hi)
      as (id & region & col & _ & _ & _ & _ & _ & Hat).
    assert (regionColorAt merged j = Some col) as Hat'
      by (unfold regionColorAt in *; by rewrite Hmap).
    destruct (Hdata i col Hi Hat) as (Hr & Hg & Hb & Ha).
    destruct (Hdata j col Hj Hat') as (Hr' & Hg' & Hb' & Ha').
    rewrite <-(Nat.add_0_r (4 * i)) in Hr. rewrite <-(Nat.add_0_r (4 * j)) in Hr'.
    destruct c as [|[|[|[|?]]]]; [congruence..|lia]. }
  intros x y c Hx Hy Hc. set (i := y * width img + x). split.
  - intros Hx' Hedge. apply Hsame; [nia..|done|].
    destruct (decide (initialRegionMap merged !! (i + 1) = initialRegionMap merged !! i))
      as [|Hne]; [done|].
    exfalso. apply Hedge, elem_of_outlineEdges. exists x, y. do 2 (split; [done|]).
    unfold edgesAt. apply elem_of_app. left. rewrite decide_True by done. left.
  - intros Hy' Hedge. apply Hsame; [nia..|done|].
    destruct (decide (initialRegionMap merged !! (i + width img)
                      = initialRegionMap merged !! i)) as [|Hne]; [done|].
    exfalso. apply Hedge, elem_of_outlineEdges. exists x, y. do 2 (split; [done|]).
    unfold edgesAt. apply elem_of_app. right. rewrite decide_True by done. left.
Qed.

Lemma colour_changes_are_outlined_witness :
  exists result,
    generatePbnImage stripe9x1 (Some <$> greyRedPalette) stripeOptions [] = Ok (result, []) /\
    ((2 + 1, 0, 2 + 1, 0 + 1) ∉ edges (pbn result) ->
     data (colored result) !! (4 * (0 * 9 + 2 + 1) + 0)
     = data (colored result) !! (4 * (0 * 9 + 2) + 0)).
Proof.
  destruct (colour_changes_are_outlined stripe9x1 greyRedPalette stripeOptions [])
    as (result & Hrun & Hsame); [simpl; lia|done|].
  exists result. split; [exact Hrun|].
  destruct (Hsame 2 0 0 ltac:(simpl; lia) ltac:(simpl; lia) ltac:(lia)) as [Hright _].
  apply Hright. simpl. lia.
Defined.

(** ** RegionGrower: regions are as large as they can be *)

Lemma neighbor_of_adjacent (w p q : nat) :
  0 < w -> adjacent w p q ->
  Z.of_nat q ∈ gridNeighbors w p /\
  (q `mod` w = p `mod` w \/ q `div` w = p `div` w).
Proof.
  intros Hw Hadj.
  pose proof (Nat.div_mod_eq p w) as Hp. pose proof (Nat.div_mod_eq q w) as Hq.
  unfold gridNeighbors. rewrite !elem_of_cons.
  destruct Hadj as [[Hcol [Hrow|Hrow]]|[Hrow [Hcol|Hcol]]].
  - split; [|by left]. right. left. rewrite Hrow, Hcol in Hq. nia.
  - split; [|by left]. left. rewrite Hrow, <-Hcol in Hp. nia.
  - split; [|by right]. do 3 right. left. rewrite Hrow, Hcol in Hq. lia.
  - split; [|by right]. do 2 right. left. rewrite <-Hrow, Hcol in Hp. lia.
Qed.

Lemma visitNeighbor_claims (img : ImageData) (thr : Z) (start : option Pixel)
    (cur p : nat) (regionMap stack : list nat) (nb : Z) (regionMap' stack' : list nat) :
  cur ≠ 0 ->
  visitNeighbor img thr start cur p (regionMap, stack) nb = (regionMap', stack') ->
  (forall q, regionMap !! q ≠ Some 0 -> regionMap' !! q ≠ Some 0) /\
  ((0 <= nb)%Z -> Z.to_nat nb < length regionMap ->
   (Z.to_nat nb `mod` width img = p `mod` width img \/
    Z.to_nat nb `div` width img = p `div` width img) ->
   closerThan thr start (pixelColor (data img) (Z.to_nat nb)) = true ->
   regionMap' !! Z.to_nat nb ≠ Some 0).
Proof.
  intros Hcur. unfold visitNeighbor. cbv zeta.
  case_decide as Hin; [|intros [= <- <-]; split; [done|tauto]].
  case_decide as Hline; [|intros [= <- <-]; split; [done|tauto]].
  destruct (closerThan _ _ _) eqn:Hclose; [|intros [= <- <-]; split; [done|congruence]].
  intros [= <- <-]. split.
  - intros q Hq. rewrite list_lookup_insert. case_decide; congruence.
  - intros _ Hlt _ _. rewrite list_lookup_insert_eq by done. congruence.
Qed.

Lemma visitNeighbors_claims (img : ImageData) (thr : Z) (start : option Pixel)
    (cur p : nat) (nbs : list Z) :
  cur ≠ 0 ->
  forall regionMap stack regionMap' stack',
    foldl (visitNeighbor img thr start cur p) (regionMap, stack) nbs = (regionMap', stack') ->
    (forall q, regionMap !! q ≠ Some 0 -> regionMap' !! q ≠ Some 0) /\
    forall nb, nb ∈ nbs ->
      (0 <= nb)%Z -> Z.to_nat nb < length regionMap ->
      (Z.to_nat nb `mod` width img = p `mod` width img \/
       Z.to_nat nb `div` width img = p `div` width img) ->
      closerThan thr start (pixelColor (data img) (Z.to_nat nb)) = true ->
      regionMap' !! Z.to_nat nb ≠ Some 0.
Proof.
  intros Hcur. induction nbs as [|nb nbs IH]; intros regionMap stack regionMap' stack';
    cbn [foldl].
  - intros [= <- <-]. split; [done|]. by intros nb ?%elem_of_nil.
  - destruct (visitNeighbor img thr start cur p (regionMap, stack) nb)
      as [map1 stack1] eqn:Hvisit.
    pose proof (visitNeighbor_pushed _ _ _ _ _ _ _ _ _ _ Hvisit) as [Hlen1 _].
    apply visitNeighbor_claims in Hvisit as [Hmono1 Hclaim1]; [|done].
    intros Hrest. apply IH in Hrest as [Hmono Hclaim]. split; [by auto|].
    intros nb' [->|Hnb']%elem_of_cons Hpos Hlt Hline Hclose.
    + by apply Hmono, Hclaim1.
    + apply Hclaim; [done..|by rewrite Hlen1|done|done].
Qed.

Lemma growRegion_claims (img : ImageData) (thr : Z) (start : option Pixel) (fuel : nat) :
  forall regionMap region stack regionMap' region',
    Region.id region ≠ 0 ->
    (forall p q, p ∈ Region.pixels region ->
       Z.of_nat q ∈ gridNeighbors (width img) p -> q < length regionMap ->
       (q `mod` width img = p `mod` width img \/ q `div` width img = p `div` width img) ->
       closerThan thr start (pixelColor (data img) q) = true ->
       regionMap !! q ≠ Some 0) ->
    growRegion fuel img thr start regionMap region stack = Some (regionMap', region') ->
    length regionMap' = length regionMap /\
    forall p q, p ∈ Region.pixels region' ->
      Z.of_nat q ∈ gridNeighbors (width img) p -> q < length regionMap ->
      (q `mod` width img = p `mod` width img \/ q `div` width img = p `div` width img) ->
      closerThan thr start (pixelColor (data img) q) = true ->
      regionMap' !! q ≠ Some 0.
Proof.
  induction fuel as [|fuel IH]; intros regionMap region stack regionMap' region' Hid Hinv.
  - destruct stack; [by intros [= <- <-]|done].
  - destruct stack as [|p0 stack]; [by intros [= <- <-]|].
    cbn [growRegion]. cbv zeta.
    destruct (foldl _ (regionMap, stack) _) as [map1 stack1] eqn:Hvisit.
    pose proof (visitNeighbors_pushed _ _ _ _ _ _ _ _ _ _ Hvisit) as [Hlen1 _].
    apply visitNeighbors_claims in Hvisit as [Hmono Hclaim]; [|done].
    intros Hrest. apply IH in Hrest as [Hlen Hall]; [| by rewrite recordPixel_id |].
    + split; [congruence|]. intros p q Hp Hnb Hq. apply Hall; [done..|congruence].
    + intros p q Hp Hnb Hq Hline Hclose. rewrite Hlen1 in Hq.
      rewrite recordPixel_pixels in Hp.
      apply elem_of_app in Hp as [Hp| ->%list_elem_of_singleton].
      * by apply Hmono, (Hinv p q).
      * rewrite <-(Nat2Z.id q). apply Hclaim; rewrite ?Nat2Z.id; [done|lia|done..].
Qed.

Lemma growRegion_head (img : ImageData) (thr : Z) (start : option Pixel) (fuel i cur : nat)
    (regionMap regionMap' : list nat) (grown : Region.t) :
  growRegion fuel img thr start regionMap
             (Region.mk cur [] (Some 0%Z) (Some 0%Z) (Some 0%Z)
                        (Z.of_nat (width img)) (Z.of_nat (height img)) (-1) (-1) None)
             [i] = Some (regionMap', grown) ->
  Region.pixels grown !! 0 = Some i.
Proof.
  intros Hgrow.
  apply (growRegion_invariant img thr start (length regionMap)
           (fun region stack =>
              Region.pixels region = [] /\ stack = [i] \/
              Region.pixels region !! 0 = Some i)) in Hgrow.
  - by destruct Hgrow as [[_ ?]|?].
  - intros region p stack stack' [[Hnil [= -> ->]]|Hhead] _; right;
      rewrite recordPixel_pixels.
    + by rewrite Hnil.
    + rewrite lookup_app_l; [done|]. by apply lookup_lt_Some in Hhead.
  - done.
  - by left.
Qed.

(** X28.  The regions of the flood-fill pass are as large as they can be:
    when a pixel of the raster is the neighbour, in a column or in a row, of a
    pixel of a region and its colour is within the threshold of the colour of
    the seed of that region, it belongs to that region or to a region that
    was found earlier in the scan. *)
Theorem growRegions_maximal (img : ImageData) (thr : Z) :
  exists seg,
    growRegions img thr = Some seg /\
    forall id region seed p q,
      initialRegions seg !! id = Some region ->
      Region.pixels region !! 0 = Some seed ->
      p ∈ Region.pixels region -> q < width img * height img ->
      adjacent (width img) p q ->
      closerThan thr (pixelColor (data img) seed) (pixelColor (data img) q) = true ->
      exists id', initialRegionMap seg !! q = Some id' /\ 0 < id' <= id.
Proof.
  set (M := fun (regionMap : list nat) (id : nat) (region : Region.t) =>
         forall seed p q,
           Region.pixels region !! 0 = Some seed ->
           p ∈ Region.pixels region -> q < width img * height img ->
           adjacent (width img) p q ->
           closerThan thr (pixelColor (data img) seed) (pixelColor (data img) q) = true ->
           exists id', regionMap !! q = Some id' /\ 0 < id' <= id).
  assert (forall i, i <= width img * height img ->
            forall seg,
              foldl (fun seg i => seg ≫= fun seg => seedRegion img thr seg i)
                    (Some (mkSegmentation (replicate (width img * height img) 0) ∅ 1))
                    (seq 0 i) = Some seg ->
              forall id region, initialRegions seg !! id = Some region ->
                                M (initialRegionMap seg) id region) as Hprefix.
  { induction i as [|i IH]; intros Hi seg.
    { intros [= <-] id region. cbn. by rewrite lookup_empty. }
    rewrite seq_S, foldl_snoc. cbn [Nat.add].
    destruct (growRegions_scan img thr (width img * height img) i ltac:(lia))
      as (seg0 & Hrun & Hpos & Hst).
    specialize (IH ltac:(lia) seg0 Hrun). rewrite Hrun. cbn [mbind option_bind].
    destruct (seedRegion_scanState img thr _ i seg0 Hpos Hst ltac:(lia))
      as (seg1 & Hseed & _ & Hst1).
    rewrite Hseed. intros [= <-].
    destruct Hst as (Hlen & Hbelow & Hkeys & Hown & Hlive & Hdone).
    destruct Hst1 as (Hlen1 & Hbelow1 & _ & Hown1 & _ & _).
    unfold seedRegion in Hseed. case_decide as Hzero; [|injection Hseed as <-; exact IH].
    destruct (growRegion _ _ _ _ _ _ _) as [[regionMap' grown]|] eqn:Hgrow; [|done].
    cbn in Hseed. injection Hseed as <-. cbn [initialRegions initialRegionMap] in *.
    intros id region Hregion seed p q Hseed Hp Hq Hadj Hclose.
    destruct (decide (id = regionId seg0)) as [->|Hne].
    - rewrite lookup_insert_eq in Hregion. injection Hregion as <-.
      rewrite (growRegion_head _ _ _ _ _ _ _ _ _ Hgrow) in Hseed. injection Hseed as <-.
      apply growRegion_claims in Hgrow as [Hlen' Hclaims]; [|cbn; lia|by intros ?? ?%elem_of_nil].
      rewrite length_insert in Hlen', Hclaims.
      destruct (neighbor_of_adjacent (width img) p q ltac:(nia) Hadj) as [Hnb Hline].
      specialize (Hclaims p q Hp Hnb ltac:(lia) Hline Hclose).
      destruct (lookup_lt_is_Some_2 regionMap' q ltac:(lia)) as [v Hv].
      exists v. split; [done|]. specialize (Hbelow1 q v Hv). cbn in Hbelow1.
      assert (v ≠ 0) by congruence. lia.
    - rewrite lookup_insert_ne in Hregion by done.
      destruct (IH id region Hregion seed p q Hseed Hp Hq Hadj Hclose) as (v & Hv & Hrange).
      exists v. split; [|done].
      destruct (Hlive q v Hv ltac:(lia)) as [r Hr].
      destruct (Hown v r Hr) as (_ & _ & _ & Hpx).
      assert (v ≠ regionId seg0) as Hv' by (specialize (Hbelow q v Hv); lia).
      destruct (Hown1 v r) as (_ & _ & _ & Hpx1);
        [cbn [initialRegions]; by rewrite lookup_insert_ne|].
      cbn [initialRegionMap] in Hpx1. by apply Hpx1, Hpx. }
  destruct (growRegions_grown img thr) as (seg & Hrun & _).
  exists seg. split; [done|].
  intros id region seed p q Hregion. by apply (Hprefix _ (Nat.le_refl _) seg Hrun id region).
Qed.
